(** * permpy: a shallow embedding of [permpy/permutation.py]

    The [Permutation] class of permpy is a [tuple] subclass holding the
    integers [0 .. n-1]; its methods are embedded here as functions on
    [list Z].  Python exceptions are results of the [res] monad, Python
    list indexing keeps its meaning on negative and out-of-range indices,
    and the [while] loops run on fuel that is shown to suffice. *)

From stdpp Require Import base numbers list sorting gmap.

Open Scope Z_scope.

(** ** Python values, exceptions and list primitives *)

Module Py.

Inductive exn : Type :=
  | AssertionError
  | ValueError
  | IndexError
  | TypeError.

(** The outcome of a call: a value, a raised exception, or a loop that
    has used up its fuel (never the case, see the totality lemmas). *)
Inductive res (A : Type) : Type :=
  | Ok (a : A)
  | Raise (e : exn)
  | OutOfFuel.
Arguments Ok {A} a.
Arguments Raise {A} e.
Arguments OutOfFuel {A}.

#[global] Instance res_ret : MRet res := fun _ a => Ok a.
#[global] Instance res_bind : MBind res := fun _ _ f m =>
  match m with
  | Ok a => f a
  | Raise e => Raise e
  | OutOfFuel => OutOfFuel
  end.

Definition len {A} (l : list A) : Z := Z.of_nat (length l).

(** [range(a, b)] and [range(a, b, -1)]. *)
Definition range (a b : Z) : list Z := seqZ a (b - a).
Definition range_down (a b : Z) : list Z := reverse (seqZ (b + 1) (a - b)).

(** [l[i]]: a negative index counts from the end. *)
Definition getitem {A} (l : list A) (i : Z) : res A :=
  let j := if i <? 0 then i + len l else i in
  if j <? 0 then Raise IndexError
  else match l !! Z.to_nat j with
       | Some x => Ok x
       | None => Raise IndexError
       end.

(** [l[i] = v]. *)
Definition setitem {A} (l : list A) (i : Z) (v : A) : res (list A) :=
  let j := if i <? 0 then i + len l else i in
  if (j <? 0) || (len l <=? j) then Raise IndexError
  else Ok (<[Z.to_nat j := v]> l).

(** [del l[i]]. *)
Definition delitem {A} (l : list A) (i : Z) : res (list A) :=
  let j := if i <? 0 then i + len l else i in
  if (j <? 0) || (len l <=? j) then Raise IndexError
  else Ok (delete (Z.to_nat j) l).

(** Slice bounds are clamped, never an error. *)
Definition clamp (n i : Z) : Z :=
  let j := if i <? 0 then i + n else i in
  Z.max 0 (Z.min n j).

(** [l[a:b]] *)
Definition slice {A} (l : list A) (a b : Z) : list A :=
  let a' := clamp (len l) a in
  let b' := clamp (len l) b in
  take (Z.to_nat (b' - a')) (drop (Z.to_nat a') l).

(** [l[:b]] and [l[a:]] *)
Definition slice_to {A} (l : list A) (b : Z) : list A := slice l 0 b.
Definition slice_from {A} (l : list A) (a : Z) : list A := slice l a (len l).

(** [l.index(x)] *)
Fixpoint index (l : list Z) (x : Z) : res Z :=
  match l with
  | [] => Raise ValueError
  | y :: l' => if decide (y = x) then Ok 0 else i ← index l' x; Ok (i + 1)
  end.

(** [max(l)] and [min(l)] of a sequence; empty sequences raise. *)
Definition max (l : list Z) : res Z :=
  match l with
  | [] => Raise ValueError
  | x :: l' => Ok (foldl Z.max x l')
  end.

Definition min (l : list Z) : res Z :=
  match l with
  | [] => Raise ValueError
  | x :: l' => Ok (foldl Z.min x l')
  end.

(** [sorted(l)] on integers. *)
Definition sorted (l : list Z) : list Z := merge_sort Z.le l.

(** [len(set(l))] *)
Definition len_set (l : list Z) : Z := Z.of_nat (size (list_to_set l : gset Z)).

(** [assert b] *)
Definition assert (b : bool) : res unit :=
  if b then Ok tt else Raise AssertionError.

(** [for x in xs: s = body(x, s)] *)
Fixpoint for_each {A S} (xs : list A) (body : A → S → res S) (s : S) : res S :=
  match xs with
  | [] => Ok s
  | x :: xs' => s' ← body x s; for_each xs' body s'
  end.

(** A [for] loop whose body may [return]: [inr r] leaves the loop with [r]. *)
Fixpoint for_return {A S R} (xs : list A) (body : A → S → res (S + R)) (s : S)
  : res (S + R) :=
  match xs with
  | [] => Ok (inl s)
  | x :: xs' =>
      o ← body x s;
      match o with
      | inl s' => for_return xs' body s'
      | inr r => Ok (inr r)
      end
  end.

(** A [while] loop: [cond] is tested before every iteration, and the body
    may [return].  The fuel bounds the number of iterations. *)
Fixpoint while_return {S R} (fuel : nat) (cond : S → res bool)
    (body : S → res (S + R)) (s : S) : res (S + R) :=
  b ← cond s;
  if b : bool then
    match fuel with
    | O => OutOfFuel
    | Datatypes.S fuel' =>
        o ← body s;
        match o with
        | inl s' => while_return fuel' cond body s'
        | inr r => Ok (inr r)
        end
    end
  else Ok (inl s).

(** [itertools.combinations(l, k)], in the order itertools yields them. *)
Fixpoint combinations {A} (l : list A) (k : nat) : list (list A) :=
  match k with
  | O => [[]]
  | S k' =>
      match l with
      | [] => []
      | x :: l' => (cons x <$> combinations l' k') ++ combinations l' k
      end
  end.

(** The decimal digits of [str(k)] for [k >= 0], read back with [int]. *)
Fixpoint uint_digits (d : Decimal.uint) : list Z :=
  match d with
  | Decimal.Nil => []
  | Decimal.D0 d' => 0 :: uint_digits d'
  | Decimal.D1 d' => 1 :: uint_digits d'
  | Decimal.D2 d' => 2 :: uint_digits d'
  | Decimal.D3 d' => 3 :: uint_digits d'
  | Decimal.D4 d' => 4 :: uint_digits d'
  | Decimal.D5 d' => 5 :: uint_digits d'
  | Decimal.D6 d' => 6 :: uint_digits d'
  | Decimal.D7 d' => 7 :: uint_digits d'
  | Decimal.D8 d' => 8 :: uint_digits d'
  | Decimal.D9 d' => 9 :: uint_digits d'
  end.

End Py.

Import Py.

(** ** The [Permutation] class *)

Module Perm.

(** What [Permutation(p, n)] may be given for [p]. *)
Inductive arg : Type :=
  | OfPerm (p : list Z)     (* an instance of Permutation *)
  | OfSeq (l : list Z)      (* a list, tuple or range of integers *)
  | OfInt (k : Z).          (* an integer, read as its digits *)

(** [Permutation.standardize] *)
Definition standardize (L : list Z) : res (list Z) :=
  _ ← assert (bool_decide (len_set L = len L));
  let ordered := sorted L in
  mapM (fun x => index ordered x) L.

(** The [swap(i, j)] closure of [ind2perm] and [perm2ind]. *)
Definition swap (result : list Z) (i j : Z) : res (list Z) :=
  t ← getitem result i;
  rj ← getitem result j;
  result ← setitem result i rj;
  setitem result j t.

(** [Permutation(p)] on a list: the [_is_iterable] branch of [__new__]
    followed by the standardization; [len(p) > 0] cannot hold when
    [entries] is empty. *)
Definition of_seq (p : list Z) : res (list Z) :=
  let entries := p in
  _ ← (if decide (len entries = 0)
       then if decide (len p > 0) then Raise ValueError else Ok tt
       else Ok tt);
  standardize entries.

(** [Permutation.ind2perm] *)
Definition ind2perm (k n : Z) : res (list Z) :=
  let result := range 0 n in
  st ← for_each (range_down n 0)
         (fun i '(result, k) =>
            let j := k `mod` i in
            result ← swap result (i - 1) j;
            Ok (result, k `div` i))
         (result, k);
  of_seq st.1.

(** [Permutation.__new__] *)
Definition new (p : arg) (n : option Z) : res (list Z) :=
  match n with
  | Some n' =>
      if decide (n' = 0) then
        match p with
        | OfPerm p' => Ok p'
        | OfSeq l => of_seq l
        | OfInt k =>
            if decide (k < 0) then Raise ValueError   (* int('-') *)
            else of_seq (uint_digits (N.to_uint (Z.to_N k)))
        end
      else
        match p with
        | OfInt k => ind2perm k n'
        | _ => if decide (n' < 0) then of_seq []      (* no loop iteration *)
               else Raise TypeError                   (* p % i *)
        end
  | None =>
      match p with
      | OfPerm p' => Ok p'
      | OfSeq l => of_seq l
      | OfInt k =>
          if decide (k < 0) then Raise ValueError
          else of_seq (uint_digits (N.to_uint (Z.to_N k)))
      end
  end.

(** [Permutation.perm2ind] *)
Definition perm2ind (self : list Z) : res Z :=
  let q := self in
  let n := len self in
  st ← for_each (range_down (n - 1) 0)
         (fun i '(q, result, multiplier) =>
            qi ← getitem q i;
            let result := result + qi * multiplier in
            let multiplier := multiplier * (i + 1) in
            pos ← index q i;
            q ← swap q i pos;
            Ok (q, result, multiplier))
         (q, 0, 1);
  Ok st.1.2.

(** [Permutation.delete] *)
Definition delete (self : list Z) (idx : Z) : res (list Z) :=
  p ← delitem self idx;
  of_seq p.

(** [Permutation.insert] *)
Definition insert (self : list Z) (idx val : Z) : res (list Z) :=
  p ← for_each (range 0 (len self))
        (fun k p =>
           pk ← getitem p k;
           if decide (pk >= val) then setitem p k (pk + 1) else Ok p)
        self;
  let p := slice_to p idx ++ [val] ++ slice_from p idx in
  of_seq p.

(** [Permutation.__call__] *)
Definition call (self : list Z) (i : Z) : res Z := getitem self i.

(** [Permutation.__mul__] *)
Definition mul (self other : list Z) : res (list Z) :=
  _ ← assert (bool_decide (len self = len other));
  L ← for_each (range 0 (len other))
        (fun i L => Li ← getitem L i; v ← call self Li; setitem L i v)
        other;
  of_seq L.

(** The exponent handed to [__pow__]: an [int], or an object of another
    type (a float, a string, ...). *)
Inductive exponent : Type :=
  | ExpInt (z : Z)
  | ExpOther.

(** [Permutation.__pow__] *)
Definition pow (self : list Z) (power : exponent) : res (list Z) :=
  match power with
  | ExpOther => Raise ValueError
  | ExpInt power =>
      if decide (power >= 0) then
        if decide (power = 0) then of_seq (range 0 (len self))
        else for_each (range 0 (power - 1)) (fun _ ans => mul ans self) self
      else Raise ValueError
  end.

(** [Permutation.set_up_bounds] *)
Definition set_up_bounds (self : list Z) : res (list Z * list Z) :=
  let L := self in
  let n := len L in
  let upper_bound := replicate (Z.to_nat n) (-1) in
  let lower_bound := replicate (Z.to_nat n) (-1) in
  st ← for_each (range 0 n)
         (fun i '(upper_bound, lower_bound) =>
            let min_above := -1 in
            let max_below := -1 in
            st ← for_each (range (i + 1) (len self))
                   (fun j '(min_above, max_below, upper_bound, lower_bound) =>
                      Lj ← getitem L j;
                      Li ← getitem L i;
                      if decide (Lj < Li) then
                        if decide (Lj > max_below) then
                          lower_bound ← setitem lower_bound i j;
                          Ok (min_above, Lj, upper_bound, lower_bound)
                        else Ok (min_above, max_below, upper_bound, lower_bound)
                      else
                        if decide (Lj < min_above ∨ min_above = -1) then
                          upper_bound ← setitem upper_bound i j;
                          Ok (Lj, max_below, upper_bound, lower_bound)
                        else Ok (min_above, max_below, upper_bound, lower_bound))
                   (min_above, max_below, upper_bound, lower_bound);
            let '(_, _, upper_bound, lower_bound) := st in
            Ok (upper_bound, lower_bound))
         (upper_bound, lower_bound);
  let '(upper_bound, lower_bound) := st in
  Ok (lower_bound, upper_bound).

(** [Permutation.involvement_fits] *)
Definition involvement_fits (upper_bound lower_bound indices q : list Z)
    (next : Z) : res bool :=
  lb ← getitem lower_bound next;
  below ← (if decide (lb = -1) then Ok true
           else i ← getitem indices next; x ← getitem q i;
                k ← getitem indices lb; y ← getitem q k;
                Ok (bool_decide (x > y)));
  if below : bool then
    ub ← getitem upper_bound next;
    if decide (ub = -1) then Ok true
    else i ← getitem indices next; x ← getitem q i;
         k ← getitem indices ub; y ← getitem q k;
         Ok (bool_decide (x < y))
  else Ok false.

(** [Permutation.involvement_check_final] *)
Definition involvement_check_final (self upper_bound lower_bound indices q : list Z)
    (last_require : Z) : res bool :=
  o ← for_return (range 1 last_require)
        (fun i (_ : unit) =>
           b ← involvement_fits upper_bound lower_bound indices q (len self - i - 1);
           if b : bool then Ok (inl tt) else Ok (inr false))
        tt;
  match o with
  | inl _ => Ok true
  | inr r => Ok r
  end.

(** [Permutation.involvement_check].  [indices] is a list shared with the
    caller, so the list as the call leaves it is returned with the answer.
    [depth] bounds the nesting of the recursion. *)
Fixpoint involvement_check_rec (depth : nat)
    (upper_bound lower_bound indices q : list Z) (next : Z)
  : res (bool * list Z) :=
  if decide (next < 0) then Ok (true, indices)
  else
    match depth with
    | O => OutOfFuel
    | S depth' =>
        v ← getitem indices (next + 1);
        indices ← setitem indices next (v - 1);
        start ← getitem indices next;
        o ← while_return (Z.to_nat (start + 1))
              (fun indices => c ← getitem indices next; Ok (bool_decide (c >= 0)))
              (fun indices =>
                 fits ← involvement_fits upper_bound lower_bound indices q next;
                 r ← (if fits : bool
                      then involvement_check_rec depth' upper_bound lower_bound
                             indices q (next - 1)
                      else Ok (false, indices));
                 let '(found, indices) := r in
                 if found : bool then Ok (inr (true, indices))
                 else
                   c ← getitem indices next;
                   indices ← setitem indices next (c - 1);
                   Ok (inl indices))
              indices;
        match o with
        | inl indices => Ok (false, indices)
        | inr r => Ok r
        end
    end.

Definition involvement_check (upper_bound lower_bound indices q : list Z)
    (next : Z) : res (bool * list Z) :=
  involvement_check_rec (Z.to_nat (next + 1)) upper_bound lower_bound indices q next.

(** The instance attributes [bounds_set], [lower_bound] and [upper_bound]
    of a pattern: [None] until [involved_in] has filled them in. *)
Definition cache : Type := option (list Z * list Z).

(** [Permutation.involved_in]; returns the answer and the attributes of
    [self] after the call. *)
Definition involved_in (self : list Z) (bounds : cache) (P : arg)
    (last_require : Z) : res (bool * cache) :=
  P ← new P None;
  b ← match bounds with
      | Some b => Ok b
      | None => set_up_bounds self
      end;
  let '(lower_bound, upper_bound) := b in
  let bounds := Some b in
  let L := self in
  let n := len L in
  let p := len P in
  if decide (n <= 1 ∧ n <= p) then Ok (true, bounds)
  else
    let indices := replicate (Z.to_nat n) 0 in
    if decide (last_require = 0) then
      indices ← setitem indices (len self - 1) (p - 1);
      start ← getitem indices (len self - 1);
      o ← while_return (Z.to_nat (start + 1))
            (fun indices => c ← getitem indices (len self - 1);
                            Ok (bool_decide (c >= 0)))
            (fun indices =>
               r ← involvement_check upper_bound lower_bound indices P
                     (len self - 2);
               let '(found, indices) := r in
               if found : bool then Ok (inr true)
               else
                 c ← getitem indices (len self - 1);
                 indices ← setitem indices (len self - 1) (c - 1);
                 Ok (inl indices))
            indices;
      match o with
      | inl _ => Ok (false, bounds)
      | inr r => Ok (r, bounds)
      end
    else
      indices ← for_each (range 1 (last_require + 1))
                  (fun i indices => setitem indices (n - i) (p - i))
                  indices;
      ok ← involvement_check_final self upper_bound lower_bound indices P
             last_require;
      if ok : bool then
        r ← involvement_check upper_bound lower_bound indices P
              (len self - last_require - 1);
        Ok (r.1, bounds)
      else Ok (false, bounds).

(** How [avoids] and [involves] receive the pattern: a [Permutation]
    object with its attributes, or something to build one from. *)
Definition pattern_of (p : arg) (bounds : cache) : res (list Z * cache) :=
  match p with
  | OfPerm p' => Ok (p', bounds)
  | _ => p' ← new p None; Ok (p', None)
  end.

(** [Permutation.avoids] *)
Definition avoids (self : list Z) (p : arg) (bounds : cache) (lr : Z)
  : res bool :=
  pc ← pattern_of p bounds;
  r ← involved_in pc.1 pc.2 (OfPerm self) lr;
  Ok (negb r.1).

(** [Permutation.involves] *)
Definition involves (self : list Z) (p : arg) (bounds : cache) (lr : Z)
  : res bool :=
  pc ← pattern_of p bounds;
  r ← involved_in pc.1 pc.2 (OfPerm self) lr;
  Ok r.1.

(** [Permutation.occurrences] *)
Definition occurrences (self pattern : list Z) : res Z :=
  for_each (combinations self (length pattern))
    (fun subseq total =>
       s ← of_seq subseq;
       if decide (s = pattern) then Ok (total + 1) else Ok total)
    0.

(** [Permutation.maximal_interval] *)
Definition maximal_interval (self : list Z) : res (Z * Z) :=
  o ← for_return (reverse (range 2 (len self)))
        (fun i (_ : unit) =>
           for_return (range 0 (len self - i + 1))
             (fun j (_ : unit) =>
                hi ← max (slice self j (j + i));
                lo ← min (slice self j (j + i));
                if decide (hi - lo = i - 1) then Ok (inr (i, j))
                else Ok (inl tt))
             tt)
        tt;
  match o with
  | inl _ => Ok (0, 0)
  | inr r => Ok r
  end.

(** [Permutation.simple_location] *)
Definition simple_location (self : list Z) : res (Z * Z) :=
  let mins := self in
  let maxs := self in
  o ← for_return (range 1 (len self - 1))
        (fun i st =>
           for_return (reverse (range i (len self)))
             (fun j '(mins, maxs) =>
                m ← getitem mins (j - 1);
                x ← getitem self j;
                mins ← setitem mins j (Z.min m x);
                M ← getitem maxs (j - 1);
                x ← getitem self j;
                maxs ← setitem maxs j (Z.max M x);
                hi ← getitem maxs j;
                lo ← getitem mins j;
                if decide (hi - lo = i) then Ok (inr (i, j))
                else Ok (inl (mins, maxs)))
             st)
        (mins, maxs);
  match o with
  | inl _ => Ok (0, 0)
  | inr r => Ok r
  end.

(** [Permutation.is_simple] *)
Definition is_simple (self : list Z) : res bool :=
  ij ← simple_location self;
  Ok (bool_decide (ij.1 = 0)).

(** [Permutation.decomposition]; the [while] loop shortens [base] in every
    iteration, so [len(self)] iterations are enough fuel. *)
Definition decomposition (self : list Z) : res (list Z * list (list Z)) :=
  base ← new (OfPerm self) None;
  components ← mapM (fun _ => of_seq [1]) (range 0 (len base));
  o ← while_return (R := Empty_set) (length self)
        (fun '(base, components) => s ← is_simple base; Ok (negb s))
        (fun '(base, components) =>
           _ ← assert (bool_decide (len base = len (components : list (list Z))));
           ij ← maximal_interval base;
           let '(i, j) := ij in
           _ ← assert (bool_decide (i ≠ 0));
           let interval := slice base j (i + j) in
           let new_base := slice base 0 j in
           bj ← getitem base j;
           let new_base := new_base ++ [bj] in
           let new_base := new_base ++ slice base (i + j) (len base) in
           let new_components := slice components 0 j in
           c ← of_seq interval;
           let new_components := new_components ++ [c] in
           let new_components :=
             new_components ++ slice components (i + j) (len base) in
           base ← of_seq new_base;
           Ok (inl (base, new_components)))
        (base, components);
  match o with
  | inl r => Ok r
  | inr e => match e : Empty_set with end
  end.

(** An entry of the work list [NL] of [inflate]: still the integer copied
    from [self], or already the list put in its place. *)
Inductive cell : Type :=
  | CInt (z : Z)
  | CList (l : list Z).

(** [Permutation.inflate] *)
Definition inflate (self : list Z) (components : list (list Z)) : res (list Z) :=
  _ ← assert (bool_decide (len self = len components));
  let L := self in
  let NL := CInt <$> self in
  st ← for_each (range 0 (len self))
         (fun entry '(NL, current_entry) =>
            index ← Py.index L entry;
            c ← getitem components index;
            block ← mapM (fun i => x ← getitem c i; Ok (x + current_entry))
                      (range 0 (len c));
            NL ← setitem NL index (CList block);
            c ← getitem components index;
            Ok (NL, current_entry + len c))
         (NL, 0);
  NL_flat ← mapM (fun sl => match sl with
                            | CList l => Ok l
                            | CInt _ => Raise TypeError
                            end) st.1;
  of_seq (concat NL_flat).

End Perm.

(** ** Vocabulary of the statements *)

(** The number of entries of [L] below [x]. *)
Definition rank (L : list Z) (x : Z) : Z := len (filter (λ y, y < x) L).

(** A permutation in permpy's sense: the integers [0 .. n-1] in some
    order.  Stated on the sorted list, so that it can be computed. *)
Definition is_perm (p : list Z) : Prop := sorted p = range 0 (len p).

#[global] Instance is_perm_dec p : Decision (is_perm p).
Proof. unfold is_perm. apply _. Defined.

(** The test of [maximal_interval] on the window [self[j:j+i]]. *)
Definition window (self : list Z) (j i : Z) : Prop :=
  ∃ hi lo, max (slice self j (j + i)) = Ok hi
         ∧ min (slice self j (j + i)) = Ok lo
         ∧ hi - lo = i - 1.

(** The body of the inner loop of [maximal_interval]. *)
Definition window_test (self : list Z) (i j : Z) (_ : unit) : res (unit + Z * Z) :=
  hi ← max (slice self j (j + i));
  lo ← min (slice self j (j + i));
  if decide (hi - lo = i - 1) then Ok (inr (i, j)) else Ok (inl tt).

(** [arr[j]] holds [f] (the maximum, the minimum) of the [w + 1] entries of
    [self] that end at position [j]. *)
Definition tracks (self arr : list Z) (f : list Z → res Z) (w j : Z) : Prop :=
  ∃ v, arr !! Z.to_nat j = Some v ∧ f (slice self (j - w) (j + 1)) = Ok v.

(** The body of the inner loop of [simple_location]. *)
Definition location_step (self : list Z) (i j : Z) (st : list Z * list Z)
  : res (list Z * list Z + Z * Z) :=
  let '(mins, maxs) := st in
  m ← getitem mins (j - 1);
  x ← getitem self j;
  mins ← setitem mins j (Z.min m x);
  M ← getitem maxs (j - 1);
  x ← getitem self j;
  maxs ← setitem maxs j (Z.max M x);
  hi ← getitem maxs j;
  lo ← getitem mins j;
  if decide (hi - lo = i) then Ok (inr (i, j))
  else Ok (inl (mins, maxs)).

(** The state of the inner loop of [simple_location], for the window
    length [i + 1], once the positions [pre] (from [n-1] downwards) are
    done. *)
Definition row_inv (self : list Z) (i : Z) (pre : list Z) (st : list Z * list Z)
  : Prop :=
  let n := len self in
  let j0 := n - 1 - len pre in
  len st.1 = n ∧ len st.2 = n
  ∧ (∀ j, j0 < j < n →
       tracks self st.2 max i j ∧ tracks self st.1 min i j
       ∧ ¬ window self (j - i) (i + 1))
  ∧ (∀ j, i - 1 ≤ j ≤ j0 →
       tracks self st.2 max (i - 1) j ∧ tracks self st.1 min (i - 1) j).

(** What [simple_location] returns when it finds a window. *)
Definition found (self : list Z) (r : Z * Z) : Prop :=
  let n := len self in
  ∃ i j, r = (i, j) ∧ 1 ≤ i ≤ n - 2 ∧ i ≤ j < n ∧ window self (j - i) (i + 1).

(** The state of the outer loop of [simple_location] once the lengths
    [pre] are done. *)
Definition location_inv (self : list Z) (pre : list Z) (st : list Z * list Z) : Prop :=
  let n := len self in
  let i0 := 1 + len pre in
  len st.1 = n ∧ len st.2 = n
  ∧ (∀ j, i0 - 1 ≤ j < n →
       tracks self st.2 max (i0 - 1) j ∧ tracks self st.1 min (i0 - 1) j)
  ∧ (∀ i j, 1 ≤ i < i0 → i ≤ j < n → ¬ window self (j - i) (i + 1)).

(** What the loop of [insert] does to an entry: entries from [val] on
    move up by one. *)
Definition bump (val x : Z) : Z := if decide (x >= val) then x + 1 else x.

(** Writing [b] for the value [a]. *)
Definition relabel (a b v : Z) : Z := if decide (v = a) then b else v.

(** The body of the loop of [ind2perm]. *)
Definition ind2perm_step (i : Z) (st : list Z * Z) : res (list Z * Z) :=
  let '(result, k) := st in
  let j := k `mod` i in
  result ← Perm.swap result (i - 1) j;
  Ok (result, k `div` i).

(** The body of the loop of [perm2ind]. *)
Definition perm2ind_step (i : Z) (st : list Z * Z * Z) : res (list Z * Z * Z) :=
  let '(q, result, multiplier) := st in
  qi ← getitem q i;
  let result := result + qi * multiplier in
  let multiplier := multiplier * (i + 1) in
  pos ← index q i;
  q ← Perm.swap q i pos;
  Ok (q, result, multiplier).

(** [n!] as an integer. *)
Definition factorial (n : nat) : Z := Z.of_nat (fact n).

(** The list the loop of [ind2perm] leaves in [result]. *)
Definition ind2perm_list (n : nat) (k : Z) : list Z :=
  match for_each (range_down (Z.of_nat n) 0) ind2perm_step (range 0 (Z.of_nat n), k) with
  | Ok st => st.1
  | _ => []
  end.

(** The values of the window [p[j:j+i]] are the integers [lo .. lo+i-1]. *)
Definition block (p : list Z) (j i lo : Z) : Prop :=
  slice p j (j + i) ≡ₚ range lo (lo + i).

(** The total length of the components whose entry of [base] is below
    [b]: where the block of the entry [b] starts in the inflation. *)
Fixpoint offset (base : list Z) (comps : list (list Z)) (b : Z) : Z :=
  match base, comps with
  | v :: base', c :: comps' =>
      (if decide (v < b) then len c else 0) + offset base' comps' b
  | _, _ => 0
  end.

(** The inflation of [base] by [comps] as a list: every entry is replaced
    by its component, moved up to where its block starts. *)
Definition inflated (base : list Z) (comps : list (list Z)) : list Z :=
  concat (zip_with (λ v c, (λ x, x + offset base comps v) <$> c) base comps).

(** The work list [NL] of [inflate] once the entries below [e] are done. *)
Definition inflate_cells (base : list Z) (comps : list (list Z)) (e : Z) : list Perm.cell :=
  zip_with (λ v c, if decide (v < e)
                   then Perm.CList ((λ x, x + offset base comps v) <$> c)
                   else Perm.CInt v) base comps.

(** The body of the loop of [inflate]. *)
Definition inflate_step (L : list Z) (components : list (list Z)) (entry : Z)
    (st : list Perm.cell * Z) : res (list Perm.cell * Z) :=
  let '(NL, current_entry) := st in
  index ← Py.index L entry;
  c ← getitem components index;
  block ← mapM (fun i => x ← getitem c i; Ok (x + current_entry))
            (range 0 (len c));
  NL ← setitem NL index (Perm.CList block);
  c ← getitem components index;
  Ok (NL, current_entry + len c).

(** Reading a finished cell of [NL]. *)
Definition cell_list (sl : Perm.cell) : list Z :=
  match sl with
  | Perm.CList l => l
  | Perm.CInt _ => []
  end.

(** What contracting the values [lo .. lo+i-1] to the single value [lo]
    does to an entry. *)
Definition contract (lo i x : Z) : Z :=
  if decide (x < lo) then x
  else if decide (x < lo + i) then lo
  else x - (i - 1).

(** The test of the [while] loop of [decomposition]. *)
Definition decomposition_cond (st : list Z * list (list Z)) : res bool :=
  let '(base, components) := st in
  s ← Perm.is_simple base; Ok (negb s).

(** The body of the [while] loop of [decomposition]. *)
Definition decomposition_step (st : list Z * list (list Z))
  : res (list Z * list (list Z) + Empty_set) :=
  let '(base, components) := st in
  _ ← assert (bool_decide (len base = len (components : list (list Z))));
  ij ← Perm.maximal_interval base;
  let '(i, j) := ij in
  _ ← assert (bool_decide (i ≠ 0));
  let interval := slice base j (i + j) in
  let new_base := slice base 0 j in
  bj ← getitem base j;
  let new_base := new_base ++ [bj] in
  let new_base := new_base ++ slice base (i + j) (len base) in
  let new_components := slice components 0 j in
  c ← Perm.of_seq interval;
  let new_components := new_components ++ [c] in
  let new_components :=
    new_components ++ slice components (i + j) (len base) in
  base ← Perm.of_seq new_base;
  Ok (inl (base, new_components)).

(** In [base], every window that passes the interval test covers only
    entries whose component is still the singleton. *)
Definition singletons_in_intervals (base : list Z) (comps : list (list Z)) : Prop :=
  ∀ a l, 2 ≤ l ≤ len base - 1 → 0 ≤ a → a + l ≤ len base → window base a l →
    ∀ t : nat, a ≤ Z.of_nat t < a + l → comps !! t = Some [0].

(** The invariant of the [while] loop of [decomposition] on [self]. *)
Definition decomposition_inv (self : list Z) (st : list Z * list (list Z)) : Prop :=
  let '(base, comps) := st in
  is_perm base ∧ length comps = length base
  ∧ singletons_in_intervals base comps
  ∧ inflated base comps = self.

(** The entries of the host [P] at the positions [sol]. *)
Definition host_values (P : list Z) (sol : list Z) : list Z :=
  (λ x, P !!! Z.to_nat x) <$> sol.

(** Increasing positions of a host of length [p]. *)
Definition index_list (p : Z) (sol : list Z) : Prop :=
  StronglySorted Z.lt sol ∧ Forall (λ x, 0 ≤ x < p) sol.

(** [s] has the entries of [q] in the same relative order. *)
Definition order_iso (q s : list Z) : Prop :=
  length s = length q
  ∧ ∀ a b : nat, (a < length q)%nat → (b < length q)%nat →
      (q !!! a < q !!! b ↔ s !!! a < s !!! b).

(** [sol] is an occurrence of the pattern [q] in the host [P]: increasing
    positions of [P] whose entries are in the relative order of [q]. *)
Definition occurrence (q P sol : list Z) : Prop :=
  index_list (len P) sol ∧ order_iso q (host_values P sol).

(** The bound of position [k] among the positions [k+1 .. hi-1] of the
    pattern [q]: [b] is [-1] when no entry there is on the [lt] side of
    [q[k]] (below it for [Z.lt], above it for [Z.gt]); otherwise [b] is
    the position of the closest such entry.  [v] is the running value
    ([max_below], [min_above]) that [set_up_bounds] keeps with it. *)
Definition extreme_run (lt : Z → Z → Prop) (q : list Z) (k hi : nat) (b v : Z)
  : Prop :=
  (b = -1 ∧ v = -1 ∧ ∀ j : nat, (k < j < hi)%nat → ¬ lt (q !!! j) (q !!! k))
  ∨ (∃ m : nat, b = Z.of_nat m ∧ v = q !!! m ∧ (k < m < hi)%nat
       ∧ lt (q !!! m) (q !!! k)
       ∧ ∀ j : nat, (k < j < hi)%nat → lt (q !!! j) (q !!! k) →
                    ¬ lt (q !!! m) (q !!! j)).

(** The tables [set_up_bounds] returns for the pattern [q]. *)
Definition bounds_ok (q lb ub : list Z) : Prop :=
  length lb = length q ∧ length ub = length q
  ∧ ∀ k : nat, (k < length q)%nat →
      (∃ v, extreme_run Z.lt q k (length q) (lb !!! k) v)
      ∧ (∃ v, extreme_run Z.gt q k (length q) (ub !!! k) v).

(** The test of [involvement_fits] at position [k], on the host entries
    [s] chosen so far. *)
Definition fitsb (lb ub s : list Z) (k : nat) : bool :=
  (bool_decide (lb !!! k = -1)
   || bool_decide (s !!! k > s !!! Z.to_nat (lb !!! k)))
  && (bool_decide (ub !!! k = -1)
      || bool_decide (s !!! k < s !!! Z.to_nat (ub !!! k))).

(** The body of the inner loop of [set_up_bounds]. *)
Definition bounds_inner_step (L : list Z) (i j : Z)
    (st : Z * Z * list Z * list Z) : res (Z * Z * list Z * list Z) :=
  let '(min_above, max_below, upper_bound, lower_bound) := st in
  Lj ← getitem L j;
  Li ← getitem L i;
  if decide (Lj < Li) then
    if decide (Lj > max_below) then
      lower_bound ← setitem lower_bound i j;
      Ok (min_above, Lj, upper_bound, lower_bound)
    else Ok (min_above, max_below, upper_bound, lower_bound)
  else
    if decide (Lj < min_above ∨ min_above = -1) then
      upper_bound ← setitem upper_bound i j;
      Ok (Lj, max_below, upper_bound, lower_bound)
    else Ok (min_above, max_below, upper_bound, lower_bound).

(** The body of the outer loop of [set_up_bounds]. *)
Definition bounds_outer_step (L : list Z) (i : Z) (st : list Z * list Z)
  : res (list Z * list Z) :=
  let '(upper_bound, lower_bound) := st in
  st ← for_each (range (i + 1) (len L)) (bounds_inner_step L i)
         (-1, -1, upper_bound, lower_bound);
  let '(_, _, upper_bound, lower_bound) := st in
  Ok (upper_bound, lower_bound).

(** The state of the inner loop of [set_up_bounds] for the position [i],
    once the positions below [hi] are done.  [ub0] and [lb0] are the
    tables at the start of the loop. *)
Definition bounds_inner_inv (q : list Z) (i hi : nat) (ub0 lb0 : list Z)
    (st : Z * Z * list Z * list Z) : Prop :=
  let '(min_above, max_below, ub, lb) := st in
  length ub = length q ∧ length lb = length q
  ∧ extreme_run Z.lt q i hi (lb !!! i) max_below
  ∧ extreme_run Z.gt q i hi (ub !!! i) min_above
  ∧ ∀ k : nat, k ≠ i → lb !!! k = lb0 !!! k ∧ ub !!! k = ub0 !!! k.

(** The state of the outer loop of [set_up_bounds] once the positions
    below [i0] are done. *)
Definition bounds_outer_inv (q : list Z) (i0 : nat) (st : list Z * list Z) : Prop :=
  let '(ub, lb) := st in
  length ub = length q ∧ length lb = length q
  ∧ (∀ k : nat, (k < i0)%nat →
       (∃ v, extreme_run Z.lt q k (length q) (lb !!! k) v)
       ∧ (∃ v, extreme_run Z.gt q k (length q) (ub !!! k) v))
  ∧ (∀ k : nat, (i0 ≤ k < length q)%nat → lb !!! k = -1 ∧ ub !!! k = -1).

(** A way to fill the positions [0 .. next] of the work list [indices] of
    the search: [sol] keeps the positions after [next], and below them
    every position holds a host position before the following one that
    passes the test of [involvement_fits]. *)
Definition extension (lb ub P : list Z) (indices : list Z) (next : Z)
    (sol : list Z) : Prop :=
  length sol = length indices
  ∧ (∀ k : nat, next < Z.of_nat k → sol !!! k = indices !!! k)
  ∧ (∀ k : nat, Z.of_nat k ≤ next →
       0 ≤ sol !!! k < sol !!! (S k)
       ∧ fitsb lb ub (host_values P sol) k = true).

(** The test of the [while] loops of the search. *)
Definition check_cond (next : Z) (indices : list Z) : res bool :=
  c ← getitem indices next; Ok (bool_decide (c >= 0)).

(** The body of the [while] loop of [involvement_check]; [rec] is the
    recursive call, on the position before [next]. *)
Definition check_body (rec : list Z → res (bool * list Z))
    (upper_bound lower_bound q : list Z) (next : Z) (indices : list Z)
  : res (list Z + bool * list Z) :=
  fits ← Perm.involvement_fits upper_bound lower_bound indices q next;
  r ← (if fits : bool then rec indices else Ok (false, indices));
  let '(found, indices) := r in
  if found : bool then Ok (inr (true, indices))
  else
    c ← getitem indices next;
    indices ← setitem indices next (c - 1);
    Ok (inl indices).

(** The body of the [while] loop of [involved_in]. *)
Definition involved_body (upper_bound lower_bound P : list Z) (n : Z)
    (indices : list Z) : res (list Z + bool) :=
  r ← Perm.involvement_check upper_bound lower_bound indices P (n - 2);
  let '(found, indices) := r in
  if found : bool then Ok (inr true)
  else
    c ← getitem indices (n - 1);
    indices ← setitem indices (n - 1) (c - 1);
    Ok (inl indices).

(** The attributes a pattern can carry: none yet, or the tables that
    [involved_in] stored. *)
Definition cache_ok (q : list Z) (bounds : Perm.cache) : Prop :=
  bounds = None
  ∨ ∃ lb ub, bounds = Some (lb, ub) ∧ Perm.set_up_bounds q = Ok (lb, ub).

(** ** Further methods of [Permutation] *)

(** [math.factorial(n)] *)
Definition math_factorial (n : Z) : res Z :=
  if decide (n < 0) then Raise ValueError else Ok (factorial (Z.to_nat n)).

(** *** Constructors, symmetries and sums *)

Module PermOps.
Import Perm.

(** [Permutation.monotone_increasing] *)
Definition monotone_increasing (n : Z) : res (list Z) :=
  of_seq (range 0 n).

(** [Permutation.monotone_decreasing]; [range(n)[::-1]] is the range read
    backwards. *)
Definition monotone_decreasing (n : Z) : res (list Z) :=
  of_seq (reverse (range 0 n)).

(** [Permutation.listall] *)
Definition listall (n : Z) : res (list (list Z)) :=
  if decide (n = 0) then Ok []
  else
    f ← math_factorial n;
    for_each (range 0 f)
      (fun k L => p ← new (OfInt k) (Some n); Ok (L ++ [p]))
      [].

(** [Permutation.complement] *)
Definition complement (self : list Z) : res (list Z) :=
  let n := len self in
  let L := (λ i, n - 1 - i) <$> self in
  of_seq L.

(** [Permutation.reverse] *)
Definition reverse (self : list Z) : res (list Z) :=
  let q := list.reverse self in
  of_seq q.

(** [Permutation.inverse] *)
Definition inverse (self : list Z) : res (list Z) :=
  let p := self in
  let n := len self in
  let q := (λ _ : Z, 0) <$> range 0 n in
  q ← for_each (range 0 n)
        (fun i q => pi ← getitem p i; setitem q pi i)
        q;
  of_seq q.

(** [Permutation.sum] *)
Definition sum (self Q : list Z) : res (list Z) :=
  of_seq (self ++ ((λ i, i + len self) <$> Q)).

(** [Permutation.skew_sum] *)
Definition skew_sum (self Q : list Z) : res (list Z) :=
  of_seq (((λ i, i + len Q) <$> self) ++ Q).

(** [Permutation.is_involution]: equality of tuples. *)
Definition is_involution (self : list Z) : res bool :=
  q ← inverse self;
  Ok (bool_decide (self = q)).

(** [Permutation.__init__]: the attribute [insertion_locations] of a new
    object. *)
Definition init (self : list Z) : list Z :=
  replicate (Z.to_nat (len self + 1)) 1.

(** [Permutation.right_extensions]; [insertion_locations] is the attribute
    of [self]. *)
Definition right_extensions (self insertion_locations : list Z)
  : res (list (list Z)) :=
  let indices := if decide (len insertion_locations > 0)
                 then insertion_locations
                 else replicate (Z.to_nat (len self + 1)) 1 in
  R ← for_each (range 0 (len indices))
        (fun j R => x ← getitem indices j;
                    if decide (x = 1) then Ok (R ++ [j]) else Ok R)
        [];
  for_each R
    (fun i L =>
       A ← mapM (fun j => sj ← getitem self j;
                          sj' ← getitem self j;
                          Ok (sj + (if decide (sj' > i - 1) then 1 else 0)))
              (range 0 (len self));
       let A := A ++ [i] in
       p ← of_seq A;
       Ok (L ++ [p]))
    [].

End PermOps.

(** *** Statistics *)

Module PermStats.
Import Perm.

(** [Permutation.cycle_decomp]; every iteration of either [while] loop
    puts a new entry into a cycle, so [len(self)] iterations are enough
    fuel for each.  Neither loop has a [return]. *)
Definition cycle_decomp (self : list Z) : res (list (list Z)) :=
  let n := len self in
  let seen : gset Z := ∅ in
  let cyclelist : list (list Z) := [] in
  o ← while_return (S := gset Z * list (list Z)) (R := Empty_set) (length self)
        (fun '(seen, cyclelist) =>
           Ok (bool_decide (Z.of_nat (size seen) < n)))
        (fun '(seen, cyclelist) =>
           a ← max (elements ((list_to_set (range 0 n) : gset Z) ∖ seen));
           let cyc := [a] in
           b ← call self a;
           let seen := seen ∪ {[b]} in
           o ← while_return (S := list Z * Z * gset Z) (R := Empty_set)
                 (length self)
                 (fun '(cyc, b, seen) => Ok (bool_decide (b ≠ a)))
                 (fun '(cyc, b, seen) =>
                    let cyc := cyc ++ [b] in
                    b ← call self b;
                    let seen := seen ∪ {[b]} in
                    Ok (inl (cyc, b, seen)))
                 (cyc, b, seen);
           match o with
           | inl (cyc, _, seen) => Ok (inl (seen, cyclelist ++ [cyc]))
           | inr e => Ok (inr e)
           end)
        (seen, cyclelist);
  match o with
  | inl (_, cyclelist) => Ok (reverse cyclelist)
  | inr e => match e : Empty_set with end
  end.

(** [Permutation.num_disjoint_cycles] *)
Definition num_disjoint_cycles (self : list Z) : res Z :=
  l ← cycle_decomp self;
  Ok (len l).

(** [Permutation.fixed_points] *)
Definition fixed_points (self : list Z) : res Z :=
  for_each (range 0 (len self))
    (fun i sum => v ← call self i;
                  if decide (v = i) then Ok (sum + 1) else Ok sum)
    0.

(** [Permutation.skew_decomposable] *)
Definition skew_decomposable (self : list Z) : res bool :=
  let p := self in
  let n := len self in
  o ← for_return (range 1 n)
        (fun i (_ : unit) =>
           if decide ((list_to_set (range (n - i) n) : gset Z)
                      = list_to_set (slice p 0 i))
           then Ok (inr true) else Ok (inl tt))
        tt;
  match o with
  | inl _ => Ok false
  | inr r => Ok r
  end.

(** [Permutation.sum_decomposable] *)
Definition sum_decomposable (self : list Z) : res bool :=
  let p := self in
  let n := len self in
  o ← for_return (range 1 n)
        (fun i (_ : unit) =>
           if decide ((list_to_set (range 0 i) : gset Z)
                      = list_to_set (slice p 0 i))
           then Ok (inr true) else Ok (inl tt))
        tt;
  match o with
  | inl _ => Ok false
  | inr r => Ok r
  end.

(** [Permutation.descents] *)
Definition descents (self : list Z) : res Z :=
  let p := self in
  let n := len self in
  for_each (range 1 n)
    (fun i numd => a ← getitem p (i - 1);
                   b ← getitem p i;
                   if decide (a > b) then Ok (numd + 1) else Ok numd)
    0.

(** [Permutation.ascents] *)
Definition ascents (self : list Z) : res Z :=
  d ← descents self;
  Ok (len self - 1 - d).

(** [Permutation.ltrmin] *)
Definition ltrmin (self : list Z) : res (list Z) :=
  let n := len self in
  for_each (range 0 n)
    (fun i L =>
       flag ← for_each (range 0 i)
                (fun j flag => a ← getitem self i;
                               b ← getitem self j;
                               if decide (a > b) then Ok false else Ok flag)
                true;
       if flag : bool then Ok (L ++ [i]) else Ok L)
    [].

(** [Permutation.rtlmin] *)
Definition rtlmin (self : list Z) : res (list Z) :=
  rev_perm ← PermOps.reverse self;
  l ← ltrmin rev_perm;
  Ok ((λ val, len self - val - 1) <$> (l : list Z)).

(** [Permutation.rtlmax] *)
Definition rtlmax (self : list Z) : res (list Z) :=
  c ← PermOps.complement self;
  r ← PermOps.reverse c;
  l ← ltrmin r;
  Ok (reverse ((λ i, len self - i - 1) <$> (l : list Z))).

(** [Permutation.ltrmax]; [self[::-1]] is a plain tuple, from which
    [Permutation] builds the reverse. *)
Definition ltrmax (self : list Z) : res (list Z) :=
  r ← of_seq (reverse self);
  l ← rtlmax r;
  Ok (reverse ((λ i, len self - i - 1) <$> (l : list Z))).

(** [Permutation.numltrmin] *)
Definition numltrmin (self : list Z) : res Z :=
  let p := self in
  let n := len self in
  let num := 1 in
  m ← getitem p 0;
  st ← for_each (range 1 n)
         (fun i '(num, m) =>
            a ← getitem p i;
            if decide (a < m) then
              let num := num + 1 in
              m ← getitem p i;
              Ok (num, m)
            else Ok (num, m))
         (num, m);
  Ok st.1.

(** [Permutation.inversions] *)
Definition inversions (self : list Z) : res Z :=
  let p := self in
  let n := len self in
  for_each (range 0 n)
    (fun i inv =>
       for_each (range (i + 1) n)
         (fun j inv => a ← getitem p i;
                       b ← getitem p j;
                       if decide (a > b) then Ok (inv + 1) else Ok inv)
         inv)
    0.

(** [Permutation.noninversions] *)
Definition noninversions (self : list Z) : res Z :=
  let p := self in
  let n := len self in
  for_each (range 0 n)
    (fun i inv =>
       for_each (range (i + 1) n)
         (fun j inv => a ← getitem p i;
                       b ← getitem p j;
                       if decide (a < b) then Ok (inv + 1) else Ok inv)
         inv)
    0.

(** [Permutation.bonds] *)
Definition bonds (self : list Z) : res Z :=
  let p := self in
  for_each (range 1 (len p))
    (fun i numbonds =>
       a ← getitem p i;
       b ← getitem p (i - 1);
       if decide (a - b = 1) then Ok (numbonds + 1)
       else
         a ← getitem p i;
         b ← getitem p (i - 1);
         if decide (a - b = -1) then Ok (numbonds + 1) else Ok numbonds)
    0.

(** [Permutation.rank_val] *)
Definition rank_val (self : list Z) (i : Z) : res Z :=
  l ← for_each (range (i + 1) (len self))
        (fun j l => a ← getitem self j;
                    b ← getitem self i;
                    if decide (a < b) then Ok (l ++ [j]) else Ok l)
        [];
  Ok (len l).

(** [Permutation.rank_encoding] *)
Definition rank_encoding (self : list Z) : res (list Z) :=
  mapM (rank_val self) (range 0 (len self)).

(** [Permutation.num_inc_bonds] *)
Definition num_inc_bonds (self : list Z) : res Z :=
  l ← for_each (range 0 (len self - 1))
        (fun i l => a ← getitem self (i + 1);
                    b ← getitem self i;
                    if decide (a = b + 1) then Ok (l ++ [i]) else Ok l)
        [];
  Ok (len l).

(** [Permutation.num_dec_bonds] *)
Definition num_dec_bonds (self : list Z) : res Z :=
  l ← for_each (range 0 (len self - 1))
        (fun i l => a ← getitem self (i + 1);
                    b ← getitem self i;
                    if decide (a = b - 1) then Ok (l ++ [i]) else Ok l)
        [];
  Ok (len l).

(** [Permutation.num_bonds] *)
Definition num_bonds (self : list Z) : res Z :=
  l ← for_each (range 0 (len self - 1))
        (fun i l =>
           a ← getitem self (i + 1);
           b ← getitem self i;
           if decide (a = b + 1) then Ok (l ++ [i])
           else
             a ← getitem self (i + 1);
             b ← getitem self i;
             if decide (a = b - 1) then Ok (l ++ [i]) else Ok l)
        [];
  Ok (len l).

(** [Permutation.contract_inc_bonds]; every iteration of the [while] loop
    deletes an entry, so [len(self)] iterations are enough fuel. *)
Definition contract_inc_bonds (self : list Z) : res (list Z) :=
  P ← new (OfPerm self) None;
  o ← while_return (R := Empty_set) (length self)
        (fun P => k ← num_inc_bonds P; Ok (bool_decide (k > 0)))
        (fun P =>
           o ← for_return (range 0 (len P - 1))
                 (fun i P =>
                    a ← getitem P (i + 1);
                    b ← getitem P i;
                    if decide (a = b + 1) then
                      P ← of_seq (slice_to P i ++ slice_from P (i + 1));
                      Ok (inr P)                      (* break *)
                    else Ok (inl P))
                 P;
           match o with
           | inl P => Ok (inl P)
           | inr P => Ok (inl P)
           end)
        P;
  match o with
  | inl P => Ok P
  | inr e => match e : Empty_set with end
  end.

(** [Permutation.contract_dec_bonds] *)
Definition contract_dec_bonds (self : list Z) : res (list Z) :=
  P ← new (OfPerm self) None;
  o ← while_return (R := Empty_set) (length self)
        (fun P => k ← num_dec_bonds P; Ok (bool_decide (k > 0)))
        (fun P =>
           o ← for_return (range 0 (len P - 1))
                 (fun i P =>
                    a ← getitem P (i + 1);
                    b ← getitem P i;
                    if decide (a = b - 1) then
                      P ← of_seq (slice_to P i ++ slice_from P (i + 1));
                      Ok (inr P)
                    else Ok (inl P))
                 P;
           match o with
           | inl P => Ok (inl P)
           | inr P => Ok (inl P)
           end)
        P;
  match o with
  | inl P => Ok P
  | inr e => match e : Empty_set with end
  end.

(** [Permutation.contract_bonds] *)
Definition contract_bonds (self : list Z) : res (list Z) :=
  P ← new (OfPerm self) None;
  o ← while_return (R := Empty_set) (length self)
        (fun P => k ← num_bonds P; Ok (bool_decide (k > 0)))
        (fun P =>
           o ← for_return (range 0 (len P - 1))
                 (fun i P =>
                    a ← getitem P (i + 1);
                    b ← getitem P i;
                    if decide (a = b + 1) then
                      P ← of_seq (slice_to P i ++ slice_from P (i + 1));
                      Ok (inr P)
                    else
                      a ← getitem P (i + 1);
                      b ← getitem P i;
                      if decide (a = b - 1) then
                        P ← of_seq (slice_to P i ++ slice_from P (i + 1));
                        Ok (inr P)
                      else Ok (inl P))
                 P;
           match o with
           | inl P => Ok (inl P)
           | inr P => Ok (inl P)
           end)
        P;
  match o with
  | inl P => Ok P
  | inr e => match e : Empty_set with end
  end.

(** [Permutation.rtlmax_ltrmin_decomposition]; every iteration of the
    [while] loop takes at least one entry away, so [len(self)] iterations
    are enough fuel. *)
Definition rtlmax_ltrmin_decomposition (self : list Z) : res (list (list Z)) :=
  P ← new (OfPerm self) None;
  let num_layers := 0 in
  let layers : list (list Z) := [] in
  o ← while_return (R := Empty_set) (length self)
        (fun '(P, num_layers, layers) => Ok (bool_decide (len (P : list Z) > 0)))
        (fun '(P, num_layers, layers) =>
           let num_layers := num_layers + 1 in
           a ← rtlmax P;
           b ← ltrmin P;
           let positions :=
             sorted (elements (list_to_set ((a : list Z) ++ b) : gset Z)) in
           let layers := layers ++ [positions] in
           L ← for_each (range 0 (len P))
                 (fun i L =>
                    if decide (i ∉ positions) then v ← getitem P i; Ok (L ++ [v])
                    else Ok L)
                 [];
           P ← of_seq L;
           Ok (inl (P, num_layers, layers)))
        (P, num_layers, layers);
  match o with
  | inl (_, _, layers) => Ok layers
  | inr e => match e : Empty_set with end
  end.

(** [Permutation.num_rtlmax_ltrmin_layers] *)
Definition num_rtlmax_ltrmin_layers (self : list Z) : res Z :=
  l ← rtlmax_ltrmin_decomposition self;
  Ok (len l).

End PermStats.

(** *** Patterns and intervals *)

Module PermPatterns.
Import Perm.

(** [Permutation.avoids_set]; an element of [B] comes with its
    attributes, as the pattern of [avoids] does. *)
Definition avoids_set (self : list Z) (B : list (arg * cache)) : res bool :=
  o ← for_return B
        (fun '(p, bounds) (_ : unit) =>
           pc ← pattern_of p bounds;
           r ← involved_in pc.1 pc.2 (OfPerm self) 0;
           if (r : bool * cache).1 then Ok (inr false) else Ok (inl tt))
        tt;
  match o with
  | inl _ => Ok true
  | inr r => Ok r
  end.

(** [Permutation.all_intervals] *)
Definition all_intervals (self : list Z) (return_patterns : bool)
  : res (list (list Z)) :=
  let blocks : list (list Z) := [[]; []] in
  blocks ← for_each (range 2 (len self))
             (fun i blocks =>
                let blocks := blocks ++ [[]] in
                for_each (range 0 (len self - i + 1))
                  (fun j blocks =>
                     hi ← max (slice self j (j + i));
                     lo ← min (slice self j (j + i));
                     if decide (hi - lo = i - 1) then
                       bi ← getitem blocks i;
                       setitem blocks i (bi ++ [j])
                     else Ok blocks)
                  blocks)
             blocks;
  if return_patterns then
    for_each (range 0 (len blocks))
      (fun length patterns =>
         bl ← getitem blocks length;
         for_each bl
           (fun start_index patterns =>
              p ← of_seq (slice self start_index (start_index + length));
              Ok (patterns ++ [p]))
           patterns)
      []
  else Ok blocks.

(** [Permutation.contains_locations]; [Q] is a permutation. *)
Definition contains_locations (self Q : list Z) : res (list (list Z)) :=
  let sublocs := combinations (range 0 (len self)) (length Q) in
  for_each sublocs
    (fun subloc locs =>
       vals ← mapM (fun i => getitem self i) subloc;
       p ← of_seq vals;
       if decide (p = Q) then Ok (locs ++ [subloc]) else Ok locs)
    [].

End PermPatterns.

(** *** Vocabulary of the further statements *)

(** Every entry of [l] but the last is mapped by [p] to the next one. *)
Definition chain (p l : list Z) : Prop :=
  ∀ i : nat, (S i < length l)%nat → p !!! Z.to_nat (l !!! i) = l !!! S i.

(** [c] is a cycle of [p] written from its largest entry: [p] maps every
    entry to the next one and the last entry to the first. *)
Definition is_cycle (p c : list Z) : Prop :=
  ∃ a rest, c = a :: rest ∧ chain p (c ++ [a]) ∧ Forall (λ x, x ≤ a) c.

(** The sum of a list of integers. *)
Definition sumZ (l : list Z) : Z := foldr Z.add 0 l.

(** [g] applied to every entry of a list together with the entries after
    it. *)
Fixpoint tails_map {B} (g : Z → list Z → B) (l : list Z) : list B :=
  match l with
  | [] => []
  | x :: l' => g x l' :: tails_map g l'
  end.

(** The number of pairs of positions [i < j] with [R l[i] l[j]]. *)
Definition pair_count (R : Z → Z → Prop) `{∀ x y, Decision (R x y)}
    (l : list Z) : Z :=
  sumZ (tails_map (λ x l', len (filter (R x) l')) l).

(** For every entry, the number of smaller entries after it. *)
Definition lehmer (l : list Z) : list Z := tails_map (λ x l', rank l' x) l.

(** The composition of two one-line notations: [i] goes to [a[b[i]]]. *)
Definition comp (a b : list Z) : list Z := (λ x, a !!! Z.to_nat x) <$> b.

(** [q] undoes [p]. *)
Definition inverse_of (p q : list Z) : Prop :=
  length q = length p ∧ ∀ i : nat, (i < length p)%nat → q !!! Z.to_nat (p !!! i) = Z.of_nat i.

(** [p] composed with itself [k] times. *)
Fixpoint power (p : list Z) (k : nat) : list Z :=
  match k with
  | O => range 0 (len p)
  | S k' => comp (power p k') p
  end.

(** The number of adjacent pairs [x, y] of a list with [R x y]. *)
Fixpoint adj_count (R : Z → Z → Prop) `{∀ x y, Decision (R x y)}
    (l : list Z) : Z :=
  match l with
  | x :: l' =>
      match l' with
      | y :: _ => (if decide (R x y) then 1 else 0) + adj_count R l'
      | [] => 0
      end
  | [] => 0
  end.

(** None of the entries before position [i] of [p] is below the entry at
    position [i]: the test of [ltrmin]. *)
Definition ltr_min (p : list Z) (i : Z) : Prop :=
  Forall (λ y, ¬ p !!! Z.to_nat i > y) (take (Z.to_nat i) p).

#[global] Instance ltr_min_dec p i : Decision (ltr_min p i).
Proof. unfold ltr_min. apply _. Defined.
#[global] Typeclasses Opaque ltr_min.

(** The test of [all_intervals] on the window [self[j:j+i]], as a
    boolean. *)
Definition is_window (self : list Z) (i j : Z) : bool :=
  match max (slice self j (j + i)), min (slice self j (j + i)) with
  | Ok hi, Ok lo => bool_decide (hi - lo = i - 1)
  | _, _ => false
  end.

(** The row of [all_intervals] for the windows of length [i]. *)
Definition interval_row (self : list Z) (i : Z) : list Z :=
  filter (λ j, is_window self i j = true) (range 0 (len self - i + 1)).

(** Two entries next to each other that differ by one. *)
Definition inc_bond (x y : Z) : Prop := y = x + 1.
Definition dec_bond (x y : Z) : Prop := y = x - 1.
Definition bond (x y : Z) : Prop := inc_bond x y ∨ dec_bond x y.

#[global] Instance inc_bond_dec x y : Decision (inc_bond x y).
Proof. unfold inc_bond. apply _. Defined.
#[global] Instance dec_bond_dec x y : Decision (dec_bond x y).
Proof. unfold dec_bond. apply _. Defined.
#[global] Instance bond_dec x y : Decision (bond x y).
Proof. unfold bond. apply _. Defined.
#[global] Typeclasses Opaque inc_bond dec_bond bond.

(** * Properties of the embedding *)

(** ** The Python primitives *)

Section PyFacts.
Context {A : Type}.
Implicit Types (l : list A) (i : Z).

Lemma len_nonneg l : 0 ≤ len l.
Proof. unfold len. lia. Qed.

Lemma len_app l k : len (l ++ k) = len l + len k.
Proof. unfold len. rewrite length_app. lia. Qed.

Lemma getitem_lookup l i x :
  0 ≤ i → l !! Z.to_nat i = Some x → getitem l i = Ok x.
Proof.
  intros Hi Hx. unfold getitem.
  destruct (Z.ltb_spec i 0); [lia|].
  destruct (Z.ltb_spec i 0); [lia|]. now rewrite Hx.
Qed.

Lemma getitem_nat l (k : nat) x : l !! k = Some x → getitem l (Z.of_nat k) = Ok x.
Proof. intros. apply getitem_lookup; [lia|]. now rewrite Nat2Z.id. Qed.

Lemma getitem_Ok_inv l i x :
  0 ≤ i → getitem l i = Ok x → l !! Z.to_nat i = Some x.
Proof.
  intros Hi. unfold getitem.
  destruct (Z.ltb_spec i 0); [lia|].
  destruct (Z.ltb_spec i 0); [lia|].
  destruct (l !! Z.to_nat i); congruence.
Qed.

Lemma getitem_is_Ok l i : 0 ≤ i < len l → ∃ x, getitem l i = Ok x ∧ l !! Z.to_nat i = Some x.
Proof.
  intros Hi. destruct (lookup_lt_is_Some_2 l (Z.to_nat i)) as [x Hx].
  { unfold len in Hi. lia. }
  exists x. split; [apply getitem_lookup; [lia|done]|done].
Qed.

Lemma getitem_out_of_range l i :
  len l ≤ i ∨ i < - len l → getitem l i = Raise IndexError.
Proof.
  intros Hi. unfold getitem. pose proof (len_nonneg l).
  destruct (Z.ltb_spec i 0).
  - destruct (Z.ltb_spec (i + len l) 0); [done|lia].
  - destruct (Z.ltb_spec i 0); [lia|].
    rewrite lookup_ge_None_2; [done|]. unfold len in *. lia.
Qed.

Lemma setitem_Ok l i v :
  0 ≤ i < len l → setitem l i v = Ok (<[Z.to_nat i := v]> l).
Proof.
  intros Hi. unfold setitem.
  destruct (Z.ltb_spec i 0); [lia|].
  destruct (Z.ltb_spec i 0); [lia|].
  destruct (Z.leb_spec (len l) i); [lia|]. done.
Qed.

Lemma delitem_Ok l i :
  0 ≤ i < len l → delitem l i = Ok (delete (Z.to_nat i) l).
Proof.
  intros Hi. unfold delitem.
  destruct (Z.ltb_spec i 0); [lia|].
  destruct (Z.ltb_spec i 0); [lia|].
  destruct (Z.leb_spec (len l) i); [lia|]. done.
Qed.

Lemma delitem_out_of_range l i :
  len l ≤ i ∨ i < - len l → delitem l i = Raise IndexError.
Proof.
  intros Hi. unfold delitem. pose proof (len_nonneg l).
  destruct (Z.ltb_spec i 0).
  - destruct (Z.ltb_spec (i + len l) 0); [done|lia].
  - destruct (Z.ltb_spec i 0); [lia|].
    destruct (Z.leb_spec (len l) i); [done|lia].
Qed.

Lemma len_insert l (k : nat) v : len (<[k := v]> l) = len l.
Proof. unfold len. now rewrite length_insert. Qed.

(** Slices with both bounds inside the list. *)
Lemma slice_take_drop l a b :
  0 ≤ a ≤ b → b ≤ len l →
  slice l a b = take (Z.to_nat (b - a)) (drop (Z.to_nat a) l).
Proof.
  intros Ha Hb. unfold slice, clamp.
  destruct (Z.ltb_spec a 0); [lia|]. destruct (Z.ltb_spec b 0); [lia|].
  rewrite !Z.max_r, !Z.min_r by lia. done.
Qed.

Lemma slice_prefix l b : 0 ≤ b ≤ len l → slice l 0 b = take (Z.to_nat b) l.
Proof.
  intros Hb. rewrite slice_take_drop by lia.
  rewrite Z.sub_0_r. done.
Qed.

Lemma slice_suffix l a : 0 ≤ a ≤ len l → slice l a (len l) = drop (Z.to_nat a) l.
Proof.
  intros Ha. rewrite slice_take_drop by lia.
  apply take_ge. rewrite length_drop. unfold len. lia.
Qed.

Lemma len_slice l a b : 0 ≤ a ≤ b → b ≤ len l → len (slice l a b) = b - a.
Proof.
  intros Ha Hb. rewrite slice_take_drop by lia.
  unfold len in *. rewrite length_take, length_drop. lia.
Qed.

(** Whatever the bounds, the two halves [l[:i]] and [l[i:]] make up [l]. *)
Lemma slice_to_from l i : slice_to l i ++ slice_from l i = l.
Proof.
  unfold slice_to, slice_from, slice.
  pose proof (len_nonneg l) as Hl.
  set (c := clamp (len l) i).
  assert (0 ≤ c ≤ len l) as Hc by (unfold c, clamp; destruct (i <? 0); lia).
  assert (clamp (len l) 0 = 0) as -> by (unfold clamp; simpl; lia).
  assert (clamp (len l) (len l) = len l) as ->.
  { unfold clamp. destruct (Z.ltb_spec (len l) 0); lia. }
  rewrite Z.sub_0_r. change (Z.to_nat 0) with 0%nat. rewrite drop_0. clearbody c.
  rewrite (take_ge (drop _ _)) by (rewrite length_drop; unfold len in *; lia).
  apply take_drop.
Qed.
End PyFacts.

#[global] Arguments getitem : simpl never.
#[global] Arguments setitem : simpl never.
#[global] Arguments delitem : simpl never.
#[global] Arguments slice : simpl never.

Lemma bind_Ok {A B} (a : A) (f : A → res B) : (Ok a ≫= f) = f a.
Proof. done. Qed.

Lemma bind_Ok_inv {A B} (m : res A) (f : A → res B) b :
  (m ≫= f) = Ok b → ∃ a, m = Ok a ∧ f a = Ok b.
Proof. destruct m; simpl; [eauto|done|done]. Qed.

Lemma mapM_Ok {A B} (f : A → res B) (g : A → B) (l : list A) :
  (∀ x, x ∈ l → f x = Ok (g x)) → mapM f l = Ok (g <$> l).
Proof.
  induction l as [|x l IH]; intros Hf; [done|].
  simpl. rewrite Hf by left. simpl.
  rewrite IH by (intros; apply Hf; now right). done.
Qed.

Lemma for_each_app {A S} (xs ys : list A) (body : A → S → res S) s :
  for_each (xs ++ ys) body s = (s' ← for_each xs body s; for_each ys body s').
Proof.
  revert s. induction xs as [|x xs IH]; intros s; [done|].
  simpl. destruct (body x s); simpl; [apply IH|done|done].
Qed.

(** An invariant carried through a [for] loop none of whose iterations
    raises. *)
Lemma for_each_inv {A S} (I : list A → S → Prop) (xs : list A)
    (body : A → S → res S) s :
  I [] s →
  (∀ pre x s, (∃ post, xs = pre ++ x :: post) → I pre s →
              ∃ s', body x s = Ok s' ∧ I (pre ++ [x]) s') →
  ∃ s', for_each xs body s = Ok s' ∧ I xs s'.
Proof.
  intros H0 Hstep.
  cut (∀ pre post s, xs = pre ++ post → I pre s →
        ∃ s', for_each post body s = Ok s' ∧ I xs s').
  { intros Hc. apply (Hc [] xs s); done. }
  intros pre post. revert pre. induction post as [|x post IH]; intros pre s1 Hxs HI.
  - rewrite app_nil_r in Hxs. subst. eauto.
  - destruct (Hstep pre x s1) as (s2 & Hb & HI2); [eauto|done|].
    simpl. rewrite Hb. simpl. apply (IH (pre ++ [x])); [|done].
    now rewrite <- app_assoc.
Qed.

(** A [for] loop with a [return] in it, run on a stateless body: either
    no element returns, or the first that does ends the loop. *)
Lemma for_return_first {A R} (xs : list A) (body : A → unit → res (unit + R)) :
  (∀ x, x ∈ xs → ∃ o, body x tt = Ok o) →
  (for_return xs body tt = Ok (inl tt) ∧ ∀ x, x ∈ xs → body x tt = Ok (inl tt))
  ∨ (∃ pre x post r, xs = pre ++ x :: post
       ∧ (∀ y, y ∈ pre → body y tt = Ok (inl tt))
       ∧ body x tt = Ok (inr r)
       ∧ for_return xs body tt = Ok (inr r)).
Proof.
  induction xs as [|x xs IH]; intros Hok.
  - left. split; [done|]. intros x Hx. inversion Hx.
  - destruct (Hok x) as [[[]|r] Hx]; [left| |].
    + destruct IH as [[Hr Hall]|(pre & y & post & r & -> & Hpre & Hy & Hr)].
      * intros; apply Hok; now right.
      * left. split; [simpl; now rewrite Hx|].
        intros y [->|Hy]%elem_of_cons; auto.
      * right. exists (x :: pre), y, post, r. split; [done|].
        split; [|split; [done|simpl; now rewrite Hx]].
        intros z [->|Hz]%elem_of_cons; auto.
    + right. exists [], x, xs, r. split; [done|].
      split; [|split; [done|simpl; now rewrite Hx]].
      intros z Hz. inversion Hz.
Qed.

Lemma elem_of_range a b x : x ∈ range a b ↔ a ≤ x < b.
Proof. unfold range. rewrite elem_of_seqZ. lia. Qed.

Lemma range_split a b x :
  a ≤ x < b → range a b = range a x ++ x :: range (x + 1) b.
Proof.
  intros Hx. unfold range.
  replace (b - a) with ((x - a) + (b - x)) by lia.
  rewrite seqZ_app by lia. f_equal.
  replace (a + (x - a)) with x by lia.
  replace (b - x) with (1 + (b - (x + 1))) by lia.
  rewrite seqZ_app by lia. done.
Qed.

Lemma range_nil a b : b ≤ a → range a b = [].
Proof. intros. unfold range. apply seqZ_nil. lia. Qed.

Lemma range_cons a b : a < b → range a b = a :: range (a + 1) b.
Proof. intros. rewrite (range_split a b a) by lia. now rewrite (range_nil a a). Qed.

Lemma range_snoc a b : a < b → range a b = range a (b - 1) ++ [b - 1].
Proof.
  intros. rewrite (range_split a b (b - 1)) by lia.
  replace (b - 1 + 1) with b by lia. now rewrite (range_nil b b).
Qed.

Lemma len_range a b : a ≤ b → len (range a b) = b - a.
Proof. intros. unfold len, range. rewrite length_seqZ. lia. Qed.

Lemma range_down_nil a b : a ≤ b → range_down a b = [].
Proof. intros. unfold range_down. rewrite seqZ_nil by lia. done. Qed.

Lemma range_down_cons a b : b < a → range_down a b = a :: range_down (a - 1) b.
Proof.
  intros. unfold range_down.
  replace (a - b) with ((a - 1 - b) + 1) by lia.
  rewrite seqZ_app by lia. rewrite reverse_app. simpl.
  repeat f_equal. lia.
Qed.

(** ** Standardization *)



Lemma rank_Permutation L L' x : L ≡ₚ L' → rank L x = rank L' x.
Proof. intros H. unfold rank, len. now rewrite H. Qed.

Lemma rank_nonneg L x : 0 ≤ rank L x.
Proof. apply len_nonneg. Qed.

Lemma rank_app L K x : rank (L ++ K) x = rank L x + rank K x.
Proof. unfold rank. rewrite filter_app. apply len_app. Qed.

Lemma rank_cons L y x : rank (y :: L) x = (if decide (y < x) then 1 else 0) + rank L x.
Proof.
  unfold rank. rewrite filter_cons. destruct (decide (y < x)); unfold len; simpl length; lia.
Qed.

Lemma rank_all_ge L x : Forall (λ y, x ≤ y) L → rank L x = 0.
Proof.
  induction 1 as [|y L Hy _ IH]; [done|].
  rewrite rank_cons, IH. destruct (decide (y < x)); lia.
Qed.

Lemma rank_all_lt L x : Forall (λ y, y < x) L → rank L x = len L.
Proof.
  induction 1 as [|y L Hy _ IH]; [done|].
  rewrite rank_cons, IH. destruct (decide (y < x)); unfold len; simpl length; lia.
Qed.

Lemma rank_range a b x : a ≤ x ≤ b → rank (range a b) x = x - a.
Proof.
  intros Hx. destruct (decide (x = b)) as [->|].
  - rewrite rank_all_lt, len_range by (try lia; apply Forall_forall; intros y Hy%elem_of_range; lia).
    done.
  - rewrite (range_split a b x) by lia. rewrite rank_app, rank_cons.
    rewrite rank_all_lt by (apply Forall_forall; intros y Hy%elem_of_range; lia).
    rewrite (rank_all_ge (range _ _)) by (apply Forall_forall; intros y Hy%elem_of_range; lia).
    rewrite len_range by lia. destruct (decide (x < x)); lia.
Qed.

Lemma rank_mono L x y : x ≤ y → rank L x ≤ rank L y.
Proof.
  intros Hxy. induction L as [|z L IH]; [done|].
  rewrite !rank_cons. destruct (decide (z < x)), (decide (z < y)); lia.
Qed.

Lemma rank_strict L x y : x ∈ L → x < y → rank L x < rank L y.
Proof.
  intros Hx Hxy. induction L as [|z L IH]; [inversion Hx|].
  rewrite !rank_cons. apply elem_of_cons in Hx as [->|Hx].
  - pose proof (rank_mono L z y). destruct (decide (z < z)), (decide (z < y)); lia.
  - specialize (IH Hx). destruct (decide (z < x)), (decide (z < y)); lia.
Qed.

(** Relabelling by an increasing function does not change ranks. *)
Lemma rank_fmap (f : Z → Z) L x :
  (∀ a b, a < b ↔ f a < f b) → rank (f <$> L) (f x) = rank L x.
Proof.
  intros Hf. induction L as [|z L IH]; [done|].
  rewrite fmap_cons, !rank_cons, IH.
  pose proof (Hf z x) as Hzx.
  destruct (decide (f z < f x)), (decide (z < x)); try lia; tauto.
Qed.

Lemma range_sorted a b : StronglySorted Z.le (range a b).
Proof.
  unfold range. destruct (decide (b - a ≤ 0)) as [|Hn]; [rewrite seqZ_nil by lia; constructor|].
  rewrite <- (Z2Nat.id (b - a)) by lia. generalize (Z.to_nat (b - a)) as n. clear Hn.
  intros n. revert a. induction n as [|n IH]; intros a; [constructor|].
  rewrite Nat2Z.inj_succ, seqZ_cons by lia. constructor.
  - replace (Z.pred (Z.succ (Z.of_nat n))) with (Z.of_nat n) by lia. apply IH.
  - apply Forall_forall. intros y Hy%elem_of_seqZ. lia.
Qed.

Lemma is_perm_Permutation p : is_perm p ↔ p ≡ₚ range 0 (len p).
Proof.
  unfold is_perm, sorted. split; intros H.
  - rewrite <- H. symmetry. apply merge_sort_Permutation.
  - apply (StronglySorted_unique Z.le).
    + apply StronglySorted_merge_sort; apply _.
    + apply range_sorted.
    + now rewrite merge_sort_Permutation.
Qed.

Lemma is_perm_elem_of p x : is_perm p → x ∈ p ↔ 0 ≤ x < len p.
Proof. intros H%is_perm_Permutation. rewrite H at 1. apply elem_of_range. Qed.

Lemma is_perm_NoDup p : is_perm p → NoDup p.
Proof.
  intros H%is_perm_Permutation. rewrite H. apply NoDup_seqZ.
Qed.

Lemma is_perm_lookup p (i : nat) x : is_perm p → p !! i = Some x → 0 ≤ x < len p.
Proof. intros Hp Hx. apply (is_perm_elem_of p x Hp). eapply list_elem_of_lookup_2, Hx. Qed.

Lemma NoDup_range_is_perm p :
  NoDup p → (∀ x, x ∈ p → 0 ≤ x < len p) → is_perm p.
Proof.
  intros Hnd Hin. apply is_perm_Permutation.
  apply submseteq_length_Permutation.
  - apply NoDup_submseteq; [done|]. intros x Hx. apply elem_of_range. auto.
  - unfold range. rewrite length_seqZ. unfold len. lia.
Qed.

Lemma is_perm_rank p x : is_perm p → 0 ≤ x ≤ len p → rank p x = x.
Proof.
  intros Hp%is_perm_Permutation Hx.
  rewrite (rank_Permutation _ _ _ Hp), rank_range by lia. lia.
Qed.

(** In a sorted list the first position of an entry is its rank. *)
Lemma index_sorted l x :
  StronglySorted Z.le l → x ∈ l → index l x = Ok (rank l x).
Proof.
  induction 1 as [|y l Hs IH Hy]; intros Hx; [inversion Hx|].
  simpl. rewrite rank_cons. destruct (decide (y = x)) as [->|Hne].
  - rewrite rank_all_ge by done. destruct (decide (x < x)); [lia|done].
  - apply elem_of_cons in Hx as [->|Hx]; [done|].
    rewrite IH by done. simpl.
    rewrite Forall_forall in Hy. specialize (Hy x Hx).
    destruct (decide (y < x)); [f_equal; lia|lia].
Qed.

Lemma len_set_le L : len_set L ≤ len L.
Proof.
  unfold len_set, len. induction L as [|x L IH]; [done|].
  simpl. pose proof (size_union_alt ({[x]} : gset Z) (list_to_set L)) as Hu.
  rewrite Hu, size_singleton.
  assert (list_to_set L ∖ {[x]} ⊆ (list_to_set L : gset Z)) as Hsub.
  { apply subseteq_difference_l. done. }
  apply subseteq_size in Hsub. lia.
Qed.

Lemma len_set_NoDup L : len_set L = len L ↔ NoDup L.
Proof.
  split.
  - unfold len_set, len. induction L as [|x L IH]; intros H; [constructor|].
    simpl in H. pose proof (len_set_le L) as Hle. unfold len_set, len in Hle.
    destruct (decide (x ∈ L)) as [Hin|Hin].
    + exfalso.
      assert ({[x]} ∪ list_to_set L = (list_to_set L : gset Z)) as Heq.
      { apply subseteq_union_1_L, singleton_subseteq_l, elem_of_list_to_set, Hin. }
      rewrite Heq in H. lia.
    + constructor; [done|]. apply IH.
      rewrite size_union, size_singleton in H; [lia|].
      apply disjoint_singleton_l. now rewrite elem_of_list_to_set.
  - intros H. unfold len_set, len. now rewrite size_list_to_set.
Qed.

Lemma sorted_elem_of L x : x ∈ sorted L ↔ x ∈ L.
Proof. unfold sorted. now rewrite merge_sort_Permutation. Qed.

Lemma sorted_sorted L : StronglySorted Z.le (sorted L).
Proof. apply StronglySorted_merge_sort; apply _. Qed.

Lemma rank_sorted L x : rank (sorted L) x = rank L x.
Proof. apply rank_Permutation, merge_sort_Permutation. Qed.

Module PermFacts.
Import Perm.

(** What [standardize] computes on distinct entries: every entry is
    replaced by its rank. *)
Lemma standardize_NoDup L : NoDup L → standardize L = Ok (rank L <$> L).
Proof.
  intros Hnd. unfold standardize.
  rewrite bool_decide_eq_true_2 by now apply len_set_NoDup.
  simpl. apply mapM_Ok. intros x Hx.
  rewrite index_sorted; [now rewrite rank_sorted|apply sorted_sorted|].
  now apply sorted_elem_of.
Qed.

Lemma standardize_dup L : ¬ NoDup L → standardize L = Raise AssertionError.
Proof.
  intros Hnd. unfold standardize.
  rewrite bool_decide_eq_false_2; [done|].
  now rewrite len_set_NoDup.
Qed.

Lemma of_seq_standardize L : of_seq L = standardize L.
Proof.
  unfold of_seq. destruct (decide (len L = 0)) as [H0|]; [|done].
  destruct (decide (len L > 0)); [lia|done].
Qed.

Lemma fmap_id_on {A} (f : A → A) (l : list A) :
  (∀ x, x ∈ l → f x = x) → f <$> l = l.
Proof.
  induction l as [|x l IH]; intros H; [done|].
  rewrite fmap_cons, H by left. f_equal. apply IH. intros; apply H; now right.
Qed.

(** Standardization does nothing to a permutation. *)
Lemma standardize_is_perm p : is_perm p → standardize p = Ok p.
Proof.
  intros Hp. rewrite standardize_NoDup by now apply is_perm_NoDup.
  f_equal. apply fmap_id_on. intros x Hx.
  apply is_perm_rank; [done|]. apply is_perm_elem_of in Hx; [lia|done].
Qed.

Lemma of_seq_is_perm p : is_perm p → of_seq p = Ok p.
Proof. rewrite of_seq_standardize. apply standardize_is_perm. Qed.

(** The outcome of a standardization is a permutation. *)
Lemma rank_is_perm L : NoDup L → is_perm (rank L <$> L).
Proof.
  intros Hnd. apply NoDup_range_is_perm.
  - apply NoDup_fmap_2_strong; [|done]. intros x y Hx Hy Hxy.
    destruct (Z.lt_total x y) as [H|[H|H]]; [|done|].
    + pose proof (rank_strict L x y Hx H). lia.
    + pose proof (rank_strict L y x Hy H). lia.
  - intros r (x & -> & Hx)%list_elem_of_fmap.
    split; [apply rank_nonneg|].
    unfold len at 1. rewrite length_fmap.
    apply Z.lt_le_trans with (rank L (x + 1)); [apply rank_strict; [done|lia]|].
    unfold rank, len. pose proof (length_filter (λ y, y < x + 1) L). lia.
Qed.

(** Relabelling the entries by an increasing function does not change the
    standardization. *)
Lemma standardize_fmap (f : Z → Z) L :
  (∀ a b, a < b ↔ f a < f b) → standardize (f <$> L) = standardize L.
Proof.
  intros Hf.
  assert (Inj eq eq f) as Hinj.
  { intros a b Hab. destruct (Z.lt_total a b) as [H|[H|H]]; [|done|].
    - apply Hf in H. lia.
    - apply Hf in H. lia. }
  destruct (decide (NoDup L)) as [Hnd|Hnd].
  - rewrite !standardize_NoDup by (try apply NoDup_fmap_2; done).
    f_equal. rewrite <- list_fmap_compose. apply list_fmap_ext.
    intros i x Hx. simpl. now apply rank_fmap.
  - rewrite !standardize_dup; [done|done|]. now rewrite NoDup_fmap.
Qed.

End PermFacts.

(** ** Loops over ranges *)

Lemma lookup_range a b (k : nat) x :
  range a b !! k = Some x ↔ x = a + Z.of_nat k ∧ x < b.
Proof. unfold range. rewrite lookup_seqZ. lia. Qed.

Lemma length_range a b : length (range a b) = Z.to_nat (b - a).
Proof. unfold range. apply length_seqZ. Qed.

Lemma lookup_reverse_range a b (k : nat) x :
  reverse (range a b) !! k = Some x ↔ x = b - 1 - Z.of_nat k ∧ a ≤ x.
Proof.
  rewrite reverse_lookup_Some, lookup_range, length_range. lia.
Qed.

(** The index form of [for_return_first]. *)
Lemma for_return_first_lookup {A R} (xs : list A)
    (body : A → unit → res (unit + R)) :
  (∀ x, x ∈ xs → ∃ o, body x tt = Ok o) →
  (for_return xs body tt = Ok (inl tt) ∧ ∀ x, x ∈ xs → body x tt = Ok (inl tt))
  ∨ (∃ (k : nat) x r, xs !! k = Some x
       ∧ (∀ (k' : nat) y, (k' < k)%nat → xs !! k' = Some y → body y tt = Ok (inl tt))
       ∧ body x tt = Ok (inr r)
       ∧ for_return xs body tt = Ok (inr r)).
Proof.
  intros Hok.
  destruct (for_return_first xs body Hok)
    as [?|(pre & x & post & r & -> & Hpre & Hx & Hr)]; [now left|right].
  exists (length pre), x, r. split; [|split; [|done]].
  - now rewrite lookup_app_r, Nat.sub_diag by lia.
  - intros k' y Hk' Hy. apply Hpre.
    rewrite lookup_app_l in Hy by done. eapply list_elem_of_lookup_2, Hy.
Qed.

Lemma max_is_Ok l : l ≠ [] → ∃ m, max l = Ok m.
Proof. destruct l; [done|]. simpl. eauto. Qed.

Lemma min_is_Ok l : l ≠ [] → ∃ m, min l = Ok m.
Proof. destruct l; [done|]. simpl. eauto. Qed.

Lemma slice_nonempty {A} (l : list A) a b :
  0 ≤ a < b → b ≤ len l → slice l a b ≠ [].
Proof.
  intros Ha Hb Hnil. pose proof (len_slice l a b ltac:(lia) Hb) as Hlen.
  rewrite Hnil in Hlen. unfold len in Hlen. simpl in Hlen. lia.
Qed.

(** ** Intervals *)

Module IntervalFacts.
Import Perm.



Lemma window_test_spec self i j :
  0 ≤ j → 0 < i → j + i ≤ len self →
  (window_test self i j tt = Ok (inl tt) ∧ ¬ window self j i)
  ∨ (window_test self i j tt = Ok (inr (i, j)) ∧ window self j i).
Proof.
  intros Hj Hi Hn. unfold window_test, window.
  destruct (max_is_Ok (slice self j (j + i))) as [hi Hhi];
    [apply slice_nonempty; lia|].
  destruct (min_is_Ok (slice self j (j + i))) as [lo Hlo];
    [apply slice_nonempty; lia|].
  rewrite Hhi, Hlo. simpl. destruct (decide (hi - lo = i - 1)) as [Heq|Hne].
  - right. split; [done|]. eauto.
  - left. split; [done|]. intros (hi' & lo' & [= <-] & [= <-] & ?). done.
Qed.

(** One pass of the inner loop, for a fixed length [i]. *)
Lemma maximal_interval_row self i :
  2 ≤ i ≤ len self - 1 →
  (for_return (range 0 (len self - i + 1)) (window_test self i) tt = Ok (inl tt)
     ∧ ∀ j, 0 ≤ j ≤ len self - i → ¬ window self j i)
  ∨ (∃ j, for_return (range 0 (len self - i + 1)) (window_test self i) tt
            = Ok (inr (i, j))
        ∧ 0 ≤ j ≤ len self - i ∧ window self j i
        ∧ ∀ j', 0 ≤ j' < j → ¬ window self j' i).
Proof.
  intros Hi.
  assert (∀ j, 0 ≤ j ≤ len self - i →
            (window_test self i j tt = Ok (inl tt) ∧ ¬ window self j i)
            ∨ (window_test self i j tt = Ok (inr (i, j)) ∧ window self j i)) as Hspec.
  { intros j Hj. apply window_test_spec; lia. }
  destruct (for_return_first_lookup (range 0 (len self - i + 1)) (window_test self i))
    as [[Hr Hall]|(k & j & r & Hk & Hpre & Hj & Hr)].
  - intros j Hj%elem_of_range. destruct (Hspec j) as [[-> _]|[-> _]]; [lia|eauto..].
  - left. split; [done|]. intros j Hj.
    destruct (Hspec j Hj) as [[_ ?]|[Hw _]]; [done|].
    rewrite Hall in Hw; [done|]. apply elem_of_range. lia.
  - right. apply lookup_range in Hk as [-> Hk].
    destruct (Hspec (0 + Z.of_nat k)) as [[Hw _]|[Hw Hwin]]; [lia|congruence|].
    rewrite Hw in Hj. injection Hj as <-.
    exists (0 + Z.of_nat k). split; [done|]. split; [lia|]. split; [done|].
    intros j' Hj'. destruct (Hspec j') as [[_ ?]|[Hw' _]]; [lia|done|].
    rewrite (Hpre (Z.to_nat j') j') in Hw'; [done|lia|].
    apply lookup_range. lia.
Qed.

Lemma maximal_interval_unfold self :
  maximal_interval self =
    (o ← for_return (reverse (range 2 (len self)))
           (fun i _ => for_return (range 0 (len self - i + 1)) (window_test self i) tt)
           tt;
     match o with inl _ => Ok (0, 0) | inr r => Ok r end).
Proof. reflexivity. Qed.

(** What [maximal_interval] returns, on any list. *)
Lemma maximal_interval_cases self :
  (maximal_interval self = Ok (0, 0)
     ∧ ∀ i j, 2 ≤ i ≤ len self - 1 → 0 ≤ j ≤ len self - i → ¬ window self j i)
  ∨ (∃ i j, maximal_interval self = Ok (i, j)
       ∧ 2 ≤ i ≤ len self - 1 ∧ 0 ≤ j ≤ len self - i
       ∧ window self j i
       ∧ (∀ i' j', i < i' ≤ len self - 1 → 0 ≤ j' ≤ len self - i' → ¬ window self j' i')
       ∧ (∀ j', 0 ≤ j' < j → ¬ window self j' i)).
Proof.
  rewrite maximal_interval_unfold.
  set (row := fun (i : Z) (_ : unit) =>
         for_return (range 0 (len self - i + 1)) (window_test self i) tt).
  assert (∀ i, i ∈ reverse (range 2 (len self)) → 2 ≤ i ≤ len self - 1) as Hin.
  { intros i Hi%elem_of_reverse%elem_of_range. lia. }
  destruct (for_return_first_lookup (reverse (range 2 (len self))) row)
    as [[Hr Hall]|(k & i & r & Hk & Hpre & Hi & Hr)].
  - intros i Hi%Hin. unfold row.
    destruct (maximal_interval_row self i Hi) as [[-> _]|(j & -> & _)]; eauto.
  - left. rewrite Hr. split; [done|]. intros i j Hi Hj.
    destruct (maximal_interval_row self i Hi) as [[_ Hno]|(j' & Hrow & _)]; [auto|].
    unfold row in Hall. rewrite Hall in Hrow; [done|].
    apply elem_of_reverse, elem_of_range. lia.
  - right. rewrite Hr. simpl.
    pose proof Hk as Hk'. apply lookup_reverse_range in Hk' as [Hik Hi2].
    assert (2 ≤ i ≤ len self - 1) as Hirange by lia.
    destruct (maximal_interval_row self i Hirange) as [[Hrow _]|(j & Hrow & Hj & Hw & Hfirst)];
      unfold row in Hi; rewrite Hrow in Hi; [done|].
    injection Hi as <-. exists i, j. split; [done|]. do 3 (split; [done|]).
    split; [|done]. intros i' j' Hi' Hj'.
    destruct (maximal_interval_row self i') as [[_ Hno]|(j'' & Hrow' & _)]; [lia|auto|].
    unfold row in Hpre.
    rewrite (Hpre (Z.to_nat (len self - 1 - i')) i') in Hrow'; [done|lia|].
    apply lookup_reverse_range. lia.
Qed.

End IntervalFacts.

(** An invariant carried through a [for] loop that may [return]: [Q]
    holds of whatever is returned. *)
Lemma for_return_inv {A S R} (I : list A → S → Prop) (Q : R → Prop)
    (xs : list A) (body : A → S → res (S + R)) s :
  I [] s →
  (∀ pre x s, (∃ post, xs = pre ++ x :: post) → I pre s →
     (∃ s', body x s = Ok (inl s') ∧ I (pre ++ [x]) s')
     ∨ (∃ r, body x s = Ok (inr r) ∧ Q r)) →
  (∃ s', for_return xs body s = Ok (inl s') ∧ I xs s')
  ∨ (∃ r, for_return xs body s = Ok (inr r) ∧ Q r).
Proof.
  intros H0 Hstep.
  cut (∀ pre post s, xs = pre ++ post → I pre s →
        (∃ s', for_return post body s = Ok (inl s') ∧ I xs s')
        ∨ (∃ r, for_return post body s = Ok (inr r) ∧ Q r)).
  { intros Hc. apply (Hc [] xs s); done. }
  intros pre post. revert pre. induction post as [|x post IH]; intros pre s1 Hxs HI.
  - rewrite app_nil_r in Hxs. subst. left. eauto.
  - destruct (Hstep pre x s1) as [(s2 & Hb & HI2)|(r & Hb & HQ)]; [eauto|done| |].
    + simpl. rewrite Hb. simpl. apply (IH (pre ++ [x])); [|done].
      now rewrite <- app_assoc.
    + right. exists r. simpl. now rewrite Hb.
Qed.

Lemma max_snoc l x M : max l = Ok M → max (l ++ [x]) = Ok (Z.max M x).
Proof.
  destruct l as [|y l]; [done|]. simpl. intros [= <-]. now rewrite foldl_snoc.
Qed.

Lemma min_snoc l x M : min l = Ok M → min (l ++ [x]) = Ok (Z.min M x).
Proof.
  destruct l as [|y l]; [done|]. simpl. intros [= <-]. now rewrite foldl_snoc.
Qed.

Lemma slice_snoc {A} (l : list A) a b x :
  0 ≤ a ≤ b → l !! Z.to_nat b = Some x →
  slice l a (b + 1) = slice l a b ++ [x].
Proof.
  intros Ha Hx. pose proof (lookup_lt_Some _ _ _ Hx) as Hlt.
  rewrite !slice_take_drop by (unfold len; lia).
  replace (Z.to_nat (b + 1 - a)) with (S (Z.to_nat (b - a))) by lia.
  erewrite take_S_r; [done|]. rewrite lookup_drop. rewrite <- Hx. f_equal. lia.
Qed.

Lemma slice_singleton {A} (l : list A) a x :
  0 ≤ a → l !! Z.to_nat a = Some x → slice l a (a + 1) = [x].
Proof.
  intros Ha Hx. rewrite (slice_snoc l a a x) by (done || lia).
  rewrite slice_take_drop; [|lia|].
  - now rewrite Z.sub_diag.
  - apply lookup_lt_Some in Hx. unfold len. lia.
Qed.

Module LocationFacts.
Import Perm IntervalFacts.

Lemma simple_location_unfold self :
  simple_location self =
    (o ← for_return (range 1 (len self - 1))
           (fun i st => for_return (reverse (range i (len self)))
                          (location_step self i) st)
           (self, self);
     match o with inl _ => Ok (0, 0) | inr r => Ok r end).
Proof. reflexivity. Qed.

Lemma tracks_insert_ne self arr f w j (k : nat) v :
  Z.to_nat j ≠ k → tracks self arr f w j → tracks self (<[k := v]> arr) f w j.
Proof.
  intros Hne (u & Hu & Hf). exists u. split; [|done].
  rewrite list_lookup_insert_ne; done.
Qed.

Lemma window_iff self j i hi lo :
  max (slice self j (j + i)) = Ok hi → min (slice self j (j + i)) = Ok lo →
  window self j i ↔ hi - lo = i - 1.
Proof.
  intros Hhi Hlo. unfold window. split.
  - intros (hi' & lo' & H1 & H2 & H3). congruence.
  - eauto.
Qed.

Section Row.
Context (self : list Z) (i : Z).
Let n := len self.
Hypothesis Hi : 1 ≤ i ≤ n - 2.

Lemma location_step_spec pre j post st :
  reverse (range i n) = pre ++ j :: post →
  row_inv self i pre st →
  (∃ st', location_step self i j st = Ok (inl st') ∧ row_inv self i (pre ++ [j]) st')
  ∨ (∃ r, location_step self i j st = Ok (inr r) ∧ found self r).
Proof.
  intros Hxs (Hl1 & Hl2 & Hdone & Htodo). destruct st as [mins maxs]. simpl in *.
  fold n in Hl1, Hl2, Hdone, Htodo.
  assert (j = n - 1 - len pre ∧ i ≤ j) as [Hj Hij].
  { assert (reverse (range i n) !! length pre = Some j) as Hk.
    { rewrite Hxs. now rewrite lookup_app_r, Nat.sub_diag by lia. }
    apply lookup_reverse_range in Hk. unfold len. lia. }
  rewrite <- Hj in *.
  assert (j < n) as Hjn by (pose proof (len_nonneg pre); lia).
  destruct (Htodo (j - 1)) as [(V1 & HV1 & HmaxV) (v1 & Hv1 & Hminv)]; [lia|].
  replace (j - 1 - (i - 1)) with (j - i) in * by lia.
  replace (j - 1 + 1) with j in * by lia.
  destruct (getitem_is_Ok self j) as (x & Hgx & Hx); [fold n; lia|].
  unfold location_step.
  rewrite (getitem_lookup mins (j - 1) v1), Hgx by (lia || done). simpl.
  rewrite setitem_Ok by lia. simpl.
  rewrite (getitem_lookup maxs (j - 1) V1) by (lia || done). simpl.
  rewrite setitem_Ok by lia. simpl.
  rewrite (getitem_lookup (<[_ := _]> maxs) j (Z.max V1 x))
    by (try lia; apply list_lookup_insert_eq; unfold len in *; lia).
  simpl.
  rewrite (getitem_lookup (<[_ := _]> mins) j (Z.min v1 x))
    by (try lia; apply list_lookup_insert_eq; unfold len in *; lia).
  simpl.
  assert (max (slice self (j - i) (j + 1)) = Ok (Z.max V1 x)) as Hmax.
  { rewrite (slice_snoc self (j - i) j x) by (lia || done). now apply max_snoc. }
  assert (min (slice self (j - i) (j + 1)) = Ok (Z.min v1 x)) as Hmin.
  { rewrite (slice_snoc self (j - i) j x) by (lia || done). now apply min_snoc. }
  assert (window self (j - i) (i + 1) ↔ Z.max V1 x - Z.min v1 x = i) as Hw.
  { rewrite (window_iff self (j - i) (i + 1) (Z.max V1 x) (Z.min v1 x)).
    - lia.
    - now replace (j - i + (i + 1)) with (j + 1) by lia.
    - now replace (j - i + (i + 1)) with (j + 1) by lia. }
  destruct (decide (Z.max V1 x - Z.min v1 x = i)) as [Heq|Hne].
  - right. eexists. split; [done|]. exists i, j. split; [done|].
    split; [done|]. split; [lia|]. now apply Hw.
  - left. eexists. split; [done|]. unfold row_inv. simpl. fold n.
    rewrite !len_insert, len_app. change (len [j]) with 1.
    split; [done|]. split; [done|]. split.
    + intros j' Hj'. destruct (decide (j' = j)) as [->|Hjj].
      * split; [|split].
        -- exists (Z.max V1 x). split; [|done].
           apply list_lookup_insert_eq. unfold len in *; lia.
        -- exists (Z.min v1 x). split; [|done].
           apply list_lookup_insert_eq. unfold len in *; lia.
        -- now rewrite Hw.
      * destruct (Hdone j') as (H1 & H2 & H3); [lia|].
        split; [|split; [|done]]; apply tracks_insert_ne; (done || lia).
    + intros j' Hj'. destruct (Htodo j') as (H1 & H2); [lia|].
      split; apply tracks_insert_ne; (done || lia).
Qed.

(** One pass of the inner loop. *)
Lemma location_row st :
  row_inv self i [] st →
  (∃ st', for_return (reverse (range i n)) (location_step self i) st = Ok (inl st')
          ∧ row_inv self i (reverse (range i n)) st')
  ∨ (∃ r, for_return (reverse (range i n)) (location_step self i) st = Ok (inr r)
          ∧ found self r).
Proof.
  intros H0. apply (for_return_inv (row_inv self i) (found self)); [done|].
  intros pre j st' [post Hxs] Hinv. eapply location_step_spec; done.
Qed.
End Row.

(** What [simple_location] returns, on any list. *)
Lemma simple_location_cases self :
  (simple_location self = Ok (0, 0)
     ∧ ∀ i j, 1 ≤ i ≤ len self - 2 → i ≤ j < len self → ¬ window self (j - i) (i + 1))
  ∨ (∃ i j, simple_location self = Ok (i, j)
       ∧ 1 ≤ i ≤ len self - 2 ∧ i ≤ j < len self ∧ window self (j - i) (i + 1)).
Proof.
  rewrite simple_location_unfold.
  set (n := len self).
  destruct (for_return_inv (location_inv self) (found self) (range 1 (n - 1))
              (fun i st => for_return (reverse (range i n)) (location_step self i) st)
              (self, self))
    as [(st' & -> & Hinv)|(r & -> & Hr)].
  - (* the initial state *)
    unfold location_inv. simpl. fold n. split; [done|]. split; [done|].
    split; [|unfold len; simpl; intros; lia].
    intros j Hj. change (len (@nil Z)) with 0 in *.
    destruct (getitem_is_Ok self j) as (x & _ & Hx); [fold n; lia|].
    split; exists x; (split; [done|]);
      replace (j - (1 + 0 - 1)) with j by lia;
      now rewrite (slice_singleton self j x) by (lia || done).
  - (* one iteration *)
    intros pre i st [post Hxs] (Hl1 & Hl2 & Htr & Hno).
    assert (i = 1 + len pre ∧ i < n - 1) as [Hi Hin].
    { assert (range 1 (n - 1) !! length pre = Some i) as Hk.
      { rewrite Hxs. now rewrite lookup_app_r, Nat.sub_diag by lia. }
      apply lookup_range in Hk. unfold len. lia. }
    fold n in Hl1, Hl2, Htr, Hno. rewrite <- Hi in *.
    assert (1 ≤ i ≤ n - 2) as Hirange by (pose proof (len_nonneg pre); lia).
    destruct (location_row self i Hirange st) as [(st' & Hrun & Hrow)|Hfound].
    + unfold row_inv. fold n. change (len (@nil Z)) with 0.
      split; [done|]. split; [done|]. split; [intros; lia|].
      intros j Hj. apply Htr. lia.
    + left. exists st'. split; [done|].
      destruct Hrow as (Hl1' & Hl2' & Hdone & _). fold n in Hl1', Hl2', Hdone.
      assert (len (reverse (range i n)) = n - i) as Hlen.
      { unfold len. rewrite length_reverse, length_range. lia. }
      rewrite Hlen in Hdone.
      unfold location_inv. fold n. rewrite len_app. change (len [i]) with 1.
      replace (1 + (len pre + 1)) with (i + 1) by lia.
      split; [done|]. split; [done|]. split.
      * intros j Hj. replace (i + 1 - 1) with i in * by lia.
        destruct (Hdone j) as (? & ? & _); [lia|done].
      * intros i' j Hi' Hj. destruct (decide (i' = i)) as [->|].
        -- destruct (Hdone j) as (_ & _ & ?); [lia|done].
        -- apply Hno; lia.
    + now right.
  - (* no length returned *)
    left. split; [done|]. destruct Hinv as (_ & _ & _ & Hno).
    intros i j Hi Hj. apply Hno; [|done].
    rewrite len_range by (fold n; lia). fold n. lia.
  - (* some length returned *)
    right. destruct Hr as (i & j & -> & H). exists i, j. done.
Qed.

End LocationFacts.

(** A loop that rewrites the entries of a list one position after the
    other computes a map. *)
Lemma for_each_in_place (f : Z → Z) (l : list Z) (body : Z → list Z → res (list Z)) :
  (∀ (k : nat) p x, p !! k = Some x → body (Z.of_nat k) p = Ok (<[k := f x]> p)) →
  for_each (range 0 (len l)) body l = Ok (f <$> l).
Proof.
  intros Hbody.
  destruct (for_each_inv
              (fun pre s => s = (f <$> take (length pre) l) ++ drop (length pre) l)
              (range 0 (len l)) body l) as (s' & Hrun & Hs').
  - done.
  - intros pre k s [post Hxs] ->.
    assert (k = Z.of_nat (length pre) ∧ (length pre < length l)%nat) as [-> Hlt].
    { assert (range 0 (len l) !! length pre = Some k) as Hk.
      { rewrite Hxs. now rewrite lookup_app_r, Nat.sub_diag by lia. }
      apply lookup_range in Hk. unfold len in Hk. lia. }
    destruct (lookup_lt_is_Some_2 l (length pre) Hlt) as [x Hx].
    eexists. split.
    + apply Hbody. rewrite lookup_app_r by (rewrite length_fmap, length_take; lia).
      rewrite length_fmap, length_take, lookup_drop.
      replace (length pre `min` length l)%nat with (length pre) by lia.
      rewrite <- Hx. f_equal. lia.
    + rewrite length_app. simpl.
      replace (length pre + 1)%nat with (S (length pre)) by lia.
      rewrite (take_S_r l (length pre) x Hx), fmap_app. simpl.
      rewrite <- app_assoc. simpl.
      rewrite insert_app_r_alt by (rewrite length_fmap, length_take; lia).
      f_equal. rewrite length_fmap, length_take.
      replace (length pre - length pre `min` length l)%nat with 0%nat by lia.
      rewrite (drop_S l x (length pre) Hx). done.
  - rewrite Hrun. f_equal. rewrite Hs', length_range.
    replace (Z.to_nat (len l - 0)) with (length l) by (unfold len; lia).
    now rewrite take_ge, drop_ge, app_nil_r by lia.
Qed.

Module EditFacts.
Import Perm PermFacts.

Lemma bump_lt val a b : a < b ↔ bump val a < bump val b.
Proof. unfold bump. destruct (decide (a >= val)), (decide (b >= val)); lia. Qed.

Lemma bump_ne val x : bump val x ≠ val.
Proof. unfold bump. destruct (decide (x >= val)); lia. Qed.

Lemma bump_inj val : Inj eq eq (bump val).
Proof.
  intros a b Hab. destruct (Z.lt_total a b) as [H|[H|H]]; [|done|];
    apply (bump_lt val) in H; lia.
Qed.

(** The list [insert] hands to the constructor. *)
Lemma insert_unfold self idx val :
  insert self idx val =
    of_seq (slice_to (bump val <$> self) idx ++ [val]
            ++ slice_from (bump val <$> self) idx).
Proof.
  unfold insert. rewrite (for_each_in_place (bump val)); [done|].
  intros k p x Hx. rewrite (getitem_nat p k x Hx). simpl. unfold bump.
  destruct (decide (x >= val)).
  - rewrite setitem_Ok, Nat2Z.id; [done|].
    apply lookup_lt_Some in Hx. unfold len. lia.
  - now rewrite list_insert_id.
Qed.

Lemma inserted_Permutation self idx val :
  slice_to (bump val <$> self) idx ++ [val] ++ slice_from (bump val <$> self) idx
  ≡ₚ val :: (bump val <$> self).
Proof.
  rewrite <- (slice_to_from (bump val <$> self) idx) at 3.
  simpl. now rewrite Permutation_middle.
Qed.

Lemma inserted_NoDup self idx val :
  NoDup self →
  NoDup (slice_to (bump val <$> self) idx ++ [val]
         ++ slice_from (bump val <$> self) idx).
Proof.
  intros Hnd. rewrite inserted_Permutation. constructor.
  - intros (x & Hx & _)%list_elem_of_fmap. symmetry in Hx. now apply bump_ne in Hx.
  - apply NoDup_fmap_2; [apply bump_inj|done].
Qed.

(** [insert] returns a permutation whatever the index and the value. *)
Lemma insert_total self idx val :
  NoDup self →
  ∃ r, insert self idx val = Ok r ∧ is_perm r ∧ len r = len self + 1.
Proof.
  intros Hnd. rewrite insert_unfold, of_seq_standardize.
  pose proof (inserted_NoDup self idx val Hnd) as Hnd'.
  rewrite standardize_NoDup by done.
  eexists. split; [done|]. split; [now apply rank_is_perm|].
  unfold len. rewrite length_fmap.
  rewrite (Permutation_length (inserted_Permutation self idx val)).
  simpl. rewrite length_fmap. lia.
Qed.

Lemma inserted_is_perm self idx val :
  is_perm self → 0 ≤ val ≤ len self →
  is_perm (slice_to (bump val <$> self) idx ++ [val]
           ++ slice_from (bump val <$> self) idx).
Proof.
  intros Hp Hval. apply NoDup_range_is_perm.
  - apply inserted_NoDup. now apply is_perm_NoDup.
  - assert (len (slice_to (bump val <$> self) idx ++ [val]
                 ++ slice_from (bump val <$> self) idx) = len self + 1) as ->.
    { unfold len. rewrite (Permutation_length (inserted_Permutation self idx val)).
      simpl. rewrite length_fmap. lia. }
    intros x Hx. rewrite inserted_Permutation in Hx.
    apply elem_of_cons in Hx as [->|(y & -> & Hy)%list_elem_of_fmap]; [lia|].
    apply (is_perm_elem_of self y Hp) in Hy. unfold bump.
    destruct (decide (y >= val)); lia.
Qed.

(** Inserting before position [idx] and deleting position [idx] again
    gives the permutation back. *)
Lemma insert_delete self idx val :
  is_perm self → 0 ≤ idx ≤ len self → 0 ≤ val ≤ len self →
  ∃ q, insert self idx val = Ok q ∧ is_perm q ∧ len q = len self + 1
       ∧ delete q idx = Ok self.
Proof.
  intros Hp Hidx Hval. rewrite insert_unfold.
  pose proof (inserted_is_perm self idx val Hp Hval) as Hq.
  rewrite of_seq_is_perm by done.
  eexists. split; [done|]. split; [done|].
  assert (len (bump val <$> self) = len self) as Hlen
    by (unfold len; now rewrite length_fmap).
  unfold slice_to, slice_from in *.
  rewrite slice_prefix, slice_suffix in * by lia.
  split.
  { rewrite !len_app. unfold len. simpl.
    rewrite length_take, length_drop, length_fmap. unfold len in *. lia. }
  unfold delete.
  rewrite delitem_Ok.
  2:{ rewrite !len_app. unfold len. simpl.
      rewrite length_take, length_drop, length_fmap. unfold len in *. lia. }
  simpl.
  assert (length (take (Z.to_nat idx) (bump val <$> self)) = Z.to_nat idx) as Hlt.
  { rewrite length_take, length_fmap. unfold len in *. lia. }
  rewrite <- Hlt at 1. rewrite delete_middle, take_drop.
  rewrite of_seq_standardize, standardize_fmap by apply bump_lt.
  now apply standardize_is_perm.
Qed.

Lemma delete_out_of_range self idx :
  len self ≤ idx ∨ idx < - len self → delete self idx = Raise IndexError.
Proof. intros H. unfold delete. now rewrite delitem_out_of_range. Qed.

Lemma NoDup_delete {A} (l : list A) (k : nat) : NoDup l → NoDup (base.delete k l).
Proof. intros H. eapply sublist_NoDup; [done|apply sublist_delete]. Qed.

Lemma delete_in_range self idx :
  NoDup self → - len self ≤ idx < len self →
  ∃ r, delete self idx = Ok r ∧ is_perm r ∧ len r = len self - 1.
Proof.
  intros Hnd Hidx. unfold delete, delitem.
  set (j := if idx <? 0 then idx + len self else idx).
  assert (0 ≤ j < len self) as Hj by (unfold j; destruct (Z.ltb_spec idx 0); lia).
  destruct (Z.ltb_spec j 0); [lia|]. destruct (Z.leb_spec (len self) j); [lia|].
  simpl. rewrite of_seq_standardize, standardize_NoDup by now apply NoDup_delete.
  eexists. split; [done|]. split; [apply rank_is_perm; now apply NoDup_delete|].
  unfold len. rewrite length_fmap, length_delete.
  - unfold len in *. lia.
  - apply lookup_lt_is_Some_2. unfold len in *. lia.
Qed.

Lemma pow_negative self z : z < 0 → pow self (ExpInt z) = Raise ValueError.
Proof. intros Hz. unfold pow. destruct (decide (z >= 0)); [lia|done]. Qed.

Lemma pow_non_integer self : pow self ExpOther = Raise ValueError.
Proof. done. Qed.

End EditFacts.

(** ** The indexing of permutations *)

Module IndexFacts.
Import Perm PermFacts.

#[local] Arguments ind2perm_step : simpl never.
#[local] Arguments perm2ind_step : simpl never.

Lemma for_each_cons {A S} (x : A) xs (body : A → S → res S) s :
  for_each (x :: xs) body s = (s' ← body x s; for_each xs body s').
Proof. reflexivity. Qed.

Lemma ind2perm_step_eq i r k :
  ind2perm_step i (r, k)
  = (result ← swap r (i - 1) (k `mod` i); Ok (result, k `div` i)).
Proof. reflexivity. Qed.

Lemma perm2ind_step_eq i q result multiplier :
  perm2ind_step i (q, result, multiplier)
  = (qi ← getitem q i; pos ← index q i; q' ← swap q i pos;
     Ok (q', result + qi * multiplier, multiplier * (i + 1))).
Proof. reflexivity. Qed.

Lemma ind2perm_unfold k n :
  ind2perm k n =
    (st ← for_each (range_down n 0) ind2perm_step (range 0 n, k); of_seq st.1).
Proof. reflexivity. Qed.

Lemma perm2ind_unfold self :
  perm2ind self =
    (st ← for_each (range_down (len self - 1) 0) perm2ind_step (self, 0, 1);
     Ok st.1.2).
Proof. reflexivity. Qed.

Lemma swap_Ok l a b x y :
  0 ≤ a → 0 ≤ b → l !! Z.to_nat a = Some x → l !! Z.to_nat b = Some y →
  swap l a b = Ok (<[Z.to_nat b := x]> (<[Z.to_nat a := y]> l)).
Proof.
  intros Ha Hb Hx Hy. unfold swap.
  rewrite (getitem_lookup l a x), (getitem_lookup l b y) by done. simpl.
  pose proof (lookup_lt_Some _ _ _ Hx). pose proof (lookup_lt_Some _ _ _ Hy).
  rewrite setitem_Ok by (unfold len; lia). simpl.
  rewrite setitem_Ok by (rewrite len_insert; unfold len; lia). done.
Qed.

(** A swap inside the first part of a list, under a relabelling. *)
Lemma swap_frame (f : Z → Z) r s a b x y :
  0 ≤ a → 0 ≤ b → r !! Z.to_nat a = Some x → r !! Z.to_nat b = Some y →
  swap ((f <$> r) ++ s) a b
  = Ok ((f <$> <[Z.to_nat b := x]> (<[Z.to_nat a := y]> r)) ++ s).
Proof.
  intros Ha Hb Hx Hy.
  pose proof (lookup_lt_Some _ _ _ Hx). pose proof (lookup_lt_Some _ _ _ Hy).
  rewrite (swap_Ok _ a b (f x) (f y)); try done.
  - f_equal. rewrite !list_fmap_insert.
    rewrite (insert_app_l _ _ (Z.to_nat a)) by (rewrite length_fmap; lia).
    rewrite insert_app_l by (rewrite length_insert, length_fmap; lia). done.
  - rewrite lookup_app_l by (rewrite length_fmap; lia).
    now rewrite list_lookup_fmap, Hx.
  - rewrite lookup_app_l by (rewrite length_fmap; lia).
    now rewrite list_lookup_fmap, Hy.
Qed.

Lemma snoc_inv {A} (l : list A) (m : nat) :
  length l = S m → ∃ l' x, l = l' ++ [x] ∧ length l' = m.
Proof.
  intros Hl. destruct (decide (l = [])) as [->|Hne]; [done|].
  destruct (exists_last Hne) as (l' & x & ->).
  exists l', x. split; [done|]. rewrite length_app in Hl. simpl in Hl. lia.
Qed.

Lemma factorial_S m : factorial (S m) = (Z.of_nat m + 1) * factorial m.
Proof. unfold factorial. simpl fact. lia. Qed.

Lemma factorial_pos m : 0 < factorial m.
Proof. unfold factorial. pose proof (lt_O_fact m). lia. Qed.

(** The loop of [ind2perm] run for the [m] first positions: it permutes
    these positions, whatever the entries are called and whatever follows
    them. *)
Lemma ind2perm_loop_frame (m : nat) : ∀ r k,
  length r = m →
  ∃ r', length r' = m ∧ r' ≡ₚ r ∧
    ∀ (f : Z → Z) s,
      for_each (range_down (Z.of_nat m) 0) ind2perm_step ((f <$> r) ++ s, k)
      = Ok ((f <$> r') ++ s, k `div` factorial m).
Proof.
  induction m as [|m IH]; intros r k Hr.
  - exists r. split; [done|]. split; [done|]. intros f s. simpl.
    now rewrite Z.div_1_r.
  - destruct (snoc_inv r m Hr) as (r0 & x & -> & Hr0).
    set (j := k `mod` Z.of_nat (S m)).
    assert (0 ≤ j < Z.of_nat (S m)) as Hj by (apply Z.mod_pos_bound; lia).
    destruct (lookup_lt_is_Some_2 (r0 ++ [x]) (Z.to_nat j)) as [y Hy];
      [rewrite length_app; simpl; lia|].
    assert ((r0 ++ [x]) !! Z.to_nat (Z.of_nat (S m) - 1) = Some x) as Hx.
    { replace (Z.to_nat (Z.of_nat (S m) - 1)) with (length r0) by lia.
      now rewrite lookup_app_r, Nat.sub_diag by lia. }
    destruct (snoc_inv (<[Z.to_nat j := x]> (<[Z.to_nat (Z.of_nat (S m) - 1) := y]> (r0 ++ [x]))) m)
      as (r1 & z & Hr1 & Hlen1).
    { rewrite !length_insert, length_app. simpl. lia. }
    destruct (IH r1 (k `div` Z.of_nat (S m)) Hlen1) as (r1' & Hlen1' & Hperm & Hrun).
    exists (r1' ++ [z]). split; [rewrite length_app; simpl; lia|]. split.
    { rewrite Hperm, <- Hr1. apply Permutation_insert_swap; done. }
    intros f s. rewrite range_down_cons by lia.
    rewrite for_each_cons. rewrite ind2perm_step_eq. fold j.
    rewrite (swap_frame f (r0 ++ [x]) s _ j x y) by (lia || done).
    simpl. rewrite Hr1, fmap_app, <- app_assoc. simpl.
    replace (Z.of_nat (S m) - 1) with (Z.of_nat m) by lia.
    rewrite Hrun. rewrite fmap_app, <- app_assoc. simpl.
    rewrite factorial_S, Z.div_div by (try lia; apply factorial_pos).
    do 3 f_equal. lia.
Qed.

Lemma range_0_Permutation_len r (m : nat) :
  r ≡ₚ range 0 (Z.of_nat m) → is_perm r ∧ length r = m.
Proof.
  intros H. assert (length r = m) as Hlen.
  { rewrite (Permutation_length H), length_range. lia. }
  split; [|done]. apply is_perm_Permutation. unfold len. now rewrite Hlen.
Qed.

Lemma ind2perm_list_run (n : nat) k :
  for_each (range_down (Z.of_nat n) 0) ind2perm_step (range 0 (Z.of_nat n), k)
  = Ok (ind2perm_list n k, k `div` factorial n)
  ∧ is_perm (ind2perm_list n k) ∧ length (ind2perm_list n k) = n.
Proof.
  destruct (ind2perm_loop_frame n (range 0 (Z.of_nat n)) k) as (r' & Hlen & Hperm & Hrun).
  { rewrite length_range. lia. }
  specialize (Hrun id []). rewrite !list_fmap_id, !app_nil_r in Hrun.
  unfold ind2perm_list. rewrite Hrun. simpl. split; [done|].
  now apply range_0_Permutation_len.
Qed.

Lemma ind2perm_Ok k (n : nat) : ind2perm k (Z.of_nat n) = Ok (ind2perm_list n k).
Proof.
  rewrite ind2perm_unfold.
  destruct (ind2perm_list_run n k) as (-> & Hp & _). simpl.
  now apply of_seq_is_perm.
Qed.

(** Overwriting the one occurrence of [a]. *)
Lemma insert_relabel (l : list Z) (pos : nat) a b :
  NoDup l → l !! pos = Some a → <[pos := b]> l = relabel a b <$> l.
Proof.
  intros Hnd Ha. apply list_eq. intros i.
  rewrite list_lookup_fmap. destruct (decide (i = pos)) as [->|Hne].
  - rewrite list_lookup_insert_eq by (eapply lookup_lt_Some; done).
    rewrite Ha. simpl. unfold relabel. now rewrite decide_True.
  - rewrite list_lookup_insert_ne by done.
    destruct (l !! i) as [v|] eqn:Hv; [|done]. simpl. unfold relabel.
    rewrite decide_False; [done|]. intros ->.
    apply Hne. eapply NoDup_lookup; done.
Qed.

Lemma relabel_absent (l : list Z) a b : a ∉ l → relabel a b <$> l = l.
Proof.
  intros Ha. apply fmap_id_on. intros x Hx. unfold relabel.
  rewrite decide_False; [done|]. now intros ->.
Qed.

Lemma relabel_back (l : list Z) a b : b ∉ l → relabel b a <$> (relabel a b <$> l) = l.
Proof.
  intros Hb. rewrite <- list_fmap_compose. apply fmap_id_on. intros x Hx.
  simpl. unfold relabel. destruct (decide (x = a)) as [->|].
  - now rewrite decide_True.
  - rewrite decide_False; [done|]. now intros ->.
Qed.

Lemma range_S (m : nat) : range 0 (Z.of_nat (S m)) = range 0 (Z.of_nat m) ++ [Z.of_nat m].
Proof. rewrite range_snoc by lia. do 3 f_equal; lia. Qed.

(** The recurrence behind [ind2perm]: the last entry is [k mod n], the
    others are given by [k div n] on the values that are left. *)
Lemma ind2perm_list_S (m : nat) k :
  ind2perm_list (S m) k
  = (relabel (k `mod` Z.of_nat (S m)) (Z.of_nat m)
       <$> ind2perm_list m (k `div` Z.of_nat (S m)))
    ++ [k `mod` Z.of_nat (S m)].
Proof.
  set (j := k `mod` Z.of_nat (S m)).
  assert (0 ≤ j < Z.of_nat (S m)) as Hj by (apply Z.mod_pos_bound; lia).
  unfold ind2perm_list at 1. rewrite range_down_cons by lia.
  rewrite for_each_cons. rewrite ind2perm_step_eq. fold j.
  assert (range 0 (Z.of_nat (S m)) !! Z.to_nat (Z.of_nat (S m) - 1)
          = Some (Z.of_nat m)) as Hlast by (apply lookup_range; lia).
  assert (range 0 (Z.of_nat (S m)) !! Z.to_nat j = Some j) as Hjj
    by (apply lookup_range; lia).
  rewrite (swap_Ok _ _ j (Z.of_nat m) j) by (lia || done). simpl.
  assert (<[Z.to_nat j := Z.of_nat m]>
            (<[Z.to_nat (Z.of_nat (S m) - 1) := j]> (range 0 (Z.of_nat (S m))))
          = (relabel j (Z.of_nat m) <$> range 0 (Z.of_nat m)) ++ [j]) as ->.
  { rewrite range_S.
    replace (Z.to_nat (Z.of_nat (S m) - 1)) with (length (range 0 (Z.of_nat m)) + 0)%nat
      by (rewrite length_range; lia).
    rewrite insert_app_r. simpl.
    destruct (decide (j = Z.of_nat m)) as [->|Hne].
    - replace (Z.to_nat (Z.of_nat m)) with (length (range 0 (Z.of_nat m)) + 0)%nat
        by (rewrite length_range; lia).
      rewrite insert_app_r. simpl. f_equal. symmetry. apply relabel_absent.
      rewrite elem_of_range. lia.
    - rewrite insert_app_l by (rewrite length_range; lia). f_equal.
      apply insert_relabel; [apply NoDup_seqZ|]. apply lookup_range. lia. }
  replace (Z.of_nat (S m) - 1) with (Z.of_nat m) by lia.
  destruct (ind2perm_loop_frame m (range 0 (Z.of_nat m)) (k `div` Z.of_nat (S m)))
    as (r' & Hlen & Hperm & Hrun).
  { rewrite length_range. lia. }
  rewrite (Hrun (relabel j (Z.of_nat m)) [j]). simpl.
  specialize (Hrun id []). rewrite !list_fmap_id, !app_nil_r in Hrun.
  unfold ind2perm_list. now rewrite Hrun.
Qed.

Lemma index_elem_of l x :
  x ∈ l → ∃ pos : nat, index l x = Ok (Z.of_nat pos) ∧ l !! pos = Some x.
Proof.
  induction l as [|y l IH]; intros Hx; [inversion Hx|].
  simpl. destruct (decide (y = x)) as [->|Hne].
  - exists 0%nat. done.
  - apply elem_of_cons in Hx as [->|Hx]; [done|].
    destruct (IH Hx) as (pos & -> & Hpos). exists (S pos). simpl.
    split; [f_equal; lia|done].
Qed.

Lemma index_app_l l s x : x ∈ l → index (l ++ s) x = index l x.
Proof.
  induction l as [|y l IH]; intros Hx; [inversion Hx|].
  simpl. destruct (decide (y = x)) as [->|Hne]; [done|].
  apply elem_of_cons in Hx as [->|Hx]; [done|]. now rewrite IH.
Qed.

Lemma is_perm_snoc q0 j (m : nat) :
  is_perm (q0 ++ [j]) → length q0 = m →
  0 ≤ j ≤ Z.of_nat m ∧ (j ∉ q0) ∧ NoDup q0
  ∧ is_perm (relabel (Z.of_nat m) j <$> q0).
Proof.
  intros Hp Hlen.
  assert (len (q0 ++ [j]) = Z.of_nat m + 1) as Hl
    by (unfold len; rewrite length_app; simpl; lia).
  pose proof (is_perm_NoDup _ Hp) as Hnd.
  apply NoDup_app in Hnd as (Hnd0 & Hdisj & _).
  assert (j ∉ q0) as Hj0 by (intros Hin; apply (Hdisj j Hin); now left).
  assert (0 ≤ j ≤ Z.of_nat m) as Hj.
  { assert (j ∈ q0 ++ [j]) as Hin by (apply elem_of_app; right; now left).
    apply (is_perm_elem_of _ _ Hp) in Hin. lia. }
  split; [done|]. split; [done|]. split; [done|].
  apply NoDup_range_is_perm.
  - apply NoDup_fmap_2_strong; [|done]. intros x y Hx Hy. unfold relabel.
    destruct (decide (x = Z.of_nat m)), (decide (y = Z.of_nat m)); congruence.
  - intros y (x & -> & Hx)%list_elem_of_fmap. unfold len. rewrite length_fmap, Hlen.
    assert (x ∈ q0 ++ [j]) as Hin by (apply elem_of_app; now left).
    apply (is_perm_elem_of _ _ Hp) in Hin. unfold relabel.
    destruct (decide (x = Z.of_nat m)) as [->|]; [|lia].
    destruct (decide (j = Z.of_nat m)) as [->|]; [done|lia].
Qed.

Lemma is_perm_relabel_snoc q' j (m : nat) :
  is_perm q' → length q' = m → 0 ≤ j ≤ Z.of_nat m →
  is_perm ((relabel j (Z.of_nat m) <$> q') ++ [j]).
Proof.
  intros Hq' Hlen' Hj.
  assert (∀ x, x ∈ q' → 0 ≤ x < Z.of_nat m) as Hrange.
  { intros x Hx%(is_perm_elem_of _ _ Hq'). unfold len in Hx. lia. }
  apply NoDup_range_is_perm.
  - apply NoDup_app. split; [|split; [|apply NoDup_singleton]].
    + apply NoDup_fmap_2_strong; [|now apply is_perm_NoDup].
      intros x y Hx%Hrange Hy%Hrange. unfold relabel.
      destruct (decide (x = j)), (decide (y = j)); lia.
    + intros y (x & Hy & Hx%Hrange)%list_elem_of_fmap [Hyj|Hin]%elem_of_cons;
        [|inversion Hin].
      unfold relabel in *. destruct (decide (x = j)); lia.
  - intros y. unfold len. rewrite length_app, length_fmap, Hlen'. simpl.
    intros [(x & -> & Hx%Hrange)%list_elem_of_fmap|[->|Hin]%elem_of_cons]%elem_of_app;
      [|lia|inversion Hin].
    unfold relabel. destruct (decide (x = j)); lia.
Qed.

(** One iteration of the loop of [perm2ind], on a permutation of
    [0 .. m] followed by entries already in place. *)
Lemma perm2ind_step_spec q0 j (m : nat) s r0 mult :
  is_perm (q0 ++ [j]) → length q0 = m →
  perm2ind_step (Z.of_nat m) ((q0 ++ [j]) ++ s, r0, mult)
  = Ok ((relabel (Z.of_nat m) j <$> q0) ++ Z.of_nat m :: s,
        r0 + j * mult, mult * (Z.of_nat m + 1)).
Proof.
  intros Hp Hlen.
  destruct (is_perm_snoc q0 j m Hp Hlen) as (Hj & Hj0 & Hnd0 & _).
  assert (len (q0 ++ [j]) = Z.of_nat m + 1) as Hl
    by (unfold len; rewrite length_app; simpl; lia).
  assert (Z.of_nat m ∈ q0 ++ [j]) as Hm
    by (apply (is_perm_elem_of _ _ Hp); lia).
  assert (((q0 ++ [j]) ++ s) !! Z.to_nat (Z.of_nat m) = Some j) as Hlast.
  { rewrite Nat2Z.id, <- app_assoc, <- Hlen.
    now rewrite lookup_app_r, Nat.sub_diag by lia. }
  rewrite perm2ind_step_eq.
  rewrite (getitem_lookup _ _ j) by (lia || done). simpl.
  rewrite index_app_l by done.
  destruct (index_elem_of _ _ Hm) as (pos & -> & Hpos). simpl.
  pose proof (lookup_lt_Some _ _ _ Hpos) as Hlt.
  rewrite length_app in Hlt. simpl in Hlt.
  rewrite (swap_Ok _ _ _ j (Z.of_nat m)); [|lia|lia|done|].
  2:{ rewrite Nat2Z.id, lookup_app_l by (rewrite length_app; simpl; lia). done. }
  simpl. do 3 f_equal. rewrite !Nat2Z.id, <- app_assoc. simpl.
  replace m with (length q0 + 0)%nat at 1 by lia.
  rewrite insert_app_r. simpl.
  destruct (decide (pos = m)) as [->|Hne].
  - assert (j = Z.of_nat m) as ->.
    { assert ((q0 ++ [j]) !! m = Some j) as Hjm
        by (rewrite <- Hlen; now rewrite lookup_app_r, Nat.sub_diag by lia).
      congruence. }
    replace m with (length q0 + 0)%nat at 1 by lia.
    rewrite insert_app_r. simpl. f_equal. symmetry. now apply relabel_absent.
  - rewrite lookup_app_l in Hpos by lia.
    rewrite insert_app_l by lia. f_equal. now apply insert_relabel.
Qed.

Lemma div_mod_bound k (m : nat) :
  0 ≤ k < factorial (S m) →
  0 ≤ k `div` Z.of_nat (S m) < factorial m.
Proof.
  intros Hk. rewrite factorial_S in Hk. split.
  - apply Z.div_pos; lia.
  - apply Z.div_lt_upper_bound; lia.
Qed.

(** [perm2ind] reads back the index from which [ind2perm] built the list. *)
Lemma perm2ind_loop_ind2perm (m : nat) : ∀ k s r0 mult,
  0 ≤ k < factorial m →
  for_each (range_down (Z.of_nat m - 1) 0) perm2ind_step
    (ind2perm_list m k ++ s, r0, mult)
  = Ok (range 0 (Z.of_nat m) ++ s, r0 + mult * k, mult * factorial m).
Proof.
  induction m as [|m IH]; intros k s r0 mult Hk.
  - change (factorial 0) with 1 in *. rewrite range_down_nil by lia.
    assert (k = 0) as -> by lia.
    change (ind2perm_list 0 0) with (@nil Z). simpl. repeat f_equal; (lia || reflexivity).
  - rewrite ind2perm_list_S.
    set (j := k `mod` Z.of_nat (S m)).
    assert (0 ≤ j < Z.of_nat (S m)) as Hj by (apply Z.mod_pos_bound; lia).
    destruct (ind2perm_list_run m (k `div` Z.of_nat (S m))) as (_ & Hq' & Hlen').
    set (q' := ind2perm_list m (k `div` Z.of_nat (S m))) in *.
    assert (Z.of_nat m ∉ q') as Hm.
    { rewrite (is_perm_elem_of _ _ Hq'). unfold len. lia. }
    destruct m as [|m].
    + assert (q' = []) as -> by now apply nil_length_inv.
      assert (j = 0) as -> by lia.
      assert (k = 0) as -> by (change (factorial 1) with 1 in Hk; lia).
      change (factorial 1) with 1. rewrite range_down_nil by lia.
      simpl. repeat f_equal; (lia || reflexivity).
    + replace (Z.of_nat (S (S m)) - 1) with (Z.of_nat (S m)) by lia.
      rewrite range_down_cons by lia. rewrite for_each_cons.
      assert (is_perm ((relabel j (Z.of_nat (S m)) <$> q') ++ [j])) as Hp
        by (apply is_perm_relabel_snoc; (done || lia)).
      rewrite (perm2ind_step_spec _ j (S m)) by (done || now rewrite length_fmap).
      simpl. rewrite relabel_back by done.
      unfold q'. rewrite IH by now apply div_mod_bound.
      rewrite (range_S (S m)), <- app_assoc.
      rewrite (factorial_S (S m)).
      pose proof (Z.div_mod k (Z.of_nat (S (S m))) ltac:(lia)) as Hdm. fold j in Hdm.
      set (d := k `div` Z.of_nat (S (S m))) in *.
      replace (Z.of_nat (S (S m))) with (Z.of_nat (S m) + 1) in Hdm by lia.
      set (F := factorial (S m)). set (M := Z.of_nat (S m)) in *.
      replace (r0 + j * mult + mult * (M + 1) * d) with (r0 + mult * k) by nia.
      replace (mult * (M + 1) * F) with (mult * ((M + 1) * F)) by ring.
      done.
Qed.

(** Every permutation has an index, which [perm2ind] computes and from
    which [ind2perm] builds it. *)
Lemma perm2ind_loop_is_perm (m : nat) : ∀ q,
  is_perm q → length q = m →
  ∃ v, 0 ≤ v < factorial m ∧ ind2perm_list m v = q ∧
    ∀ s r0 mult,
      for_each (range_down (Z.of_nat m - 1) 0) perm2ind_step (q ++ s, r0, mult)
      = Ok (range 0 (Z.of_nat m) ++ s, r0 + mult * v, mult * factorial m).
Proof.
  induction m as [|m IH]; intros q Hp Hlen.
  - apply nil_length_inv in Hlen as ->. exists 0.
    change (factorial 0) with 1. split; [lia|]. split; [done|].
    intros s r0 mult. rewrite range_down_nil by lia. simpl. repeat f_equal; (lia || reflexivity).
  - destruct (snoc_inv q m Hlen) as (q0 & j & -> & Hlen0).
    destruct (is_perm_snoc q0 j m Hp Hlen0) as (Hj & Hj0 & Hnd0 & Hp0).
    destruct (IH (relabel (Z.of_nat m) j <$> q0) Hp0) as (v0 & Hv0 & Hlist & Hrun).
    { now rewrite length_fmap. }
    exists (j + Z.of_nat (S m) * v0).
    assert ((j + Z.of_nat (S m) * v0) `mod` Z.of_nat (S m) = j) as Hmod.
    { rewrite Z.mul_comm, Z_mod_plus_full. apply Z.mod_small. lia. }
    assert ((j + Z.of_nat (S m) * v0) `div` Z.of_nat (S m) = v0) as Hdiv.
    { rewrite Z.mul_comm, Z_div_plus_full by lia. rewrite Z.div_small by lia. lia. }
    split; [rewrite factorial_S; nia|]. split.
    + rewrite ind2perm_list_S, Hmod, Hdiv, Hlist. f_equal.
      now apply relabel_back.
    + intros s r0 mult. destruct m as [|m].
      * apply nil_length_inv in Hlen0 as ->. assert (j = 0) as -> by lia.
        assert (v0 = 0) as -> by (change (factorial 0) with 1 in Hv0; lia).
        change (factorial 1) with 1. rewrite range_down_nil by lia.
        simpl. repeat f_equal; (lia || reflexivity).
      * replace (Z.of_nat (S (S m)) - 1) with (Z.of_nat (S m)) by lia.
        rewrite range_down_cons by lia. rewrite for_each_cons.
        rewrite (perm2ind_step_spec q0 j (S m)) by done. simpl.
        rewrite Hrun. rewrite (range_S (S m)), <- app_assoc.
        rewrite (factorial_S (S m)).
        replace (Z.of_nat (S (S m))) with (Z.of_nat (S m) + 1) by lia.
        set (F := factorial (S m)). set (M := Z.of_nat (S m)) in *.
        replace (r0 + j * mult + mult * (M + 1) * v0)
          with (r0 + mult * (j + (M + 1) * v0)) by ring.
        replace (mult * (M + 1) * F) with (mult * ((M + 1) * F)) by ring.
        done.
Qed.

End IndexFacts.

(** ** Simplicity: the two detectors agree *)

Module SimpleFacts.
Import Perm IntervalFacts LocationFacts.

(** [is_simple] (through [simple_location]) and [maximal_interval] look at
    the same windows. *)
Lemma is_simple_cases self :
  (is_simple self = Ok true ∧ maximal_interval self = Ok (0, 0)
     ∧ ∀ i j, 2 ≤ i ≤ len self - 1 → 0 ≤ j ≤ len self - i → ¬ window self j i)
  ∨ (is_simple self = Ok false
     ∧ ∃ i j, maximal_interval self = Ok (i, j)
         ∧ 2 ≤ i ≤ len self - 1 ∧ 0 ≤ j ≤ len self - i
         ∧ window self j i
         ∧ (∀ i' j', i < i' ≤ len self - 1 → 0 ≤ j' ≤ len self - i' →
                     ¬ window self j' i')
         ∧ (∀ j', 0 ≤ j' < j → ¬ window self j' i)).
Proof.
  unfold is_simple.
  destruct (simple_location_cases self) as [[Hloc Hno]|(i & j & Hloc & Hi & Hj & Hw)];
  destruct (maximal_interval_cases self)
    as [[Hmax Hno']|(i' & j' & Hmax & Hi' & Hj' & Hw' & Hrest)].
  - left. rewrite Hloc. done.
  - exfalso. apply (Hno (i' - 1) (j' + i' - 1)); [lia|lia|].
    replace (j' + i' - 1 - (i' - 1)) with j' by lia.
    now replace (i' - 1 + 1) with i' by lia.
  - exfalso. apply (Hno' (i + 1) (j - i)); [lia|lia|done].
  - right. rewrite Hloc. simpl. rewrite bool_decide_eq_false_2 by lia.
    split; [done|]. exists i', j'. done.
Qed.

Lemma foldl_max_spec l x :
  (foldl Z.max x l = x ∨ foldl Z.max x l ∈ l)
  ∧ x ≤ foldl Z.max x l ∧ ∀ y, y ∈ l → y ≤ foldl Z.max x l.
Proof.
  revert x. induction l as [|z l IH]; intros x; simpl.
  - split; [now left|]. split; [lia|]. intros y Hy. inversion Hy.
  - destruct (IH (Z.max x z)) as (Hin & Hle & Hall). split; [|split].
    + destruct Hin as [Heq|Hin]; [|right; now right].
      rewrite Heq. destruct (Z.max_spec x z) as [[_ ->]|[_ ->]]; [right; now left|now left].
    + lia.
    + intros y [->|Hy]%elem_of_cons; [lia|auto].
Qed.

Lemma foldl_min_spec l x :
  (foldl Z.min x l = x ∨ foldl Z.min x l ∈ l)
  ∧ foldl Z.min x l ≤ x ∧ ∀ y, y ∈ l → foldl Z.min x l ≤ y.
Proof.
  revert x. induction l as [|z l IH]; intros x; simpl.
  - split; [now left|]. split; [lia|]. intros y Hy. inversion Hy.
  - destruct (IH (Z.min x z)) as (Hin & Hle & Hall). split; [|split].
    + destruct Hin as [Heq|Hin]; [|right; now right].
      rewrite Heq. destruct (Z.min_spec x z) as [[_ ->]|[_ ->]]; [now left|right; now left].
    + lia.
    + intros y [->|Hy]%elem_of_cons; [lia|auto].
Qed.

Lemma max_spec l M : max l = Ok M → M ∈ l ∧ ∀ y, y ∈ l → y ≤ M.
Proof.
  destruct l as [|x l]; [done|]. simpl. intros [= <-].
  destruct (foldl_max_spec l x) as ([->|Hin] & Hle & Hall).
  - split; [now left|]. intros y [->|Hy]%elem_of_cons; [lia|].
    specialize (Hall y Hy). lia.
  - split; [now right|]. intros y [->|Hy]%elem_of_cons; auto.
Qed.

Lemma min_spec l M : min l = Ok M → M ∈ l ∧ ∀ y, y ∈ l → M ≤ y.
Proof.
  destruct l as [|x l]; [done|]. simpl. intros [= <-].
  destruct (foldl_min_spec l x) as ([->|Hin] & Hle & Hall).
  - split; [now left|]. intros y [->|Hy]%elem_of_cons; [lia|].
    specialize (Hall y Hy). lia.
  - split; [now right|]. intros y [->|Hy]%elem_of_cons; auto.
Qed.

(** Distinct integers that fit a range of their number fill it. *)
Lemma NoDup_fills_range l a :
  NoDup l → (∀ x, x ∈ l → a ≤ x < a + len l) → l ≡ₚ range a (a + len l).
Proof.
  intros Hnd Hin. apply submseteq_length_Permutation.
  - apply NoDup_submseteq; [done|]. intros x Hx. apply elem_of_range. auto.
  - rewrite length_range. unfold len. lia.
Qed.

Lemma NoDup_slice {A} (l : list A) a b : NoDup l → NoDup (slice l a b).
Proof.
  intros Hnd. unfold slice.
  eapply sublist_NoDup; [|apply sublist_take].
  eapply sublist_NoDup; [done|apply sublist_drop].
Qed.

(** On distinct entries the test of [maximal_interval] holds exactly of
    the windows whose values are consecutive integers. *)
Lemma window_block p j i :
  NoDup p → 0 ≤ j → 0 < i → j + i ≤ len p →
  window p j i ↔ ∃ lo, block p j i lo.
Proof.
  intros Hnd Hj Hi Hn. unfold block.
  pose proof (len_slice p j (j + i) ltac:(lia) Hn) as Hlen.
  replace (j + i - j) with i in Hlen by lia.
  split.
  - intros (hi & lo & Hhi & Hlo & Hdiff). exists lo.
    apply max_spec in Hhi as [_ Hhi]. apply min_spec in Hlo as [_ Hlo].
    rewrite <- Hlen at 2. apply NoDup_fills_range; [now apply NoDup_slice|].
    intros x Hx. specialize (Hhi x Hx). specialize (Hlo x Hx). lia.
  - intros [lo Hperm].
    destruct (max_is_Ok (slice p j (j + i))) as [hi Hhi]; [apply slice_nonempty; lia|].
    destruct (min_is_Ok (slice p j (j + i))) as [lo' Hlo]; [apply slice_nonempty; lia|].
    exists hi, lo'. split; [done|]. split; [done|].
    apply max_spec in Hhi as [Hhi1 Hhi2]. apply min_spec in Hlo as [Hlo1 Hlo2].
    rewrite Hperm in Hhi1, Hlo1. apply elem_of_range in Hhi1, Hlo1.
    assert (lo + i - 1 ≤ hi) by (apply Hhi2; rewrite Hperm; apply elem_of_range; lia).
    assert (lo' ≤ lo) by (apply Hlo2; rewrite Hperm; apply elem_of_range; lia).
    lia.
Qed.

End SimpleFacts.

(** ** Inflation *)

Module InflateFacts.
Import Perm PermFacts IndexFacts.

#[local] Arguments inflate_step : simpl never.

Lemma inflate_unfold self components :
  inflate self components =
    (_ ← assert (bool_decide (len self = len components));
     st ← for_each (range 0 (len self)) (inflate_step self components)
            (CInt <$> self, 0);
     NL_flat ← mapM (fun sl => match sl with
                               | CList l => Ok l
                               | CInt _ => Raise TypeError
                               end) st.1;
     of_seq (concat NL_flat)).
Proof. reflexivity. Qed.

Lemma inflate_step_eq L components entry NL current_entry :
  inflate_step L components entry (NL, current_entry) =
    (index ← Py.index L entry;
     c ← getitem components index;
     block ← mapM (fun i => x ← getitem c i; Ok (x + current_entry))
               (range 0 (len c));
     NL ← setitem NL index (CList block);
     c ← getitem components index;
     Ok (NL, current_entry + len c)).
Proof. reflexivity. Qed.

Lemma offset_nil_r base b : offset base [] b = 0.
Proof. now destruct base. Qed.

Lemma offset_absent base comps e :
  e ∉ base → offset base comps (e + 1) = offset base comps e.
Proof.
  revert comps. induction base as [|v base IH]; intros comps He; [done|].
  destruct comps as [|c comps]; [done|]. simpl.
  apply not_elem_of_cons in He as [Hne He]. rewrite IH by done.
  destruct (decide (v < e + 1)), (decide (v < e)); lia.
Qed.

Lemma offset_succ base comps (pos : nat) e c :
  NoDup base → base !! pos = Some e → comps !! pos = Some c →
  offset base comps (e + 1) = offset base comps e + len c.
Proof.
  revert comps pos. induction base as [|v base IH]; intros comps pos Hnd He Hc; [done|].
  destruct comps as [|c0 comps]; [done|]. apply NoDup_cons in Hnd as [Hv Hnd].
  simpl. destruct pos as [|pos]; simpl in He, Hc.
  - injection He as ->. injection Hc as ->. rewrite offset_absent by done.
    destruct (decide (e < e + 1)), (decide (e < e)); lia.
  - rewrite (IH comps pos) by done.
    assert (v ≠ e) by (intros ->; apply Hv; eapply list_elem_of_lookup_2; done).
    destruct (decide (v < e + 1)), (decide (v < e)); lia.
Qed.

Lemma offset_below base comps e :
  (∀ v, v ∈ base → e ≤ v) → offset base comps e = 0.
Proof.
  revert comps. induction base as [|v base IH]; intros comps He; [done|].
  destruct comps as [|c comps]; [done|]. simpl.
  rewrite IH by (intros; apply He; now right).
  specialize (He v ltac:(now left)). destruct (decide (v < e)); lia.
Qed.

(** The list comprehension that shifts a component. *)
Lemma shift_component (c : list Z) k :
  mapM (fun i => x ← getitem c i; Ok (x + k)) (range 0 (len c))
  = Ok ((λ x, x + k) <$> c).
Proof.
  assert (∀ (pre : list Z) , mapM (fun i => x ← getitem (pre ++ c) i; Ok (x + k))
            (range (len pre) (len pre + len c)) = Ok ((λ x, x + k) <$> c)) as H.
  { induction c as [|y c IH]; intros pre.
    - rewrite range_nil by (unfold len; simpl; lia). done.
    - rewrite range_cons by (unfold len; simpl; lia).
      simpl. rewrite (getitem_lookup _ _ y); [|apply len_nonneg|].
      2:{ unfold len. rewrite Nat2Z.id. now rewrite lookup_app_r, Nat.sub_diag by lia. }
      simpl. specialize (IH (pre ++ [y])). rewrite <- app_assoc in IH. simpl in IH.
      rewrite len_app in IH. change (len [y]) with 1 in IH.
      replace (len pre + len (y :: c)) with (len pre + 1 + len c)
        by (unfold len; simpl; lia).
      rewrite IH. done. }
  specialize (H []). simpl in H. change (len (@nil Z)) with 0 in H. exact H.
Qed.

Lemma cells_untouched base comps e :
  length comps = length base → (∀ v, v ∈ base → e ≤ v) →
  inflate_cells base comps e = CInt <$> base.
Proof.
  unfold inflate_cells. generalize (offset base comps) as off.
  intros off. revert comps. induction base as [|v base IH]; intros comps Hlen He; [done|].
  destruct comps as [|c comps]; [done|]. simpl.
  specialize (He v ltac:(now left)) as Hv.
  rewrite decide_False by lia. f_equal.
  apply IH; [simpl in Hlen; lia|]. intros; apply He; now right.
Qed.

Lemma cells_finished base comps e :
  length comps = length base → (∀ v, v ∈ base → v < e) →
  cell_list <$> inflate_cells base comps e
  = zip_with (λ v c, (λ x, x + offset base comps v) <$> c) base comps
  ∧ Forall (λ sl, ∃ l, sl = CList l) (inflate_cells base comps e).
Proof.
  unfold inflate_cells. generalize (offset base comps) as off.
  intros off. revert comps. induction base as [|v base IH]; intros comps Hlen He.
  { split; [done|constructor]. }
  destruct comps as [|c comps]; [done|]. simpl.
  specialize (He v ltac:(now left)) as Hv.
  rewrite decide_True by lia. simpl.
  destruct (IH comps) as [IH1 IH2]; [simpl in Hlen; lia|intros; apply He; now right|].
  split; [now f_equal|]. constructor; [eauto|done].
Qed.

(** The loop of [inflate], on a permutation [base]. *)
Lemma inflate_loop base comps :
  is_perm base → length comps = length base →
  for_each (range 0 (len base)) (inflate_step base comps) (CInt <$> base, 0)
  = Ok (inflate_cells base comps (len base), offset base comps (len base)).
Proof.
  intros Hp Hlen. pose proof (is_perm_NoDup base Hp) as Hnd.
  destruct (for_each_inv
              (fun pre st => st = (inflate_cells base comps (len pre),
                                   offset base comps (len pre)))
              (range 0 (len base)) (inflate_step base comps) (CInt <$> base, 0))
    as (st & Hrun & Hst).
  - change (len []) with 0. f_equal.
    + symmetry. apply cells_untouched; [done|].
      intros v Hv%(is_perm_elem_of _ _ Hp). lia.
    + symmetry. apply offset_below. intros v Hv%(is_perm_elem_of _ _ Hp). lia.
  - intros pre e st [post Hxs] ->.
    assert (e = len pre ∧ 0 ≤ e < len base) as [-> He].
    { assert (range 0 (len base) !! length pre = Some e) as Hk.
      { rewrite Hxs. now rewrite lookup_app_r, Nat.sub_diag by lia. }
      apply lookup_range in Hk. unfold len in *. lia. }
    assert (len pre ∈ base) as Hin by now apply is_perm_elem_of.
    destruct (index_elem_of _ _ Hin) as (pos & Hidx & Hpos).
    pose proof (lookup_lt_Some _ _ _ Hpos) as Hlt.
    destruct (lookup_lt_is_Some_2 comps pos) as [c Hc]; [lia|].
    rewrite inflate_step_eq, Hidx. simpl.
    rewrite (getitem_nat comps pos c Hc). simpl.
    rewrite shift_component. simpl.
    rewrite setitem_Ok.
    2:{ unfold len, inflate_cells. rewrite length_zip_with. lia. }
    simpl. eexists. split; [done|].
    rewrite len_app. change (len [len pre]) with 1.
    rewrite (offset_succ base comps pos (len pre) c) by done. f_equal.
    rewrite Nat2Z.id. unfold inflate_cells. apply list_eq. intros t.
    rewrite !lookup_zip_with.
    destruct (decide (t = pos)) as [->|Hne].
    + rewrite list_lookup_insert_eq by (rewrite length_zip_with; lia).
      rewrite Hpos, Hc. simpl.
      rewrite decide_True by lia. done.
    + rewrite list_lookup_insert_ne by done. rewrite lookup_zip_with.
      destruct (base !! t) as [v|] eqn:Hv; [|done]. simpl.
      destruct (comps !! t) as [c'|] eqn:Hc'; [|done]. simpl.
      assert (v ≠ len pre) by (intros ->; apply Hne; eapply NoDup_lookup; done).
      destruct (decide (v < len pre)), (decide (v < len pre + 1)); (done || lia).
  - rewrite Hrun, Hst. rewrite len_range by apply len_nonneg.
    now rewrite Z.sub_0_r.
Qed.

(** [inflate] builds the list [inflated] and hands it to the constructor. *)
Lemma inflate_inflated base comps :
  is_perm base → length comps = length base →
  inflate base comps = of_seq (inflated base comps).
Proof.
  intros Hp Hlen. rewrite inflate_unfold.
  rewrite bool_decide_eq_true_2 by (unfold len; lia). simpl.
  rewrite inflate_loop by done. simpl.
  destruct (cells_finished base comps (len base) Hlen) as [Hcells Hall].
  { intros v Hv%(is_perm_elem_of _ _ Hp). lia. }
  rewrite (mapM_Ok _ cell_list).
  - simpl. unfold inflated. now rewrite Hcells.
  - intros sl Hsl. rewrite Forall_forall in Hall.
    destruct (Hall sl Hsl) as [l ->]. done.
Qed.

End InflateFacts.

(** ** The decomposition loop *)

Module DecompositionFacts.
Import Perm PermFacts IntervalFacts SimpleFacts InflateFacts.

#[local] Arguments decomposition_step : simpl never.
#[local] Arguments decomposition_cond : simpl never.

Lemma decomposition_unfold self :
  decomposition self =
    (base ← new (OfPerm self) None;
     components ← mapM (fun _ => of_seq [1]) (range 0 (len base));
     o ← while_return (R := Empty_set) (length self)
           decomposition_cond decomposition_step (base, components);
     match o with
     | inl r => Ok r
     | inr e => match e : Empty_set with end
     end).
Proof. reflexivity. Qed.

(** A [while] loop without [return] whose body keeps an invariant and
    lowers a measure that the fuel covers: it ends, in a state where the
    test fails. *)
Lemma while_return_inv {S} (I : S → Prop) (measure : S → nat)
    (cond : S → res bool) (body : S → res (S + Empty_set)) :
  (∀ s, I s → ∃ b, cond s = Ok b) →
  (∀ s, I s → cond s = Ok true →
     ∃ s', body s = Ok (inl s') ∧ I s' ∧ (measure s' < measure s)%nat) →
  ∀ fuel s, I s → (measure s ≤ fuel)%nat →
    ∃ s', while_return fuel cond body s = Ok (inl s') ∧ I s' ∧ cond s' = Ok false.
Proof.
  intros Hcond Hbody. induction fuel as [|fuel IH]; intros s HI Hm.
  - destruct (Hcond s HI) as [[] Hb].
    + destruct (Hbody s HI Hb) as (s' & _ & _ & Hlt). lia.
    + exists s. simpl. rewrite Hb. done.
  - destruct (Hcond s HI) as [[] Hb].
    + destruct (Hbody s HI Hb) as (s' & Hs' & HI' & Hlt).
      destruct (IH s' HI') as (s'' & Hrun & HI'' & Hc''); [lia|].
      exists s''. simpl. rewrite Hb. simpl. rewrite Hs'. simpl. done.
    + exists s. simpl. rewrite Hb. done.
Qed.

Lemma slice_app_1 {A} (l1 l2 : list A) : slice (l1 ++ l2) 0 (len l1) = l1.
Proof.
  rewrite slice_prefix by (rewrite len_app; pose proof (len_nonneg l1);
                           pose proof (len_nonneg l2); lia).
  unfold len. rewrite Nat2Z.id. now rewrite take_app_length.
Qed.

Lemma slice_app_2 {A} (l1 l2 : list A) :
  slice (l1 ++ l2) (len l1) (len (l1 ++ l2)) = l2.
Proof.
  rewrite slice_suffix by (rewrite len_app; pose proof (len_nonneg l1);
                           pose proof (len_nonneg l2); lia).
  unfold len. rewrite Nat2Z.id. now rewrite drop_app_length.
Qed.

Lemma slice_app_mid {A} (l1 l2 l3 : list A) :
  slice (l1 ++ l2 ++ l3) (len l1) (len l1 + len l2) = l2.
Proof.
  pose proof (len_nonneg l1). pose proof (len_nonneg l2). pose proof (len_nonneg l3).
  rewrite slice_take_drop by (rewrite ?len_app; lia).
  unfold len. rewrite Nat2Z.id, drop_app_length.
  replace (Z.to_nat (Z.of_nat (length l1) + Z.of_nat (length l2) - Z.of_nat (length l1)))
    with (length l2) by lia.
  now rewrite take_app_length.
Qed.

(** A list cut at a window. *)
Lemma split_at_window {A} (l : list A) j i :
  0 ≤ j → 0 ≤ i → j + i ≤ len l →
  ∃ l1 l2 l3, l = l1 ++ l2 ++ l3 ∧ len l1 = j ∧ len l2 = i
              ∧ slice l j (j + i) = l2.
Proof.
  intros Hj Hi Hn.
  exists (take (Z.to_nat j) l), (take (Z.to_nat i) (drop (Z.to_nat j) l)),
    (drop (Z.to_nat i) (drop (Z.to_nat j) l)).
  split; [now rewrite !take_drop|].
  unfold len in *. rewrite !length_take, length_drop.
  split; [lia|]. split; [lia|].
  rewrite slice_take_drop by (unfold len; lia).
  f_equal. lia.
Qed.

Lemma contract_lt lo i x y :
  0 < i → ¬ (lo ≤ x < lo + i) → ¬ (lo ≤ y < lo + i) →
  contract lo i x < contract lo i y ↔ x < y.
Proof.
  intros Hi Hx Hy. unfold contract.
  destruct (decide (x < lo)), (decide (y < lo)); [lia| | |];
    repeat (match goal with |- context [decide ?P] => destruct (decide P) end); lia.
Qed.

Lemma block_elem_of M lo x : M ≡ₚ range lo (lo + len M) → x ∈ M ↔ lo ≤ x < lo + len M.
Proof. intros H. rewrite H at 1. apply elem_of_range. Qed.

Lemma rank_block M lo x :
  M ≡ₚ range lo (lo + len M) →
  rank M x = if decide (x < lo) then 0
             else if decide (x < lo + len M) then x - lo else len M.
Proof.
  intros H. rewrite (rank_Permutation _ _ _ H). pose proof (len_nonneg M).
  destruct (decide (x < lo)); [|destruct (decide (x < lo + len M))].
  - apply rank_all_ge. apply Forall_forall. intros y Hy%elem_of_range. lia.
  - apply rank_range. lia.
  - rewrite rank_all_lt, len_range by
      (try lia; apply Forall_forall; intros y Hy%elem_of_range; lia).
    lia.
Qed.


Lemma decomposition_step_eq base components :
  decomposition_step (base, components) =
    (_ ← assert (bool_decide (len base = len components));
     ij ← maximal_interval base;
     _ ← assert (bool_decide (ij.1 ≠ 0));
     bj ← getitem base ij.2;
     c ← of_seq (slice base ij.2 (ij.1 + ij.2));
     base' ← of_seq ((slice base 0 ij.2 ++ [bj])
                     ++ slice base (ij.1 + ij.2) (len base));
     Ok (inl (base', (slice components 0 ij.2 ++ [c])
                     ++ slice components (ij.1 + ij.2) (len base)))).
Proof.
  unfold decomposition_step.
  destruct (assert _); [|done..]. simpl.
  destruct (maximal_interval base) as [[i j]| |]; done.
Qed.

Section Step.
Context (B1 M' B2 : list Z) (m0 lo : Z) (C1 S C2 : list (list Z)).
Let M := m0 :: M'.
Let base := B1 ++ M ++ B2.
Let comps := C1 ++ S ++ C2.
Let i := len M.
Let j := len B1.
Hypothesis Hperm : is_perm base.
Hypothesis Hblock : M ≡ₚ range lo (lo + i).
Hypothesis HC1 : length C1 = length B1.
Hypothesis HS : length S = length M.
Hypothesis HC2 : length C2 = length B2.

Lemma step_NoDup : NoDup B1 ∧ NoDup M ∧ NoDup B2
  ∧ (∀ x, x ∈ B1 → ¬ (lo ≤ x < lo + i)) ∧ (∀ x, x ∈ B2 → ¬ (lo ≤ x < lo + i)).
Proof.
  pose proof (is_perm_NoDup _ Hperm) as Hnd. unfold base in Hnd.
  apply NoDup_app in Hnd as (H1 & H12 & H23).
  apply NoDup_app in H23 as (H2 & H23 & H3).
  split; [done|]. split; [done|]. split; [done|]. split.
  - intros x Hx Hr. apply (H12 x Hx). apply elem_of_app. left.
    now apply (block_elem_of M lo x Hblock).
  - intros x Hx Hr. apply (H23 x); [|done].
    now apply (block_elem_of M lo x Hblock).
Qed.

Lemma step_m0 : lo ≤ m0 < lo + i.
Proof. apply (block_elem_of M lo m0 Hblock). now left. Qed.

Lemma step_len_base : len base = j + i + len B2.
Proof. unfold base. rewrite !len_app. fold i j. lia. Qed.

(** The standardization of the contracted list. *)
Lemma step_new_base :
  of_seq ((B1 ++ [m0]) ++ B2) = Ok (contract lo i <$> (B1 ++ [m0] ++ B2)).
Proof using Hperm Hblock.
  clear HC1 HS HC2.
  destruct step_NoDup as (H1 & H2 & H3 & H1r & H2r).
  pose proof step_m0 as Hm0. pose proof (len_nonneg M') as HM'.
  assert (i = 1 + len M') as Hi by (unfold i, M, len; simpl; lia).
  rewrite <- app_assoc.
  assert (B1 ++ [m0] ++ B2 `sublist_of` base) as Hsub.
  { unfold base, M. apply sublist_app; [done|]. simpl. apply sublist_skip.
    apply sublist_inserts_l. done. }
  rewrite of_seq_standardize, standardize_NoDup
    by (eapply sublist_NoDup; [apply (is_perm_NoDup _ Hperm)|done]).
  f_equal. apply list_fmap_ext. intros _ x Hx%list_elem_of_lookup_2.
  assert (x ∈ base) as Hxb.
  { eapply elem_of_sublist; done. }
  apply (is_perm_elem_of _ _ Hperm) in Hxb.
  pose proof (is_perm_rank base x Hperm ltac:(lia)) as Hrk.
  unfold base in Hrk. rewrite !rank_app, (rank_block M lo x Hblock) in Hrk. fold i in Hrk.
  rewrite !rank_app, rank_cons. change (rank [] x) with 0. unfold contract.
  assert (¬ (lo ≤ x < lo + i) ∨ x = m0) as Hcase.
  { apply elem_of_app in Hx as [Hx|Hx]; [left; auto|].
    apply elem_of_cons in Hx as [->|Hx]; [now right|left; auto]. }
  destruct (decide (x < lo)); [destruct (decide (m0 < x)); lia|].
  destruct (decide (x < lo + i)); destruct (decide (m0 < x)); lia.
Qed.

(** The standardization of the interval. *)
Lemma step_interval : of_seq M = Ok ((λ x, x - lo) <$> M).
Proof using Hperm Hblock.
  clear HC1 HS HC2.
  destruct step_NoDup as (_ & H2 & _).
  rewrite of_seq_standardize, standardize_NoDup by done.
  f_equal. apply list_fmap_ext. intros _ x Hx%list_elem_of_lookup_2.
  apply (block_elem_of M lo x Hblock) in Hx. fold i in Hx.
  rewrite (rank_block M lo x Hblock). fold i.
  destruct (decide (x < lo)); [lia|]. destruct (decide (x < lo + i)); lia.
Qed.

(** One iteration of the loop of [decomposition] when [maximal_interval]
    returns the window [M]. *)
Lemma step_run :
  maximal_interval base = Ok (i, j) →
  decomposition_step (base, comps)
  = Ok (inl (contract lo i <$> (B1 ++ [m0] ++ B2),
             C1 ++ [(λ x, x - lo) <$> M] ++ C2)).
Proof.
  intros Hmax. rewrite decomposition_step_eq, Hmax. simpl.
  assert (len base = len comps) as Hlen.
  { unfold base, comps, len. rewrite !length_app. lia. }
  assert (0 < i) as Hi by (unfold i, M, len; simpl; lia).
  rewrite bool_decide_eq_true_2 by done. simpl.
  rewrite ?bool_decide_eq_true_2 by lia. simpl.
  assert (getitem base j = Ok m0) as ->.
  { apply getitem_lookup; [apply len_nonneg|]. unfold j, len, base.
    rewrite Nat2Z.id. now rewrite lookup_app_r, Nat.sub_diag by lia. }
  simpl.
  assert (slice base j (i + j) = M) as ->.
  { rewrite (Z.add_comm i j). apply slice_app_mid. }
  rewrite step_interval. simpl.
  assert (slice base 0 j = B1) as -> by apply slice_app_1.
  assert (slice base (i + j) (len base) = B2) as ->.
  { unfold base. rewrite (app_assoc B1 M B2).
    replace (i + j) with (len (B1 ++ M)) by (rewrite len_app; fold i j; lia).
    apply slice_app_2. }
  rewrite step_new_base. simpl.
  assert (slice comps 0 j = C1) as ->.
  { unfold j. replace (len B1) with (len C1) by (unfold len; lia). apply slice_app_1. }
  assert (slice comps (i + j) (len base) = C2) as ->.
  { rewrite Hlen. unfold comps. rewrite (app_assoc C1 S C2).
    replace (i + j) with (len (C1 ++ S))
      by (rewrite len_app; unfold i, j, len; lia).
    apply slice_app_2. }
  now rewrite <- !app_assoc.
Qed.

End Step.


Lemma offset_app B1 B2 (C1 C2 : list (list Z)) b :
  length C1 = length B1 →
  offset (B1 ++ B2) (C1 ++ C2) b = offset B1 C1 b + offset B2 C2 b.
Proof.
  revert C1. induction B1 as [|v B1 IH]; intros C1 Hlen.
  - destruct C1; [done|discriminate].
  - destruct C1 as [|c C1]; [discriminate|]. simpl in *.
    rewrite IH by lia. lia.
Qed.

Lemma offset_singletons M (S : list (list Z)) b :
  Forall (λ c, c = [0]) S → length S = length M → offset M S b = rank M b.
Proof.
  intros HS. revert M. induction HS as [|c S -> _ IH]; intros M Hlen.
  - destruct M; [done|discriminate].
  - destruct M as [|v M]; [discriminate|]. simpl in *.
    rewrite rank_cons, IH by lia. done.
Qed.

Lemma offset_fmap (f : Z → Z) B (C : list (list Z)) b b' :
  (∀ y, y ∈ B → f y < b' ↔ y < b) → offset (f <$> B) C b' = offset B C b.
Proof.
  revert C. induction B as [|v B IH]; intros C Hf; [done|].
  destruct C as [|c C]; [done|]. simpl.
  rewrite IH by (intros; apply Hf; now right).
  pose proof (Hf v ltac:(now left)).
  destruct (decide (f v < b')), (decide (v < b)); tauto || lia.
Qed.

Lemma offset_ext B (C : list (list Z)) b b' :
  (∀ y, y ∈ B → y < b' ↔ y < b) → offset B C b' = offset B C b.
Proof.
  intros H. rewrite <- (offset_fmap id B C b b') by done.
  now rewrite list_fmap_id.
Qed.

Lemma zip_with_fmap_ext {A B C} (g g' : A → B → C) (f : A → A) (l : list A) (k : list B) :
  (∀ v c, v ∈ l → g' (f v) c = g v c) →
  zip_with g' (f <$> l) k = zip_with g l k.
Proof.
  revert k. induction l as [|v l IH]; intros k H; [done|].
  destruct k as [|c k]; [done|]. simpl.
  rewrite H by left. f_equal. apply IH. intros; apply H; now right.
Qed.

Lemma concat_zip_singletons (g : Z → Z) M (S : list (list Z)) :
  Forall (λ c, c = [0]) S → length S = length M →
  concat (zip_with (λ v c, (λ x, x + g v) <$> c) M S) = g <$> M.
Proof.
  intros HS. revert M. induction HS as [|c S -> _ IH]; intros M Hlen.
  - destruct M; [done|discriminate].
  - destruct M as [|v M]; [discriminate|]. simpl in *.
    rewrite IH by lia. done.
Qed.

Lemma concat_zip_one (g : Z → Z) v (c : list Z) :
  concat (zip_with (λ v c, (λ x, x + g v) <$> c) [v] [c]) = (λ x, x + g v) <$> c.
Proof. simpl. apply app_nil_r. Qed.

Lemma contract_m0 M' m0 lo :
  m0 :: M' ≡ₚ range lo (lo + len (m0 :: M')) →
  contract lo (len (m0 :: M')) m0 = lo.
Proof.
  intros Hblock. pose proof (step_m0 M' m0 lo Hblock). unfold contract.
  repeat case_decide; lia.
Qed.

Section StepInflated.
Context (B1 M' B2 : list Z) (m0 lo : Z) (C1 S C2 : list (list Z)).
Let M := m0 :: M'.
Let base := B1 ++ M ++ B2.
Let comps := C1 ++ S ++ C2.
Let i := len M.
Hypothesis Hperm : is_perm base.
Hypothesis Hblock : M ≡ₚ range lo (lo + i).
Hypothesis HC1 : length C1 = length B1.
Hypothesis HS : length S = length M.
Hypothesis HC2 : length C2 = length B2.
Hypothesis Hsingle : Forall (λ c, c = [0]) S.

Let base' := contract lo i <$> (B1 ++ [m0] ++ B2).
Let comps' := C1 ++ [(λ x, x - lo) <$> M] ++ C2.

Lemma offset_old b :
  offset base comps b = offset B1 C1 b + rank M b + offset B2 C2 b.
Proof.
  unfold base, comps. rewrite offset_app by done.
  rewrite offset_app by done. rewrite (offset_singletons M S) by done. lia.
Qed.

Lemma offset_new b :
  offset base' comps' b
  = offset (contract lo i <$> B1) C1 b + (if decide (lo < b) then i else 0)
    + offset (contract lo i <$> B2) C2 b.
Proof.
  unfold base', comps'. rewrite !fmap_app.
  rewrite offset_app by now rewrite length_fmap.
  change (contract lo i <$> [m0]) with [contract lo i m0].
  rewrite (offset_app [_] _ [_]) by done.
  change (offset [contract lo i m0] [(λ x, x - lo) <$> M] b)
    with ((if decide (contract lo i m0 < b) then len ((λ x, x - lo) <$> M) else 0) + 0).
  pose proof (contract_m0 M' m0 lo Hblock) as Hc0. fold M i in Hc0. rewrite Hc0.
  assert (len ((λ x, x - lo) <$> M) = i) as ->.
  { unfold i, len. now rewrite length_fmap. }
  lia.
Qed.

(** The block of an entry outside the interval starts where it did. *)
Lemma offset_outside v :
  ¬ (lo ≤ v < lo + i) → offset base' comps' (contract lo i v) = offset base comps v.
Proof.
  intros Hv.
  destruct (step_NoDup B1 M' B2 m0 lo Hperm Hblock) as (_ & _ & _ & H1r & H2r).
  fold M i in H1r, H2r.
  assert (0 < i) as Hi by (unfold i, M, len; simpl; lia).
  rewrite offset_new, offset_old.
  rewrite (offset_fmap _ B1 C1 v) by (intros; apply contract_lt; auto).
  rewrite (offset_fmap _ B2 C2 v) by (intros; apply contract_lt; auto).
  rewrite (rank_block M lo v Hblock). fold i. unfold contract.
  repeat case_decide; lia.
Qed.

(** The block of the interval starts where the least of its entries
    did. *)
Lemma offset_inside v :
  lo ≤ v < lo + i →
  offset base comps v = v - lo + offset base' comps' lo.
Proof.
  intros Hv.
  destruct (step_NoDup B1 M' B2 m0 lo Hperm Hblock) as (_ & _ & _ & H1r & H2r).
  fold M i in H1r, H2r.
  assert (0 < i) as Hi by (unfold i, M, len; simpl; lia).
  rewrite offset_new, offset_old.
  rewrite (offset_fmap _ B1 C1 v).
  2:{ intros y Hy%H1r. unfold contract.
      destruct (decide (y < lo)); [lia|]. destruct (decide (y < lo + i)); lia. }
  rewrite (offset_fmap _ B2 C2 v).
  2:{ intros y Hy%H2r. unfold contract.
      destruct (decide (y < lo)); [lia|]. destruct (decide (y < lo + i)); lia. }
  rewrite (rank_block M lo v Hblock). fold i.
  repeat case_decide; lia.
Qed.

(** Contracting an interval of singletons does not change the
    inflation. *)
Lemma step_inflated : inflated base' comps' = inflated base comps.
Proof.
  destruct (step_NoDup B1 M' B2 m0 lo Hperm Hblock) as (_ & _ & _ & H1r & H2r).
  fold M i in H1r, H2r.
  unfold inflated.
  set (off := offset base comps). set (off' := offset base' comps').
  unfold base', comps', base, comps.
  rewrite !fmap_app.
  rewrite !zip_with_app by (rewrite ?length_fmap; done).
  rewrite !concat_app. f_equal; [|f_equal].
  - f_equal. apply zip_with_fmap_ext. intros v c Hv%H1r.
    unfold off, off'. now rewrite offset_outside.
  - rewrite (concat_zip_singletons off) by done.
    change (contract lo i <$> [m0]) with [contract lo i m0].
    pose proof (contract_m0 M' m0 lo Hblock) as Hc0. fold M i in Hc0.
    rewrite Hc0, (concat_zip_one off').
    rewrite <- list_fmap_compose. apply list_fmap_ext.
    intros _ v Hv%list_elem_of_lookup_2. simpl.
    apply (block_elem_of M lo v Hblock) in Hv. fold i in Hv.
    unfold off, off'. rewrite (offset_inside v Hv). lia.
  - f_equal. apply zip_with_fmap_ext. intros v c Hv%H2r.
    unfold off, off'. now rewrite offset_outside.
Qed.

End StepInflated.


Lemma slice_fmap {A B} (f : A → B) (l : list A) a b :
  slice (f <$> l) a b = f <$> slice l a b.
Proof.
  unfold slice, len. rewrite length_fmap. now rewrite fmap_take, fmap_drop.
Qed.

Lemma slice_app_l {A} (l1 l2 : list A) a b :
  0 ≤ a ≤ b → b ≤ len l1 → slice (l1 ++ l2) a b = slice l1 a b.
Proof.
  intros Ha Hb. pose proof (len_nonneg l2).
  rewrite !slice_take_drop by (rewrite ?len_app; lia).
  unfold len in *. rewrite drop_app_le by lia.
  rewrite take_app_le by (rewrite length_drop; lia). done.
Qed.

Lemma slice_app_r {A} (l1 l2 : list A) a b :
  len l1 ≤ a ≤ b → b ≤ len (l1 ++ l2) →
  slice (l1 ++ l2) a b = slice l2 (a - len l1) (b - len l1).
Proof.
  intros Ha Hb. pose proof (len_nonneg l1). rewrite len_app in Hb.
  rewrite !slice_take_drop by (rewrite ?len_app; lia).
  unfold len in *. rewrite drop_app_ge by lia.
  f_equal; [lia|f_equal; lia].
Qed.

Lemma slice_app_across {A} (l1 l2 : list A) a b :
  0 ≤ a ≤ len l1 → len l1 ≤ b → b ≤ len (l1 ++ l2) →
  slice (l1 ++ l2) a b = slice l1 a (len l1) ++ slice l2 0 (b - len l1).
Proof.
  intros Ha Hb Hn. rewrite len_app in Hn.
  rewrite !slice_take_drop by (rewrite ?len_app; lia).
  unfold len in *. rewrite drop_app_le by lia.
  rewrite take_app_ge by (rewrite length_drop; lia).
  rewrite length_drop. change (Z.to_nat 0) with 0%nat. rewrite drop_0.
  f_equal.
  - symmetry. apply take_ge. rewrite length_drop. lia.
  - f_equal. lia.
Qed.

Lemma elem_of_slice {A} (l : list A) a b x : x ∈ slice l a b → x ∈ l.
Proof.
  unfold slice. intros Hx.
  eapply elem_of_sublist; [|apply sublist_drop].
  eapply elem_of_sublist; [done|apply sublist_take].
Qed.

(** A window away from the contracted interval: if its contraction is a
    run of consecutive integers, so is the window. *)
Lemma uncontract_block lo i X lo' :
  0 < i → NoDup X → 0 < len X → (∀ x, x ∈ X → ¬ (lo ≤ x < lo + i)) →
  contract lo i <$> X ≡ₚ range lo' (lo' + len X) →
  ∃ lo'', X ≡ₚ range lo'' (lo'' + len X).
Proof.
  intros Hi Hnd Hlen Hout Hperm.
  assert (∀ x, x ∈ X → lo' ≤ contract lo i x < lo' + len X) as Hin.
  { intros x Hx. apply elem_of_range. rewrite <- Hperm.
    apply list_elem_of_fmap. eauto. }
  assert (∀ x, x ∈ X → contract lo i x ≠ lo) as Hne.
  { intros x Hx%Hout. unfold contract. repeat case_decide; lia. }
  assert (lo < lo' ∨ lo' + len X ≤ lo) as [Hlo|Hlo].
  { destruct (decide (lo' ≤ lo < lo' + len X)) as [Hr|]; [|lia].
    apply elem_of_range in Hr. rewrite <- Hperm in Hr.
    apply list_elem_of_fmap in Hr as (x & Hx1 & Hx2). symmetry in Hx1.
    now apply Hne in Hx1. }
  - exists (lo' + i - 1). apply NoDup_fills_range; [done|].
    intros x Hx. pose proof (Hin x Hx) as H1. pose proof (Hout x Hx) as H2.
    unfold contract in H1. repeat case_decide; lia.
  - exists lo'. apply NoDup_fills_range; [done|].
    intros x Hx. pose proof (Hin x Hx) as H1. pose proof (Hout x Hx) as H2.
    unfold contract in H1. repeat case_decide; lia.
Qed.

Section StepIntervals.
Context (B1 M' B2 : list Z) (m0 lo : Z) (C1 S C2 : list (list Z)).
Let M := m0 :: M'.
Let base := B1 ++ M ++ B2.
Let comps := C1 ++ S ++ C2.
Let i := len M.
Let j := len B1.
Hypothesis Hperm : is_perm base.
Hypothesis Hblock : M ≡ₚ range lo (lo + i).
Hypothesis HC1 : length C1 = length B1.
Hypothesis HS : length S = length M.
Hypothesis HC2 : length C2 = length B2.
Hypothesis Hmax : ∀ i' j', i < i' ≤ len base - 1 → 0 ≤ j' ≤ len base - i' →
                           ¬ window base j' i'.
Hypothesis Hsingle : singletons_in_intervals base comps.

Let nb := B1 ++ [m0] ++ B2.
Let base' := contract lo i <$> nb.
Let comps' := C1 ++ [(λ x, x - lo) <$> M] ++ C2.

Lemma step_is_perm : is_perm base'.
Proof.
  pose proof (step_new_base B1 M' B2 m0 lo Hperm Hblock) as Hnew.
  rewrite <- app_assoc in Hnew. fold M i nb base' in Hnew.
  assert (NoDup nb) as Hnd.
  { eapply sublist_NoDup; [apply (is_perm_NoDup _ Hperm)|].
    unfold nb, base, M. apply sublist_app; [done|]. simpl. apply sublist_skip.
    apply sublist_inserts_l. done. }
  rewrite of_seq_standardize, standardize_NoDup in Hnew by done.
  injection Hnew as <-. now apply rank_is_perm.
Qed.

Lemma step_lengths :
  0 < i ∧ 0 ≤ j ∧ len base = j + i + len B2 ∧ len base' = j + 1 + len B2
  ∧ len nb = j + 1 + len B2 ∧ 0 ≤ len B2.
Proof.
  unfold base', nb, base, i, j, M, len.
  rewrite length_fmap, !length_app. simpl. lia.
Qed.

(** Side conditions on the lengths of the pieces. *)
Local Ltac lens :=
  rewrite ?len_app;
  repeat match goal with |- context [len [?x]] => change (len [x]) with 1 end;
  repeat match goal with M := _ :: _ : list Z |- _ => fold M end;
  repeat match goal with i := len _ : Z |- _ => fold i end;
  lia.

Lemma step_intervals : singletons_in_intervals base' comps'.
Proof.
  destruct step_lengths as (Hi & Hj & Hlb & Hlb' & Hlnb & HlB2).
  destruct (step_NoDup B1 M' B2 m0 lo Hperm Hblock) as (_ & _ & _ & H1r & H2r).
  fold M i in H1r, H2r.
  pose proof (is_perm_NoDup _ Hperm) as Hnd.
  pose proof (is_perm_NoDup _ step_is_perm) as Hnd'.
  intros a l Hl Ha Hal Hw t Ht.
  apply (window_block base' a l Hnd' Ha ltac:(lia) Hal) in Hw as [lo' Hw].
  unfold block in Hw. unfold base' in Hw at 1. rewrite slice_fmap in Hw.
  destruct (decide (a + l ≤ j)) as [Hleft|Hnl]; [|destruct (decide (j < a)) as [Hright|Hin]].
  - (* the window lies before the contracted entry *)
    assert (slice nb a (a + l) = slice base a (a + l)) as HX.
    { unfold nb, base. rewrite !slice_app_l by lens. done. }
    rewrite HX in Hw.
    assert (len (slice base a (a + l)) = l) as Hlen
      by (rewrite len_slice by lia; lia).
    rewrite <- Hlen in Hw at 2.
    apply uncontract_block in Hw as [lo'' Hw]; [|done|now apply NoDup_slice|lia|].
    2:{ intros x Hx. apply H1r. unfold base in Hx.
        rewrite slice_app_l in Hx by lens. eapply elem_of_slice, Hx. }
    rewrite Hlen in Hw.
    assert (comps !! t = Some [0]) as Hc.
    { apply (Hsingle a l); [lia|lia|lia| |lia].
      apply window_block; [done|lia|lia|lia|]. now exists lo''. }
    unfold comps' , comps in *. rewrite lookup_app_l in Hc |- * by (unfold j, len in *; lia).
    done.
  - (* the window lies after the contracted entry *)
    assert (slice nb a (a + l) = slice base (a + i - 1) (a + i - 1 + l)) as HX.
    { unfold nb, base. rewrite !(slice_app_r B1) by lens.
      fold j. rewrite (slice_app_r [m0]) by lens.
      rewrite (slice_app_r M) by lens.
      fold i. change (len [m0]) with 1. f_equal; lia. }
    rewrite HX in Hw.
    assert (len (slice base (a + i - 1) (a + i - 1 + l)) = l) as Hlen
      by (rewrite len_slice by lia; lia).
    rewrite <- Hlen in Hw at 2.
    apply uncontract_block in Hw as [lo'' Hw]; [|done|now apply NoDup_slice|lia|].
    2:{ intros x Hx. apply H2r. rewrite <- HX in Hx. unfold nb in Hx.
        rewrite (slice_app_r B1) in Hx by lens.
        fold j in Hx.
        rewrite (slice_app_r [m0]) in Hx by lens.
        eapply elem_of_slice, Hx. }
    rewrite Hlen in Hw.
    assert (comps !! Z.to_nat (Z.of_nat t + i - 1) = Some [0]) as Hc.
    { apply (Hsingle (a + i - 1) l); [lia|lia|lia| |lia].
      apply window_block; [done|lia|lia|lia|]. now exists lo''. }
    unfold comps', comps in *.
    rewrite lookup_app_r in Hc |- * by (unfold i, j, len in *; lia).
    rewrite lookup_app_r in Hc by (unfold i, j, len in *; lia).
    rewrite lookup_app_r by (unfold i, j, len in *; simpl; lia).
    rewrite <- Hc. f_equal. unfold i, j, M, len in *. simpl in *. lia.
  - (* the window covers the contracted entry: a longer window of [base]
       would be an interval *)
    exfalso.
    assert (slice nb a (a + l) = slice B1 a j ++ [m0] ++ slice B2 0 (a + l - j - 1)) as HX.
    { unfold nb. rewrite slice_app_across by lens.
      fold j. f_equal.
      rewrite (slice_app_across [m0]) by lens.
      change (len [m0]) with 1. change (slice [m0] 0 1) with [m0]. done. }
    assert (slice base a (a + l + i - 1) = slice B1 a j ++ M ++ slice B2 0 (a + l - j - 1)) as HW.
    { unfold base. rewrite slice_app_across by lens.
      fold j. f_equal.
      rewrite (slice_app_across M) by lens.
      fold i. f_equal; [|f_equal; lia].
      rewrite slice_take_drop by (fold i; lia).
      rewrite Z.sub_0_r. change (Z.to_nat 0) with 0%nat. rewrite drop_0.
      apply take_ge. unfold i, len. lia. }
    apply (Hmax (l + i - 1) a); [lia|lia|].
    apply window_block; [done|lia|lia|lia|]. exists lo'.
    unfold block. replace (a + (l + i - 1)) with (a + l + i - 1) by lia.
    assert (len (slice base a (a + l + i - 1)) = l + i - 1) as Hlen
      by (rewrite len_slice by lia; lia).
    rewrite <- Hlen at 1. apply NoDup_fills_range; [now apply NoDup_slice|].
    rewrite Hlen.
    assert (∀ x, x ∈ slice nb a (a + l) → lo' ≤ contract lo i x < lo' + l) as Hin'.
    { intros x Hx. apply elem_of_range. rewrite <- Hw.
      apply list_elem_of_fmap. eauto. }
    assert (lo' ≤ lo < lo' + l) as Hlo.
    { rewrite <- (contract_m0 M' m0 lo Hblock). fold M i. apply Hin'.
      rewrite HX. apply elem_of_app. right. now left. }
    assert (∀ x, x ∈ slice nb a (a + l) → ¬ (lo ≤ x < lo + i) →
                 lo' ≤ x < lo' + (l + i - 1)) as Hout.
    { intros x Hx Hr. specialize (Hin' x Hx). unfold contract in Hin'.
      repeat case_decide; lia. }
    intros x. rewrite HW. intros [Hx|[Hx|Hx]%elem_of_app]%elem_of_app.
    + apply Hout; [rewrite HX; apply elem_of_app; now left|].
      apply H1r. eapply elem_of_slice, Hx.
    + apply (block_elem_of M lo x Hblock) in Hx. fold i in Hx. lia.
    + apply Hout; [rewrite HX; apply elem_of_app; right; now right|].
      apply H2r. eapply elem_of_slice, Hx.
Qed.

End StepIntervals.


Lemma decomposition_cond_eq base comps :
  decomposition_cond (base, comps) = (s ← is_simple base; Ok (negb s)).
Proof. reflexivity. Qed.

Lemma decomposition_cond_total st : ∃ b, decomposition_cond st = Ok b.
Proof.
  destruct st as [base comps]. rewrite decomposition_cond_eq.
  destruct (is_simple_cases base) as [(-> & _)|(-> & _)]; simpl; eauto.
Qed.

(** One iteration of the loop of [decomposition] keeps the invariant and
    shortens [base]. *)
Lemma decomposition_loop_step self st :
  decomposition_inv self st → decomposition_cond st = Ok true →
  ∃ st', decomposition_step st = Ok (inl st') ∧ decomposition_inv self st'
         ∧ (length st'.1 < length st.1)%nat.
Proof.
  destruct st as [base comps]. intros (Hperm & Hlen & Hsingle & Hinfl) Hcond.
  rewrite decomposition_cond_eq in Hcond.
  destruct (is_simple_cases base)
    as [(Hs & _)|(Hs & i & j & Hmaxi & Hi & Hj & Hw & Hmax & _)];
    rewrite Hs in Hcond; [discriminate|]. clear Hcond Hs.
  pose proof (is_perm_NoDup _ Hperm) as Hnd.
  destruct (split_at_window base j i) as (B1 & M & B2 & Hbase & HB1 & HM & Hslice);
    [lia..|].
  destruct (split_at_window comps j i) as (C1 & S & C2 & Hcomps & HC1 & HS & _);
    [unfold len in *; lia..|].
  destruct M as [|m0 M']; [unfold len in HM; simpl in HM; lia|].
  apply (window_block base j i Hnd) in Hw as [lo Hblock]; [|lia..].
  unfold block in Hblock. rewrite Hslice in Hblock.
  assert (length C1 = length B1) as HC1' by (unfold len in *; lia).
  assert (length S = length (m0 :: M')) as HS' by (unfold len in *; lia).
  assert (length C2 = length B2) as HC2'.
  { apply (f_equal length) in Hbase, Hcomps. rewrite !length_app in Hbase, Hcomps. lia. }
  assert (Forall (λ c, c = [0]) S) as Hall.
  { apply Forall_lookup. intros k c Hk.
    pose proof (lookup_lt_Some _ _ _ Hk) as Hklt.
    assert (comps !! (length C1 + k)%nat = Some [0]) as Hc.
    { apply (Hsingle j i); [lia|lia|lia| |unfold len in *; lia].
      apply window_block; [done|lia..|]. exists lo. unfold block. now rewrite Hslice. }
    rewrite Hcomps, lookup_app_r, lookup_app_l in Hc by lia.
    replace (length C1 + k - length C1)%nat with k in Hc by lia. congruence. }
  subst base comps i j.
  eexists. split; [apply (step_run B1 M' B2 m0 lo C1 S C2); done|].
  split.
  2:{ simpl. rewrite length_fmap, !length_app. simpl. rewrite !length_app.
      unfold len in Hi. simpl in Hi. lia. }
  split; [apply (step_is_perm B1 M' B2 m0 lo); done|].
  split; [rewrite length_fmap, !length_app; simpl; lia|].
  split; [apply (step_intervals B1 M' B2 m0 lo C1 S C2); done|].
  rewrite (step_inflated B1 M' B2 m0 lo C1 S C2); done.
Qed.

(** The state in which the loop of [decomposition] starts. *)
Lemma decomposition_start self :
  is_perm self →
  mapM (fun _ : Z => of_seq [1]) (range 0 (len self))
    = Ok ((λ _, [0]) <$> range 0 (len self))
  ∧ decomposition_inv self (self, (λ _, [0]) <$> range 0 (len self)).
Proof.
  intros Hperm. split; [now apply mapM_Ok|].
  set (comps := (λ _ : Z, [0]) <$> range 0 (len self)).
  assert (length comps = length self) as Hlen.
  { unfold comps. rewrite length_fmap, length_range. unfold len. lia. }
  assert (Forall (λ c, c = [0]) comps) as Hall.
  { apply Forall_fmap, Forall_forall. done. }
  split; [done|]. split; [done|]. split.
  - intros a l Hl Ha Hal _ t Ht. unfold comps.
    rewrite list_lookup_fmap.
    rewrite (proj2 (lookup_range 0 (len self) t (Z.of_nat t))) by lia. done.
  - unfold inflated. rewrite concat_zip_singletons by done.
    apply fmap_id_on. intros v Hv. rewrite offset_singletons by done.
    apply is_perm_rank; [done|]. apply (is_perm_elem_of _ _ Hperm) in Hv. lia.
Qed.

(** [decomposition] returns, on every permutation: the base is simple and
    inflating it by the components gives the permutation back. *)
Lemma decomposition_spec self :
  is_perm self →
  ∃ base comps, decomposition self = Ok (base, comps)
    ∧ is_perm base ∧ length comps = length base
    ∧ is_simple base = Ok true
    ∧ inflate base comps = Ok self.
Proof.
  intros Hperm. rewrite decomposition_unfold. simpl.
  destruct (decomposition_start self Hperm) as [-> Hinv]. simpl.
  destruct (while_return_inv (decomposition_inv self) (λ st, length st.1)
              decomposition_cond decomposition_step
              (λ st _, decomposition_cond_total st) (decomposition_loop_step self)
              (length self) _ Hinv ltac:(done))
    as ([base comps] & -> & (Hp & Hlen & _ & Hinfl) & Hcond).
  exists base, comps. simpl. split; [done|]. split; [done|]. split; [done|].
  split.
  - rewrite decomposition_cond_eq in Hcond.
    destruct (is_simple base) as [[]| |]; simpl in Hcond; congruence.
  - rewrite inflate_inflated, Hinfl by done. now apply of_seq_is_perm.
Qed.

End DecompositionFacts.

(** ** Occurrences of a pattern *)

Module OccurrenceFacts.
Import Perm PermFacts.

Lemma rank_lt_iff L x y : x ∈ L → rank L x < rank L y ↔ x < y.
Proof.
  intros Hx. split; [|now apply rank_strict].
  intros Hr. destruct (decide (x < y)); [done|].
  pose proof (rank_mono L y x ltac:(lia)). lia.
Qed.

(** Ranks only depend on the relative order. *)
Lemma rank_iso (s q : list Z) x y :
  length s = length q →
  (∀ b : nat, (b < length q)%nat → s !!! b < x ↔ q !!! b < y) →
  rank s x = rank q y.
Proof.
  revert q. induction s as [|u s IH]; intros q Hlen Hiso.
  - destruct q; [done|discriminate].
  - destruct q as [|v q]; [discriminate|]. rewrite !rank_cons.
    rewrite (IH q).
    + pose proof (Hiso 0%nat ltac:(simpl; lia)) as H0. simpl in H0.
      destruct (decide (u < x)), (decide (v < y)); tauto || lia.
    + simpl in Hlen. lia.
    + intros b Hb. apply (Hiso (S b)). simpl. lia.
Qed.

(** The standardization of [s] is the permutation [q] exactly when [s] is
    in the relative order of [q]. *)
Lemma standardize_order_iso q s :
  is_perm q → NoDup s → standardize s = Ok q ↔ order_iso q s.
Proof.
  intros Hq Hnd. rewrite standardize_NoDup by done. split.
  - intros [= <-]. split; [now rewrite length_fmap|].
    rewrite length_fmap. intros a b Ha Hb.
    rewrite (list_lookup_total_fmap (rank s) s a), (list_lookup_total_fmap (rank s) s b) by done.
    apply rank_lt_iff. apply list_elem_of_lookup_total_2. done.
  - intros [Hlen Hiso]. f_equal. apply list_eq_same_length with (length q);
      [done|now rewrite length_fmap|].
    intros a x y Ha Hx Hy.
    rewrite list_lookup_fmap in Hx.
    rewrite (list_lookup_lookup_total_lt s a) in Hx by lia.
    rewrite (list_lookup_lookup_total_lt q a) in Hy by lia.
    simpl in Hx. injection Hx as <-. injection Hy as <-.
    rewrite (rank_iso s q (s !!! a) (q !!! a) Hlen).
    + apply is_perm_rank; [done|].
      assert (q !!! a ∈ q) as Hin by now apply list_elem_of_lookup_total_2.
      apply (is_perm_elem_of _ _ Hq) in Hin. lia.
    + intros b Hb. symmetry. apply Hiso; done.
Qed.

Lemma host_values_cons P x sol :
  host_values P (x :: sol) = (P !!! Z.to_nat x) :: host_values P sol.
Proof. done. Qed.

(** Positions of [x :: P] past the first are positions of [P]. *)
Lemma host_values_shift x P sol :
  Forall (λ y, 1 ≤ y) sol →
  host_values (x :: P) sol = host_values P ((λ y, y - 1) <$> sol).
Proof.
  intros Hall. unfold host_values. rewrite <- list_fmap_compose.
  apply list_fmap_ext. intros _ y Hy%list_elem_of_lookup_2. simpl.
  rewrite Forall_forall in Hall. specialize (Hall y Hy).
  replace (Z.to_nat y) with (S (Z.to_nat (y - 1))) by lia. done.
Qed.

Lemma index_list_shift_down (x : Z) (P : list Z) sol :
  Forall (λ y, 1 ≤ y) sol → index_list (len (x :: P)) sol →
  index_list (len P) ((λ y, y - 1) <$> sol).
Proof.
  intros Hall [Hs Hr]. split.
  - clear Hall Hr. induction Hs as [|y sol Hs IH Hy]; [constructor|].
    rewrite fmap_cons. constructor; [done|].
    apply Forall_fmap. eapply Forall_impl; [done|]. simpl. intros; lia.
  - apply Forall_fmap. rewrite Forall_forall in *. intros y Hy. simpl.
    specialize (Hall y Hy). specialize (Hr y Hy).
    unfold len in *. simpl in Hr. lia.
Qed.

Lemma index_list_shift_up (x : Z) (P : list Z) sol :
  index_list (len P) sol → index_list (len (x :: P)) ((λ y, y + 1) <$> sol)
  ∧ Forall (λ y, 1 ≤ y) ((λ y, y + 1) <$> sol)
  ∧ (λ y, y - 1) <$> ((λ y, y + 1) <$> sol) = sol.
Proof.
  intros [Hs Hr]. split; [split|split].
  - clear Hr. induction Hs as [|y sol Hs IH Hy]; [constructor|].
    rewrite fmap_cons. constructor; [done|].
    apply Forall_fmap. eapply Forall_impl; [done|]. simpl. intros; lia.
  - apply Forall_fmap. eapply Forall_impl; [done|]. simpl.
    intros y Hy. unfold len in *. simpl. lia.
  - apply Forall_fmap. eapply Forall_impl; [done|]. simpl. intros; lia.
  - rewrite <- list_fmap_compose. apply fmap_id_on. intros y _. simpl. lia.
Qed.

(** What [itertools.combinations] yields: the entries at the increasing
    lists of [k] positions. *)
Lemma combinations_index_lists (P : list Z) : ∀ k s,
  s ∈ combinations P k ↔
  ∃ sol, length sol = k ∧ index_list (len P) sol ∧ s = host_values P sol.
Proof.
  induction P as [|x P IH]; intros k s.
  - destruct k as [|k]; simpl.
    + rewrite list_elem_of_singleton. split.
      * intros ->. exists []. split; [done|]. split; [|done].
        split; constructor.
      * intros (sol & Hlen & _ & ->). now apply nil_length_inv in Hlen as ->.
    + split; [intros H; inversion H|].
      intros ([|c sol] & Hlen & [_ Hr] & _); [discriminate|].
      apply Forall_cons in Hr as [Hc _]. unfold len in Hc. simpl in Hc. lia.
  - destruct k as [|k]; simpl.
    + rewrite list_elem_of_singleton. split.
      * intros ->. exists []. split; [done|]. split; [|done].
        split; constructor.
      * intros (sol & Hlen & _ & ->). now apply nil_length_inv in Hlen as ->.
    + rewrite elem_of_app, list_elem_of_fmap. split.
      * intros [(s' & -> & Hs')|Hs].
        -- apply IH in Hs' as (sol & Hlen & Hidx & ->).
           destruct (index_list_shift_up x P sol Hidx) as ([Hs Hr] & Hge & Hback).
           exists (0 :: ((λ y, y + 1) <$> sol)).
           split; [simpl; rewrite length_fmap; lia|]. split.
           ++ split.
              ** constructor; [done|]. eapply Forall_impl; [exact Hge|].
                 simpl. intros; lia.
              ** constructor; [|done]. unfold len. simpl. lia.
           ++ rewrite host_values_cons, host_values_shift, Hback by done. done.
        -- apply IH in Hs as (sol & Hlen & Hidx & ->).
           destruct (index_list_shift_up x P sol Hidx) as (Hidx' & Hge & Hback).
           exists ((λ y, y + 1) <$> sol).
           split; [now rewrite length_fmap|]. split; [done|].
           rewrite host_values_shift, Hback by done. done.
      * intros ([|c sol] & Hlen & Hidx & ->); [discriminate|].
        simpl in Hlen. destruct Hidx as [Hs Hr].
        apply StronglySorted_cons in Hs as [Hc Hs].
        apply Forall_cons in Hr as [Hc0 Hr].
        assert (Forall (λ y, 1 ≤ y) sol) as Hge.
        { eapply Forall_impl; [exact Hc|]. simpl. intros; lia. }
        destruct (decide (c = 0)) as [->|Hne].
        -- left. exists (host_values (x :: P) sol). split; [done|].
           rewrite host_values_shift by done. apply IH.
           eexists. split; [|split; [|done]].
           ++ rewrite length_fmap. lia.
           ++ apply (index_list_shift_down x); [done|]. split; done.
        -- right.
           assert (Forall (λ y, 1 ≤ y) (c :: sol)) as Hge'
             by (constructor; [lia|done]).
           rewrite host_values_shift by done. apply IH.
           eexists. split; [|split; [|done]].
           ++ rewrite length_fmap. simpl. lia.
           ++ apply (index_list_shift_down x); [done|].
              split; [apply StronglySorted_cons|constructor]; done.
Qed.

Lemma combinations_sublist {A} (l : list A) : ∀ k s,
  s ∈ combinations l k → s `sublist_of` l.
Proof.
  induction l as [|x l IH]; intros k s; destruct k as [|k]; simpl.
  - intros ->%list_elem_of_singleton. constructor.
  - intros H. inversion H.
  - intros ->%list_elem_of_singleton. apply sublist_nil_l.
  - rewrite elem_of_app, list_elem_of_fmap.
    intros [(s' & -> & Hs')|Hs].
    + apply sublist_skip. eauto.
    + apply sublist_cons. eauto.
Qed.

(** The counting loop of [occurrences]. *)
Lemma count_loop (f : list Z → res (list Z)) (q : list Z) (xs : list (list Z)) : ∀ t0,
  (∀ x, x ∈ xs → ∃ y, f x = Ok y) →
  ∃ k, for_each xs (fun x total => s ← f x;
                      if decide (s = q) then Ok (total + 1) else Ok total) t0
       = Ok (t0 + k)
     ∧ 0 ≤ k ∧ (k = 0 ↔ ∀ x, x ∈ xs → f x ≠ Ok q).
Proof.
  induction xs as [|x xs IH]; intros t0 Hf.
  - exists 0. simpl. split; [f_equal; lia|]. split; [done|].
    split; [|done]. intros _ x Hx. inversion Hx.
  - destruct (Hf x ltac:(left)) as [y Hy]. simpl. rewrite Hy. simpl.
    destruct (decide (y = q)) as [->|Hne]; simpl.
    + destruct (IH (t0 + 1)) as (k & -> & Hk & _); [intros; apply Hf; now right|].
      exists (1 + k). split; [f_equal; lia|]. split; [lia|]. split; [lia|].
      intros Hall. exfalso. apply (Hall x); [left|done].
    + destruct (IH t0) as (k & -> & Hk & Hiff); [intros; apply Hf; now right|].
      exists k. split; [done|]. split; [done|]. rewrite Hiff. split.
      * intros Hall z [->|Hz]%elem_of_cons; [congruence|auto].
      * intros Hall z Hz. apply Hall. now right.
Qed.

(** [occurrences] returns a count, which is zero exactly when [q] has no
    occurrence in [P]. *)
Lemma occurrences_spec P q :
  NoDup P → is_perm q →
  ∃ k, occurrences P q = Ok k ∧ 0 ≤ k
       ∧ (k = 0 ↔ ¬ ∃ sol, length sol = length q ∧ occurrence q P sol).
Proof.
  intros HP Hq. unfold occurrences.
  assert (∀ s, s ∈ combinations P (length q) → NoDup s) as Hnd.
  { intros s Hs. eapply sublist_NoDup; [done|]. eapply combinations_sublist, Hs. }
  destruct (count_loop of_seq q (combinations P (length q)) 0)
    as (k & Hrun & Hk & Hiff).
  { intros s Hs%Hnd. rewrite of_seq_standardize, standardize_NoDup by done. eauto. }
  exists k. rewrite Hrun. split; [f_equal; lia|]. split; [done|].
  rewrite Hiff. split.
  - intros Hall (sol & Hlen & Hidx & Hiso).
    assert (host_values P sol ∈ combinations P (length q)) as Hin.
    { apply combinations_index_lists. eauto. }
    apply (Hall _ Hin). rewrite of_seq_standardize.
    apply standardize_order_iso; auto.
  - intros Hno s Hs Hstd. apply Hno.
    pose proof (Hnd s Hs) as Hs'.
    apply combinations_index_lists in Hs as (sol & Hlen & Hidx & ->).
    exists sol. split; [done|]. split; [done|].
    rewrite of_seq_standardize in Hstd.
    apply standardize_order_iso in Hstd; done.
Qed.

End OccurrenceFacts.

(** ** The bound tables *)

Module BoundFacts.
Import Perm PermFacts.

#[local] Arguments bounds_inner_step : simpl never.
#[local] Arguments bounds_outer_step : simpl never.

Lemma set_up_bounds_unfold self :
  set_up_bounds self =
    (st ← for_each (range 0 (len self)) (bounds_outer_step self)
           (replicate (Z.to_nat (len self)) (-1),
            replicate (Z.to_nat (len self)) (-1));
     let '(upper_bound, lower_bound) := st in
     Ok (lower_bound, upper_bound)).
Proof. reflexivity. Qed.

Lemma getitem_total (l : list Z) (k : nat) :
  (k < length l)%nat → getitem l (Z.of_nat k) = Ok (l !!! k).
Proof. intros Hk. apply getitem_nat. now apply list_lookup_lookup_total_lt. Qed.

Lemma setitem_nat {A} (l : list A) (k : nat) v :
  (k < length l)%nat → setitem l (Z.of_nat k) v = Ok (<[k := v]> l).
Proof. intros Hk. rewrite setitem_Ok by (unfold len; lia). now rewrite Nat2Z.id. Qed.

(** The bound is kept when the next entry is on the other side. *)
Lemma extreme_run_skip lt q k hi b v :
  ¬ lt (q !!! hi) (q !!! k) →
  extreme_run lt q k hi b v → extreme_run lt q k (S hi) b v.
Proof.
  intros Hno [(-> & -> & Hnone)|(m & -> & -> & Hm & Hlt & Hbest)].
  - left. split; [done|]. split; [done|]. intros j Hj.
    destruct (decide (j = hi)) as [->|]; [done|]. apply Hnone. lia.
  - right. exists m. split; [done|]. split; [done|]. split; [lia|]. split; [done|].
    intros j Hj Hc. destruct (decide (j = hi)) as [->|]; [done|]. apply Hbest; [lia|done].
Qed.

(** The bound moves to the next entry when it is closer. *)
Lemma extreme_run_take (lt : Z → Z → Prop) q k hi b v :
  (∀ x, ¬ lt x x) → (∀ x y z, lt x y → lt y z → lt x z) →
  (k < hi)%nat →
  lt (q !!! hi) (q !!! k) → (v = -1 → b = -1) →
  (b = -1 ∨ lt v (q !!! hi)) →
  extreme_run lt q k hi b v →
  extreme_run lt q k (S hi) (Z.of_nat hi) (q !!! hi).
Proof.
  intros Hirr Htr Hk Hc Hv Hcloser Hrun. right. exists hi.
  split; [done|]. split; [done|]. split; [lia|]. split; [done|].
  intros j Hj Hcj. destruct (decide (j = hi)) as [->|Hne]; [apply Hirr|].
  destruct Hrun as [(-> & -> & Hnone)|(m & -> & -> & Hm & Hlt & Hbest)].
  - exfalso. apply (Hnone j); [lia|done].
  - destruct Hcloser as [?|Hcloser]; [lia|].
    intros Hx. apply (Hbest j); [lia|done|]. eauto.
Qed.

(** The bound stays when the next entry is not closer. *)
Lemma extreme_run_keep (lt : Z → Z → Prop) q k hi b v :
  b ≠ -1 → ¬ lt v (q !!! hi) →
  extreme_run lt q k hi b v → extreme_run lt q k (S hi) b v.
Proof.
  intros Hb Hnc [(-> & _)|(m & -> & -> & Hm & Hlt & Hbest)]; [done|].
  right. exists m. split; [done|]. split; [done|]. split; [lia|]. split; [done|].
  intros j Hj Hc. destruct (decide (j = hi)) as [->|]; [done|]. apply Hbest; [lia|done].
Qed.

Section Tables.
Context (q : list Z).
Hypothesis Hq : is_perm q.
Let n := length q.

Lemma entry_nonneg (k : nat) : (k < n)%nat → 0 ≤ q !!! k.
Proof using Hq.
  intros Hk. assert (q !!! k ∈ q) as Hin by now apply list_elem_of_lookup_total_2.
  apply (is_perm_elem_of _ _ Hq) in Hin. lia.
Qed.

Lemma entry_inj (a b : nat) : (a < n)%nat → (b < n)%nat → q !!! a = q !!! b → a = b.
Proof using Hq.
  intros Ha Hb Hab. eapply NoDup_lookup; [apply (is_perm_NoDup _ Hq)| |].
  - now apply list_lookup_lookup_total_lt.
  - rewrite Hab. now apply list_lookup_lookup_total_lt.
Qed.

Lemma extreme_run_sentinel lt (k hi : nat) b v :
  (hi ≤ n)%nat → extreme_run lt q k hi b v → b = -1 ↔ v = -1.
Proof using Hq.
  intros Hhi [(-> & -> & _)|(m & -> & -> & Hm & _)]; [done|].
  pose proof (entry_nonneg m ltac:(lia)). lia.
Qed.

Lemma bounds_inner_step_eq i j min_above max_below ub lb :
  bounds_inner_step q i j (min_above, max_below, ub, lb) =
    (Lj ← getitem q j;
     Li ← getitem q i;
     if decide (Lj < Li) then
       if decide (Lj > max_below) then
         lower_bound ← setitem lb i j;
         Ok (min_above, Lj, ub, lower_bound)
       else Ok (min_above, max_below, ub, lb)
     else
       if decide (Lj < min_above ∨ min_above = -1) then
         upper_bound ← setitem ub i j;
         Ok (Lj, max_below, upper_bound, lb)
       else Ok (min_above, max_below, ub, lb)).
Proof. reflexivity. Qed.

(** One iteration of the inner loop. *)
Lemma bounds_inner_step_spec (i hi : nat) ub0 lb0 st :
  (i < hi < n)%nat → bounds_inner_inv q i hi ub0 lb0 st →
  ∃ st', bounds_inner_step q (Z.of_nat i) (Z.of_nat hi) st = Ok st'
         ∧ bounds_inner_inv q i (S hi) ub0 lb0 st'.
Proof using Hq.
  destruct st as [[[min_above max_below] ub] lb].
  intros Hi (Hlu & Hll & Hlo & Hup & Hrest). fold n in Hlu, Hll.
  pose proof (extreme_run_sentinel Z.lt i hi _ _ ltac:(lia) Hlo) as Hslo.
  pose proof (extreme_run_sentinel Z.gt i hi _ _ ltac:(lia) Hup) as Hsup.
  pose proof (entry_nonneg hi ltac:(lia)) as Hnn.
  rewrite bounds_inner_step_eq.
  rewrite !getitem_total by (fold n; lia). simpl.
  destruct (decide (q !!! hi < q !!! i)) as [Hlt|Hge].
  - destruct (decide (q !!! hi > max_below)) as [Hcl|Hncl].
    + rewrite setitem_nat by lia. simpl. eexists. split; [done|].
      split; [done|]. split; [now rewrite length_insert|].
      rewrite list_lookup_total_insert_eq by lia. split; [|split].
      * apply (extreme_run_take Z.lt q i hi (lb !!! i) max_below);
          [intros; lia|intros; lia|lia|done|tauto|right; lia|done].
      * apply extreme_run_skip; [lia|done].
      * intros k Hk. rewrite list_lookup_total_insert_ne by done. auto.
    + eexists. split; [done|]. split; [done|]. split; [done|]. split; [|split].
      * apply extreme_run_keep; [|lia|done]. intros Hb. apply Hslo in Hb. lia.
      * apply extreme_run_skip; [lia|done].
      * done.
  - assert (q !!! hi > q !!! i) as Hgt.
    { destruct (decide (q !!! hi = q !!! i)) as [Heq|]; [|lia].
      apply entry_inj in Heq; lia. }
    destruct (decide (q !!! hi < min_above ∨ min_above = -1)) as [Hcl|Hncl].
    + rewrite setitem_nat by lia. simpl. eexists. split; [done|].
      split; [now rewrite length_insert|]. split; [done|].
      rewrite list_lookup_total_insert_eq by lia. split; [|split].
      * apply extreme_run_skip; [lia|done].
      * apply (extreme_run_take Z.gt q i hi (ub !!! i) min_above);
          [intros; lia|intros; lia|lia|done|tauto| |done].
        destruct Hcl as [Hcl|Hcl]; [right; lia|left; tauto].
      * intros k Hk. rewrite list_lookup_total_insert_ne by done. auto.
    + eexists. split; [done|]. split; [done|]. split; [done|]. split; [|split].
      * apply extreme_run_skip; [lia|done].
      * apply extreme_run_keep; [|lia|done]. intros Hb. apply Hsup in Hb. tauto.
      * done.
Qed.

(** The inner loop, for the position [i]. *)
Lemma bounds_inner_loop (i : nat) ub0 lb0 :
  (i < n)%nat → length ub0 = n → length lb0 = n →
  lb0 !!! i = -1 → ub0 !!! i = -1 →
  ∃ st, for_each (range (Z.of_nat i + 1) (len q)) (bounds_inner_step q (Z.of_nat i))
          (-1, -1, ub0, lb0) = Ok st
        ∧ bounds_inner_inv q i n ub0 lb0 st.
Proof using Hq.
  intros Hi Hlu Hll Hlb Hub.
  destruct (for_each_inv
              (fun pre st => bounds_inner_inv q i (i + 1 + length pre) ub0 lb0 st)
              (range (Z.of_nat i + 1) (len q)) (bounds_inner_step q (Z.of_nat i))
              (-1, -1, ub0, lb0)) as (st & Hrun & Hst).
  - split; [done|]. split; [done|]. rewrite Hlb, Hub.
    split; [|split; [|done]]; left; (split; [done|]); (split; [done|]);
      intros j Hj; simpl in Hj; lia.
  - intros pre j st [post Hxs] Hinv.
    assert (j = Z.of_nat (i + 1 + length pre) ∧ (i + 1 + length pre < n)%nat) as [-> Hj].
    { assert (range (Z.of_nat i + 1) (len q) !! length pre = Some j) as Hk.
      { rewrite Hxs. now rewrite lookup_app_r, Nat.sub_diag by lia. }
      apply lookup_range in Hk. unfold len in Hk. fold n in Hk. lia. }
    destruct (bounds_inner_step_spec i (i + 1 + length pre) ub0 lb0 st) as (st' & Hs & Hinv');
      [lia|done|].
    exists st'. split; [done|]. rewrite length_app. simpl.
    now replace (i + 1 + (length pre + 1))%nat with (S (i + 1 + length pre)) by lia.
  - exists st. split; [done|]. rewrite length_range in Hst.
    replace (i + 1 + Z.to_nat (len q - (Z.of_nat i + 1)))%nat with n in Hst
      by (unfold len; fold n; lia).
    done.
Qed.

Lemma bounds_outer_step_eq i ub lb :
  bounds_outer_step q i (ub, lb) =
    (st ← for_each (range (i + 1) (len q)) (bounds_inner_step q i) (-1, -1, ub, lb);
     Ok (st.1.2, st.2)).
Proof.
  unfold bounds_outer_step.
  destruct (for_each _ _ _) as [[[[? ?] ?] ?]| |]; done.
Qed.

(** [set_up_bounds] returns the two tables of closest entries. *)
Lemma set_up_bounds_spec :
  ∃ lb ub, set_up_bounds q = Ok (lb, ub) ∧ bounds_ok q lb ub.
Proof using Hq.
  rewrite set_up_bounds_unfold.
  destruct (for_each_inv (fun pre st => bounds_outer_inv q (length pre) st)
              (range 0 (len q)) (bounds_outer_step q)
              (replicate (Z.to_nat (len q)) (-1), replicate (Z.to_nat (len q)) (-1)))
    as ([ub lb] & Hrun & Hst).
  - unfold bounds_outer_inv. rewrite !length_replicate.
    split; [unfold len; lia|]. split; [unfold len; lia|].
    split; [intros k Hk; simpl in Hk; lia|].
    intros k Hk. rewrite !lookup_total_replicate_2 by (unfold len; lia). done.
  - intros pre i [ub lb] [post Hxs] (Hlu & Hll & Hdone & Htodo).
    assert (i = Z.of_nat (length pre) ∧ (length pre < n)%nat) as [-> Hi].
    { assert (range 0 (len q) !! length pre = Some i) as Hk.
      { rewrite Hxs. now rewrite lookup_app_r, Nat.sub_diag by lia. }
      apply lookup_range in Hk. unfold len in Hk. fold n in Hk. lia. }
    destruct (Htodo (length pre) ltac:(fold n; lia)) as [Hlb Hub].
    destruct (bounds_inner_loop (length pre) ub lb Hi Hlu Hll Hlb Hub)
      as ([[[ma mb] ub'] lb'] & Hinner & Hinv).
    destruct Hinv as (Hlu' & Hll' & Hlo & Hup & Hrest).
    rewrite bounds_outer_step_eq, Hinner. simpl.
    eexists. split; [done|]. rewrite length_app. simpl.
    split; [done|]. split; [done|]. split.
    + intros k Hk. destruct (decide (k = length pre)) as [->|Hne]; [eauto|].
      destruct (Hrest k Hne) as [-> ->]. apply Hdone. lia.
    + intros k Hk. destruct (Hrest k ltac:(lia)) as [-> ->]. apply Htodo. lia.
  - rewrite Hrun. simpl. exists lb, ub. split; [done|].
    destruct Hst as (Hlu & Hll & Hdone & _).
    split; [done|]. split; [done|]. intros k Hk. apply Hdone.
    rewrite length_range. unfold len. lia.
Qed.

End Tables.

End BoundFacts.

(** ** The containment search *)

Module SearchFacts.
Import Perm PermFacts BoundFacts OccurrenceFacts.

#[local] Arguments check_cond : simpl never.
#[local] Arguments check_body : simpl never.
#[local] Arguments involved_body : simpl never.
#[local] Arguments involvement_fits : simpl never.

(** A [while] loop whose body may [return]: an invariant [I] of the
    states, a property [Q] of what is returned, and a measure that the
    fuel covers. *)
Lemma while_return_rule {S R} (I : S → Prop) (Q : R → Prop) (measure : S → nat)
    (cond : S → res bool) (body : S → res (S + R)) :
  (∀ s, I s → ∃ b, cond s = Ok b ∧ (b = true → (0 < measure s)%nat)) →
  (∀ s, I s → cond s = Ok true →
     (∃ s', body s = Ok (inl s') ∧ I s' ∧ (measure s' < measure s)%nat)
     ∨ (∃ r, body s = Ok (inr r) ∧ Q r)) →
  ∀ fuel s, I s → (measure s ≤ fuel)%nat →
    (∃ s', while_return fuel cond body s = Ok (inl s') ∧ I s' ∧ cond s' = Ok false)
    ∨ (∃ r, while_return fuel cond body s = Ok (inr r) ∧ Q r).
Proof.
  intros Hcond Hbody. induction fuel as [|fuel IH]; intros s HI Hm.
  - destruct (Hcond s HI) as ([] & Hb & Hpos).
    + specialize (Hpos eq_refl). lia.
    + left. exists s. simpl. rewrite Hb. done.
  - destruct (Hcond s HI) as ([] & Hb & Hpos).
    + destruct (Hbody s HI Hb) as [(s' & Hs' & HI' & Hlt)|(r & Hr & HQ)].
      * destruct (IH s' HI') as [(s'' & Hrun & HI'' & Hc'')|(r & Hrun & HQ)]; [lia| |].
        -- left. exists s''. simpl. rewrite Hb. simpl. rewrite Hs'. simpl. done.
        -- right. exists r. simpl. rewrite Hb. simpl. rewrite Hs'. simpl. done.
      * right. exists r. simpl. rewrite Hb. simpl. rewrite Hr. simpl. done.
    + left. exists s. simpl. rewrite Hb. done.
Qed.

Lemma involvement_check_rec_S d ub lb indices q next :
  involvement_check_rec (S d) ub lb indices q next =
    if decide (next < 0) then Ok (true, indices)
    else
      v ← getitem indices (next + 1);
      indices ← setitem indices next (v - 1);
      start ← getitem indices next;
      o ← while_return (Z.to_nat (start + 1)) (check_cond next)
            (check_body (λ ind, involvement_check_rec d ub lb ind q (next - 1))
               ub lb q next)
            indices;
      match o with
      | inl indices => Ok (false, indices)
      | inr r => Ok r
      end.
Proof. reflexivity. Qed.

Lemma involvement_fits_eq ub lb indices q next :
  involvement_fits ub lb indices q next =
    (l ← getitem lb next;
     below ← (if decide (l = -1) then Ok true
              else i ← getitem indices next; x ← getitem q i;
                   k ← getitem indices l; y ← getitem q k;
                   Ok (bool_decide (x > y)));
     if below : bool then
       u ← getitem ub next;
       if decide (u = -1) then Ok true
       else i ← getitem indices next; x ← getitem q i;
            k ← getitem indices u; y ← getitem q k;
            Ok (bool_decide (x < y))
     else Ok false).
Proof. reflexivity. Qed.

Lemma host_values_lookup (P sol : list Z) (k : nat) :
  (k < length sol)%nat → host_values P sol !!! k = P !!! Z.to_nat (sol !!! k).
Proof. intros Hk. unfold host_values.
  now rewrite (list_lookup_total_fmap (λ x, P !!! Z.to_nat x) sol k). Qed.

Lemma getitem_Z (l : list Z) x :
  0 ≤ x < len l → getitem l x = Ok (l !!! Z.to_nat x).
Proof.
  intros Hx. apply getitem_lookup; [lia|].
  apply list_lookup_lookup_total_lt. unfold len in Hx. lia.
Qed.

Lemma lookup_total_ge (l : list Z) (k : nat) :
  (length l ≤ k)%nat → l !!! k = inhabitant.
Proof. intros Hk. now rewrite list_lookup_total_alt, lookup_ge_None_2. Qed.

Lemma adjacent_mono (l : list Z) :
  (∀ k : nat, (S k < length l)%nat → l !!! k < l !!! S k) →
  ∀ i j : nat, (i < j < length l)%nat → l !!! i < l !!! j.
Proof.
  intros Hadj i j. induction j as [|j IH]; intros Hij; [lia|].
  destruct (decide (i = j)) as [->|]; [apply Hadj; lia|].
  etrans; [apply IH; lia|apply Hadj; lia].
Qed.

Lemma sorted_mono (l : list Z) :
  StronglySorted Z.lt l ↔ ∀ i j : nat, (i < j < length l)%nat → l !!! i < l !!! j.
Proof.
  induction l as [|x l IH].
  - split; [intros _ i j Hij; simpl in Hij; lia|constructor].
  - split.
    + intros Hss i j Hij. inversion Hss as [|? ? Hs Hall]; subst.
      simpl in Hij. destruct j as [|j]; [lia|]. destruct i as [|i].
      * change (x < l !!! j).
        eapply (Forall_lookup_1 _ _ j) in Hall; [exact Hall|].
        apply list_lookup_lookup_total_lt. lia.
      * change (l !!! i < l !!! j). apply IH; [done|lia].
    + intros Hmono. constructor.
      * apply IH. intros i j Hij. apply (Hmono (S i) (S j)). simpl. lia.
      * apply Forall_lookup. intros k y Hk.
        pose proof (lookup_lt_Some _ _ _ Hk) as Hlt.
        specialize (Hmono 0%nat (S k) ltac:(simpl; lia)).
        change (x < l !!! k) in Hmono.
        now rewrite (list_lookup_total_correct _ _ _ Hk) in Hmono.
Qed.

Section Search.
Context (q lb ub : list Z).
Hypothesis Hq : is_perm q.
Hypothesis Hb : bounds_ok q lb ub.
Let n := length q.

(** An entry of a table is [-1] or a later position of the pattern. *)
Lemma lower_range (k : nat) :
  (k < n)%nat → lb !!! k = -1 ∨ ∃ m : nat, lb !!! k = Z.of_nat m ∧ (k < m < n)%nat
                                    ∧ q !!! m < q !!! k.
Proof using Hb.
  intros Hk. destruct Hb as (_ & _ & Hall).
  destruct (Hall k Hk) as [[v [(-> & _)|(m & -> & _ & Hm & Hlt & _)]] _]; eauto.
Qed.

Lemma upper_range (k : nat) :
  (k < n)%nat → ub !!! k = -1 ∨ ∃ m : nat, ub !!! k = Z.of_nat m ∧ (k < m < n)%nat
                                    ∧ q !!! k < q !!! m.
Proof using Hb.
  intros Hk. destruct Hb as (_ & _ & Hall).
  destruct (Hall k Hk) as [_ [v [(-> & _)|(m & -> & _ & Hm & Hlt & _)]]]; [eauto|].
  right. exists m. split; [done|]. split; [done|]. lia.
Qed.

(** The test at [k] only reads the host entries from [k] on. *)
Lemma fitsb_agree s1 s2 (k : nat) :
  (k < n)%nat → (∀ j : nat, (k ≤ j < n)%nat → s1 !!! j = s2 !!! j) →
  fitsb lb ub s1 k = fitsb lb ub s2 k.
Proof using Hb.
  intros Hk Hagree. unfold fitsb.
  rewrite (Hagree k) by lia.
  destruct (lower_range k Hk) as [->|(m & -> & Hm & _)];
  destruct (upper_range k Hk) as [->|(m' & -> & Hm' & _)];
    rewrite ?Nat2Z.id, ?(Hagree m), ?(Hagree m') by lia; done.
Qed.

(** The tests at all positions say that the host entries are in the order
    of the pattern. *)
Lemma fits_order_iso s :
  length s = n →
  (∀ k : nat, (S k < n)%nat → fitsb lb ub s k = true) ↔ order_iso q s.
Proof using Hq Hb.
  intros Hlen. pose proof (is_perm_NoDup _ Hq) as Hnd.
  assert (∀ a b : nat, (a < n)%nat → (b < n)%nat → a ≠ b → q !!! a ≠ q !!! b)
    as Hinj.
  { intros a b Ha Hb' Hab Heq. apply Hab.
    apply (NoDup_lookup q a b (q !!! a)); [done|..].
    - now apply list_lookup_lookup_total_lt.
    - rewrite Heq. now apply list_lookup_lookup_total_lt. }
  split.
  - intros Hfits.
    assert (∀ d a b : nat, (n - d ≤ a < n)%nat → (n - d ≤ b < n)%nat →
              q !!! a < q !!! b → s !!! a < s !!! b) as Hmono.
    { induction d as [|d IH]; intros a b Ha Hb' Hlt; [lia|].
      destruct (decide (n ≤ d)%nat) as [|Hd]; [apply (IH a b); [lia..|done]|].
      set (k := (n - S d)%nat).
      destruct (decide (a = k)) as [->|Hak]; destruct (decide (b = k)) as [->|Hbk].
      - lia.
      - specialize (Hfits k ltac:(lia)). unfold fitsb in Hfits.
        apply andb_prop in Hfits as [_ Hup].
        destruct (upper_range k ltac:(lia)) as [Hu|(m & Hu & Hm & Hqm)].
        + destruct Hb as (_ & _ & Hall).
          destruct (Hall k ltac:(lia)) as [_ [v [(_ & _ & Hnone)|(m & Hm' & _)]]];
            [|lia].
          exfalso. apply (Hnone b); lia.
        + rewrite Hu, Nat2Z.id in Hup.
          rewrite (bool_decide_eq_false_2 (Z.of_nat m = -1)) in Hup by lia.
          simpl in Hup. apply bool_decide_eq_true in Hup.
          destruct Hb as (_ & _ & Hall).
          destruct (Hall k ltac:(lia)) as [_ [v [(Hm' & _)|(m' & Hm' & _ & _ & _ & Hleast)]]];
            [lia|].
          assert (m' = m) as -> by lia.
          destruct (decide (m = b)) as [->|Hmb]; [done|].
          assert (q !!! m < q !!! b).
          { specialize (Hleast b ltac:(lia) ltac:(lia)).
            specialize (Hinj m b ltac:(lia) ltac:(lia) Hmb). lia. }
          assert (s !!! m < s !!! b) by (apply IH; [lia..|done]). lia.
      - specialize (Hfits k ltac:(lia)). unfold fitsb in Hfits.
        apply andb_prop in Hfits as [Hlow _].
        destruct (lower_range k ltac:(lia)) as [Hl|(m & Hl & Hm & Hqm)].
        + destruct Hb as (_ & _ & Hall).
          destruct (Hall k ltac:(lia)) as [[v [(_ & _ & Hnone)|(m & Hm' & _)]] _];
            [|lia].
          exfalso. apply (Hnone a); lia.
        + rewrite Hl, Nat2Z.id in Hlow.
          rewrite (bool_decide_eq_false_2 (Z.of_nat m = -1)) in Hlow by lia.
          simpl in Hlow. apply bool_decide_eq_true in Hlow.
          destruct Hb as (_ & _ & Hall).
          destruct (Hall k ltac:(lia)) as [[v [(Hm' & _)|(m' & Hm' & _ & _ & _ & Hleast)]] _];
            [lia|].
          assert (m' = m) as -> by lia.
          destruct (decide (m = a)) as [->|Hma]; [lia|].
          assert (q !!! a < q !!! m).
          { specialize (Hleast a ltac:(lia) ltac:(lia)).
            specialize (Hinj m a ltac:(lia) ltac:(lia) Hma). lia. }
          assert (s !!! a < s !!! m) by (apply IH; [lia..|done]). lia.
      - apply IH; [lia..|done]. }
    split; [done|]. intros a b Ha Hb'. split.
    + apply (Hmono n); lia.
    + intros Hs. destruct (decide (a = b)) as [->|Hab]; [lia|].
      destruct (Z.lt_trichotomy (q !!! a) (q !!! b)) as [|[Heq|Hgt]]; [done| |].
      * now apply Hinj in Heq.
      * apply (Hmono n) in Hgt; lia.
  - intros [_ Hiso] k Hk. unfold fitsb. apply andb_true_intro. split.
    + destruct (lower_range k ltac:(lia)) as [->|(m & -> & Hm & Hqm)]; [done|].
      rewrite Nat2Z.id. apply orb_true_intro. right. apply bool_decide_eq_true.
      apply Hiso in Hqm; [lia..]. 
    + destruct (upper_range k ltac:(lia)) as [->|(m & -> & Hm & Hqm)]; [done|].
      rewrite Nat2Z.id. apply orb_true_intro. right. apply bool_decide_eq_true.
      apply Hiso in Hqm; [lia..].
Qed.

Context (P : list Z).
Let p := len P.

Lemma host_values_agree sol1 sol2 (k : nat) :
  length sol1 = n → length sol2 = n →
  (∀ j : nat, (k ≤ j < n)%nat → sol1 !!! j = sol2 !!! j) →
  ∀ j : nat, (k ≤ j < n)%nat → host_values P sol1 !!! j = host_values P sol2 !!! j.
Proof.
  intros H1 H2 Hagree j Hj.
  rewrite !host_values_lookup by lia. now rewrite Hagree.
Qed.

(** What [involvement_fits] computes. *)
Lemma involvement_fits_eval sol (k : nat) :
  length sol = n → (k < n)%nat →
  (∀ j : nat, (k ≤ j < n)%nat → 0 ≤ sol !!! j < p) →
  involvement_fits ub lb sol P (Z.of_nat k)
  = Ok (fitsb lb ub (host_values P sol) k).
Proof using Hb.
  intros Hlen Hk Hrange. destruct Hb as (Hll & Hlu & _). fold n in Hll, Hlu.
  assert (∀ (m : nat) (f : Z → Z → bool), (k < m < n)%nat →
            (i ← getitem sol (Z.of_nat k); x ← getitem P i;
             j ← getitem sol (Z.of_nat m); y ← getitem P j; Ok (f x y))
            = Ok (f (host_values P sol !!! k) (host_values P sol !!! m))) as Hcmp.
  { intros m f Hm. rewrite (getitem_total sol k), bind_Ok by lia.
    rewrite (getitem_Z P (sol !!! k)), bind_Ok by (apply Hrange; lia).
    rewrite (getitem_total sol m), bind_Ok by lia.
    rewrite (getitem_Z P (sol !!! m)), bind_Ok by (apply Hrange; lia).
    now rewrite !host_values_lookup by lia. }
  rewrite involvement_fits_eq. unfold fitsb.
  rewrite (getitem_total lb k), bind_Ok by lia.
  rewrite (getitem_total ub k) by lia.
  assert ((if decide (ub !!! k = -1) then Ok true
           else i ← getitem sol (Z.of_nat k); x ← getitem P i;
                j ← getitem sol (ub !!! k); y ← getitem P j;
                Ok (bool_decide (x < y)))
          = Ok (bool_decide (ub !!! k = -1)
                || bool_decide (host_values P sol !!! k
                                < host_values P sol !!! Z.to_nat (ub !!! k))))
    as Hupper.
  { destruct (upper_range k Hk) as [Hu|(m' & Hu & Hm' & _)]; rewrite Hu.
    - destruct (decide (-1 = -1)); done.
    - destruct (decide (Z.of_nat m' = -1)) as [|_]; [lia|].
      rewrite (Hcmp m' (λ x y, bool_decide (x < y))) by done.
      rewrite Nat2Z.id, (bool_decide_eq_false_2 (Z.of_nat m' = -1)) by lia. done. }
  destruct (lower_range k Hk) as [Hl|(m & Hl & Hm & _)]; rewrite Hl.
  - destruct (decide (-1 = -1)); [|done]. rewrite bind_Ok, bind_Ok.
    rewrite Hupper. done.
  - destruct (decide (Z.of_nat m = -1)) as [|_]; [lia|].
    rewrite (Hcmp m (λ x y, bool_decide (x > y))) by done.
    rewrite Nat2Z.id, (bool_decide_eq_false_2 (Z.of_nat m = -1)) by lia.
    rewrite bind_Ok. rewrite orb_false_l.
    destruct (bool_decide (host_values P sol !!! k > host_values P sol !!! m)).
    + rewrite bind_Ok, Hupper. done.
    + done.
Qed.

Lemma extension_agree ind1 ind2 next sol :
  length ind1 = length ind2 →
  (∀ k : nat, next < Z.of_nat k → ind1 !!! k = ind2 !!! k) →
  extension lb ub P ind1 next sol → extension lb ub P ind2 next sol.
Proof.
  intros Hlen Hagree (Hl & Hkeep & Hfill). split; [congruence|]. split; [|done].
  intros k Hk. rewrite Hkeep by done. now apply Hagree.
Qed.

(** [involvement_check] returns; it says whether the positions up to
    [next] can be filled, and keeps the later positions of [indices]. *)
Lemma check_spec (d : nat) : ∀ indices,
  (d < n)%nat → length indices = n →
  (∀ j : nat, (d ≤ j < n)%nat → 0 ≤ indices !!! j < p) →
  ∃ b indices',
    involvement_check_rec d ub lb indices P (Z.of_nat d - 1) = Ok (b, indices')
    ∧ length indices' = n
    ∧ (∀ j : nat, (d ≤ j)%nat → indices' !!! j = indices !!! j)
    ∧ (b = true ↔ ∃ sol, extension lb ub P indices (Z.of_nat d - 1) sol).
Proof using Hb.
  induction d as [|d' IH]; intros indices Hd Hlen Hrange.
  - exists true, indices. split; [|split; [done|split; [done|]]].
    + unfold involvement_check_rec. destruct (decide (Z.of_nat 0 - 1 < 0)); [done|lia].
    + split; [|done]. intros _. exists indices. split; [done|]. split; [done|].
      intros k Hk. lia.
  - rewrite involvement_check_rec_S.
    replace (Z.of_nat (S d') - 1) with (Z.of_nat d') by lia.
    destruct (decide (Z.of_nat d' < 0)) as [|_]; [lia|].
    replace (Z.of_nat d' + 1) with (Z.of_nat (S d')) by lia.
    set (v := indices !!! S d').
    assert (0 ≤ v < p) as Hv by (apply Hrange; lia).
    rewrite (getitem_total indices (S d')), bind_Ok by lia. fold v.
    rewrite (setitem_nat indices d'), bind_Ok by lia.
    set (s0 := <[d' := v - 1]> indices).
    assert (length s0 = n) as Hlen0 by (unfold s0; now rewrite length_insert).
    assert (s0 !!! d' = v - 1) as Hs0.
    { unfold s0. apply list_lookup_total_insert_eq. lia. }
    rewrite (getitem_total s0 d'), bind_Ok, Hs0 by lia.
    replace (v - 1 + 1) with v by lia.
    set (I := λ s : list Z,
           length s = n
           ∧ (∀ j : nat, (S d' ≤ j)%nat → s !!! j = indices !!! j)
           ∧ -1 ≤ s !!! d' ≤ v - 1
           ∧ ∀ c sol, s !!! d' < c ≤ v - 1 →
               extension lb ub P (<[d' := c]> indices) (Z.of_nat d' - 1) sol →
               fitsb lb ub (host_values P sol) d' = true → False).
    set (Q := λ r : bool * list Z,
           r.1 = true ∧ length r.2 = n
           ∧ (∀ j : nat, (S d' ≤ j)%nat → r.2 !!! j = indices !!! j)
           ∧ ∃ sol, extension lb ub P indices (Z.of_nat d') sol).
    assert (I s0) as HI0.
    { split; [done|]. split.
      - intros j Hj. unfold s0. apply list_lookup_total_insert_ne. lia.
      - split; [lia|]. intros c sol Hc. lia. }
    destruct (while_return_rule I Q (λ s, Z.to_nat (s !!! d' + 1))
                (check_cond (Z.of_nat d'))
                (check_body (λ ind, involvement_check_rec d' ub lb ind P
                                      (Z.of_nat d' - 1))
                   ub lb P (Z.of_nat d')))
      with (fuel := Z.to_nat v) (s := s0)
      as [(s' & -> & (Hl' & Hag' & Hr' & Hex') & Hc')|(r & -> & HQ)].
    + (* the test *)
      intros s (Hl & _). exists (bool_decide (s !!! d' >= 0)). split.
      * unfold check_cond. now rewrite (getitem_total s d'), bind_Ok by lia.
      * intros Hpos%bool_decide_eq_true. lia.
    + (* the body *)
      intros s (Hl & Hag & Hr & Hex) Hcond.
      unfold check_cond in Hcond.
      rewrite (getitem_total s d'), bind_Ok in Hcond by lia.
      assert (0 ≤ s !!! d') as Hc0.
      { injection Hcond as Hcond. apply bool_decide_eq_true in Hcond. lia. }
      clear Hcond. set (c := s !!! d') in *.
      assert (∀ j : nat, (d' ≤ j < n)%nat → 0 ≤ s !!! j < p) as Hrs.
      { intros j Hj. destruct (decide (j = d')) as [->|]; [fold c; lia|].
        rewrite Hag by lia. apply Hrange. lia. }
      assert (∀ j : nat, (d' ≤ j)%nat → s !!! j = <[d' := c]> indices !!! j)
        as Hsc.
      { intros j Hj. destruct (decide (j = d')) as [->|].
        - rewrite list_lookup_total_insert_eq by lia. done.
        - rewrite list_lookup_total_insert_ne by lia. apply Hag. lia. }
      assert (∀ sol, extension lb ub P (<[d' := c]> indices) (Z.of_nat d' - 1) sol →
                fitsb lb ub (host_values P sol) d'
                = fitsb lb ub (host_values P s) d') as Hfs.
      { intros sol (Hsl & Hkeep & _). rewrite length_insert in Hsl.
        apply fitsb_agree; [lia|]. apply host_values_agree; [lia..|].
        intros j Hj. rewrite Hkeep by lia. now rewrite Hsc by lia. }
      (* going on to the next candidate *)
      assert (∀ s1 : list Z,
                length s1 = n →
                (∀ j : nat, (d' ≤ j)%nat → s1 !!! j = s !!! j) →
                (∀ sol, extension lb ub P (<[d' := c]> indices) (Z.of_nat d' - 1) sol →
                        fitsb lb ub (host_values P sol) d' = true → False) →
                ∃ s2, (c1 ← getitem s1 (Z.of_nat d');
                       ind ← setitem s1 (Z.of_nat d') (c1 - 1);
                       Ok (inl ind) : res (list Z + bool * list Z))
                      = Ok (inl s2)
                  ∧ I s2
                  ∧ (Z.to_nat (s2 !!! d' + 1) < Z.to_nat (s !!! d' + 1))%nat)
        as Hnext.
      { intros s1 Hl1 Hag1 Hno. exists (<[d' := c - 1]> s1).
        rewrite (getitem_total s1 d'), bind_Ok by lia.
        rewrite (Hag1 d') by lia. fold c.
        rewrite (setitem_nat s1 d'), bind_Ok by lia.
        split; [done|].
        assert (<[d' := c - 1]> s1 !!! d' = c - 1) as Hnew
          by (apply list_lookup_total_insert_eq; lia).
        split; [|rewrite Hnew; fold c; lia].
        split; [now rewrite length_insert|]. split.
        { intros j Hj. rewrite list_lookup_total_insert_ne by lia.
          rewrite Hag1 by lia. apply Hag. lia. }
        split; [rewrite Hnew; lia|].
        intros c' sol Hc' Hext Hfit. rewrite Hnew in Hc'.
        destruct (decide (c' = c)) as [->|Hne].
        - now apply (Hno sol).
        - apply (Hex c' sol); [fold c; lia|done..]. }
      unfold check_body.
      rewrite (involvement_fits_eval s d') by (done || lia). rewrite bind_Ok.
      destruct (fitsb lb ub (host_values P s) d') eqn:Hfit.
      * destruct (IH s) as (b & s1 & Hrun & Hl1 & Hag1 & Hiff); [lia|done|done|].
        rewrite Hrun, bind_Ok. destruct b.
        -- right. exists (true, s1). split; [done|].
           split; [done|]. split; [done|]. split.
           { intros j Hj. simpl. rewrite Hag1 by lia. apply Hag. lia. }
           destruct (proj1 Hiff eq_refl) as (sol & Hsl & Hkeep & Hfill).
           exists sol. split; [lia|]. split.
           { intros k Hk. rewrite Hkeep by lia. apply Hag. lia. }
           intros k Hk. destruct (decide (k = d')) as [->|Hkd]; [|apply Hfill; lia].
           rewrite !Hkeep by lia. rewrite (Hag (S d')) by lia. fold c v.
           split; [lia|].
           rewrite <- Hfit. apply fitsb_agree; [lia|].
           apply host_values_agree; [lia..|].
           intros j Hj. apply Hkeep. lia.
        -- left. destruct (Hnext s1 Hl1 Hag1) as (s2 & Hs2 & HI2 & Hm2).
           { intros sol Hext _.
             assert (false = true) as Habs; [|discriminate].
             apply Hiff. exists sol.
             apply (extension_agree (<[d' := c]> indices)); [|intros k Hk|done].
             - rewrite length_insert. lia.
             - symmetry. apply Hsc. lia. }
           exists s2. done.
      * rewrite bind_Ok. left.
        destruct (Hnext s Hl ltac:(done)) as (s2 & Hs2 & HI2 & Hm2).
        { intros sol Hext Hfit'. rewrite (Hfs sol Hext) in Hfit'. congruence. }
        exists s2. done.
    + done.
    + rewrite Hs0. lia.
    + (* every candidate has been refused *)
      rewrite bind_Ok. exists false, s'. split; [done|]. split; [done|].
      split; [intros j Hj; apply Hag'; lia|].
      split; [discriminate|]. intros (sol & Hsl & Hkeep & Hfill). exfalso.
      unfold check_cond in Hc'.
      rewrite (getitem_total s' d'), bind_Ok in Hc' by lia.
      injection Hc' as Hc'. apply bool_decide_eq_false in Hc'.
      destruct (Hfill d' ltac:(lia)) as [Hsd Hfit].
      rewrite (Hkeep (S d')) in Hsd by lia. fold v in Hsd.
      apply (Hex' (sol !!! d') sol); [lia| |done].
      split; [now rewrite length_insert|]. split.
      * intros k Hk. destruct (decide (k = d')) as [->|].
        -- rewrite list_lookup_total_insert_eq by lia. done.
        -- rewrite list_lookup_total_insert_ne by lia. apply Hkeep. lia.
      * intros k Hk. apply Hfill. lia.
    + (* a candidate has been completed *)
      rewrite bind_Ok. destruct r as [b s1]. destruct HQ as (Hb1 & Hl1 & Hag1 & Hsol).
      simpl in Hb1, Hl1, Hag1. subst b.
      exists true, s1. split; [done|]. split; [done|]. split; [done|]. done.
Qed.

(** A filled work list is an occurrence of the pattern. *)
Lemma extension_occurrence c sol :
  (0 < n)%nat → 0 ≤ c ≤ p - 1 →
  extension lb ub P (<[(n - 1)%nat := c]> (replicate n 0))
    (Z.of_nat (n - 1) - 1) sol →
  length sol = length q ∧ occurrence q P sol.
Proof using Hq Hb.
  intros Hn Hc (Hsl & Hkeep & Hfill).
  rewrite length_insert, length_replicate in Hsl.
  assert (sol !!! (n - 1)%nat = c) as Hlast.
  { rewrite Hkeep by lia. apply list_lookup_total_insert_eq.
    rewrite length_replicate. lia. }
  assert (∀ i j : nat, (i < j < length sol)%nat → sol !!! i < sol !!! j) as Hmono.
  { apply adjacent_mono. intros k Hk. apply Hfill. lia. }
  split; [done|]. split; [split|].
  - now apply sorted_mono.
  - apply Forall_lookup. intros k x Hk.
    pose proof (lookup_lt_Some _ _ _ Hk) as Hlt.
    apply list_lookup_total_correct in Hk. subst x.
    destruct (decide (k = (n - 1)%nat)) as [->|Hne]; [unfold p in Hc; lia|].
    pose proof (proj1 (Hfill k ltac:(lia))).
    specialize (Hmono k (n - 1)%nat ltac:(lia)). unfold p in Hc. lia.
  - apply fits_order_iso.
    + unfold host_values. now rewrite length_fmap.
    + intros k Hk. apply Hfill. lia.
Qed.

Lemma occurrence_extension sol :
  (0 < n)%nat → length sol = length q → occurrence q P sol →
  0 ≤ sol !!! (n - 1)%nat ≤ p - 1
  ∧ extension lb ub P (<[(n - 1)%nat := sol !!! (n - 1)%nat]> (replicate n 0))
      (Z.of_nat (n - 1) - 1) sol.
Proof using Hq Hb.
  intros Hn Hsl [[Hsorted Hall] Hiso]. fold n in Hsl.
  assert (∀ k : nat, (k < n)%nat → 0 ≤ sol !!! k < p) as Hrange.
  { intros k Hk. eapply (Forall_lookup_1 _ _ k) in Hall; [exact Hall|].
    apply list_lookup_lookup_total_lt. lia. }
  split; [specialize (Hrange (n - 1)%nat); lia|].
  split; [now rewrite length_insert, length_replicate|]. split.
  - intros k Hk. destruct (decide (k = (n - 1)%nat)) as [->|Hne].
    + rewrite list_lookup_total_insert_eq; [done|]. rewrite length_replicate. lia.
    + rewrite !lookup_total_ge; [done|..].
      * rewrite length_insert, length_replicate. lia.
      * lia.
  - intros k Hk. split.
    + split; [apply Hrange; lia|].
      apply (proj1 (sorted_mono sol) Hsorted). lia.
    + apply (proj2 (fits_order_iso (host_values P sol)
                      ltac:(unfold host_values; now rewrite length_fmap)) Hiso).
      lia.
Qed.

Lemma involved_in_unfold bounds :
  involved_in q bounds (OfPerm P) 0 =
    (b ← match bounds with
         | Some b => Ok b
         | None => set_up_bounds q
         end;
     if decide (len q <= 1 ∧ len q <= len P) then Ok (true, Some b)
     else
       indices ← setitem (replicate (Z.to_nat (len q)) 0) (len q - 1) (len P - 1);
       start ← getitem indices (len q - 1);
       o ← while_return (Z.to_nat (start + 1)) (check_cond (len q - 1))
             (involved_body b.2 b.1 P (len q)) indices;
       match o with
       | inl _ => Ok (false, Some b)
       | inr r => Ok (r, Some b)
       end).
Proof.
  unfold involved_in. change (new (OfPerm P) None) with (Ok P). rewrite bind_Ok.
  destruct (match bounds with Some b => Ok b | None => set_up_bounds q end)
    as [[l u]| |]; reflexivity.
Qed.

(** [involved_in] returns, with the tables stored; it answers whether the
    pattern occurs in the host. *)
Lemma involved_in_spec bounds :
  set_up_bounds q = Ok (lb, ub) → cache_ok q bounds →
  ∃ b, involved_in q bounds (OfPerm P) 0 = Ok (b, Some (lb, ub))
       ∧ (b = true ↔ ∃ sol, length sol = length q ∧ occurrence q P sol).
Proof using Hq Hb.
  intros Hset Hcache. rewrite involved_in_unfold.
  assert (match bounds with Some b => Ok b | None => set_up_bounds q end
          = Ok (lb, ub)) as ->.
  { destruct Hcache as [->|(lb' & ub' & -> & Heq)]; [done|]. congruence. }
  rewrite bind_Ok. change (len q) with (Z.of_nat n). fold p.
  change ((lb, ub).1) with lb. change ((lb, ub).2) with ub.
  destruct (decide (Z.of_nat n <= 1 ∧ Z.of_nat n <= p)) as [[H1 H2]|Hbig].
  - exists true. split; [done|]. split; [intros _|done].
    destruct (decide (n = 0)%nat) as [Hn0|Hn0].
    + exists []. split; [simpl; lia|]. split; [split; constructor|].
      split; [simpl; lia|]. intros a b Ha. lia.
    + exists [0]. split; [simpl; lia|]. split.
      * split; [repeat constructor|]. repeat constructor; unfold p in H2; lia.
      * split; [simpl; lia|]. intros a b Ha Hb'.
        assert (a = 0%nat) as -> by lia. assert (b = 0%nat) as -> by lia. lia.
  - assert (0 < n)%nat as Hn by (unfold p, len in *; lia).
    rewrite Nat2Z.id.
    replace (Z.of_nat n - 1) with (Z.of_nat (n - 1)) by lia.
    set (base := λ c : Z, <[(n - 1)%nat := c]> (replicate n 0)).
    assert (∀ c, length (base c) = n) as Hlb
      by (intros c; unfold base; now rewrite length_insert, length_replicate).
    assert (∀ c, base c !!! (n - 1)%nat = c) as Hbl.
    { intros c. unfold base. apply list_lookup_total_insert_eq.
      rewrite length_replicate. lia. }
    rewrite (setitem_nat (replicate n 0) (n - 1)), bind_Ok
      by (rewrite length_replicate; lia).
    fold (base (p - 1)).
    rewrite (getitem_total (base (p - 1)) (n - 1)), bind_Ok, Hbl
      by (rewrite Hlb; lia).
    replace (p - 1 + 1) with p by lia.
    set (I := λ s : list Z,
           length s = n ∧ -1 ≤ s !!! (n - 1)%nat ≤ p - 1
           ∧ ∀ c sol, s !!! (n - 1)%nat < c ≤ p - 1 →
               extension lb ub P (base c) (Z.of_nat (n - 1) - 1) sol → False).
    set (Q := λ r : bool,
           r = true ∧ ∃ c sol, 0 ≤ c ≤ p - 1
             ∧ extension lb ub P (base c) (Z.of_nat (n - 1) - 1) sol).
    assert (0 ≤ p) as Hp by (unfold p, len; lia).
    destruct (while_return_rule I Q (λ s, Z.to_nat (s !!! (n - 1)%nat + 1))
                (check_cond (Z.of_nat (n - 1)))
                (involved_body ub lb P (Z.of_nat n)))
      with (fuel := Z.to_nat p) (s := base (p - 1))
      as [(s' & -> & (Hl' & Hr' & Hex') & Hc')|(r & -> & -> & c & sol & Hc & Hext)].
    + intros s (Hl & _). exists (bool_decide (s !!! (n - 1)%nat >= 0)). split.
      * unfold check_cond. now rewrite (getitem_total s (n - 1)), bind_Ok by lia.
      * intros Hpos%bool_decide_eq_true. lia.
    + intros s (Hl & Hr & Hex) Hcond.
      unfold check_cond in Hcond.
      rewrite (getitem_total s (n - 1)), bind_Ok in Hcond by lia.
      assert (0 ≤ s !!! (n - 1)%nat) as Hc0.
      { injection Hcond as Hcond. apply bool_decide_eq_true in Hcond. lia. }
      clear Hcond. set (c := s !!! (n - 1)%nat) in *.
      unfold involved_body, involvement_check.
      replace (Z.to_nat (Z.of_nat n - 2 + 1)) with (n - 1)%nat by lia.
      replace (Z.of_nat n - 2) with (Z.of_nat (n - 1) - 1) by lia.
      replace (Z.of_nat n - 1) with (Z.of_nat (n - 1)) by lia.
      destruct (check_spec (n - 1) s) as (b & s1 & Hrun & Hl1 & Hag1 & Hiff);
        [lia|done| |].
      { intros j Hj. assert (j = (n - 1)%nat) as -> by lia. fold c. lia. }
      rewrite Hrun, bind_Ok.
      assert (∀ sol, extension lb ub P s (Z.of_nat (n - 1) - 1) sol
                     ↔ extension lb ub P (base c) (Z.of_nat (n - 1) - 1) sol)
        as Hsame.
      { assert (∀ k : nat, Z.of_nat (n - 1) - 1 < Z.of_nat k →
                  s !!! k = base c !!! k) as Hag.
        { intros k Hk. destruct (decide (k = (n - 1)%nat)) as [->|Hne].
          - now rewrite Hbl.
          - rewrite !lookup_total_ge; [done|rewrite Hlb; lia|lia]. }
        intros sol. split; apply extension_agree.
        - now rewrite Hlb.
        - done.
        - now rewrite Hlb.
        - intros k Hk. symmetry. now apply Hag. }
      destruct b.
      * right. exists true. split; [done|]. split; [done|].
        destruct (proj1 Hiff eq_refl) as (sol & Hsol).
        exists c, sol. split; [lia|]. now apply Hsame.
      * left. exists (<[(n - 1)%nat := c - 1]> s1).
        rewrite (getitem_total s1 (n - 1)), bind_Ok by lia.
        rewrite (Hag1 (n - 1)%nat) by lia. fold c.
        rewrite (setitem_nat s1 (n - 1)), bind_Ok by lia.
        split; [done|].
        assert (<[(n - 1)%nat := c - 1]> s1 !!! (n - 1)%nat = c - 1) as Hnew
          by (apply list_lookup_total_insert_eq; lia).
        split; [|rewrite Hnew; lia].
        split; [now rewrite length_insert|]. split; [rewrite Hnew; lia|].
        intros c' sol Hc' Hext. rewrite Hnew in Hc'.
        destruct (decide (c' = c)) as [->|Hne].
        -- assert (false = true) as Habs; [|discriminate].
           apply Hiff. exists sol. now apply Hsame.
        -- apply (Hex c' sol); [fold c; lia|done].
    + split; [apply Hlb|]. rewrite Hbl. split; [lia|]. intros c sol Hc. lia.
    + rewrite Hbl. lia.
    + rewrite bind_Ok. exists false. split; [done|]. split; [discriminate|].
      intros (sol & Hsl & Hocc). exfalso.
      unfold check_cond in Hc'.
      rewrite (getitem_total s' (n - 1)), bind_Ok in Hc' by lia.
      injection Hc' as Hc'. apply bool_decide_eq_false in Hc'.
      destruct (occurrence_extension sol Hn Hsl Hocc) as [Hc Hext].
      apply (Hex' (sol !!! (n - 1)%nat) sol); [lia|done].
    + rewrite bind_Ok. exists true. split; [done|]. split; [intros _|done].
      exists sol. apply (extension_occurrence c); done.
Qed.

End Search.

End SearchFacts.

(** ** Indices and values outside their range *)

Module DomainFacts.
Import Perm PermFacts EditFacts DecompositionFacts.

Lemma clamp_cases n i :
  0 ≤ n →
  clamp n i = if decide (i < - n) then 0
              else if decide (i < 0) then i + n
              else if decide (i ≤ n) then i else n.
Proof.
  intros Hn. unfold clamp.
  destruct (Z.ltb_spec i 0), (decide (i < - n)), (decide (i < 0)), (decide (i ≤ n)); lia.
Qed.

Lemma clamp_range n i : 0 ≤ n → 0 ≤ clamp n i ≤ n.
Proof.
  intros Hn. rewrite clamp_cases by done.
  destruct (decide (i < - n)), (decide (i < 0)), (decide (i ≤ n)); lia.
Qed.

Lemma slice_to_clamp {A} (l : list A) i :
  slice_to l i = take (Z.to_nat (clamp (len l) i)) l.
Proof.
  pose proof (len_nonneg l) as Hn. pose proof (clamp_range (len l) i Hn) as Hc.
  unfold slice_to, slice. rewrite (clamp_cases (len l) 0) by done.
  destruct (decide (0 < - len l)); [lia|]. destruct (decide (0 < 0)); [lia|].
  destruct (decide (0 ≤ len l)); [|lia].
  rewrite Z.sub_0_r. done.
Qed.

Lemma slice_from_clamp {A} (l : list A) i :
  slice_from l i = drop (Z.to_nat (clamp (len l) i)) l.
Proof.
  pose proof (len_nonneg l) as Hn. pose proof (clamp_range (len l) i Hn) as Hc.
  unfold slice_from, slice. rewrite (clamp_cases (len l) (len l)) by done.
  destruct (decide (len l < - len l)); [lia|]. destruct (decide (len l < 0)); [lia|].
  destruct (decide (len l ≤ len l)); [|lia].
  apply take_ge. rewrite length_drop. unfold len in *. lia.
Qed.

(** The list [insert] hands to the constructor, with the index as the
    slices read it. *)
Lemma insert_clamped self idx val :
  insert self idx val =
    of_seq (take (Z.to_nat (clamp (len self) idx)) (bump val <$> self)
            ++ val :: drop (Z.to_nat (clamp (len self) idx)) (bump val <$> self)).
Proof.
  rewrite insert_unfold, slice_to_clamp, slice_from_clamp.
  unfold len. now rewrite length_fmap.
Qed.

Lemma insert_same_clamp self idx idx' val :
  clamp (len self) idx = clamp (len self) idx' →
  insert self idx val = insert self idx' val.
Proof. intros H. rewrite !insert_clamped. now rewrite H. Qed.

(** [insert] with the index and the value in their ranges. *)
Lemma insert_in_range self idx val :
  is_perm self → 0 ≤ idx ≤ len self → 0 ≤ val ≤ len self →
  insert self idx val =
    Ok (take (Z.to_nat idx) (bump val <$> self)
        ++ val :: drop (Z.to_nat idx) (bump val <$> self)).
Proof.
  intros Hp Hidx Hval. rewrite insert_clamped.
  rewrite clamp_cases by lia.
  destruct (decide (idx < - len self)); [lia|]. destruct (decide (idx < 0)); [lia|].
  destruct (decide (idx ≤ len self)); [|lia].
  apply of_seq_is_perm.
  pose proof (inserted_is_perm self idx val Hp Hval) as Hq.
  rewrite slice_to_clamp, slice_from_clamp in Hq.
  unfold len in Hq. rewrite length_fmap in Hq. fold (len self) in Hq.
  rewrite clamp_cases in Hq by lia.
  destruct (decide (idx < - len self)); [lia|]. destruct (decide (idx < 0)); [lia|].
  destruct (decide (idx ≤ len self)); [|lia]. exact Hq.
Qed.

(** A value outside [0 .. len(self)] is standardized to the nearest end
    of that range. *)
Lemma insert_value_clamped self idx val :
  is_perm self →
  insert self idx val = insert self idx (Z.max 0 (Z.min (len self) val)).
Proof.
  intros Hp. pose proof (len_nonneg self) as Hn.
  destruct (decide (0 ≤ val ≤ len self)) as [Hin|Hout].
  { now replace (Z.max 0 (Z.min (len self) val)) with val by lia. }
  rewrite !insert_clamped, !of_seq_standardize.
  set (c := Z.to_nat (clamp (len self) idx)).
  destruct (decide (len self < val)) as [Hhi|Hlo].
  - replace (Z.max 0 (Z.min (len self) val)) with (len self) by lia.
    set (f := λ y, if decide (y >= len self) then y + (val - len self) else y).
    rewrite <- (standardize_fmap f
                  (take c (bump (len self) <$> self)
                   ++ len self :: drop c (bump (len self) <$> self))).
    2:{ intros a b. unfold f.
        destruct (decide (a >= len self)), (decide (b >= len self)); lia. }
    f_equal. rewrite fmap_app, fmap_cons, fmap_take, fmap_drop.
    assert (f <$> (bump (len self) <$> self) = bump val <$> self) as ->.
    { rewrite <- list_fmap_compose. apply list_fmap_ext.
      intros k x Hx%list_elem_of_lookup_2%(is_perm_elem_of self x Hp).
      unfold compose, f, bump.
      destruct (decide (x >= len self)); [lia|].
      destruct (decide (x >= len self)); [lia|].
      destruct (decide (x >= val)); lia. }
    assert (f (len self) = val) as ->; [|done].
    unfold f. destruct (decide (len self >= len self)); lia.
  - replace (Z.max 0 (Z.min (len self) val)) with 0 by lia.
    set (f := λ y, if decide (y >= 1) then y else y + val).
    rewrite <- (standardize_fmap f
                  (take c (bump 0 <$> self) ++ 0 :: drop c (bump 0 <$> self))).
    2:{ intros a b. unfold f.
        destruct (decide (a >= 1)), (decide (b >= 1)); lia. }
    f_equal. rewrite fmap_app, fmap_cons, fmap_take, fmap_drop.
    assert (f <$> (bump 0 <$> self) = bump val <$> self) as ->.
    { rewrite <- list_fmap_compose. apply list_fmap_ext.
      intros k x Hx%list_elem_of_lookup_2%(is_perm_elem_of self x Hp).
      unfold compose, f, bump.
      destruct (decide (x >= 0)); [|lia].
      destruct (decide (x + 1 >= 1)); [|lia].
      destruct (decide (x >= val)); lia. }
    assert (f 0 = val) as ->; [|done].
    unfold f. destruct (decide (0 >= 1)); lia.
Qed.

(** A negative index of [delete] counts from the end. *)
Lemma delete_negative self idx :
  - len self ≤ idx < 0 → delete self idx = delete self (idx + len self).
Proof.
  intros Hidx. unfold delete, delitem.
  assert ((idx <? 0) = true) as -> by (apply Z.ltb_lt; lia).
  assert ((idx + len self <? 0) = false) as E by (apply Z.ltb_ge; lia).
  now rewrite !E.
Qed.

(** The ranks in a permutation that has lost the entry [x]. *)
Lemma rank_remove pre x post y :
  is_perm (pre ++ x :: post) → y ∈ pre ++ post →
  rank (pre ++ post) y = if decide (y > x) then y - 1 else y.
Proof.
  intros Hp Hy.
  assert (y ∈ pre ++ x :: post) as Hy'.
  { apply elem_of_app in Hy as [?|?]; apply elem_of_app; [now left|right; now right]. }
  apply (is_perm_elem_of _ _ Hp) in Hy'.
  pose proof (is_perm_rank _ y Hp ltac:(lia)) as Hr.
  rewrite rank_app, rank_cons in Hr. rewrite rank_app.
  destruct (decide (x < y)), (decide (y > x)); lia.
Qed.

(** [delete] takes the entry at [idx] away and lowers the entries above
    it. *)
Lemma delete_spec self idx :
  is_perm self → 0 ≤ idx < len self →
  delete self idx =
    Ok ((λ y, if decide (y > self !!! Z.to_nat idx) then y - 1 else y)
          <$> (take (Z.to_nat idx) self ++ drop (S (Z.to_nat idx)) self)).
Proof.
  intros Hp Hidx. unfold delete. rewrite delitem_Ok, bind_Ok by done.
  rewrite delete_take_drop.
  assert (self !! Z.to_nat idx = Some (self !!! Z.to_nat idx)) as Hx
    by (apply list_lookup_lookup_total_lt; unfold len in Hidx; lia).
  pose proof (take_drop_middle _ _ _ Hx) as Hmid.
  set (x := self !!! Z.to_nat idx) in *.
  set (pre := take (Z.to_nat idx) self) in *.
  set (post := drop (S (Z.to_nat idx)) self) in *.
  assert (NoDup (pre ++ post)) as Hnd.
  { pose proof (is_perm_NoDup self Hp) as H. rewrite <- Hmid in H.
    rewrite <- Permutation_middle in H. now apply NoDup_cons in H as [_ ?]. }
  rewrite of_seq_standardize, standardize_NoDup by done. f_equal.
  apply list_fmap_ext. intros k y Hy%list_elem_of_lookup_2.
  apply (rank_remove pre x post); [now rewrite Hmid|done].
Qed.

End DomainFacts.

(** * The claims *)

Module Claims.
Import Perm PermFacts IntervalFacts LocationFacts EditFacts IndexFacts.
Import SimpleFacts InflateFacts DecompositionFacts.
Import OccurrenceFacts BoundFacts SearchFacts DomainFacts.

(** C3, as stated, fails: [2,4,1,3,5] is not simple, and its
    decomposition is not the permutation itself with singleton
    components. *)
Lemma decomposition_24135_not_trivial :
  new (OfSeq [2; 4; 1; 3; 5]) None = Ok [1; 3; 0; 2; 4]
  ∧ ¬ (is_simple [1; 3; 0; 2; 4] = Ok true
       ∧ decomposition [1; 3; 0; 2; 4]
         = Ok ([1; 3; 0; 2; 4], [[0]; [0]; [0]; [0]; [0]])).
Proof.
  split; [vm_compute; reflexivity|].
  intros [H _]. vm_compute in H. discriminate H.
Qed.

(** C3, amended: the permutation [2,4,1,3,5] is not simple, since its
    first four entries form an interval; [decomposition] returns the base
    [1,2] with the components [2,4,1,3] and [1].  On the simple
    permutation [2,4,1,3] it returns the permutation itself with
    singleton components. *)
Theorem decomposition_24135 :
  new (OfSeq [2; 4; 1; 3; 5]) None = Ok [1; 3; 0; 2; 4]
  ∧ is_simple [1; 3; 0; 2; 4] = Ok false
  ∧ maximal_interval [1; 3; 0; 2; 4] = Ok (4, 0)
  ∧ decomposition [1; 3; 0; 2; 4] = Ok ([0; 1], [[1; 3; 0; 2]; [0]])
  ∧ is_simple [1; 3; 0; 2] = Ok true
  ∧ decomposition [1; 3; 0; 2] = Ok ([1; 3; 0; 2], [[0]; [0]; [0]; [0]]).
Proof. repeat split; vm_compute; reflexivity. Qed.

(** C4: [ind2perm] and [perm2ind] are inverse bijections between
    [{0, ..., n!-1}] and the permutations of length [n]: an index [k]
    below [n!] gives a permutation of length [n] whose index is [k], and a
    permutation [p] of length [n] has an index below [n!] from which
    [ind2perm] builds [p]. *)
Theorem ind2perm_perm2ind_inverse (n : nat) (k : Z) (p : list Z) :
  0 ≤ k < factorial n → is_perm p → length p = n →
  (∃ q, ind2perm k (Z.of_nat n) = Ok q ∧ is_perm q ∧ length q = n
        ∧ perm2ind q = Ok k)
  ∧ (∃ v, perm2ind p = Ok v ∧ 0 ≤ v < factorial n
          ∧ ind2perm v (Z.of_nat n) = Ok p).
Proof.
  intros Hk Hp Hlen. split.
  - exists (ind2perm_list n k). rewrite ind2perm_Ok.
    destruct (ind2perm_list_run n k) as (_ & Hq & Hqlen).
    split; [done|]. split; [done|]. split; [done|].
    rewrite perm2ind_unfold. unfold len. rewrite Hqlen.
    pose proof (perm2ind_loop_ind2perm n k [] 0 1 Hk) as Hrun.
    rewrite app_nil_r in Hrun. rewrite Hrun. simpl. f_equal. lia.
  - destruct (perm2ind_loop_is_perm n p Hp Hlen) as (v & Hv & Hlist & Hrun).
    exists v. rewrite perm2ind_unfold. unfold len. rewrite Hlen.
    specialize (Hrun [] 0 1). rewrite app_nil_r in Hrun. rewrite Hrun. simpl.
    split; [f_equal; lia|]. split; [done|].
    now rewrite ind2perm_Ok, Hlist.
Qed.

Lemma ind2perm_perm2ind_inverse_witness :
  0 ≤ 4 < factorial 3 ∧ is_perm [2; 0; 1] ∧ length [2; 0; 1] = 3%nat
  ∧ (∃ q, ind2perm 4 (Z.of_nat 3) = Ok q ∧ is_perm q ∧ length q = 3%nat
          ∧ perm2ind q = Ok 4)
  ∧ (∃ v, perm2ind [2; 0; 1] = Ok v ∧ 0 ≤ v < factorial 3
          ∧ ind2perm v (Z.of_nat 3) = Ok [2; 0; 1]).
Proof.
  assert (0 ≤ 4 < factorial 3) as Hk by (unfold factorial; simpl; lia).
  assert (is_perm [2; 0; 1]) as Hp by reflexivity.
  split; [exact Hk|]. split; [exact Hp|]. split; [reflexivity|].
  exact (ind2perm_perm2ind_inverse 3 4 [2; 0; 1] Hk Hp eq_refl).
Defined.

(** C5, as stated, fails: index 0 is not the identity of length 3, and
    the identity does not have index 0. *)
Lemma ind2perm_0_3_not_identity :
  ¬ (ind2perm 0 3 = Ok [0; 1; 2] ∧ perm2ind [0; 1; 2] = Ok 0).
Proof. intros [H _]. vm_compute in H. discriminate H. Qed.

(** C5, amended: [ind2perm(0, 3)] returns [1,2,0] and [perm2ind] of the
    identity [0,1,2] returns 5; the identity is the permutation of the
    last index, [ind2perm(5, 3)], and [1,2,0] has index 0. *)
Theorem ind2perm_0_3 :
  ind2perm 0 3 = Ok [1; 2; 0] ∧ perm2ind [0; 1; 2] = Ok 5
  ∧ ind2perm 5 3 = Ok [0; 1; 2] ∧ perm2ind [1; 2; 0] = Ok 0.
Proof. repeat split; vm_compute; reflexivity. Qed.

(** C6: inserting the value [v] before position [i] and deleting position
    [i] again returns the permutation, for [i] and [v] in [0 .. len(p)]. *)
Theorem insert_then_delete (p : list Z) (i v : Z) :
  is_perm p → 0 ≤ i ≤ len p → 0 ≤ v ≤ len p →
  ∃ q, insert p i v = Ok q ∧ delete q i = Ok p.
Proof.
  intros Hp Hi Hv.
  destruct (insert_delete p i v Hp Hi Hv) as (q & Hq & _ & _ & Hd). eauto.
Qed.

Lemma insert_then_delete_witness :
  is_perm [1; 3; 0; 2] ∧ 0 ≤ 2 ≤ len [1; 3; 0; 2] ∧ 0 ≤ 1 ≤ len [1; 3; 0; 2]
  ∧ ∃ q, insert [1; 3; 0; 2] 2 1 = Ok q ∧ delete q 2 = Ok [1; 3; 0; 2].
Proof.
  assert (is_perm [1; 3; 0; 2]) as Hp by reflexivity.
  assert (0 ≤ 2 ≤ len [1; 3; 0; 2]) as Hi by (unfold len; simpl; lia).
  assert (0 ≤ 1 ≤ len [1; 3; 0; 2]) as Hv by (unfold len; simpl; lia).
  split; [exact Hp|]. split; [exact Hi|]. split; [exact Hv|].
  exact (insert_then_delete [1; 3; 0; 2] 2 1 Hp Hi Hv).
Defined.

(** C7, as stated, fails: [insert] with an index outside [0, len(p)] does
    not fail; on the permutation [0], index 5 and value 0 it returns the
    permutation [1,0]. *)
Lemma insert_out_of_range_returns :
  is_perm [0] ∧ ¬ (0 ≤ 5 ≤ len [0])
  ∧ insert [0] 5 0 = Ok [1; 0]
  ∧ ¬ (∃ e, insert [0] 5 0 = Raise e).
Proof.
  split; [reflexivity|]. split; [unfold len; simpl; lia|].
  split; [vm_compute; reflexivity|].
  intros [e H]. vm_compute in H. discriminate H.
Qed.

(** C7, amended.  [delete(i)] raises [IndexError] when [i >= len(p)] or
    [i < -len(p)]; an index from [-len(p)] to [-1] counts from the end,
    and [delete(i)] for [0 <= i < len(p)] takes the entry at position [i]
    away and lowers the entries above it by one.  [insert(i, v)] never
    fails on its index, which slicing clamps: an index above [len(p)]
    acts as [len(p)], one below [-len(p)] as [0], and one from [-len(p)]
    to [-1] counts from the end; a value outside [0 .. len(p)] acts as
    the nearest end of that range; with both in range the result is [p]
    with the entries from [v] on raised by one and [v] put before
    position [i].  [p ** e] raises [ValueError] when [e] is a negative
    integer or not an integer.  A failing call returns no value. *)
Theorem domain_violations (p : list Z) :
  is_perm p →
  (∀ i, len p ≤ i ∨ i < - len p → delete p i = Raise IndexError)
  ∧ (∀ i, - len p ≤ i < len p →
       ∃ r, delete p i = Ok r ∧ is_perm r ∧ len r = len p - 1)
  ∧ (∀ i, - len p ≤ i < 0 → delete p i = delete p (i + len p))
  ∧ (∀ i, 0 ≤ i < len p →
       delete p i =
         Ok ((λ y, if decide (y > p !!! Z.to_nat i) then y - 1 else y)
               <$> (take (Z.to_nat i) p ++ drop (S (Z.to_nat i)) p)))
  ∧ (∀ i v, ∃ r, insert p i v = Ok r ∧ is_perm r ∧ len r = len p + 1)
  ∧ (∀ i v, len p ≤ i → insert p i v = insert p (len p) v)
  ∧ (∀ i v, i < - len p → insert p i v = insert p 0 v)
  ∧ (∀ i v, - len p ≤ i < 0 → insert p i v = insert p (i + len p) v)
  ∧ (∀ i v, insert p i v = insert p i (Z.max 0 (Z.min (len p) v)))
  ∧ (∀ i v, 0 ≤ i ≤ len p → 0 ≤ v ≤ len p →
       insert p i v =
         Ok (take (Z.to_nat i) (bump v <$> p)
             ++ v :: drop (Z.to_nat i) (bump v <$> p)))
  ∧ (∀ z, z < 0 → pow p (ExpInt z) = Raise ValueError)
  ∧ pow p ExpOther = Raise ValueError.
Proof.
  intros Hp. pose proof (is_perm_NoDup p Hp) as Hnd.
  pose proof (len_nonneg p) as Hn.
  assert (∀ i j v, clamp (len p) i = clamp (len p) j →
            insert p i v = insert p j v) as Hsame
    by (intros i j v; apply insert_same_clamp).
  split; [intros i; apply delete_out_of_range|].
  split; [intros i; now apply delete_in_range|].
  split; [intros i; apply delete_negative|].
  split; [intros i; now apply delete_spec|].
  split; [intros i v; now apply insert_total|].
  split.
  { intros i v Hi. apply Hsame. rewrite !clamp_cases by done.
    repeat destruct (decide _); lia. }
  split.
  { intros i v Hi. apply Hsame. rewrite !clamp_cases by done.
    repeat destruct (decide _); lia. }
  split.
  { intros i v Hi. apply Hsame. rewrite !clamp_cases by done.
    repeat destruct (decide _); lia. }
  split; [intros i v; now apply insert_value_clamped|].
  split; [intros i v; now apply insert_in_range|].
  split; [intros z; apply pow_negative|apply pow_non_integer].
Qed.

Lemma domain_violations_witness :
  is_perm [1; 0; 2]
  ∧ (∀ i, len [1; 0; 2] ≤ i ∨ i < - len [1; 0; 2] →
       delete [1; 0; 2] i = Raise IndexError)
  ∧ (∀ i, - len [1; 0; 2] ≤ i < len [1; 0; 2] →
       ∃ r, delete [1; 0; 2] i = Ok r ∧ is_perm r ∧ len r = len [1; 0; 2] - 1)
  ∧ (∀ i, - len [1; 0; 2] ≤ i < 0 →
       delete [1; 0; 2] i = delete [1; 0; 2] (i + len [1; 0; 2]))
  ∧ (∀ i, 0 ≤ i < len [1; 0; 2] →
       delete [1; 0; 2] i =
         Ok ((λ y, if decide (y > [1; 0; 2] !!! Z.to_nat i) then y - 1 else y)
               <$> (take (Z.to_nat i) [1; 0; 2]
                    ++ drop (S (Z.to_nat i)) [1; 0; 2])))
  ∧ (∀ i v, ∃ r, insert [1; 0; 2] i v = Ok r ∧ is_perm r
                 ∧ len r = len [1; 0; 2] + 1)
  ∧ (∀ i v, len [1; 0; 2] ≤ i →
       insert [1; 0; 2] i v = insert [1; 0; 2] (len [1; 0; 2]) v)
  ∧ (∀ i v, i < - len [1; 0; 2] → insert [1; 0; 2] i v = insert [1; 0; 2] 0 v)
  ∧ (∀ i v, - len [1; 0; 2] ≤ i < 0 →
       insert [1; 0; 2] i v = insert [1; 0; 2] (i + len [1; 0; 2]) v)
  ∧ (∀ i v, insert [1; 0; 2] i v
            = insert [1; 0; 2] i (Z.max 0 (Z.min (len [1; 0; 2]) v)))
  ∧ (∀ i v, 0 ≤ i ≤ len [1; 0; 2] → 0 ≤ v ≤ len [1; 0; 2] →
       insert [1; 0; 2] i v =
         Ok (take (Z.to_nat i) (bump v <$> [1; 0; 2])
             ++ v :: drop (Z.to_nat i) (bump v <$> [1; 0; 2])))
  ∧ (∀ z, z < 0 → pow [1; 0; 2] (ExpInt z) = Raise ValueError)
  ∧ pow [1; 0; 2] ExpOther = Raise ValueError.
Proof.
  assert (is_perm [1; 0; 2]) as Hp by reflexivity.
  split; [exact Hp|]. exact (domain_violations [1; 0; 2] Hp).
Defined.

(** C8: a sequence with a duplicated element is rejected: [standardize]
    and the constructor raise (the assertion on distinctness fails), and
    no permutation is returned. *)
Theorem duplicates_rejected (L : list Z) (i j : nat) (x : Z) :
  i ≠ j → L !! i = Some x → L !! j = Some x →
  standardize L = Raise AssertionError
  ∧ new (OfSeq L) None = Raise AssertionError.
Proof.
  intros Hij Hi Hj.
  assert (¬ NoDup L) as Hnd.
  { intros Hnd. apply Hij. eapply NoDup_lookup; done. }
  split; [now apply standardize_dup|].
  simpl. rewrite of_seq_standardize. now apply standardize_dup.
Qed.

Lemma duplicates_rejected_witness :
  0%nat ≠ 2%nat ∧ [3; 1; 3] !! 0%nat = Some 3 ∧ [3; 1; 3] !! 2%nat = Some 3
  ∧ standardize [3; 1; 3] = Raise AssertionError
  ∧ new (OfSeq [3; 1; 3]) None = Raise AssertionError.
Proof.
  assert (0%nat ≠ 2%nat) as Hij by discriminate.
  split; [exact Hij|]. split; [reflexivity|]. split; [reflexivity|].
  exact (duplicates_rejected [3; 1; 3] 0 2 3 Hij eq_refl eq_refl).
Defined.

(** C9: [maximal_interval] returns [(i, j)] where [i] is the largest
    length in [2 .. n-1] for which some window [self[j':j'+i]] has
    [max - min = i - 1], and [j] is the smallest start of such a window of
    that length; it returns [(0, 0)] exactly when no window of a length in
    [2 .. n-1] passes the test. *)
Theorem maximal_interval_spec (self : list Z) :
  ∃ i j, maximal_interval self = Ok (i, j)
    ∧ ((i, j) = (0, 0) ↔
        ∀ i' j', 2 ≤ i' ≤ len self - 1 → 0 ≤ j' ≤ len self - i' →
                 ¬ window self j' i')
    ∧ ((i, j) ≠ (0, 0) →
        2 ≤ i ≤ len self - 1 ∧ 0 ≤ j ≤ len self - i
        ∧ window self j i
        ∧ (∀ i' j', i < i' ≤ len self - 1 → 0 ≤ j' ≤ len self - i' →
                    ¬ window self j' i')
        ∧ (∀ j', 0 ≤ j' < j → ¬ window self j' i)).
Proof.
  destruct (maximal_interval_cases self)
    as [[Hr Hno]|(i & j & Hr & Hi & Hj & Hw & Hmax & Hfirst)].
  - exists 0, 0. split; [done|]. split; [done|]. intros H. done.
  - exists i, j. split; [done|]. split.
    + split.
      * intros [= -> ->]. lia.
      * intros Hno. exfalso. exact (Hno i j Hi Hj Hw).
    + intros _. done.
Qed.

(** C2: on every permutation [p], [decomposition] returns a base and
    components whose inflation is [p], and the base is simple: [is_simple]
    accepts it, and no window of a length in [2 .. len(base)-1] passes the
    interval test. *)
Theorem decomposition_inflate_roundtrip (p : list Z) :
  is_perm p →
  ∃ base components,
    decomposition p = Ok (base, components)
    ∧ inflate base components = Ok p
    ∧ is_simple base = Ok true
    ∧ (∀ i j, 2 ≤ i ≤ len base - 1 → 0 ≤ j ≤ len base - i → ¬ window base j i).
Proof.
  intros Hp.
  destruct (decomposition_spec p Hp) as (base & comps & Hd & _ & _ & Hs & Hi).
  exists base, comps. split; [done|]. split; [done|]. split; [done|].
  destruct (is_simple_cases base) as [(_ & _ & Hno)|(Hs' & _)]; [done|congruence].
Qed.

Lemma decomposition_inflate_roundtrip_witness :
  is_perm [1; 0; 3; 2; 5; 4; 7; 6]
  ∧ ∃ base components,
      decomposition [1; 0; 3; 2; 5; 4; 7; 6] = Ok (base, components)
      ∧ inflate base components = Ok [1; 0; 3; 2; 5; 4; 7; 6]
      ∧ is_simple base = Ok true
      ∧ (∀ i j, 2 ≤ i ≤ len base - 1 → 0 ≤ j ≤ len base - i → ¬ window base j i).
Proof.
  assert (is_perm [1; 0; 3; 2; 5; 4; 7; 6]) as Hp by reflexivity.
  split; [exact Hp|].
  exact (decomposition_inflate_roundtrip [1; 0; 3; 2; 5; 4; 7; 6] Hp).
Defined.

(** C10: [simple_location] and [maximal_interval] agree on simplicity:
    one returns [(0, 0)] exactly when the other does.  When [is_simple] is
    false, [maximal_interval] returns a length of at least 2, so that in
    [decomposition] the assertion [i != 0] holds in every iteration and
    the loop ends: [decomposition] returns a value. *)
Theorem interval_detectors_agree (p : list Z) :
  is_perm p →
  (∃ ij ij', simple_location p = Ok ij ∧ maximal_interval p = Ok ij'
      ∧ (ij = (0, 0) ↔ ij' = (0, 0))
      ∧ (is_simple p = Ok false → 2 ≤ ij'.1))
  ∧ (∃ r, decomposition p = Ok r).
Proof.
  intros Hp. split.
  - destruct (simple_location_cases p) as [[Hloc Hno]|(i & j & Hloc & Hi & Hj & Hw)];
    destruct (maximal_interval_cases p)
      as [[Hmax Hno']|(i' & j' & Hmax & Hi' & Hj' & Hw' & Hrest)].
    + exists (0, 0), (0, 0). split; [done|]. split; [done|]. split; [done|].
      unfold is_simple. rewrite Hloc. simpl. discriminate.
    + exfalso. apply (Hno (i' - 1) (j' + i' - 1)); [lia|lia|].
      replace (j' + i' - 1 - (i' - 1)) with j' by lia.
      now replace (i' - 1 + 1) with i' by lia.
    + exfalso. apply (Hno' (i + 1) (j - i)); [lia|lia|done].
    + exists (i, j), (i', j'). split; [done|]. split; [done|]. split.
      * split; intros [= ? ?]; lia.
      * intros _. simpl. lia.
  - destruct (decomposition_spec p Hp) as (base & comps & Hd & _). eauto.
Qed.

Lemma interval_detectors_agree_witness :
  is_perm [1; 3; 0; 2; 4]
  ∧ (∃ ij ij', simple_location [1; 3; 0; 2; 4] = Ok ij
        ∧ maximal_interval [1; 3; 0; 2; 4] = Ok ij'
        ∧ (ij = (0, 0) ↔ ij' = (0, 0))
        ∧ (is_simple [1; 3; 0; 2; 4] = Ok false → 2 ≤ ij'.1))
  ∧ (∃ r, decomposition [1; 3; 0; 2; 4] = Ok r).
Proof.
  assert (is_perm [1; 3; 0; 2; 4]) as Hp by reflexivity.
  split; [exact Hp|]. exact (interval_detectors_agree [1; 3; 0; 2; 4] Hp).
Defined.

(** C1: on every host permutation [P] and every pattern permutation [q],
    whatever tables the pattern carries from an earlier search, [avoids]
    and [occurrences] both return, and [avoids] returns [True] exactly
    when [occurrences] returns 0: the backtracking search of
    [involved_in], cut by the bound tables, and the enumeration of all
    index subsets agree on whether [P] has entries, at increasing
    positions, in the order of [q]. *)
Theorem avoids_iff_no_occurrence (P q : list Z) (bounds : cache) :
  is_perm P → is_perm q → cache_ok q bounds →
  ∃ b k, avoids P (OfPerm q) bounds 0 = Ok b
    ∧ occurrences P q = Ok k
    ∧ (b = true ↔ k = 0)
    ∧ (b = true ↔ ¬ ∃ sol, length sol = length q ∧ occurrence q P sol).
Proof.
  intros HP Hq Hcache.
  destruct (set_up_bounds_spec q Hq) as (lb & ub & Hset & Hb).
  destruct (involved_in_spec q lb ub Hq Hb P bounds Hset Hcache)
    as (b & Hrun & Hb_iff).
  destruct (occurrences_spec P q (is_perm_NoDup _ HP) Hq)
    as (k & Hocc & _ & Hk_iff).
  exists (negb b), k. split.
  - unfold avoids, pattern_of. rewrite bind_Ok. simpl. now rewrite Hrun.
  - split; [done|].
    assert (negb b = true ↔ ¬ ∃ sol, length sol = length q ∧ occurrence q P sol)
      as Hneg.
    { rewrite <- Hb_iff. destruct b; simpl; split; congruence. }
    split; [|done]. now rewrite Hk_iff.
Qed.

Lemma avoids_iff_no_occurrence_witness :
  is_perm [0; 2; 1] ∧ is_perm [1; 0] ∧ cache_ok [1; 0] None
  ∧ ∃ b k, avoids [0; 2; 1] (OfPerm [1; 0]) None 0 = Ok b
      ∧ occurrences [0; 2; 1] [1; 0] = Ok k
      ∧ (b = true ↔ k = 0)
      ∧ (b = true ↔ ¬ ∃ sol, length sol = length [1; 0]
                              ∧ occurrence [1; 0] [0; 2; 1] sol).
Proof.
  assert (is_perm [0; 2; 1]) as HP by reflexivity.
  assert (is_perm [1; 0]) as Hq by reflexivity.
  assert (cache_ok [1; 0] None) as Hc by (left; reflexivity).
  split; [exact HP|]. split; [exact Hq|]. split; [exact Hc|].
  exact (avoids_iff_no_occurrence [0; 2; 1] [1; 0] None HP Hq Hc).
Defined.

End Claims.

(** * Further properties *)

(** ** Loops that count, collect and add *)

Lemma for_each_ext {A S} (xs : list A) (body body' : A → S → res S) s :
  (∀ x s, x ∈ xs → body x s = body' x s) →
  for_each xs body s = for_each xs body' s.
Proof.
  revert s. induction xs as [|x xs IH]; intros s Hext; [done|].
  simpl. rewrite Hext by left. destruct (body' x s); simpl; [|done..].
  apply IH. intros y t Hy. apply Hext. now right.
Qed.

Lemma for_return_ext {A S R} (xs : list A) (body body' : A → S → res (S + R)) s :
  (∀ x s, x ∈ xs → body x s = body' x s) →
  for_return xs body s = for_return xs body' s.
Proof.
  revert s. induction xs as [|x xs IH]; intros s Hext; [done|].
  simpl. rewrite Hext by left. destruct (body' x s) as [[s'|r]| |]; simpl; [|done..].
  apply IH. intros y t Hy. apply Hext. now right.
Qed.

#[global] Arguments sumZ : simpl never.

Lemma sumZ_cons x l : sumZ (x :: l) = x + sumZ l.
Proof. done. Qed.

Lemma sumZ_app l k : sumZ (l ++ k) = sumZ l + sumZ k.
Proof.
  induction l as [|x l IH]; [done|].
  rewrite <- app_comm_cons, !sumZ_cons, IH. lia.
Qed.

Lemma for_each_add {A} (w : A → Z) (xs : list A) (body : A → Z → res Z) :
  (∀ x s, x ∈ xs → body x s = Ok (s + w x)) →
  ∀ s, for_each xs body s = Ok (s + sumZ (w <$> xs)).
Proof.
  induction xs as [|x xs IH]; intros Hb s.
  - simpl. apply (f_equal Ok). change (sumZ []) with 0. lia.
  - rewrite IndexFacts.for_each_cons, Hb, bind_Ok by left.
    rewrite IH by (intros; apply Hb; now right).
    apply (f_equal Ok). rewrite fmap_cons, sumZ_cons. lia.
Qed.

Lemma for_each_count {A} (P : A → Prop) `{∀ x, Decision (P x)} (xs : list A)
    (body : A → Z → res Z) :
  (∀ x s, x ∈ xs → body x s = Ok (if decide (P x) then s + 1 else s)) →
  ∀ s, for_each xs body s = Ok (s + len (filter P xs)).
Proof.
  induction xs as [|x xs IH]; intros Hb s.
  - simpl. apply (f_equal Ok). unfold len. simpl. lia.
  - simpl. rewrite Hb by left. simpl. rewrite filter_cons.
    destruct (decide (P x)); rewrite IH by (intros; apply Hb; now right);
      apply (f_equal Ok); unfold len; simpl; lia.
Qed.

Lemma for_each_collect {A} (P : A → Prop) `{∀ x, Decision (P x)} (xs : list A)
    (body : A → list A → res (list A)) :
  (∀ x L, x ∈ xs → body x L = Ok (if decide (P x) then L ++ [x] else L)) →
  ∀ L, for_each xs body L = Ok (L ++ filter P xs).
Proof.
  induction xs as [|x xs IH]; intros Hb L.
  - simpl. now rewrite app_nil_r.
  - simpl. rewrite Hb by left. simpl. rewrite filter_cons.
    destruct (decide (P x)); rewrite IH by (intros; apply Hb; now right);
      [now rewrite <- app_assoc|done].
Qed.

Lemma for_each_append {A B} (g : A → B) (xs : list A)
    (body : A → list B → res (list B)) :
  (∀ x L, x ∈ xs → body x L = Ok (L ++ [g x])) →
  ∀ L, for_each xs body L = Ok (L ++ (g <$> xs)).
Proof.
  induction xs as [|x xs IH]; intros Hb L.
  - simpl. now rewrite app_nil_r.
  - simpl. rewrite Hb by left. simpl.
    rewrite IH by (intros; apply Hb; now right). now rewrite <- app_assoc.
Qed.

Lemma filter_fmap {A B} (P : B → Prop) `{∀ x, Decision (P x)} (f : A → B)
    (l : list A) :
  filter P (f <$> l) = f <$> filter (λ x, P (f x)) l.
Proof.
  induction l as [|x l IH]; [done|].
  rewrite fmap_cons, !filter_cons. destruct (decide (P (f x))); [|done].
  now rewrite fmap_cons, IH.
Qed.

Lemma filter_ext_in {A} (P Q : A → Prop) `{∀ x, Decision (P x)}
    `{∀ x, Decision (Q x)} (l : list A) :
  (∀ x, x ∈ l → P x ↔ Q x) → filter P l = filter Q l.
Proof.
  induction l as [|x l IH]; intros Hext; [done|].
  rewrite !filter_cons. rewrite IH by (intros; apply Hext; now right).
  pose proof (Hext x ltac:(left)).
  destruct (decide (P x)), (decide (Q x)); tauto || done.
Qed.

Lemma len_fmap {A B} (f : A → B) (l : list A) : len (f <$> l) = len l.
Proof. unfold len. now rewrite length_fmap. Qed.

Lemma len_reverse {A} (l : list A) : len (reverse l) = len l.
Proof. unfold len. now rewrite length_reverse. Qed.

Lemma range_succ a b : range (a + 1) (b + 1) = Z.succ <$> range a b.
Proof.
  unfold range. replace (Z.succ <$> seqZ a (b - a)) with (Z.add 1 <$> seqZ a (b - a)).
  - rewrite fmap_add_seqZ. f_equal; lia.
  - apply list_fmap_ext. intros _ x _. lia.
Qed.

Lemma range_0_succ (n : nat) :
  range 0 (Z.of_nat (S n)) = 0 :: (Z.succ <$> range 0 (Z.of_nat n)).
Proof.
  rewrite range_cons by lia. f_equal.
  rewrite <- range_succ. f_equal. lia.
Qed.

(** A list read through its positions. *)
Lemma fmap_positions {B} (g : Z → list Z → B) (p : list Z) : ∀ h : Z → B,
  (∀ i : nat, (i < length p)%nat → h (Z.of_nat i) = g (p !!! i) (drop (S i) p)) →
  h <$> range 0 (len p) = tails_map g p.
Proof.
  induction p as [|x p IH]; intros h Hh; [done|].
  unfold len. simpl length. rewrite range_0_succ, fmap_cons.
  simpl tails_map. f_equal.
  - exact (Hh 0%nat ltac:(simpl; lia)).
  - rewrite <- list_fmap_compose. apply IH. intros i Hi.
    unfold compose. replace (Z.succ (Z.of_nat i)) with (Z.of_nat (S i)) by lia.
    rewrite (Hh (S i)) by (simpl; lia). done.
Qed.

Lemma fmap_lookup_range (p : list Z) :
  (λ i, p !!! Z.to_nat i) <$> range 0 (len p) = p.
Proof.
  rewrite (fmap_positions (λ x _, x)).
  - induction p as [|x p IH]; simpl; congruence.
  - intros i Hi. now rewrite Nat2Z.id.
Qed.

Lemma drop_positions (p : list Z) (i : nat) :
  (i ≤ length p)%nat →
  (λ j, p !!! Z.to_nat j) <$> range (Z.of_nat i) (len p) = drop i p.
Proof.
  revert i. induction p as [|x p IH]; intros i Hi.
  - destruct i; [done|simpl in Hi; lia].
  - destruct i as [|i]; [apply (fmap_lookup_range (x :: p))|].
    simpl in Hi. simpl drop. rewrite <- (IH i) by lia.
    replace (Z.of_nat (S i)) with (Z.of_nat i + 1) by lia.
    replace (len (x :: p)) with (len p + 1) by (unfold len; simpl length; lia).
    rewrite range_succ, <- list_fmap_compose.
    apply list_fmap_ext. intros _ j Hj%list_elem_of_lookup_2%elem_of_range.
    unfold compose. replace (Z.to_nat (Z.succ j)) with (S (Z.to_nat j)) by lia.
    done.
Qed.


(** ** Reverse and complement *)

Module SymmetryFacts.
Import Perm PermFacts PermOps.

Lemma is_perm_reverse p : is_perm p → is_perm (list.reverse p).
Proof.
  intros Hp. apply is_perm_Permutation. rewrite len_reverse.
  rewrite reverse_Permutation. now apply is_perm_Permutation.
Qed.

Lemma is_perm_complement p : is_perm p → is_perm ((λ i, len p - 1 - i) <$> p).
Proof.
  intros Hp. apply NoDup_range_is_perm.
  - apply NoDup_fmap_2; [|now apply is_perm_NoDup]. intros a b Hab. lia.
  - intros y (x & -> & Hx)%list_elem_of_fmap. rewrite len_fmap.
    apply (is_perm_elem_of _ _ Hp) in Hx. lia.
Qed.

Lemma reverse_spec p :
  is_perm p → reverse p = Ok (list.reverse p).
Proof. intros Hp. unfold reverse. now apply of_seq_is_perm, is_perm_reverse. Qed.

Lemma complement_spec p :
  is_perm p → complement p = Ok ((λ i, len p - 1 - i) <$> p).
Proof. intros Hp. unfold complement. now apply of_seq_is_perm, is_perm_complement. Qed.

Lemma complement_complement (p : list Z) :
  (λ i, len p - 1 - i) <$> ((λ i, len p - 1 - i) <$> p) = p.
Proof.
  rewrite <- list_fmap_compose. apply fmap_id_on. intros x _. unfold compose. lia.
Qed.

End SymmetryFacts.

(** ** Inversions *)

Module InversionFacts.
Import Perm PermFacts PermOps PermStats BoundFacts SymmetryFacts.

Lemma pair_count_cons R `{∀ x y, Decision (R x y)} x l :
  pair_count R (x :: l) = len (filter (R x) l) + pair_count R l.
Proof. done. Qed.

(** The two nested loops of [inversions] and [noninversions]. *)
Lemma pair_loop R `{∀ x y, Decision (R x y)} (p : list Z)
    (body : Z → Z → Z → res Z) :
  (∀ (i j : nat) s, (i < j < length p)%nat →
     body (Z.of_nat i) (Z.of_nat j) s
     = Ok (if decide (R (p !!! i) (p !!! j)) then s + 1 else s)) →
  for_each (range 0 (len p))
    (fun i inv => for_each (range (i + 1) (len p)) (body i) inv) 0
  = Ok (pair_count R p).
Proof.
  intros Hb.
  rewrite (for_each_add
             (λ i, len (filter (λ j, R (p !!! Z.to_nat i) (p !!! Z.to_nat j))
                          (range (i + 1) (len p))))).
  - apply (f_equal Ok). rewrite Z.add_0_l. unfold pair_count. f_equal.
    apply fmap_positions. intros i Hi. rewrite Nat2Z.id.
    rewrite <- (drop_positions p (S i)) by lia.
    rewrite filter_fmap, len_fmap.
    replace (Z.of_nat i + 1) with (Z.of_nat (S i)) by lia. done.
  - intros i s Hi%elem_of_range. apply for_each_count.
    intros j t Hj%elem_of_range. unfold len in *.
    replace (body i j t)
      with (body (Z.of_nat (Z.to_nat i)) (Z.of_nat (Z.to_nat j)) t)
      by (rewrite !Z2Nat.id by lia; done).
    apply Hb. lia.
Qed.

Lemma inversions_spec p : inversions p = Ok (pair_count Z.gt p).
Proof.
  unfold inversions. apply (pair_loop Z.gt). intros i j s Hij.
  rewrite (getitem_total p i), bind_Ok by lia.
  rewrite (getitem_total p j), bind_Ok by lia. now destruct (decide _).
Qed.

Lemma noninversions_spec p : noninversions p = Ok (pair_count Z.lt p).
Proof.
  unfold noninversions. apply (pair_loop Z.lt). intros i j s Hij.
  rewrite (getitem_total p i), bind_Ok by lia.
  rewrite (getitem_total p j), bind_Ok by lia. now destruct (decide _).
Qed.

Lemma filter_split_len x (l : list Z) :
  x ∉ l → len (filter (Z.gt x) l) + len (filter (Z.lt x) l) = len l.
Proof.
  induction l as [|y l IH]; intros Hx; [done|].
  apply not_elem_of_cons in Hx as [Hxy Hx]. specialize (IH Hx).
  rewrite !filter_cons.
  destruct (decide (x > y)), (decide (x < y)); unfold len in *; simpl length; lia.
Qed.

Lemma pair_count_total (l : list Z) :
  NoDup l → 2 * (pair_count Z.gt l + pair_count Z.lt l) = len l * (len l - 1).
Proof.
  induction 1 as [|x l Hx Hnd IH]; [done|].
  rewrite !pair_count_cons. pose proof (filter_split_len x l Hx).
  replace (len (x :: l)) with (len l + 1) by (unfold len; simpl length; lia).
  nia.
Qed.

Lemma pair_count_snoc_gt (l : list Z) x :
  pair_count Z.gt (l ++ [x]) = pair_count Z.gt l + len (filter (Z.lt x) l).
Proof.
  induction l as [|y l IH]; [done|].
  rewrite <- app_comm_cons, !pair_count_cons, IH, filter_app, len_app.
  rewrite (filter_cons (Z.lt x)), (filter_cons _ x []).
  destruct (decide (y > x)), (decide (x < y)); unfold len; simpl length; lia.
Qed.

Lemma pair_count_reverse (l : list Z) :
  pair_count Z.gt (list.reverse l) = pair_count Z.lt l.
Proof.
  induction l as [|x l IH]; [done|].
  rewrite reverse_cons, pair_count_snoc_gt, IH, pair_count_cons.
  unfold len. rewrite filter_reverse, length_reverse. lia.
Qed.

Lemma pair_count_antitone (f : Z → Z) (l : list Z) :
  (∀ a b, a < b ↔ f b < f a) →
  pair_count Z.gt (f <$> l) = pair_count Z.lt l.
Proof.
  intros Hf. induction l as [|x l IH]; [done|].
  rewrite fmap_cons, !pair_count_cons, IH, filter_fmap, len_fmap.
  f_equal. f_equal. apply filter_ext_in. intros y _. specialize (Hf x y).
  split; intros; [apply Hf|apply Z.lt_gt, Hf]; lia.
Qed.

Lemma pair_count_nonneg R `{∀ x y, Decision (R x y)} (l : list Z) :
  0 ≤ pair_count R l.
Proof.
  induction l as [|x l IH]; [done|].
  rewrite pair_count_cons. pose proof (len_nonneg (filter (R x) l)). lia.
Qed.

Lemma pair_count_sorted (l : list Z) :
  StronglySorted Z.le l → pair_count Z.gt l = 0.
Proof.
  induction 1 as [|x l Hs IH Hall]; [done|].
  rewrite pair_count_cons, IH.
  rewrite (filter_ext_in (Z.gt x) (λ _, False) l).
  - clear. induction l; [done|]. rewrite filter_cons.
    destruct (decide False); [tauto|done].
  - intros y Hy. rewrite Forall_forall in Hall. specialize (Hall y Hy). lia.
Qed.

End InversionFacts.


(** ** Permutations as functions on positions *)

Module LookupFacts.
Import Perm PermFacts.

Lemma list_eq_total (l1 l2 : list Z) :
  length l1 = length l2 →
  (∀ i : nat, (i < length l1)%nat → l1 !!! i = l2 !!! i) →
  l1 = l2.
Proof.
  intros Hlen Heq. apply (list_eq_same_length _ _ (length l1)); [done..|].
  intros i x y Hi Hx Hy. specialize (Heq i Hi).
  rewrite (list_lookup_total_correct _ _ _ Hx) in Heq.
  now rewrite (list_lookup_total_correct _ _ _ Hy) in Heq.
Qed.

Lemma perm_entry p (i : nat) :
  is_perm p → (i < length p)%nat → 0 ≤ p !!! i < len p.
Proof.
  intros Hp Hi. apply (is_perm_lookup p i); [done|].
  now apply list_lookup_lookup_total_lt.
Qed.

Lemma perm_inj p (i j : nat) :
  is_perm p → (i < length p)%nat → (j < length p)%nat →
  p !!! i = p !!! j → i = j.
Proof.
  intros Hp Hi Hj Heq. apply (NoDup_lookup p i j (p !!! i)).
  - now apply is_perm_NoDup.
  - now apply list_lookup_lookup_total_lt.
  - rewrite Heq. now apply list_lookup_lookup_total_lt.
Qed.

Lemma perm_surj p x :
  is_perm p → 0 ≤ x < len p → ∃ i : nat, (i < length p)%nat ∧ p !!! i = x.
Proof.
  intros Hp Hx. apply (is_perm_elem_of p x Hp) in Hx.
  apply list_elem_of_lookup_1 in Hx as [i Hi]. exists i.
  split; [eapply lookup_lt_Some, Hi|]. now apply list_lookup_total_correct.
Qed.

Lemma range_lookup_total (n : Z) (i : nat) :
  Z.of_nat i < n → range 0 n !!! i = Z.of_nat i.
Proof. intros Hi. unfold range. rewrite lookup_total_seqZ_lt; lia. Qed.

Lemma is_perm_range (n : Z) : is_perm (range 0 n).
Proof.
  apply is_perm_Permutation.
  destruct (decide (n ≤ 0)).
  - rewrite (range_nil 0 n) by lia. done.
  - rewrite len_range, Z.sub_0_r by lia. done.
Qed.

Lemma len_range_0 (n : Z) : len (range 0 n) = Z.max n 0.
Proof.
  destruct (decide (n ≤ 0)); [rewrite range_nil by lia; unfold len; simpl; lia|].
  rewrite len_range; lia.
Qed.

End LookupFacts.


(** ** Composition, inverse and powers *)

Module GroupFacts.
Import Perm PermFacts PermOps BoundFacts SearchFacts LookupFacts.

(** A loop that rewrites the entries of [l] one position after the other,
    where the body is known on the entries of [l] only. *)
Lemma for_each_in_place_on (f : Z → Z) (l : list Z)
    (body : Z → list Z → res (list Z)) :
  (∀ (k : nat) p x, l !! k = Some x → p !! k = Some x →
     body (Z.of_nat k) p = Ok (<[k := f x]> p)) →
  for_each (range 0 (len l)) body l = Ok (f <$> l).
Proof.
  intros Hbody.
  destruct (for_each_inv
              (fun pre s => s = (f <$> take (length pre) l) ++ drop (length pre) l)
              (range 0 (len l)) body l) as (s' & Hrun & Hs').
  - done.
  - intros pre k s [post Hxs] ->.
    assert (k = Z.of_nat (length pre) ∧ (length pre < length l)%nat) as [-> Hlt].
    { assert (range 0 (len l) !! length pre = Some k) as Hk.
      { rewrite Hxs. now rewrite lookup_app_r, Nat.sub_diag by lia. }
      apply lookup_range in Hk. unfold len in Hk. lia. }
    destruct (lookup_lt_is_Some_2 l (length pre) Hlt) as [x Hx].
    eexists. split.
    + apply Hbody; [exact Hx|].
      rewrite lookup_app_r by (rewrite length_fmap, length_take; lia).
      rewrite length_fmap, length_take, lookup_drop.
      replace (length pre `min` length l)%nat with (length pre) by lia.
      rewrite <- Hx. f_equal. lia.
    + rewrite length_app. simpl.
      replace (length pre + 1)%nat with (S (length pre)) by lia.
      rewrite (take_S_r l (length pre) x Hx), fmap_app. simpl.
      rewrite <- app_assoc. simpl.
      rewrite insert_app_r_alt by (rewrite length_fmap, length_take; lia).
      f_equal. rewrite length_fmap, length_take.
      replace (length pre - length pre `min` length l)%nat with 0%nat by lia.
      rewrite (drop_S l x (length pre) Hx). done.
  - rewrite Hrun. f_equal. rewrite Hs', length_range.
    replace (Z.to_nat (len l - 0)) with (length l) by (unfold len; lia).
    now rewrite take_ge, drop_ge, app_nil_r by lia.
Qed.

Lemma comp_length a b : length (comp a b) = length b.
Proof. unfold comp. now rewrite length_fmap. Qed.

Lemma comp_lookup a b (i : nat) :
  (i < length b)%nat → comp a b !!! i = a !!! Z.to_nat (b !!! i).
Proof.
  intros Hi. unfold comp.
  now rewrite (list_lookup_total_fmap (λ x, a !!! Z.to_nat x) b i).
Qed.

Lemma comp_is_perm a b :
  is_perm a → is_perm b → length a = length b → is_perm (comp a b).
Proof.
  intros Ha Hb Hlen. apply NoDup_range_is_perm.
  - apply NoDup_fmap_2_strong; [|now apply is_perm_NoDup].
    intros x y Hx%(is_perm_elem_of _ _ Hb) Hy%(is_perm_elem_of _ _ Hb) Heq.
    unfold len in *.
    apply (perm_inj a) in Heq; [lia|done|lia|lia].
  - intros y (x & -> & Hx%(is_perm_elem_of _ _ Hb))%list_elem_of_fmap.
    unfold len in *. rewrite comp_length, <- Hlen.
    apply (perm_entry a); [done|lia].
Qed.

Lemma comp_assoc a b c :
  (∀ x, x ∈ c → 0 ≤ x < len b) → comp (comp a b) c = comp a (comp b c).
Proof.
  intros Hc. unfold comp at 1 3 4. rewrite <- list_fmap_compose.
  apply list_fmap_ext. intros _ x Hx%list_elem_of_lookup_2%Hc. unfold compose.
  apply comp_lookup. unfold len in Hx. lia.
Qed.

Lemma comp_id_l n b :
  (∀ x, x ∈ b → 0 ≤ x < n) → comp (range 0 n) b = b.
Proof.
  intros Hb. unfold comp. apply fmap_id_on. intros x Hx%Hb.
  rewrite range_lookup_total; lia.
Qed.

Lemma comp_id_r a : comp a (range 0 (len a)) = a.
Proof. apply fmap_lookup_range. Qed.

(** [__mul__] on permutations of the same length. *)
Lemma mul_spec a b :
  is_perm a → is_perm b → len a = len b → mul a b = Ok (comp a b).
Proof.
  intros Ha Hb Hlen. unfold mul.
  rewrite bool_decide_eq_true_2 by done. simpl assert. rewrite bind_Ok.
  rewrite (for_each_in_place_on (λ x, a !!! Z.to_nat x)).
  - rewrite bind_Ok. apply of_seq_is_perm. apply comp_is_perm; [done..|].
    unfold len in Hlen. lia.
  - intros k p x Hbx Hpx. rewrite (getitem_nat p k x Hpx), bind_Ok.
    unfold call. rewrite getitem_Z, bind_Ok.
    + apply setitem_nat. eapply lookup_lt_Some, Hpx.
    + rewrite Hlen. eapply is_perm_lookup; done.
Qed.

Lemma mul_length_mismatch a b :
  len a ≠ len b → mul a b = Raise AssertionError.
Proof. intros H. unfold mul. now rewrite bool_decide_eq_false_2. Qed.

(** The inverse relation is symmetric and determines the inverse. *)
Lemma inverse_of_is_perm p q :
  is_perm p → inverse_of p q → is_perm q ∧ inverse_of q p.
Proof.
  intros Hp [Hlen Hinv].
  assert (∀ j : nat, (j < length q)%nat →
            ∃ i : nat, (i < length p)%nat ∧ p !!! i = Z.of_nat j
                       ∧ q !!! j = Z.of_nat i) as Hsurj.
  { intros j Hj. destruct (perm_surj p (Z.of_nat j) Hp) as (i & Hi & Hij);
      [unfold len; lia|].
    exists i. split; [done|]. split; [done|].
    rewrite <- (Hinv i Hi), Hij, Nat2Z.id. done. }
  split.
  - apply NoDup_range_is_perm.
    + apply NoDup_alt. intros j1 j2 v H1 H2.
      destruct (Hsurj j1) as (i1 & _ & Hp1 & Hq1); [eapply lookup_lt_Some, H1|].
      destruct (Hsurj j2) as (i2 & _ & Hp2 & Hq2); [eapply lookup_lt_Some, H2|].
      rewrite (list_lookup_total_correct _ _ _ H1) in Hq1.
      rewrite (list_lookup_total_correct _ _ _ H2) in Hq2.
      assert (i1 = i2) as -> by lia. lia.
    + intros v [j Hj]%list_elem_of_lookup_1.
      destruct (Hsurj j) as (i & Hi & _ & Hq); [eapply lookup_lt_Some, Hj|].
      rewrite (list_lookup_total_correct _ _ _ Hj) in Hq.
      unfold len. lia.
  - split; [done|]. intros j Hj.
    destruct (Hsurj j Hj) as (i & Hi & Hpi & Hqi).
    now rewrite Hqi, Nat2Z.id.
Qed.

Lemma inverse_of_unique p q q' :
  is_perm p → inverse_of p q → inverse_of p q' → q = q'.
Proof.
  intros Hp [Hlen Hinv] [Hlen' Hinv']. apply list_eq_total; [lia|].
  intros j Hj. destruct (perm_surj p (Z.of_nat j) Hp) as (i & Hi & Hij);
    [unfold len; lia|].
  rewrite <- (Nat2Z.id j), <- Hij. now rewrite Hinv, Hinv'.
Qed.

Lemma inverse_of_comp p q :
  is_perm p → inverse_of p q → comp q p = range 0 (len p).
Proof.
  intros Hp [Hlen Hinv]. apply list_eq_total.
  - rewrite comp_length, length_range. unfold len. lia.
  - intros i Hi. rewrite comp_length in Hi.
    rewrite comp_lookup, Hinv, range_lookup_total by (unfold len; lia). done.
Qed.

Lemma comp_inverse_of p q :
  length q = length p → comp q p = range 0 (len p) → inverse_of p q.
Proof.
  intros Hlen Hcomp. split; [done|]. intros i Hi.
  rewrite <- comp_lookup, Hcomp, range_lookup_total by (unfold len; lia). done.
Qed.

(** The loop of [inverse]. *)
Lemma inverse_spec p :
  is_perm p → ∃ q, inverse p = Ok q ∧ is_perm q ∧ inverse_of p q.
Proof.
  intros Hp. unfold inverse.
  destruct (for_each_inv
              (fun pre q => length q = length p
                 ∧ ∀ i : nat, (i < length pre)%nat →
                     q !!! Z.to_nat (p !!! i) = Z.of_nat i)
              (range 0 (len p))
              (fun i q => pi ← getitem p i; setitem q pi i)
              ((λ _ : Z, 0) <$> range 0 (len p)))
    as (q & Hrun & Hlen & Hinv).
  - split; [|intros i Hi; simpl in Hi; lia].
    rewrite length_fmap, length_range. unfold len. lia.
  - intros pre k q [post Hxs] [Hlen Hinv].
    assert (k = Z.of_nat (length pre) ∧ (length pre < length p)%nat) as [-> Hlt].
    { assert (range 0 (len p) !! length pre = Some k) as Hk.
      { rewrite Hxs. now rewrite lookup_app_r, Nat.sub_diag by lia. }
      apply lookup_range in Hk. unfold len in Hk. lia. }
    pose proof (perm_entry p (length pre) Hp Hlt) as Hentry.
    rewrite (getitem_total p (length pre)), bind_Ok by done.
    rewrite setitem_Ok by (unfold len in *; lia).
    eexists. split; [done|]. split; [now rewrite length_insert|].
    intros i Hi. rewrite length_app in Hi. simpl in Hi.
    destruct (decide (i = length pre)) as [->|Hne].
    + apply list_lookup_total_insert_eq. unfold len in *. lia.
    + rewrite list_lookup_total_insert_ne; [apply Hinv; lia|].
      intros Heq. apply Hne. symmetry. apply (perm_inj p); [done|lia..|].
      pose proof (perm_entry p i Hp ltac:(lia)). lia.
  - rewrite Hrun, bind_Ok. rewrite length_range in Hinv.
    assert (inverse_of p q) as Hq.
    { split; [done|]. intros i Hi. apply Hinv. unfold len. lia. }
    destruct (inverse_of_is_perm p q Hp Hq) as [Hperm _].
    exists q. split; [now apply of_seq_is_perm|]. done.
Qed.

(** [__pow__] with a natural exponent. *)
Lemma power_is_perm p (k : nat) :
  is_perm p → is_perm (power p k) ∧ length (power p k) = length p.
Proof.
  intros Hp. induction k as [|k [IH Hlen]].
  - simpl. split; [apply is_perm_range|]. rewrite length_range. unfold len. lia.
  - simpl. split; [now apply comp_is_perm|]. now rewrite comp_length.
Qed.

Lemma power_1 p : is_perm p → power p 1 = p.
Proof.
  intros Hp. simpl. apply comp_id_l. intros x Hx. now apply (is_perm_elem_of p).
Qed.

Lemma pow_spec p (k : nat) :
  is_perm p → pow p (ExpInt (Z.of_nat k)) = Ok (power p k).
Proof.
  intros Hp. unfold pow.
  destruct (decide (Z.of_nat k >= 0)) as [_|]; [|lia].
  destruct (decide (Z.of_nat k = 0)) as [Hk|Hk].
  - assert (k = 0%nat) as -> by lia. apply of_seq_is_perm, is_perm_range.
  - destruct (for_each_inv (fun pre ans => ans = power p (S (length pre)))
                (range 0 (Z.of_nat k - 1)) (fun _ ans => mul ans p) p)
      as (ans & Hrun & Hans).
    + now rewrite power_1.
    + intros pre x ans _ ->.
      destruct (power_is_perm p (S (length pre)) Hp) as [Hperm Hlen].
      rewrite mul_spec by (done || unfold len; lia).
      eexists. split; [done|]. rewrite length_app. simpl.
      now replace (length pre + 1)%nat with (S (length pre)) by lia.
    + rewrite Hrun, Hans, length_range. do 2 f_equal. lia.
Qed.

Lemma power_add p (a b : nat) :
  is_perm p → power p (a + b) = comp (power p a) (power p b).
Proof.
  intros Hp. induction b as [|b IH].
  - rewrite Nat.add_0_r. simpl.
    destruct (power_is_perm p a Hp) as [_ Hlen].
    replace (len p) with (len (power p a)) by (unfold len; lia).
    now rewrite comp_id_r.
  - replace (a + S b)%nat with (S (a + b)) by lia. simpl. rewrite IH.
    apply comp_assoc. intros x Hx%(is_perm_elem_of _ _ Hp).
    destruct (power_is_perm p b Hp) as [_ Hlen]. unfold len in *. lia.
Qed.

End GroupFacts.


(** ** Sums and decomposability *)

Module SumFacts.
Import Perm PermFacts PermOps PermStats LookupFacts SymmetryFacts.

Lemma list_to_set_eq (l k : list Z) :
  (list_to_set l : gset Z) = list_to_set k ↔ ∀ x, x ∈ l ↔ x ∈ k.
Proof. rewrite set_eq. now setoid_rewrite elem_of_list_to_set. Qed.

(** A loop that returns [True] at the first index that passes a test, and
    [False] after the last one. *)
Lemma first_true_loop (T : Z → Prop) `{∀ i, Decision (T i)} (n : Z) :
  ∃ b : bool,
    (o ← for_return (range 1 n)
           (fun i (_ : unit) =>
              if decide (T i) then Ok (inr true) else Ok (inl tt))
           tt;
     match o with
     | inl _ => Ok false
     | inr r => Ok r
     end) = Ok b
    ∧ (b = true ↔ ∃ i, 1 ≤ i < n ∧ T i).
Proof.
  destruct (for_return_first (range 1 n)
              (fun i (_ : unit) =>
                 if decide (T i) then Ok (inr true) else Ok (inl tt) : res (unit + bool)))
    as [[-> Hall]|(pre & i & post & r & Hxs & _ & Hi & ->)].
  - intros i _. destruct (decide (T i)); eauto.
  - exists false. split; [done|]. split; [done|].
    intros (i & Hi & HT). specialize (Hall i ltac:(now apply elem_of_range)).
    now rewrite decide_True in Hall by done.
  - exists r. split; [done|].
    destruct (decide (T i)) as [HT|]; [|done]. injection Hi as <-.
    split; [intros _|done]. exists i. split; [|done].
    apply elem_of_range. rewrite Hxs. apply elem_of_app. right. left.
Qed.

(** The prefixes that make [sum_decomposable] and [skew_decomposable]
    answer [True]. *)
Lemma sum_decomposable_spec p :
  ∃ b, sum_decomposable p = Ok b
    ∧ (b = true ↔ ∃ i, 1 ≤ i < len p
                   ∧ ∀ x, x ∈ take (Z.to_nat i) p ↔ 0 ≤ x < i).
Proof.
  destruct (first_true_loop
              (λ i, (list_to_set (range 0 i) : gset Z) = list_to_set (slice p 0 i))
              (len p)) as (b & Hrun & Hb).
  exists b. split; [exact Hrun|]. rewrite Hb.
  split; intros (i & Hi & HT); exists i; (split; [done|]).
  - rewrite list_to_set_eq in HT. intros x.
    rewrite <- slice_prefix, <- HT, elem_of_range by lia. done.
  - apply list_to_set_eq. intros x.
    rewrite slice_prefix, HT, elem_of_range by lia. done.
Qed.

Lemma skew_decomposable_spec p :
  ∃ b, skew_decomposable p = Ok b
    ∧ (b = true ↔ ∃ i, 1 ≤ i < len p
                   ∧ ∀ x, x ∈ take (Z.to_nat i) p ↔ len p - i ≤ x < len p).
Proof.
  destruct (first_true_loop
              (λ i, (list_to_set (range (len p - i) (len p)) : gset Z)
                    = list_to_set (slice p 0 i))
              (len p)) as (b & Hrun & Hb).
  exists b. split; [exact Hrun|]. rewrite Hb.
  split; intros (i & Hi & HT); exists i; (split; [done|]).
  - rewrite list_to_set_eq in HT. intros x.
    rewrite <- slice_prefix, <- HT, elem_of_range by lia. done.
  - apply list_to_set_eq. intros x.
    rewrite slice_prefix, HT, elem_of_range by lia. done.
Qed.

Lemma sum_is_perm p q :
  is_perm p → is_perm q → is_perm (p ++ ((λ i, i + len p) <$> q)).
Proof.
  intros Hp Hq. apply NoDup_range_is_perm.
  - apply NoDup_app. split; [now apply is_perm_NoDup|]. split.
    + intros x Hx%(is_perm_elem_of _ _ Hp) (y & -> & Hy%(is_perm_elem_of _ _ Hq))%list_elem_of_fmap.
      lia.
    + apply NoDup_fmap_2; [|now apply is_perm_NoDup]. intros a b Hab. lia.
  - intros x. rewrite len_app, len_fmap, elem_of_app.
    intros [Hx%(is_perm_elem_of _ _ Hp)|(y & -> & Hy%(is_perm_elem_of _ _ Hq))%list_elem_of_fmap];
      pose proof (len_nonneg p); pose proof (len_nonneg q); lia.
Qed.

Lemma skew_sum_is_perm p q :
  is_perm p → is_perm q → is_perm (((λ i, i + len q) <$> p) ++ q).
Proof.
  intros Hp Hq. apply NoDup_range_is_perm.
  - apply NoDup_app. split; [|split; [|now apply is_perm_NoDup]].
    + apply NoDup_fmap_2; [|now apply is_perm_NoDup]. intros a b Hab. lia.
    + intros x (y & -> & Hy%(is_perm_elem_of _ _ Hp))%list_elem_of_fmap
        Hx%(is_perm_elem_of _ _ Hq).
      lia.
  - intros x. rewrite len_app, len_fmap, elem_of_app.
    intros [(y & -> & Hy%(is_perm_elem_of _ _ Hp))%list_elem_of_fmap|Hx%(is_perm_elem_of _ _ Hq)];
      pose proof (len_nonneg p); pose proof (len_nonneg q); lia.
Qed.

Lemma sum_spec p q :
  is_perm p → is_perm q → sum p q = Ok (p ++ ((λ i, i + len p) <$> q)).
Proof. intros Hp Hq. unfold sum. now apply of_seq_is_perm, sum_is_perm. Qed.

Lemma skew_sum_spec p q :
  is_perm p → is_perm q → skew_sum p q = Ok (((λ i, i + len q) <$> p) ++ q).
Proof. intros Hp Hq. unfold skew_sum. now apply of_seq_is_perm, skew_sum_is_perm. Qed.

(** The entries of a permutation after a prefix are those that are not in
    the prefix. *)
Lemma elem_of_suffix p (k : nat) x :
  is_perm p → x ∈ drop k p ↔ 0 ≤ x < len p ∧ x ∉ take k p.
Proof.
  intros Hp. pose proof (is_perm_NoDup p Hp) as Hnd.
  rewrite <- (take_drop k p) in Hnd at 1.
  apply NoDup_app in Hnd as (_ & Hdisj & _).
  rewrite <- (is_perm_elem_of p x Hp). rewrite <- (take_drop k p) at 2.
  rewrite elem_of_app. split.
  - intros Hx. split; [now right|]. intros Ht. now apply (Hdisj x).
  - intros [[Ht|Hd] Hn]; done.
Qed.

Lemma split_is_sum p i :
  is_perm p → 1 ≤ i < len p →
  (∀ x, x ∈ take (Z.to_nat i) p ↔ 0 ≤ x < i) →
  ∃ a b, a ≠ [] ∧ b ≠ [] ∧ is_perm a ∧ is_perm b
         ∧ p = a ++ ((λ x, x + len a) <$> b).
Proof.
  intros Hp Hi HT. pose proof (is_perm_NoDup p Hp) as Hnd.
  assert (len (take (Z.to_nat i) p) = i) as Hla
    by (unfold len in *; rewrite length_take; lia).
  assert (len (drop (Z.to_nat i) p) = len p - i) as Hlb
    by (unfold len in *; rewrite length_drop; lia).
  exists (take (Z.to_nat i) p), ((λ x, x - i) <$> drop (Z.to_nat i) p).
  split; [intros H; rewrite H in Hla; unfold len in Hla; simpl in Hla; lia|].
  split.
  { intros H. apply (f_equal len) in H. rewrite len_fmap, Hlb in H.
    unfold len in H at 2. simpl in H. lia. }
  split; [|split].
  - apply NoDup_range_is_perm.
    + eapply sublist_NoDup; [exact Hnd|apply sublist_take].
    + intros x Hx%HT. lia.
  - apply NoDup_range_is_perm.
    + apply NoDup_fmap_2; [intros a b Hab; lia|].
      eapply sublist_NoDup; [exact Hnd|apply sublist_drop].
    + intros y (x & -> & Hx)%list_elem_of_fmap.
      apply (elem_of_suffix p _ x Hp) in Hx as [Hx Hn].
      rewrite HT in Hn. rewrite len_fmap, Hlb. lia.
  - rewrite Hla, <- list_fmap_compose.
    rewrite (fmap_id_on _ (drop (Z.to_nat i) p)) by (intros x _; unfold compose; lia).
    now rewrite take_drop.
Qed.

Lemma split_is_skew_sum p i :
  is_perm p → 1 ≤ i < len p →
  (∀ x, x ∈ take (Z.to_nat i) p ↔ len p - i ≤ x < len p) →
  ∃ a b, a ≠ [] ∧ b ≠ [] ∧ is_perm a ∧ is_perm b
         ∧ p = ((λ x, x + len b) <$> a) ++ b.
Proof.
  intros Hp Hi HT. pose proof (is_perm_NoDup p Hp) as Hnd.
  assert (len (take (Z.to_nat i) p) = i) as Hla
    by (unfold len in *; rewrite length_take; lia).
  assert (len (drop (Z.to_nat i) p) = len p - i) as Hlb
    by (unfold len in *; rewrite length_drop; lia).
  exists ((λ x, x - (len p - i)) <$> take (Z.to_nat i) p), (drop (Z.to_nat i) p).
  split.
  { intros H. apply (f_equal len) in H. rewrite len_fmap, Hla in H.
    unfold len in H at 1. simpl in H. lia. }
  split; [intros H; rewrite H in Hlb; unfold len in Hlb at 1; simpl in Hlb; lia|].
  split; [|split].
  - apply NoDup_range_is_perm.
    + apply NoDup_fmap_2; [intros a b Hab; lia|].
      eapply sublist_NoDup; [exact Hnd|apply sublist_take].
    + intros y (x & -> & Hx%HT)%list_elem_of_fmap. rewrite len_fmap, Hla. lia.
  - apply NoDup_range_is_perm.
    + eapply sublist_NoDup; [exact Hnd|apply sublist_drop].
    + intros x Hx. apply (elem_of_suffix p _ x Hp) in Hx as [Hx Hn].
      rewrite HT in Hn. rewrite Hlb. lia.
  - rewrite Hlb, <- list_fmap_compose.
    rewrite (fmap_id_on _ (take (Z.to_nat i) p)) by (intros x _; unfold compose; lia).
    now rewrite take_drop.
Qed.

Lemma sum_prefix (a b : list Z) :
  is_perm a → a ≠ [] → b ≠ [] →
  1 ≤ len a < len (a ++ ((λ x, x + len a) <$> b))
  ∧ ∀ x, x ∈ take (Z.to_nat (len a)) (a ++ ((λ x, x + len a) <$> b))
         ↔ 0 ≤ x < len a.
Proof.
  intros Ha Hna Hnb. split.
  - rewrite len_app, len_fmap. destruct a, b; try done; unfold len; simpl; lia.
  - intros x. unfold len at 1. rewrite Nat2Z.id, take_app_length.
    apply is_perm_elem_of. done.
Qed.

Lemma skew_sum_prefix (a b : list Z) :
  is_perm a → a ≠ [] → b ≠ [] →
  1 ≤ len a < len (((λ x, x + len b) <$> a) ++ b)
  ∧ ∀ x, x ∈ take (Z.to_nat (len a)) (((λ x, x + len b) <$> a) ++ b)
         ↔ len (((λ x, x + len b) <$> a) ++ b) - len a ≤ x
           < len (((λ x, x + len b) <$> a) ++ b).
Proof.
  intros Ha Hna Hnb. rewrite len_app, len_fmap. split.
  - destruct a, b; try done; unfold len; simpl; lia.
  - intros x. replace (Z.to_nat (len a)) with (length ((λ x, x + len b) <$> a))
      by (rewrite length_fmap; unfold len; lia).
    rewrite take_app_length, list_elem_of_fmap. split.
    + intros (y & -> & Hy%(is_perm_elem_of _ _ Ha)). lia.
    + intros Hx. exists (x - len b). split; [lia|].
      apply (is_perm_elem_of _ _ Ha). lia.
Qed.

End SumFacts.


Module DecomposableFacts.
Import Perm PermFacts PermOps PermStats LookupFacts SymmetryFacts SumFacts.
Import SimpleFacts.

Lemma elem_of_complement (n : Z) (l : list Z) x :
  x ∈ (λ i, n - 1 - i) <$> l ↔ n - 1 - x ∈ l.
Proof.
  rewrite list_elem_of_fmap. split.
  - intros (y & -> & Hy). now replace (n - 1 - (n - 1 - y)) with y by lia.
  - intros Hx. exists (n - 1 - x). split; [lia|done].
Qed.

(** A prefix with the largest values, seen from the complement and from
    the reverse. *)
Lemma skew_prefix_complement p i :
  (∀ x, x ∈ take (Z.to_nat i) p ↔ len p - i ≤ x < len p)
  ↔ (∀ x, x ∈ take (Z.to_nat i) ((λ y, len p - 1 - y) <$> p) ↔ 0 ≤ x < i).
Proof.
  rewrite <- fmap_take. split; intros HT x.
  - rewrite elem_of_complement, HT. lia.
  - specialize (HT (len p - 1 - x)). rewrite elem_of_complement in HT.
    replace (len p - 1 - (len p - 1 - x)) with x in HT by lia. rewrite HT. lia.
Qed.

Lemma skew_prefix_reverse p i :
  is_perm p → 1 ≤ i < len p →
  (∀ x, x ∈ take (Z.to_nat i) p ↔ len p - i ≤ x < len p)
  ↔ (∀ x, x ∈ take (Z.to_nat (len p - i)) (list.reverse p) ↔ 0 ≤ x < len p - i).
Proof.
  intros Hp Hi. rewrite take_reverse.
  replace (length p - Z.to_nat (len p - i))%nat with (Z.to_nat i)
    by (unfold len in *; lia).
  split; intros HT x.
  - rewrite elem_of_reverse, (elem_of_suffix p _ x Hp), HT. lia.
  - specialize (HT x). rewrite elem_of_reverse, (elem_of_suffix p _ x Hp) in HT.
    destruct (decide (x ∈ take (Z.to_nat i) p)) as [Hin|Hout].
    + assert (x ∈ p) as Hx%(is_perm_elem_of _ _ Hp).
      { eapply elem_of_sublist; [exact Hin|apply sublist_take]. }
      split; [intros _|done].
      assert (¬ (0 ≤ x < len p - i)) by tauto. lia.
    + split; [done|]. intros Hx. exfalso.
      assert (0 ≤ x < len p - i) by (apply HT; split; [lia|done]). lia.
Qed.

(** A prefix that holds the smallest or the largest values is an
    interval, or leaves one. *)
Lemma prefix_block_not_simple p i lo :
  is_perm p → 3 ≤ len p → 1 ≤ i < len p →
  lo = 0 ∨ lo = len p - i →
  (∀ x, x ∈ take (Z.to_nat i) p ↔ lo ≤ x < lo + i) →
  is_simple p = Ok false.
Proof.
  intros Hp Hn Hi Hlo HT. pose proof (is_perm_NoDup p Hp) as Hnd.
  destruct (is_simple_cases p) as [(_ & _ & Hno)|(Hs & _)]; [exfalso|done].
  destruct (decide (2 ≤ i)) as [Hi2|Hi1].
  - apply (Hno i 0); [lia..|].
    apply window_block; [done|lia..|]. exists lo. unfold block.
    rewrite Z.add_0_l, slice_prefix by lia.
    assert (len (take (Z.to_nat i) p) = i) as Hla
      by (unfold len in *; rewrite length_take; lia).
    replace (lo + i) with (lo + len (take (Z.to_nat i) p)) by lia.
    apply NoDup_fills_range.
    + eapply sublist_NoDup; [exact Hnd|apply sublist_take].
    + intros x Hx. rewrite Hla. now apply HT.
  - apply (Hno (len p - i) i); [lia..|].
    apply window_block; [done|lia..|].
    set (lo' := if decide (lo = 0) then i else 0).
    exists lo'. unfold block.
    replace (i + (len p - i)) with (len p) by lia.
    rewrite slice_suffix by lia.
    assert (len (drop (Z.to_nat i) p) = len p - i) as Hlb
      by (unfold len in *; rewrite length_drop; lia).
    replace (lo' + (len p - i)) with (lo' + len (drop (Z.to_nat i) p)) by lia.
    apply NoDup_fills_range.
    + eapply sublist_NoDup; [exact Hnd|apply sublist_drop].
    + intros x Hx. rewrite Hlb.
      apply (elem_of_suffix p _ x Hp) in Hx as [Hx Hout]. rewrite HT in Hout.
      unfold lo'. destruct (decide (lo = 0)); lia.
Qed.

End DecomposableFacts.


(** ** Descents and ascents *)

Module DescentFacts.
Import Perm PermFacts PermOps PermStats BoundFacts LookupFacts SymmetryFacts.

Lemma adj_count_cons2 R `{∀ x y, Decision (R x y)} x y l :
  adj_count R (x :: y :: l) = (if decide (R x y) then 1 else 0) + adj_count R (y :: l).
Proof. done. Qed.

Lemma adj_count_single R `{∀ x y, Decision (R x y)} x : adj_count R [x] = 0.
Proof. done. Qed.

Lemma adj_count_nonneg R `{∀ x y, Decision (R x y)} l : 0 ≤ adj_count R l.
Proof.
  induction l as [|x [|y l] IH]; [done..|].
  rewrite adj_count_cons2. destruct (decide (R x y)); lia.
Qed.

Lemma adj_count_le R `{∀ x y, Decision (R x y)} l :
  adj_count R l ≤ Z.max (len l - 1) 0.
Proof.
  induction l as [|x [|y l] IH]; [done..|].
  rewrite adj_count_cons2.
  replace (len (x :: y :: l)) with (len (y :: l) + 1)
    by (unfold len; simpl length; lia).
  assert (0 < len (y :: l)) by (unfold len; simpl length; lia).
  destruct (decide (R x y)); lia.
Qed.

(** Adjacent pairs read through the positions. *)
Lemma adj_count_positions R `{∀ x y, Decision (R x y)} (p : list Z) :
  len (filter (λ i, R (p !!! Z.to_nat (i - 1)) (p !!! Z.to_nat i))
         (range 1 (len p)))
  = adj_count R p.
Proof.
  induction p as [|x [|y l] IH]; [done..|].
  rewrite adj_count_cons2, <- IH.
  replace (len (x :: y :: l)) with (len (y :: l) + 1)
    by (unfold len; simpl length; lia).
  rewrite (range_cons 1) by (unfold len; simpl length; lia).
  rewrite filter_cons. change (Z.to_nat (1 - 1)) with 0%nat.
  change (Z.to_nat 1) with 1%nat.
  change ((x :: y :: l) !!! 0%nat) with x.
  change ((x :: y :: l) !!! 1%nat) with y.
  assert (len (filter (λ i, R ((x :: y :: l) !!! Z.to_nat (i - 1))
                              ((x :: y :: l) !!! Z.to_nat i))
                 (range (1 + 1) (len (y :: l) + 1)))
          = len (filter (λ i, R ((y :: l) !!! Z.to_nat (i - 1))
                                ((y :: l) !!! Z.to_nat i))
                   (range 1 (len (y :: l))))) as Htail.
  { rewrite range_succ, filter_fmap, len_fmap. f_equal.
    apply filter_ext_in. intros i Hi%elem_of_range.
    replace (Z.to_nat (Z.succ i - 1)) with (S (Z.to_nat (i - 1))) by lia.
    replace (Z.to_nat (Z.succ i)) with (S (Z.to_nat i)) by lia. done. }
  destruct (decide (R x y)).
  - replace (len (1 :: _)) with (1 + len (filter (λ i, R ((x :: y :: l) !!! Z.to_nat (i - 1))
                              ((x :: y :: l) !!! Z.to_nat i))
                 (range (1 + 1) (len (y :: l) + 1))))
      by (unfold len; simpl length; lia).
    now rewrite Htail.
  - now rewrite Htail.
Qed.

Lemma descents_spec p : descents p = Ok (adj_count Z.gt p).
Proof.
  unfold descents.
  rewrite (for_each_count
             (λ i, p !!! Z.to_nat (i - 1) > p !!! Z.to_nat i)).
  - now rewrite Z.add_0_l, (adj_count_positions Z.gt).
  - intros i s Hi%elem_of_range.
    rewrite (SearchFacts.getitem_Z p (i - 1)), bind_Ok by lia.
    rewrite (SearchFacts.getitem_Z p i), bind_Ok by lia.
    now destruct (decide _).
Qed.

Lemma ascents_spec p : ascents p = Ok (len p - 1 - adj_count Z.gt p).
Proof. unfold ascents. now rewrite descents_spec. Qed.

Lemma adj_count_total (l : list Z) :
  NoDup l → l ≠ [] → adj_count Z.gt l + adj_count Z.lt l = len l - 1.
Proof.
  induction l as [|x [|y l] IH]; intros Hnd Hne; [done|done|].
  rewrite !adj_count_cons2.
  apply NoDup_cons in Hnd as [Hx Hnd]. specialize (IH Hnd ltac:(done)).
  assert (x ≠ y) by (intros ->; apply Hx; left).
  replace (len (x :: y :: l)) with (len (y :: l) + 1)
    by (unfold len; simpl length; lia).
  destruct (decide (x > y)), (decide (x < y)); lia.
Qed.

Lemma adj_count_snoc R `{∀ x y, Decision (R x y)} (l : list Z) z a :
  adj_count R ((l ++ [z]) ++ [a])
  = adj_count R (l ++ [z]) + (if decide (R z a) then 1 else 0).
Proof.
  induction l as [|x l IH].
  - simpl. destruct (decide (R z a)); lia.
  - destruct l as [|y l].
    + simpl. destruct (decide (R x z)), (decide (R z a)); lia.
    + change (((x :: y :: l) ++ [z]) ++ [a])
        with (x :: y :: ((l ++ [z]) ++ [a])).
      change ((x :: y :: l) ++ [z]) with (x :: y :: (l ++ [z])).
      rewrite !adj_count_cons2.
      change (y :: (l ++ [z]) ++ [a]) with (((y :: l) ++ [z]) ++ [a]).
      rewrite IH. change ((y :: l) ++ [z]) with (y :: l ++ [z]). lia.
Qed.

Lemma adj_count_reverse (l : list Z) :
  adj_count Z.gt (list.reverse l) = adj_count Z.lt l.
Proof.
  induction l as [|x [|y l] IH]; [done..|].
  rewrite adj_count_cons2, <- IH.
  rewrite (reverse_cons (y :: l) x), (reverse_cons l y), adj_count_snoc.
  destruct (decide (y > x)), (decide (x < y)); lia.
Qed.

Lemma adj_count_antitone (f : Z → Z) (l : list Z) :
  (∀ a b, a < b ↔ f b < f a) → adj_count Z.gt (f <$> l) = adj_count Z.lt l.
Proof.
  intros Hf. induction l as [|x [|y l] IH]; [done..|].
  rewrite !fmap_cons, !adj_count_cons2. rewrite !fmap_cons in IH. rewrite IH.
  pose proof (Hf x y). destruct (decide (f x > f y)), (decide (x < y)); lia.
Qed.

End DescentFacts.


(** ** Left-to-right minima and their mirror images *)

Module MinimaFacts.
Import Perm PermFacts PermOps PermStats BoundFacts SearchFacts LookupFacts.
Import SymmetryFacts.

Lemma position_of_prefix (xs : list Z) (a b : Z) (pre post : list Z) k :
  xs = range a b → xs = pre ++ k :: post →
  k = a + Z.of_nat (length pre) ∧ a ≤ k < b.
Proof.
  intros -> Hxs.
  assert (range a b !! length pre = Some k) as Hk.
  { rewrite Hxs. now rewrite lookup_app_r, Nat.sub_diag by lia. }
  unfold range in Hk. apply lookup_seqZ in Hk. lia.
Qed.

(** The inner loop of [ltrmin]. *)
Lemma ltrmin_flag p i :
  0 ≤ i < len p →
  for_each (range 0 i)
    (fun j flag => a ← getitem p i;
                   b ← getitem p j;
                   if decide (a > b) then Ok false else Ok flag)
    true
  = Ok (bool_decide (ltr_min p i)).
Proof.
  intros Hi.
  destruct (for_each_inv
              (fun pre flag =>
                 flag = bool_decide (Forall (λ y, ¬ p !!! Z.to_nat i > y)
                                       (take (length pre) p)))
              (range 0 i)
              (fun j flag => a ← getitem p i;
                             b ← getitem p j;
                             if decide (a > b) then Ok false else Ok flag)
              true) as (flag & Hrun & Hflag).
  - symmetry. apply bool_decide_eq_true_2. simpl. rewrite take_0. constructor.
  - intros pre j flag [post Hxs] ->.
    destruct (position_of_prefix _ 0 i pre post j eq_refl Hxs) as [-> Hj].
    rewrite Z.add_0_l in *.
    rewrite (getitem_Z p i), bind_Ok by lia.
    rewrite (getitem_total p (length pre)), bind_Ok by (unfold len in *; lia).
    rewrite length_app. simpl length.
    replace (length pre + 1)%nat with (S (length pre)) by lia.
    rewrite (take_S_r p (length pre) (p !!! length pre))
      by (apply list_lookup_lookup_total_lt; unfold len in *; lia).
    destruct (decide (p !!! Z.to_nat i > p !!! length pre)) as [Hgt|Hle].
    + eexists. split; [done|].
      symmetry. apply bool_decide_eq_false_2. rewrite Forall_app, Forall_singleton.
      tauto.
    + eexists. split; [done|].
      apply bool_decide_ext. rewrite Forall_app, Forall_singleton. tauto.
  - rewrite Hrun, Hflag, length_range. unfold ltr_min.
    now replace (Z.to_nat (i - 0)) with (Z.to_nat i) by lia.
Qed.

Lemma ltrmin_spec p : ltrmin p = Ok (filter (ltr_min p) (range 0 (len p))).
Proof.
  unfold ltrmin. rewrite (for_each_collect (ltr_min p)); [done|].
  intros i L Hi%elem_of_range. rewrite ltrmin_flag, bind_Ok by done.
  unfold bool_decide. now destruct (ltr_min_dec p i).
Qed.

Lemma ltr_min_iff p i :
  NoDup p → 0 ≤ i < len p →
  ltr_min p i ↔ ∀ j, 0 ≤ j < i → p !!! Z.to_nat i < p !!! Z.to_nat j.
Proof.
  intros Hnd Hi. unfold ltr_min. rewrite Forall_forall. split.
  - intros Hall j Hj.
    assert (p !! Z.to_nat j = Some (p !!! Z.to_nat j)) as Hlook
      by (apply list_lookup_lookup_total_lt; unfold len in *; lia).
    assert (p !!! Z.to_nat j ∈ take (Z.to_nat i) p) as Hin.
    { apply elem_of_take. exists (Z.to_nat j). split; [done|lia]. }
    specialize (Hall _ Hin).
    assert (p !!! Z.to_nat i ≠ p !!! Z.to_nat j); [|lia].
    intros Heq. rewrite <- Heq in Hlook.
    assert (p !! Z.to_nat i = Some (p !!! Z.to_nat i)) as Hlook'
      by (apply list_lookup_lookup_total_lt; unfold len in *; lia).
    pose proof (NoDup_lookup p _ _ _ Hnd Hlook Hlook'). lia.
  - intros Hall y (j & Hj & Hlt)%elem_of_take.
    specialize (Hall (Z.of_nat j) ltac:(lia)). rewrite Nat2Z.id in Hall.
    rewrite (list_lookup_total_correct _ _ _ Hj) in Hall. lia.
Qed.

Lemma filter_range_sorted (P : Z → Prop) `{∀ x, Decision (P x)} a b :
  StronglySorted Z.lt (filter P (range a b)).
Proof.
  destruct (decide (b ≤ a)) as [|Hab]; [rewrite range_nil by lia; constructor|].
  replace b with (a + Z.of_nat (Z.to_nat (b - a))) by lia.
  generalize (Z.to_nat (b - a)) as m. clear Hab. intros m. revert a.
  induction m as [|m IH]; intros a.
  - rewrite range_nil by lia. constructor.
  - rewrite range_cons, filter_cons by lia.
    replace (a + Z.of_nat (S m)) with ((a + 1) + Z.of_nat m) by lia.
    destruct (decide (P a)); [|apply IH]. constructor; [apply IH|].
    apply Forall_forall. intros x [_ Hx%elem_of_range]%list_elem_of_filter. lia.
Qed.

(** [numltrmin] counts what [ltrmin] lists. *)
Lemma numltrmin_spec p :
  NoDup p → p ≠ [] →
  numltrmin p = Ok (len (filter (ltr_min p) (range 0 (len p)))).
Proof.
  intros Hnd Hne. unfold numltrmin.
  assert (0 < len p) as Hpos by (destruct p; [done|unfold len; simpl; lia]).
  cbv zeta. change (getitem p 0) with (getitem p (Z.of_nat 0%nat)).
  rewrite (getitem_total p 0), bind_Ok by (unfold len in *; lia).
  destruct (for_each_inv
              (fun pre st =>
                 st.1 = 1 + len (filter (ltr_min p)
                                   (range 1 (1 + Z.of_nat (length pre))))
                 ∧ st.2 ∈ take (S (length pre)) p
                 ∧ Forall (λ y, st.2 ≤ y) (take (S (length pre)) p))
              (range 1 (len p))
              (fun i '(num, m) =>
                 a ← getitem p i;
                 if decide (a < m) then
                   m' ← getitem p i;
                   Ok (num + 1, m')
                 else Ok (num, m))
              (1, p !!! 0%nat)) as ([num m] & Hrun & Hnum & _).
  - simpl. rewrite range_nil by lia.
    destruct p as [|x p]; [done|]. simpl. rewrite take_0.
    split; [done|]. split; [left|]. repeat constructor. lia.
  - intros pre i [num m] [post Hxs] (Hnum & Hin & Hmin). simpl in Hnum, Hin, Hmin.
    destruct (position_of_prefix _ 1 (len p) pre post i eq_refl Hxs)
      as [-> Hi].
    set (k := length pre) in *.
    rewrite (getitem_Z p (1 + Z.of_nat k)), bind_Ok by lia.
    replace (Z.to_nat (1 + Z.of_nat k)) with (S k) by lia.
    assert (p !! S k = Some (p !!! S k)) as Hlook
      by (apply list_lookup_lookup_total_lt; unfold len in *; lia).
    assert (p !!! S k < m ↔ ltr_min p (1 + Z.of_nat k)) as Hiff.
    { unfold ltr_min. replace (Z.to_nat (1 + Z.of_nat k)) with (S k) by lia.
      rewrite Forall_forall in Hmin. rewrite Forall_forall. split.
      - intros Hlt y Hy%Hmin. lia.
      - intros Hall. specialize (Hall m Hin).
        assert (p !!! S k ≠ m); [|lia].
        intros Heq. apply elem_of_take in Hin as (j & Hj & Hjk).
        rewrite Heq in Hlook.
        pose proof (NoDup_lookup p _ _ _ Hnd Hlook Hj). lia. }
    rewrite length_app. simpl length. fold k.
    replace (k + 1)%nat with (S k) by lia.
    rewrite (range_snoc 1 (1 + Z.of_nat (S k))) by lia.
    replace (1 + Z.of_nat (S k) - 1) with (1 + Z.of_nat k) by lia.
    rewrite filter_app, len_app, filter_cons, filter_nil.
    rewrite (take_S_r p (S k) (p !!! S k)) by done.
    destruct (decide (p !!! S k < m)) as [Hlt|Hge].
    + eexists. split; [done|]. simpl.
      rewrite decide_True by tauto. split; [unfold len in *; simpl length; lia|].
      split; [apply elem_of_app; right; left|].
      rewrite Forall_app, Forall_singleton. split; [|lia].
      eapply Forall_impl; [exact Hmin|]. simpl. intros; lia.
    + eexists. split; [done|]. simpl.
      rewrite decide_False by tauto. split; [unfold len in *; simpl length; lia|].
      split; [apply elem_of_app; now left|].
      rewrite Forall_app, Forall_singleton. split; [done|lia].
  - rewrite Hrun, bind_Ok. simpl in *. f_equal. rewrite Hnum, length_range.
    replace (1 + Z.of_nat (Z.to_nat (len p - 1))) with (len p) by lia.
    rewrite (range_cons 0) by lia. rewrite filter_cons.
    rewrite decide_True by (unfold ltr_min; simpl; rewrite take_0; constructor).
    change (0 + 1) with 1. unfold len. simpl length. lia.
Qed.

Lemma ltrmin_elem q i :
  NoDup q →
  i ∈ filter (ltr_min q) (range 0 (len q))
  ↔ 0 ≤ i < len q ∧ ∀ j, 0 ≤ j < i → q !!! Z.to_nat i < q !!! Z.to_nat j.
Proof.
  intros Hnd. rewrite list_elem_of_filter, elem_of_range. split.
  - intros [Hmin Hi]. split; [done|]. now apply ltr_min_iff.
  - intros [Hi Hmin]. split; [|done]. now apply ltr_min_iff.
Qed.

Lemma reverse_lookup_total (l : list Z) (k : nat) :
  (k < length l)%nat → list.reverse l !!! k = l !!! (length l - S k)%nat.
Proof.
  intros Hk. apply list_lookup_total_correct. rewrite reverse_lookup by done.
  apply list_lookup_lookup_total_lt. lia.
Qed.

Lemma NoDup_reverse (l : list Z) : NoDup l → NoDup (list.reverse l).
Proof. intros H. now rewrite reverse_Permutation. Qed.

Lemma sorted_mirror (n : Z) (l : list Z) :
  StronglySorted Z.lt l → StronglySorted Z.gt ((λ v, n - v - 1) <$> l).
Proof. apply StronglySorted_fmap. intros x y Hxy. lia. Qed.

Lemma sorted_reverse (l : list Z) :
  StronglySorted Z.gt l → StronglySorted Z.lt (list.reverse l).
Proof.
  induction 1 as [|x l Hs IH Hall]; [constructor|].
  rewrite reverse_cons. apply StronglySorted_app_2; [|done|repeat constructor].
  intros y z Hy ->%list_elem_of_singleton. rewrite elem_of_reverse in Hy.
  rewrite Forall_forall in Hall. specialize (Hall y Hy). lia.
Qed.

Lemma elem_of_mirror (n : Z) (l : list Z) i :
  i ∈ (λ v, n - v - 1) <$> l ↔ n - 1 - i ∈ l.
Proof.
  rewrite list_elem_of_fmap. split.
  - intros (v & -> & Hv). now replace (n - 1 - (n - v - 1)) with v by lia.
  - intros Hi. exists (n - 1 - i). split; [lia|done].
Qed.

(** [rtlmin]: the positions, from the right, of the entries below
    everything after them. *)
Lemma rtlmin_spec p :
  is_perm p →
  ∃ A, rtlmin p = Ok A ∧ StronglySorted Z.gt A
    ∧ ∀ i, i ∈ A ↔ 0 ≤ i < len p
                   ∧ ∀ j, i < j < len p → p !!! Z.to_nat i < p !!! Z.to_nat j.
Proof.
  intros Hp. unfold rtlmin. rewrite reverse_spec, bind_Ok by done.
  rewrite ltrmin_spec, bind_Ok.
  eexists. split; [done|]. split; [apply sorted_mirror, filter_range_sorted|].
  intros i. rewrite elem_of_mirror.
  rewrite ltrmin_elem by (apply NoDup_reverse; now apply is_perm_NoDup).
  rewrite len_reverse. unfold len.
  split; intros [Hi Hmin]; (split; [lia|]); intros j Hj.
  - specialize (Hmin (Z.of_nat (length p) - 1 - j) ltac:(lia)).
    rewrite !reverse_lookup_total in Hmin by lia.
    replace (length p - S (Z.to_nat (Z.of_nat (length p) - 1 - i)))%nat
      with (Z.to_nat i) in Hmin by lia.
    replace (length p - S (Z.to_nat (Z.of_nat (length p) - 1 - j)))%nat
      with (Z.to_nat j) in Hmin by lia.
    done.
  - rewrite !reverse_lookup_total by lia.
    specialize (Hmin (Z.of_nat (length p) - 1 - j) ltac:(lia)).
    replace (length p - S (Z.to_nat (Z.of_nat (length p) - 1 - i)))%nat
      with (Z.to_nat i) by lia.
    replace (length p - S (Z.to_nat j))%nat
      with (Z.to_nat (Z.of_nat (length p) - 1 - j)) by lia.
    done.
Qed.

(** [rtlmax]: the positions, from the left, of the entries above
    everything after them. *)
Lemma rtlmax_spec p :
  is_perm p →
  ∃ B, rtlmax p = Ok B ∧ StronglySorted Z.lt B
    ∧ ∀ i, i ∈ B ↔ 0 ≤ i < len p
                   ∧ ∀ j, i < j < len p → p !!! Z.to_nat j < p !!! Z.to_nat i.
Proof.
  intros Hp. unfold rtlmax.
  pose proof (is_perm_complement p Hp) as Hc.
  rewrite complement_spec, bind_Ok by done.
  rewrite reverse_spec, bind_Ok by done.
  rewrite ltrmin_spec, bind_Ok.
  eexists. split; [done|].
  split; [apply sorted_reverse, sorted_mirror, filter_range_sorted|].
  intros i. rewrite elem_of_reverse, elem_of_mirror.
  set (c := (λ x, len p - 1 - x) <$> p) in *.
  assert (length c = length p) as Hlc by (unfold c; now rewrite length_fmap).
  rewrite ltrmin_elem by (apply NoDup_reverse; now apply is_perm_NoDup).
  rewrite len_reverse.
  assert (∀ k : nat, (k < length p)%nat →
            list.reverse c !!! k = len p - 1 - p !!! (length p - S k)%nat) as Hlook.
  { intros k Hk. rewrite reverse_lookup_total by lia. rewrite Hlc. unfold c.
    rewrite (list_lookup_total_fmap (λ x, len p - 1 - x) p) by lia. done. }
  unfold len in *. rewrite Hlc.
  split; intros [Hi Hmin]; (split; [lia|]); intros j Hj.
  - specialize (Hmin (Z.of_nat (length p) - 1 - j) ltac:(lia)).
    rewrite !Hlook in Hmin by lia.
    replace (length p - S (Z.to_nat (Z.of_nat (length p) - 1 - i)))%nat
      with (Z.to_nat i) in Hmin by lia.
    replace (length p - S (Z.to_nat (Z.of_nat (length p) - 1 - j)))%nat
      with (Z.to_nat j) in Hmin by lia.
    lia.
  - rewrite !Hlook by lia.
    specialize (Hmin (Z.of_nat (length p) - 1 - j) ltac:(lia)).
    replace (length p - S (Z.to_nat (Z.of_nat (length p) - 1 - i)))%nat
      with (Z.to_nat i) by lia.
    replace (length p - S (Z.to_nat j))%nat
      with (Z.to_nat (Z.of_nat (length p) - 1 - j)) by lia.
    lia.
Qed.

(** [ltrmax]: the positions, from the left, of the entries above
    everything before them. *)
Lemma ltrmax_spec p :
  is_perm p →
  ∃ C, ltrmax p = Ok C ∧ StronglySorted Z.lt C
    ∧ ∀ i, i ∈ C ↔ 0 ≤ i < len p
                   ∧ ∀ j, 0 ≤ j < i → p !!! Z.to_nat j < p !!! Z.to_nat i.
Proof.
  intros Hp. unfold ltrmax.
  pose proof (is_perm_reverse p Hp) as Hr.
  rewrite of_seq_is_perm, bind_Ok by done.
  destruct (rtlmax_spec _ Hr) as (B & -> & Hsorted & Hmem).
  rewrite bind_Ok. eexists. split; [done|].
  split; [apply sorted_reverse; now apply sorted_mirror|].
  intros i. rewrite elem_of_reverse, elem_of_mirror, Hmem, len_reverse.
  unfold len.
  split; intros [Hi Hmax]; (split; [lia|]); intros j Hj.
  - specialize (Hmax (Z.of_nat (length p) - 1 - j) ltac:(lia)).
    rewrite !reverse_lookup_total in Hmax by lia.
    replace (length p - S (Z.to_nat (Z.of_nat (length p) - 1 - i)))%nat
      with (Z.to_nat i) in Hmax by lia.
    replace (length p - S (Z.to_nat (Z.of_nat (length p) - 1 - j)))%nat
      with (Z.to_nat j) in Hmax by lia.
    done.
  - rewrite !reverse_lookup_total by lia.
    specialize (Hmax (Z.of_nat (length p) - 1 - j) ltac:(lia)).
    replace (length p - S (Z.to_nat (Z.of_nat (length p) - 1 - i)))%nat
      with (Z.to_nat i) by lia.
    replace (length p - S (Z.to_nat j))%nat
      with (Z.to_nat (Z.of_nat (length p) - 1 - j)) by lia.
    done.
Qed.

End MinimaFacts.


(** ** Locations of a pattern, sets of patterns *)

Module PatternFacts.
Import Perm PermFacts PermOps PermStats PermPatterns.
Import OccurrenceFacts BoundFacts SearchFacts LookupFacts.

Lemma combinations_fmap {A B} (f : A → B) (l : list A) : ∀ k,
  combinations (f <$> l) k = (λ s : list A, f <$> s) <$> combinations l k.
Proof.
  induction l as [|x l IH]; intros k; destruct k as [|k]; [done..|].
  rewrite fmap_cons. simpl combinations. rewrite fmap_app, !IH.
  f_equal. rewrite <- !list_fmap_compose. done.
Qed.

Lemma host_values_range (n : Z) (sol : list Z) :
  Forall (λ x, 0 ≤ x < n) sol → host_values (range 0 n) sol = sol.
Proof.
  intros Hall. unfold host_values. apply fmap_id_on. intros x Hx.
  rewrite Forall_forall in Hall. specialize (Hall x Hx).
  rewrite range_lookup_total; lia.
Qed.

(** The index tuples that [contains_locations] enumerates. *)
Lemma combinations_range (n : Z) (k : nat) (sol : list Z) :
  sol ∈ combinations (range 0 n) k ↔ length sol = k ∧ index_list (Z.max n 0) sol.
Proof.
  rewrite combinations_index_lists, len_range_0. split.
  - intros (sol' & Hlen & Hidx & ->).
    rewrite host_values_range; [done|].
    destruct Hidx as [_ Hall]. eapply Forall_impl; [exact Hall|]. simpl. lia.
  - intros [Hlen Hidx]. exists sol. split; [done|]. split; [done|].
    rewrite host_values_range; [done|].
    destruct Hidx as [_ Hall]. eapply Forall_impl; [exact Hall|]. simpl. lia.
Qed.

Lemma combinations_positions (P : list Z) (k : nat) :
  combinations P k = host_values P <$> combinations (range 0 (len P)) k.
Proof.
  rewrite <- (fmap_lookup_range P) at 1. apply combinations_fmap.
Qed.

Lemma host_values_getitem (P sol : list Z) :
  Forall (λ x, 0 ≤ x < len P) sol →
  mapM (fun i => getitem P i) sol = Ok (host_values P sol).
Proof.
  intros Hall. apply mapM_Ok. intros x Hx.
  rewrite Forall_forall in Hall. apply getitem_Z. auto.
Qed.

(** [contains_locations] keeps the index tuples whose entries standardize
    to the pattern, and [occurrences] counts them. *)
Lemma contains_locations_spec P q :
  NoDup P →
  contains_locations P q
  = Ok (filter (λ sol, rank (host_values P sol) <$> host_values P sol = q)
          (combinations (range 0 (len P)) (length q)))
  ∧ occurrences P q
    = Ok (len (filter (λ sol, rank (host_values P sol) <$> host_values P sol = q)
                 (combinations (range 0 (len P)) (length q)))).
Proof.
  intros Hnd.
  assert (∀ sol, sol ∈ combinations (range 0 (len P)) (length q) →
            Forall (λ x, 0 ≤ x < len P) sol
            ∧ of_seq (host_values P sol)
              = Ok (rank (host_values P sol) <$> host_values P sol)) as Hsol.
  { intros sol Hsol.
    assert (host_values P sol ∈ combinations P (length q)) as Hin.
    { rewrite combinations_positions. now apply list_elem_of_fmap_2. }
    apply combinations_range in Hsol as [_ [_ Hall]]. split.
    - eapply Forall_impl; [exact Hall|]. simpl. intros x Hx.
      pose proof (len_nonneg P). lia.
    - rewrite of_seq_standardize. apply standardize_NoDup.
      eapply sublist_NoDup; [exact Hnd|]. eapply combinations_sublist, Hin. }
  split.
  - unfold contains_locations.
    rewrite (for_each_collect
               (λ sol, rank (host_values P sol) <$> host_values P sol = q));
      [done|].
    intros sol L Hin. destruct (Hsol sol Hin) as [Hall Hstd].
    rewrite host_values_getitem, bind_Ok, Hstd, bind_Ok by done.
    now destruct (decide _).
  - unfold occurrences. rewrite combinations_positions.
    rewrite (for_each_count (λ s, rank s <$> s = q)).
    + rewrite filter_fmap, len_fmap. apply (f_equal Ok). lia.
    + intros s n (sol & -> & Hin)%list_elem_of_fmap.
      destruct (Hsol sol Hin) as [_ ->]. rewrite bind_Ok.
      now destruct (decide _).
Qed.

Lemma location_iff P q sol :
  NoDup P → is_perm q →
  sol ∈ filter (λ sol, rank (host_values P sol) <$> host_values P sol = q)
        (combinations (range 0 (len P)) (length q))
  ↔ length sol = length q ∧ occurrence q P sol.
Proof.
  intros Hnd Hq. rewrite list_elem_of_filter, combinations_range.
  replace (Z.max (len P) 0) with (len P) by (pose proof (len_nonneg P); lia).
  unfold occurrence.
  assert (length sol = length q ∧ index_list (len P) sol →
          (rank (host_values P sol) <$> host_values P sol = q
           ↔ order_iso q (host_values P sol))) as Hiff.
  { intros [Hlen Hidx].
    assert (NoDup (host_values P sol)) as Hnd'.
    { eapply sublist_NoDup; [exact Hnd|].
      eapply (combinations_sublist P (length q)).
      apply combinations_index_lists. eauto. }
    rewrite <- (standardize_order_iso q _ Hq Hnd').
    rewrite standardize_NoDup by done. split; [now intros ->|now intros [= ->]]. }
  split.
  - intros [Hstd Hcomb]. split; [tauto|]. split; [tauto|]. now apply Hiff.
  - intros (Hlen & Hidx & Hiso). split; [|done]. now apply Hiff.
Qed.

(** One pattern of [avoids_set]. *)
Lemma involved_in_total P q c :
  is_perm q → cache_ok q c →
  ∃ b c', involved_in q c (OfPerm P) 0 = Ok (b, c')
    ∧ (b = true ↔ ∃ sol, length sol = length q ∧ occurrence q P sol).
Proof.
  intros Hq Hc.
  destruct (set_up_bounds_spec q Hq) as (lb & ub & Hset & Hb).
  destruct (involved_in_spec q lb ub Hq Hb P c Hset Hc) as (b & Hrun & Hiff).
  eauto.
Qed.

End PatternFacts.


(** ** The table of all intervals *)

Module AllIntervalFacts.
Import Perm PermFacts PermOps PermStats PermPatterns.
Import IntervalFacts BoundFacts SearchFacts LookupFacts MinimaFacts.

Lemma is_window_spec self i j :
  0 ≤ j → 0 < i → j + i ≤ len self →
  (is_window self i j = true ↔ window self j i)
  ∧ (hi ← max (slice self j (j + i));
     lo ← min (slice self j (j + i));
     Ok (bool_decide (hi - lo = i - 1))) = Ok (is_window self i j).
Proof.
  intros Hj Hi Hn. unfold is_window, window.
  destruct (max_is_Ok (slice self j (j + i))) as [hi Hhi];
    [apply slice_nonempty; lia|].
  destruct (min_is_Ok (slice self j (j + i))) as [lo Hlo];
    [apply slice_nonempty; lia|].
  rewrite Hhi, Hlo. split; [|done]. rewrite bool_decide_eq_true. split.
  - intros Heq. eauto.
  - intros (hi' & lo' & [= <-] & [= <-] & Heq). done.
Qed.

(** The inner loop of [all_intervals] fills the last row. *)
Lemma all_intervals_row self i (blocks : list (list Z)) :
  2 ≤ i < len self → len blocks = i →
  for_each (range 0 (len self - i + 1))
    (fun j blocks =>
       hi ← max (slice self j (j + i));
       lo ← min (slice self j (j + i));
       if decide (hi - lo = i - 1) then
         bi ← getitem blocks i;
         setitem blocks i (bi ++ [j])
       else Ok blocks)
    (blocks ++ [[]])
  = Ok (blocks ++ [interval_row self i]).
Proof.
  intros Hi Hlen.
  destruct (for_each_inv
              (fun pre (st : list (list Z)) =>
                 st = blocks ++ [filter (λ j, is_window self i j = true) pre])
              (range 0 (len self - i + 1))
              (fun j blocks =>
                 hi ← max (slice self j (j + i));
                 lo ← min (slice self j (j + i));
                 if decide (hi - lo = i - 1) then
                   bi ← getitem blocks i;
                   setitem blocks i (bi ++ [j])
                 else Ok blocks)
              (blocks ++ [[]])) as (st & Hrun & ->); [done| |exact Hrun].
  intros pre j st [post Hxs] ->.
  destruct (position_of_prefix _ 0 (len self - i + 1) pre post j eq_refl Hxs)
    as [_ Hj].
  destruct (is_window_spec self i j) as [_ Hrun]; [lia..|].
  rewrite filter_app, filter_cons, filter_nil.
  destruct (max (slice self j (j + i))) as [hi| |]; [|done..].
  destruct (min (slice self j (j + i))) as [lo| |]; [|done..].
  simpl in Hrun. injection Hrun as Hrun. rewrite !bind_Ok.
  destruct (decide (hi - lo = i - 1)) as [Heq|Hne].
  - rewrite bool_decide_eq_true_2 in Hrun by done.
    rewrite decide_True by done.
    assert (length blocks = Z.to_nat i) as Hlb by (unfold len in *; lia).
    rewrite (getitem_lookup _ i (filter (λ j, is_window self i j = true) pre)),
      bind_Ok; [|lia|].
    2:{ rewrite lookup_app_r, <- Hlb, Nat.sub_diag by lia. done. }
    rewrite setitem_Ok by (rewrite len_app; unfold len in *; simpl; lia).
    eexists. split; [done|].
    rewrite <- Hlb, insert_app_r_alt, Nat.sub_diag by lia. done.
  - rewrite bool_decide_eq_false_2 in Hrun by done.
    rewrite decide_False by congruence.
    eexists. split; [done|]. now rewrite app_nil_r.
Qed.

Lemma all_intervals_spec self :
  all_intervals self false
  = Ok ([[]; []] ++ (interval_row self <$> range 2 (len self))).
Proof.
  unfold all_intervals.
  destruct (for_each_inv
              (fun pre (st : list (list Z)) =>
                 st = [[]; []] ++ (interval_row self <$> pre))
              (range 2 (len self))
              (fun i blocks =>
                 let blocks := blocks ++ [[]] in
                 for_each (range 0 (len self - i + 1))
                   (fun j blocks =>
                      hi ← max (slice self j (j + i));
                      lo ← min (slice self j (j + i));
                      if decide (hi - lo = i - 1) then
                        bi ← getitem blocks i;
                        setitem blocks i (bi ++ [j])
                      else Ok blocks)
                   blocks)
              [[]; []]) as (st & Hrun & ->); [done| |].
  - intros pre i st [post Hxs] ->.
    destruct (position_of_prefix _ 2 (len self) pre post i eq_refl Hxs)
      as [Hi Hr].
    eexists. split.
    + cbv zeta. apply all_intervals_row; [done|].
      rewrite len_app, len_fmap. unfold len. simpl length. lia.
    + now rewrite fmap_app, app_assoc.
  - cbv zeta in Hrun. cbv zeta. rewrite Hrun. done.
Qed.

Lemma interval_row_elem self i j :
  2 ≤ i < len self →
  j ∈ interval_row self i ↔ 0 ≤ j ≤ len self - i ∧ window self j i.
Proof.
  intros Hi. unfold interval_row. rewrite list_elem_of_filter, elem_of_range.
  split.
  - intros [Hw Hj]. split; [lia|]. apply is_window_spec; [lia..|done].
  - intros [Hj Hw]. split; [|lia]. apply is_window_spec; [lia..|done].
Qed.

Lemma all_intervals_lookup self (i : Z) row :
  0 ≤ i →
  ([[]; []] ++ (interval_row self <$> range 2 (len self))) !! Z.to_nat i = Some row
  ↔ (0 ≤ i < 2 ∧ row = []) ∨ (2 ≤ i < len self ∧ row = interval_row self i).
Proof.
  intros Hi. destruct (decide (i < 2)) as [Hlt|Hge].
  - assert (i = 0 ∨ i = 1) as [-> | ->] by lia; simpl; split;
      try (intros [= <-]; left; split; [lia|done]);
      intros [[_ ->]|[? _]]; (done || lia).
  - rewrite lookup_app_r by (simpl; lia). simpl length.
    rewrite list_lookup_fmap. split.
    + intros Hrow. right.
      destruct (range 2 (len self) !! (Z.to_nat i - 2)%nat) as [i'|] eqn:Hlook;
        [|done].
      simpl in Hrow. injection Hrow as <-.
      apply lookup_range in Hlook. assert (i' = i) as -> by lia. split; [lia|done].
    + intros [[? _]|[Hr ->]]; [lia|].
      rewrite (proj2 (lookup_range 2 (len self) (Z.to_nat i - 2) i)) by lia. done.
Qed.

End AllIntervalFacts.


(** ** Extensions on the right *)

Module ExtensionFacts.
Import Perm PermFacts PermOps EditFacts BoundFacts SearchFacts LookupFacts.

(** The list that [right_extensions] builds for the new last value [i]. *)
Lemma extension_entries (self : list Z) i :
  mapM (fun j => sj ← getitem self j;
                 sj' ← getitem self j;
                 Ok (sj + (if decide (sj' > i - 1) then 1 else 0)))
    (range 0 (len self))
  = Ok (bump i <$> self).
Proof.
  rewrite (mapM_Ok _ (λ j, bump i (self !!! Z.to_nat j))).
  - f_equal. rewrite <- (fmap_lookup_range self) at 2.
    now rewrite <- list_fmap_compose.
  - intros j Hj%elem_of_range. rewrite (getitem_Z self j), !bind_Ok by done.
    unfold bump. f_equal.
    destruct (decide (self !!! Z.to_nat j > i - 1)),
             (decide (self !!! Z.to_nat j >= i)); lia.
Qed.

Lemma insert_at_end (self : list Z) i :
  insert self (len self) i = of_seq ((bump i <$> self) ++ [i]).
Proof.
  rewrite insert_unfold. f_equal.
  assert (len (bump i <$> self) = len self) as Hlen by apply len_fmap.
  unfold slice_to, slice_from. rewrite <- Hlen.
  rewrite slice_prefix by (pose proof (len_nonneg (bump i <$> self)); lia).
  rewrite slice_suffix by (pose proof (len_nonneg (bump i <$> self)); lia).
  unfold len. rewrite Nat2Z.id, firstn_all, drop_all. done.
Qed.

(** The positions that [right_extensions] selects. *)
Lemma selected_positions (indices : list Z) :
  for_each (range 0 (len indices))
    (fun j R => x ← getitem indices j;
                if decide (x = 1) then Ok (R ++ [j]) else Ok R)
    []
  = Ok (filter (λ j, indices !!! Z.to_nat j = 1) (range 0 (len indices))).
Proof.
  rewrite (for_each_collect (λ j, indices !!! Z.to_nat j = 1)); [done|].
  intros j R Hj%elem_of_range. rewrite (getitem_Z indices j), bind_Ok by done.
  now destruct (decide _).
Qed.

Lemma right_extensions_spec (self locs : list Z) :
  NoDup self →
  ∃ L, right_extensions self locs = Ok L
    ∧ mapM (insert self (len self))
        (let indices := if decide (len locs > 0) then locs
                        else replicate (Z.to_nat (len self + 1)) 1 in
         filter (λ j, indices !!! Z.to_nat j = 1) (range 0 (len indices)))
      = Ok L.
Proof.
  intros Hnd. unfold right_extensions. cbv zeta.
  set (indices := if decide (len locs > 0) then locs
                  else replicate (Z.to_nat (len self + 1)) 1).
  rewrite selected_positions, bind_Ok.
  set (R := filter (λ j, indices !!! Z.to_nat j = 1) (range 0 (len indices))).
  set (g := λ i, rank ((bump i <$> self) ++ [i]) <$> ((bump i <$> self) ++ [i])).
  assert (∀ i, insert self (len self) i = Ok (g i)) as Hins.
  { intros i. rewrite insert_at_end, of_seq_standardize.
    apply standardize_NoDup.
    pose proof (inserted_NoDup self (len self) i Hnd) as Hnd'.
    assert (len (bump i <$> self) = len self) as Hlen by apply len_fmap.
    unfold slice_to, slice_from in Hnd'. rewrite <- Hlen in Hnd'.
    rewrite slice_prefix in Hnd'
      by (pose proof (len_nonneg (bump i <$> self)); lia).
    rewrite slice_suffix in Hnd'
      by (pose proof (len_nonneg (bump i <$> self)); lia).
    unfold len in Hnd'. rewrite Nat2Z.id, firstn_all, drop_all in Hnd'.
    simpl in Hnd'. done. }
  exists (g <$> R). split.
  - rewrite (for_each_append g); [done|].
    intros i L _. rewrite extension_entries, bind_Ok.
    rewrite <- insert_at_end, Hins. done.
  - apply mapM_Ok. intros i _. apply Hins.
Qed.

Lemma filter_all {A} (P : A → Prop) `{∀ x, Decision (P x)} (l : list A) :
  (∀ x, x ∈ l → P x) → filter P l = l.
Proof.
  induction l as [|x l IH]; intros Hall; [done|].
  rewrite filter_cons, decide_True by (apply Hall; left).
  f_equal. apply IH. intros y Hy. apply Hall. now right.
Qed.

Lemma default_positions (n : Z) :
  0 ≤ n →
  filter (λ j, replicate (Z.to_nat (n + 1)) 1 !!! Z.to_nat j = 1)
    (range 0 (len (replicate (Z.to_nat (n + 1)) 1)))
  = range 0 (n + 1).
Proof.
  intros Hn. assert (len (replicate (Z.to_nat (n + 1)) 1) = n + 1) as ->
    by (unfold len; rewrite length_replicate; lia).
  apply filter_all. intros j Hj%elem_of_range.
  apply lookup_total_replicate_2. lia.
Qed.

End ExtensionFacts.


(** ** The rank encoding *)

Module EncodingFacts.
Import Perm PermFacts PermOps PermStats BoundFacts SearchFacts LookupFacts.
Import InversionFacts.

Lemma rank_val_spec p (i : nat) :
  (i < length p)%nat →
  rank_val p (Z.of_nat i) = Ok (rank (drop (S i) p) (p !!! i)).
Proof.
  intros Hi. unfold rank_val.
  rewrite (for_each_collect (λ j, p !!! Z.to_nat j < p !!! i)).
  - rewrite bind_Ok. f_equal. rewrite app_nil_l.
    replace (Z.of_nat i + 1) with (Z.of_nat (S i)) by lia.
    rewrite <- (drop_positions p (S i)) by lia. unfold rank.
    now rewrite filter_fmap, len_fmap.
  - intros j L Hj%elem_of_range.
    rewrite (getitem_Z p j), bind_Ok by lia.
    rewrite (getitem_total p i), bind_Ok by lia.
    now destruct (decide _).
Qed.

Lemma rank_val_past_end p i : len p ≤ i → rank_val p i = Ok 0.
Proof. intros Hi. unfold rank_val. now rewrite range_nil by lia. Qed.

Lemma rank_encoding_spec p : rank_encoding p = Ok (lehmer p).
Proof.
  unfold rank_encoding.
  rewrite (mapM_Ok _ (λ i, rank (drop (S (Z.to_nat i)) p) (p !!! Z.to_nat i))).
  - f_equal. apply fmap_positions. intros i Hi. now rewrite Nat2Z.id.
  - intros i Hi%elem_of_range.
    rewrite <- (Z2Nat.id i) at 1 by lia. apply rank_val_spec.
    unfold len in Hi. lia.
Qed.

Lemma lehmer_length l : length (lehmer l) = length l.
Proof.
  induction l as [|x l IH]; [done|].
  unfold lehmer in *. simpl. now rewrite IH.
Qed.

Lemma lehmer_lookup l (i : nat) :
  (i < length l)%nat →
  lehmer l !! i = Some (rank (drop (S i) l) (l !!! i)).
Proof.
  revert i. induction l as [|x l IH]; intros i Hi; [simpl in Hi; lia|].
  destruct i as [|i]; [done|]. simpl in Hi. simpl. apply IH. lia.
Qed.

Lemma rank_le_len l x : rank l x ≤ len l.
Proof.
  unfold rank, len. pose proof (length_filter (λ y, y < x) l). lia.
Qed.

Lemma lehmer_sum l : sumZ (lehmer l) = pair_count Z.gt l.
Proof.
  induction l as [|x l IH]; [done|].
  rewrite pair_count_cons, <- IH. unfold lehmer. simpl tails_map.
  rewrite sumZ_cons. f_equal. unfold rank. f_equal.
  apply filter_ext_in. intros y _. lia.
Qed.

(** Two arrangements of the same distinct values with the same code are
    equal. *)
Lemma lehmer_inj (l1 l2 : list Z) :
  NoDup l1 → l1 ≡ₚ l2 → lehmer l1 = lehmer l2 → l1 = l2.
Proof.
  revert l2. induction l1 as [|x l1 IH]; intros l2 Hnd Hperm Hcode.
  - now apply Permutation_nil_l in Hperm.
  - destruct l2 as [|y l2]; [now apply Permutation_nil_r in Hperm|].
    simpl in Hcode. injection Hcode as Hr Hcode.
    apply NoDup_cons in Hnd as [Hx Hnd].
    assert (x = y) as ->.
    { assert (rank (x :: l1) x = rank l1 x) as H1
        by (rewrite rank_cons; destruct (decide (x < x)); lia).
      assert (rank (y :: l2) y = rank l2 y) as H2
        by (rewrite rank_cons; destruct (decide (y < y)); lia).
      rewrite (rank_Permutation _ _ x Hperm) in H1.
      assert (x ∈ y :: l2) as Hxin by (rewrite <- Hperm; left).
      assert (y ∈ y :: l2) as Hyin by left.
      destruct (Z.lt_total x y) as [Hlt|[Heq|Hgt]]; [|done|].
      - pose proof (rank_strict (y :: l2) x y Hxin Hlt). lia.
      - pose proof (rank_strict (y :: l2) y x Hyin Hgt). lia. }
    f_equal. apply IH; [done| |done].
    now apply Permutation_cons_inv in Hperm.
Qed.

End EncodingFacts.

(** ** Bonds *)

Module BondFacts.
Import Perm PermFacts PermOps PermStats BoundFacts SearchFacts LookupFacts.
Import DescentFacts.

(** Adjacent pairs read through the position of their first entry. *)
Lemma adj_count_positions_0 R `{∀ x y, Decision (R x y)} (p : list Z) :
  len (filter (λ i, R (p !!! Z.to_nat i) (p !!! Z.to_nat (i + 1)))
         (range 0 (len p - 1)))
  = adj_count R p.
Proof.
  rewrite <- (adj_count_positions R p).
  replace (range 1 (len p)) with (range (0 + 1) (len p - 1 + 1))
    by (f_equal; lia).
  rewrite range_succ, filter_fmap, len_fmap. f_equal.
  apply filter_ext_in. intros i Hi%elem_of_range.
  replace (Z.succ i - 1) with i by lia.
  now replace (Z.succ i) with (i + 1) by lia.
Qed.

#[local] Ltac case_tests :=
  repeat first
    [ rewrite bind_Ok
    | match goal with
      | |- context [@decide ?P ?i] => destruct (@decide P i)
      end ];
  unfold bond, inc_bond, dec_bond in *; (done || lia).

Lemma num_inc_bonds_spec p : num_inc_bonds p = Ok (adj_count inc_bond p).
Proof.
  unfold num_inc_bonds.
  rewrite (for_each_collect
             (λ i, inc_bond (p !!! Z.to_nat i) (p !!! Z.to_nat (i + 1)))).
  - rewrite bind_Ok, app_nil_l. f_equal. apply (adj_count_positions_0 inc_bond).
  - intros i L Hi%elem_of_range.
    rewrite (getitem_Z p (i + 1)), bind_Ok by lia.
    rewrite (getitem_Z p i), bind_Ok by lia. case_tests.
Qed.

Lemma num_dec_bonds_spec p : num_dec_bonds p = Ok (adj_count dec_bond p).
Proof.
  unfold num_dec_bonds.
  rewrite (for_each_collect
             (λ i, dec_bond (p !!! Z.to_nat i) (p !!! Z.to_nat (i + 1)))).
  - rewrite bind_Ok, app_nil_l. f_equal. apply (adj_count_positions_0 dec_bond).
  - intros i L Hi%elem_of_range.
    rewrite (getitem_Z p (i + 1)), bind_Ok by lia.
    rewrite (getitem_Z p i), bind_Ok by lia. case_tests.
Qed.

Lemma num_bonds_spec p : num_bonds p = Ok (adj_count bond p).
Proof.
  unfold num_bonds.
  rewrite (for_each_collect
             (λ i, bond (p !!! Z.to_nat i) (p !!! Z.to_nat (i + 1)))).
  - rewrite bind_Ok, app_nil_l. f_equal. apply (adj_count_positions_0 bond).
  - intros i L Hi%elem_of_range.
    rewrite (getitem_Z p (i + 1)), bind_Ok by lia.
    rewrite (getitem_Z p i), bind_Ok by lia. case_tests.
Qed.

Lemma bonds_spec p : bonds p = Ok (adj_count bond p).
Proof.
  unfold bonds.
  rewrite (for_each_count
             (λ i, bond (p !!! Z.to_nat (i - 1)) (p !!! Z.to_nat i))).
  - rewrite Z.add_0_l. f_equal. apply (adj_count_positions bond).
  - intros i s Hi%elem_of_range.
    rewrite (getitem_Z p i), bind_Ok by lia.
    rewrite (getitem_Z p (i - 1)), bind_Ok by lia. case_tests.
Qed.

Lemma adj_count_bond (l : list Z) :
  adj_count bond l = adj_count inc_bond l + adj_count dec_bond l.
Proof.
  induction l as [|x [|y l] IH]; [done..|].
  rewrite !adj_count_cons2, IH. case_tests.
Qed.

End BondFacts.


(** ** [listall] and the indices of [ind2perm] *)

Module EnumerationFacts.
Import Perm PermFacts PermOps IndexFacts LookupFacts.

Lemma listall_spec (n : nat) :
  (0 < n)%nat →
  listall (Z.of_nat n) = Ok (ind2perm_list n <$> range 0 (factorial n)).
Proof.
  intros Hn. unfold listall, math_factorial.
  destruct (decide (Z.of_nat n = 0)); [lia|].
  destruct (decide (Z.of_nat n < 0)); [lia|].
  rewrite bind_Ok, Nat2Z.id.
  rewrite (for_each_append (ind2perm_list n)); [done|].
  intros k L _. unfold new.
  destruct (decide (Z.of_nat n = 0)); [lia|].
  now rewrite ind2perm_Ok, bind_Ok.
Qed.

Lemma perm2ind_ind2perm_list (m : nat) k :
  0 ≤ k < factorial m → perm2ind (ind2perm_list m k) = Ok k.
Proof.
  intros Hk. rewrite perm2ind_unfold.
  destruct (ind2perm_list_run m k) as (_ & _ & Hlen).
  unfold len. rewrite Hlen.
  pose proof (perm2ind_loop_ind2perm m k [] 0 1 Hk) as Hrun.
  rewrite app_nil_r in Hrun. rewrite Hrun, bind_Ok. simpl.
  apply (f_equal Ok). lia.
Qed.

Lemma ind2perm_list_inj (m : nat) k1 k2 :
  0 ≤ k1 < factorial m → 0 ≤ k2 < factorial m →
  ind2perm_list m k1 = ind2perm_list m k2 → k1 = k2.
Proof.
  intros H1 H2 Heq.
  pose proof (perm2ind_ind2perm_list m k1 H1) as E1.
  pose proof (perm2ind_ind2perm_list m k2 H2) as E2.
  rewrite Heq in E1. congruence.
Qed.

Lemma factorial_positive (m : nat) : 0 < factorial m.
Proof. unfold factorial. pose proof (lt_O_fact m). lia. Qed.

(** [ind2perm] on any pair of integers. *)
Lemma ind2perm_total k n : ind2perm k n = Ok (ind2perm_list (Z.to_nat n) k).
Proof.
  destruct (decide (0 ≤ n)).
  - rewrite <- (Z2Nat.id n) at 1 by lia. apply ind2perm_Ok.
  - rewrite ind2perm_unfold, range_down_nil, (range_nil 0 n) by lia.
    replace (Z.to_nat n) with 0%nat by lia. reflexivity.
Qed.

(** The loop of [ind2perm] only reads [k] modulo [n!]. *)
Lemma ind2perm_list_mod (m : nat) : ∀ k,
  ind2perm_list m (k `mod` factorial m) = ind2perm_list m k.
Proof.
  induction m as [|m IH]; intros k; [done|].
  rewrite !ind2perm_list_S, (factorial_S m).
  pose proof (factorial_positive m) as HF.
  set (M := Z.of_nat (S m)) in *. set (F := factorial m) in *.
  assert (0 < M) as HM by (unfold M; lia).
  replace (Z.of_nat m + 1) with M by (unfold M; lia).
  assert ((k `mod` (M * F)) `mod` M = k `mod` M) as ->.
  { rewrite Z.rem_mul_r by lia.
    rewrite (Z.mul_comm M), Z_mod_plus_full. apply Z.mod_mod. lia. }
  assert ((k `mod` (M * F)) `div` M = (k `div` M) `mod` F) as ->.
  { rewrite Z.rem_mul_r by lia.
    rewrite (Z.mul_comm M), Z_div_plus_full by lia.
    rewrite Z.div_small by (apply Z.mod_pos_bound; lia). lia. }
  now rewrite IH.
Qed.

End EnumerationFacts.

(** ** Fixed points *)

Module FixedPointFacts.
Import Perm PermFacts PermOps PermStats BoundFacts SearchFacts LookupFacts GroupFacts.

Lemma fixed_points_spec p :
  fixed_points p = Ok (len (filter (λ i, p !!! Z.to_nat i = i) (range 0 (len p)))).
Proof.
  unfold fixed_points.
  rewrite (for_each_count (λ i, p !!! Z.to_nat i = i)); [done|].
  intros i s Hi%elem_of_range. unfold call.
  rewrite getitem_Z, bind_Ok by done.
  now destruct (decide (p !!! Z.to_nat i = i)).
Qed.

Lemma filter_length_neg {A} (P : A → Prop) `{∀ x, Decision (P x)} (l : list A) :
  (length (filter P l) + length (filter (λ x, ¬ P x) l) = length l)%nat.
Proof.
  induction l as [|x l IH]; [done|].
  rewrite !filter_cons. destruct (decide (P x)), (decide (¬ P x)); simpl; (tauto || lia).
Qed.

Lemma filter_length_all {A} (P : A → Prop) `{∀ x, Decision (P x)} (l : list A) :
  length (filter P l) = length l ↔ Forall P l.
Proof.
  split.
  - induction l as [|x l IH]; intros Hlen; [constructor|].
    rewrite filter_cons in Hlen. pose proof (length_filter P l) as Hle.
    destruct (decide (P x)); simpl in Hlen; [|lia].
    constructor; [done|]. apply IH. lia.
  - induction 1 as [|x l Hx _ IH]; [done|].
    rewrite filter_cons, decide_True by done. simpl. now rewrite IH.
Qed.

(** A permutation with all entries in place is the identity. *)
Lemma all_fixed_identity p :
  Forall (λ i, p !!! Z.to_nat i = i) (range 0 (len p)) ↔ p = range 0 (len p).
Proof.
  rewrite Forall_forall. split.
  - intros Hall. apply list_eq_total.
    + pose proof (len_range_0 (len p)) as H. unfold len in *. lia.
    + intros i Hi. rewrite range_lookup_total by (unfold len; lia).
      rewrite <- (Hall (Z.of_nat i)) at 1; [now rewrite Nat2Z.id|].
      apply elem_of_range. unfold len. lia.
  - intros Heq i Hi%elem_of_range. rewrite Heq.
    rewrite range_lookup_total by lia. lia.
Qed.

(** No permutation moves exactly one entry. *)
Lemma not_one_moved p :
  is_perm p →
  length (filter (λ i, ¬ p !!! Z.to_nat i = i) (range 0 (len p))) ≠ 1%nat.
Proof.
  intros Hp Hone.
  destruct (filter (λ i, ¬ p !!! Z.to_nat i = i) (range 0 (len p)))
    as [|i [|? ?]] eqn:Hf; [done| |done].
  assert (i ∈ filter (λ i, ¬ p !!! Z.to_nat i = i) (range 0 (len p))) as Hi
    by (rewrite Hf; left).
  apply list_elem_of_filter in Hi as [Hmove Hi%elem_of_range].
  pose proof (perm_entry p (Z.to_nat i) Hp ltac:(unfold len in Hi; lia)) as Hj.
  set (j := p !!! Z.to_nat i) in *.
  destruct (decide (p !!! Z.to_nat j = j)) as [Hfix|Hmv].
  - apply Hmove. fold j in Hfix.
    assert (Z.to_nat j = Z.to_nat i) as Heq.
    { apply (perm_inj p); [done|unfold len in *; lia..|done]. }
    lia.
  - assert (j ∈ filter (λ i, ¬ p !!! Z.to_nat i = i) (range 0 (len p))) as Hin.
    { apply list_elem_of_filter. split; [done|]. now apply elem_of_range. }
    rewrite Hf in Hin. apply list_elem_of_singleton in Hin. now apply Hmove.
Qed.

(** A permutation and its inverse fix the same positions. *)
Lemma inverse_of_fixed p q (i : Z) :
  is_perm p → inverse_of p q → 0 ≤ i < len p →
  p !!! Z.to_nat i = i ↔ q !!! Z.to_nat i = i.
Proof.
  intros Hp Hinv Hi.
  destruct (inverse_of_is_perm p q Hp Hinv) as [Hq Hinv'].
  destruct Hinv as [Hlen Hinv], Hinv' as [_ Hinv'].
  split; intros Hfix.
  - pose proof (Hinv (Z.to_nat i) ltac:(unfold len in Hi; lia)) as H.
    rewrite Hfix in H. lia.
  - pose proof (Hinv' (Z.to_nat i) ltac:(unfold len in Hi; lia)) as H.
    rewrite Hfix in H. lia.
Qed.

End FixedPointFacts.


(** ** Contracting bonds *)

Module ContractFacts.
Import Perm PermFacts PermOps PermStats BoundFacts SearchFacts LookupFacts.
Import DescentFacts BondFacts DecompositionFacts.

Lemma while_return_done {S R} (fuel : nat) (cond : S → res bool)
    (body : S → res (S + R)) s :
  cond s = Ok false → while_return fuel cond body s = Ok (inl s).
Proof. intros Hc. destruct fuel; simpl; now rewrite Hc. Qed.

Lemma adj_count_app_cons R `{∀ x y, Decision (R x y)} (l1 : list Z) y l2 :
  adj_count R (l1 ++ y :: l2) = adj_count R (l1 ++ [y]) + adj_count R (y :: l2).
Proof.
  induction l1 as [|x [|z l1] IH].
  - simpl app. rewrite adj_count_single. lia.
  - simpl app. rewrite !adj_count_cons2, adj_count_single. lia.
  - simpl app in *. rewrite (adj_count_cons2 R x z), (adj_count_cons2 R x z), IH. lia.
Qed.

(** A relabelling that keeps the relation on the adjacent pairs keeps the
    count. *)
Lemma adj_count_fmap_pairs R `{∀ x y, Decision (R x y)} (f : Z → Z) (l : list Z) :
  (∀ (i : nat) u v, l !! i = Some u → l !! S i = Some v → (R (f u) (f v) ↔ R u v)) →
  adj_count R (f <$> l) = adj_count R l.
Proof.
  induction l as [|x [|y l] IH]; intros Hp; [done..|].
  rewrite !fmap_cons, !adj_count_cons2. rewrite !fmap_cons in IH.
  rewrite IH by (intros i u v Hu Hv; apply (Hp (S i)); done).
  pose proof (Hp 0%nat x y eq_refl eq_refl).
  destruct (decide (R (f x) (f y))), (decide (R x y)); tauto || lia.
Qed.

(** The standardization of a permutation with one entry deleted lowers
    the entries above the deleted one. *)
Lemma rank_delete pre x post v :
  is_perm (pre ++ x :: post) → v ∈ pre ++ post →
  rank (pre ++ post) v = if decide (x < v) then v - 1 else v.
Proof.
  intros Hp Hv.
  assert (v ∈ pre ++ x :: post) as Hv'.
  { apply elem_of_app in Hv as [?|?]; apply elem_of_app; [now left|right; now right]. }
  apply (is_perm_elem_of _ _ Hp) in Hv'.
  pose proof (is_perm_rank _ v Hp ltac:(lia)) as Hr.
  rewrite rank_app, rank_cons in Hr. rewrite rank_app.
  destruct (decide (x < v)); lia.
Qed.

Lemma delete_NoDup (pre : list Z) x post :
  NoDup (pre ++ x :: post) → NoDup (pre ++ post) ∧ x ∉ pre ++ post.
Proof.
  intros Hnd. rewrite <- Permutation_middle in Hnd.
  apply NoDup_cons in Hnd as [? ?]. done.
Qed.

(** Deleting the first entry of a pair and relabelling with [f] removes
    exactly that pair from the count. *)
Lemma contract_count R `{∀ x y, Decision (R x y)} (f : Z → Z) pre x y post :
  f x = f y → R x y →
  (∀ u v, u ∈ pre → v ∈ pre ++ [x] → (R (f u) (f v) ↔ R u v)) →
  (∀ u v, u ∈ y :: post → v ∈ post → (R (f u) (f v) ↔ R u v)) →
  adj_count R (f <$> (pre ++ y :: post)) = adj_count R (pre ++ x :: y :: post) - 1.
Proof.
  intros Hxy HR Hpre Hpost.
  rewrite (adj_count_app_cons R pre x (y :: post)).
  rewrite adj_count_cons2, decide_True by done.
  rewrite fmap_app, fmap_cons.
  rewrite (adj_count_app_cons R (f <$> pre) (f y) (f <$> post)).
  replace ((f <$> pre) ++ [f y]) with (f <$> (pre ++ [x]))
    by (rewrite fmap_app; simpl; now rewrite Hxy).
  replace (f y :: (f <$> post)) with (f <$> (y :: post)) by done.
  rewrite (adj_count_fmap_pairs R f (pre ++ [x])).
  - rewrite (adj_count_fmap_pairs R f (y :: post)); [lia|].
    intros i u v Hu Hv. apply Hpost.
    + eapply list_elem_of_lookup_2, Hu.
    + simpl in Hv. eapply list_elem_of_lookup_2, Hv.
  - intros i u v Hu Hv. apply Hpre.
    + pose proof (lookup_lt_Some _ _ _ Hv) as Hlt.
      rewrite length_app in Hlt. simpl in Hlt.
      rewrite lookup_app_l in Hu by lia. eapply list_elem_of_lookup_2, Hu.
    + eapply list_elem_of_lookup_2, Hv.
Qed.

Lemma contract_inc_count pre x y post :
  is_perm (pre ++ x :: y :: post) → inc_bond x y →
  adj_count inc_bond (rank (pre ++ y :: post) <$> (pre ++ y :: post))
  = adj_count inc_bond (pre ++ x :: y :: post) - 1.
Proof.
  intros Hp Hxy. pose proof (is_perm_NoDup _ Hp) as Hnd.
  destruct (delete_NoDup _ _ _ Hnd) as [Hnd' Hx].
  assert (y ∉ pre ++ post) as Hy.
  { apply (delete_NoDup pre y post). eapply sublist_NoDup; [exact Hnd|].
    apply sublist_app; [done|]. now apply sublist_cons. }
  rewrite (list_fmap_ext _ (λ v, if decide (x < v) then v - 1 else v)).
  2:{ intros i v Hv. apply (rank_delete pre x (y :: post)); [done|].
      eapply list_elem_of_lookup_2, Hv. }
  unfold inc_bond in Hxy.
  apply (contract_count inc_bond); [|done| |].
  - destruct (decide (x < x)), (decide (x < y)); lia.
  - intros u v Hu Hv.
    assert (u ≠ x) by (intros ->; apply Hx, elem_of_app; now left).
    assert (v ≠ y).
    { intros ->. apply elem_of_app in Hv as [Hv|Hv%list_elem_of_singleton]; [|lia].
      apply Hy, elem_of_app. now left. }
    unfold inc_bond.
    destruct (decide (x < u)), (decide (x < v)); lia.
  - intros u v Hu Hv.
    assert (u ≠ x) by (intros ->; apply Hx, elem_of_app; now right).
    assert (v ≠ y) by (intros ->; apply Hy, elem_of_app; now right).
    unfold inc_bond.
    destruct (decide (x < u)), (decide (x < v)); lia.
Qed.

Lemma contract_dec_count pre x y post :
  is_perm (pre ++ x :: y :: post) → dec_bond x y →
  adj_count dec_bond (rank (pre ++ y :: post) <$> (pre ++ y :: post))
  = adj_count dec_bond (pre ++ x :: y :: post) - 1.
Proof.
  intros Hp Hxy. pose proof (is_perm_NoDup _ Hp) as Hnd.
  destruct (delete_NoDup _ _ _ Hnd) as [Hnd' Hx].
  assert (y ∉ pre ++ post) as Hy.
  { apply (delete_NoDup pre y post). eapply sublist_NoDup; [exact Hnd|].
    apply sublist_app; [done|]. now apply sublist_cons. }
  rewrite (list_fmap_ext _ (λ v, if decide (x ≤ v) then v - 1 else v)).
  2:{ intros i v Hv%list_elem_of_lookup_2.
      rewrite (rank_delete pre x (y :: post)) by done.
      assert (v ≠ x) by (intros ->; done).
      destruct (decide (x < v)), (decide (x ≤ v)); lia. }
  unfold dec_bond in Hxy.
  apply (contract_count dec_bond); [|done| |].
  - destruct (decide (x ≤ x)), (decide (x ≤ y)); lia.
  - intros u v Hu Hv.
    assert (u ≠ x) by (intros ->; apply Hx, elem_of_app; now left).
    assert (v ≠ y).
    { intros ->. apply elem_of_app in Hv as [Hv|Hv%list_elem_of_singleton]; [|lia].
      apply Hy, elem_of_app. now left. }
    unfold dec_bond.
    destruct (decide (x ≤ u)), (decide (x ≤ v)); lia.
  - intros u v Hu Hv.
    assert (u ≠ x) by (intros ->; apply Hx, elem_of_app; now right).
    assert (v ≠ y) by (intros ->; apply Hy, elem_of_app; now right).
    assert (v ≠ x) by (intros ->; apply Hx, elem_of_app; right; now right).
    unfold dec_bond.
    destruct (decide (x ≤ u)), (decide (x ≤ v)); lia.
Qed.

Lemma filter_none {A} (P : A → Prop) `{∀ x, Decision (P x)} (l : list A) :
  (∀ x, x ∈ l → ¬ P x) → filter P l = [].
Proof.
  induction l as [|x l IH]; intros Hno; [done|].
  rewrite filter_cons, decide_False by (apply Hno; left).
  apply IH. intros y Hy. apply Hno. now right.
Qed.

(** The three contractions share their loop: [cond] counts the pairs in
    the relation [R], [body] deletes the first entry of the first such
    pair and standardizes. *)
Section Loop.
Context (R : Z → Z → Prop) (dec : ∀ x y, Decision (R x y)).
Context (J : list Z → Prop).
Context (cond : list Z → res bool) (body : list Z → res (list Z + Empty_set)).
Hypothesis Hcond : ∀ P, cond P = Ok (bool_decide (adj_count R P > 0)).
Hypothesis Hbody : ∀ P,
  body P =
    (o ← for_return (range 0 (len P - 1))
           (fun i P =>
              a ← getitem P (i + 1);
              b ← getitem P i;
              if decide (R b a) then
                P ← of_seq (slice_to P i ++ slice_from P (i + 1));
                Ok (inr P)
              else Ok (inl P))
           P;
     match o with
     | inl P => Ok (inl P)
     | inr P => Ok (inl P)
     end).
Hypothesis HJ : ∀ pre x y post,
  is_perm (pre ++ x :: y :: post) → J (pre ++ x :: y :: post) → R x y →
  J (rank (pre ++ y :: post) <$> (pre ++ y :: post)).

Lemma contract_step P :
  is_perm P → adj_count R P > 0 →
  ∃ pre x y post, P = pre ++ x :: y :: post ∧ R x y
    ∧ body P = Ok (inl (rank (pre ++ y :: post) <$> (pre ++ y :: post))).
Proof.
  intros Hp Hpos. rewrite Hbody.
  destruct (for_return_inv
              (λ pre s, s = P ∧ ∀ k, k ∈ pre →
                 ¬ R (P !!! Z.to_nat k) (P !!! Z.to_nat (k + 1)))
              (λ r, ∃ pre x y post, P = pre ++ x :: y :: post ∧ R x y
                 ∧ r = rank (pre ++ y :: post) <$> (pre ++ y :: post))
              (range 0 (len P - 1))
              (fun i P =>
                 a ← getitem P (i + 1);
                 b ← getitem P i;
                 if decide (R b a) then
                   P ← of_seq (slice_to P i ++ slice_from P (i + 1));
                   Ok (inr P)
                 else Ok (inl P))
              P)
    as [(s' & _ & -> & Hno)|(r & -> & pre & x & y & post & HP & HR & ->)].
  - split; [done|]. intros k Hk. inversion Hk.
  - intros pre k s [post Hxs] [-> Hno].
    assert (0 ≤ k < len P - 1) as Hk.
    { apply elem_of_range. rewrite Hxs. apply elem_of_app. right. left. }
    rewrite (getitem_Z P (k + 1)), bind_Ok by lia.
    rewrite (getitem_Z P k), bind_Ok by lia.
    destruct (decide (R (P !!! Z.to_nat k) (P !!! Z.to_nat (k + 1)))) as [HR|HR].
    + right.
      assert (P !! Z.to_nat k = Some (P !!! Z.to_nat k)) as Hx
        by (apply list_lookup_lookup_total_lt; unfold len in Hk; lia).
      assert (P !! S (Z.to_nat k) = Some (P !!! Z.to_nat (k + 1))) as Hy.
      { replace (S (Z.to_nat k)) with (Z.to_nat (k + 1)) by lia.
        apply list_lookup_lookup_total_lt. unfold len in Hk. lia. }
      set (x := P !!! Z.to_nat k) in *. set (y := P !!! Z.to_nat (k + 1)) in *.
      assert (P = take (Z.to_nat k) P ++ x :: y :: drop (S (S (Z.to_nat k))) P) as HP.
      { rewrite <- (drop_S P y (S (Z.to_nat k))) by done.
        now rewrite take_drop_middle. }
      unfold slice_to, slice_from.
      rewrite slice_prefix, slice_suffix by lia.
      replace (Z.to_nat (k + 1)) with (S (Z.to_nat k)) by lia.
      rewrite (drop_S P y (S (Z.to_nat k))) by done.
      set (pre' := take (Z.to_nat k) P) in *.
      set (post' := drop (S (S (Z.to_nat k))) P) in *.
      assert (NoDup (pre' ++ y :: post')) as Hnd.
      { apply (delete_NoDup pre' x (y :: post')). rewrite <- HP.
        now apply is_perm_NoDup. }
      rewrite of_seq_standardize, standardize_NoDup, bind_Ok by done.
      eexists. split; [done|]. exists pre', x, y, post'. done.
    + left. eexists. split; [done|]. split; [done|].
      intros k' [Hk'|Hk'%list_elem_of_singleton]%elem_of_app; [now apply Hno|].
      now subst k'.
  - exfalso.
    rewrite <- (adj_count_positions_0 R P), filter_none in Hpos by done.
    unfold len in Hpos. simpl in Hpos. lia.
  - rewrite bind_Ok. eauto 10.
Qed.

Lemma contract_loop p (fuel : nat) :
  is_perm p → J p → (length p ≤ fuel)%nat →
  ∃ q, while_return fuel cond body p = Ok (inl q)
       ∧ is_perm q ∧ J q ∧ adj_count R q = 0 ∧ (adj_count R p = 0 → q = p).
Proof.
  intros Hp HJp Hfuel.
  destruct (while_return_inv (λ s, is_perm s ∧ J s) (@length Z) cond body)
    with (fuel := fuel) (s := p) as (q & Hrun & [Hq HJq] & Hc); [| |done|done|].
  - intros s _. rewrite Hcond. eauto.
  - intros s [Hs HJs] Hc. rewrite Hcond in Hc.
    injection Hc as Hc. apply bool_decide_eq_true in Hc.
    destruct (contract_step s Hs Hc) as (pre & x & y & post & -> & HR & ->).
    eexists. split; [done|]. split; [split|].
    + apply rank_is_perm. apply (delete_NoDup pre x (y :: post)).
      now apply is_perm_NoDup.
    + now apply (HJ pre x y post).
    + rewrite length_fmap, !length_app. simpl. lia.
  - exists q. rewrite Hcond in Hc. injection Hc as Hc.
    apply bool_decide_eq_false in Hc.
    pose proof (adj_count_nonneg R q).
    split; [done|]. split; [done|]. split; [done|]. split; [lia|].
    intros H0. rewrite while_return_done in Hrun; [congruence|].
    rewrite Hcond. f_equal. apply bool_decide_eq_false. lia.
Qed.

End Loop.

Lemma contract_inc_bonds_spec p :
  is_perm p →
  ∃ q, contract_inc_bonds p = Ok q ∧ is_perm q ∧ adj_count inc_bond q = 0
       ∧ len q = len p - adj_count inc_bond p
       ∧ (adj_count inc_bond p = 0 → q = p).
Proof.
  intros Hp. unfold contract_inc_bonds. simpl new. rewrite bind_Ok.
  match goal with
  | |- context [while_return _ ?c ?b _] =>
      destruct (contract_loop inc_bond _
                  (λ P, len P - adj_count inc_bond P = len p - adj_count inc_bond p)
                  c b) with (p := p) (fuel := length p)
        as (q & -> & Hq & HJ & H0 & Hid)
  end.
  - intros P. now rewrite num_inc_bonds_spec.
  - intros P. reflexivity.
  - intros pre x y post HP HJ HR.
    rewrite (contract_inc_count pre x y post) by done.
    rewrite <- HJ. rewrite len_fmap, !len_app.
    unfold len. simpl length. lia.
  - done.
  - done.
  - done.
  - rewrite bind_Ok. exists q. split; [done|]. split; [done|]. split; [done|].
    split; [lia|done].
Qed.

Lemma contract_dec_bonds_spec p :
  is_perm p →
  ∃ q, contract_dec_bonds p = Ok q ∧ is_perm q ∧ adj_count dec_bond q = 0
       ∧ len q = len p - adj_count dec_bond p
       ∧ (adj_count dec_bond p = 0 → q = p).
Proof.
  intros Hp. unfold contract_dec_bonds. simpl new. rewrite bind_Ok.
  match goal with
  | |- context [while_return _ ?c ?b _] =>
      destruct (contract_loop dec_bond _
                  (λ P, len P - adj_count dec_bond P = len p - adj_count dec_bond p)
                  c b) with (p := p) (fuel := length p)
        as (q & -> & Hq & HJ & H0 & Hid)
  end.
  - intros P. now rewrite num_dec_bonds_spec.
  - intros P. reflexivity.
  - intros pre x y post HP HJ HR.
    rewrite (contract_dec_count pre x y post) by done.
    rewrite <- HJ. rewrite len_fmap, !len_app.
    unfold len. simpl length. lia.
  - done.
  - done.
  - done.
  - rewrite bind_Ok. exists q. split; [done|]. split; [done|]. split; [done|].
    split; [lia|done].
Qed.

Lemma contract_bonds_spec p :
  is_perm p →
  ∃ q, contract_bonds p = Ok q ∧ is_perm q ∧ adj_count bond q = 0
       ∧ len q ≤ len p
       ∧ (adj_count bond p = 0 → q = p).
Proof.
  intros Hp. unfold contract_bonds. simpl new. rewrite bind_Ok.
  match goal with
  | |- context [while_return _ ?c ?b _] =>
      destruct (contract_loop bond _ (λ P, len P ≤ len p) c b)
        with (p := p) (fuel := length p)
        as (q & -> & Hq & HJ & H0 & Hid)
  end.
  - intros P. now rewrite num_bonds_spec.
  - intros P. f_equal. apply for_return_ext. intros i s _.
    destruct (getitem s (i + 1)) as [a| |]; [|done..]. rewrite !bind_Ok.
    destruct (getitem s i) as [b| |]; [|done..]. rewrite !bind_Ok.
    unfold bond, inc_bond, dec_bond.
    destruct (decide (a = b + 1)), (decide (a = b - 1)),
      (decide (a = b + 1 ∨ a = b - 1)); (done || tauto || lia).
  - intros pre x y post HP HJ HR.
    rewrite len_fmap. rewrite !len_app in *.
    unfold len in *. simpl length in *. lia.
  - done.
  - simpl. lia.
  - done.
  - rewrite bind_Ok. exists q. done.
Qed.

End ContractFacts.


(** ** Pattern containment as an order *)

Module ContainmentFacts.
Import Perm PermFacts PermOps PermPatterns.
Import OccurrenceFacts BoundFacts SearchFacts LookupFacts PatternFacts.

Lemma sublist_combinations {A} (s l : list A) :
  s `sublist_of` l → s ∈ combinations l (length s).
Proof.
  induction 1 as [|x s l _ IH|x s l _ IH].
  - simpl. now left.
  - simpl. apply elem_of_app. left. apply list_elem_of_fmap. eauto.
  - destruct s as [|y s]; [destruct (combinations (x :: l) 0) eqn:E; simpl in *; now left|].
    simpl. apply elem_of_app. now right.
Qed.

Lemma sublist_full {A} (s l : list A) :
  s `sublist_of` l → length s = length l → s = l.
Proof.
  induction 1 as [|x s l _ IH|x s l Hs IH]; intros Hlen; [done| |].
  - f_equal. apply IH. simpl in Hlen. lia.
  - apply sublist_length in Hs. simpl in Hlen. lia.
Qed.

(** An occurrence, read on the entries instead of the positions. *)
Lemma occurrence_sublist q P :
  (∃ sol, length sol = length q ∧ occurrence q P sol)
  ↔ ∃ s, s `sublist_of` P ∧ order_iso q s.
Proof.
  split.
  - intros (sol & Hlen & Hidx & Hiso). exists (host_values P sol). split; [|done].
    apply (combinations_sublist P (length sol)).
    apply combinations_index_lists. eauto.
  - intros (s & Hsub & Hiso).
    apply sublist_combinations, combinations_index_lists in Hsub
      as (sol & Hlen & Hidx & ->).
    exists sol. destruct Hiso as [Hl Hiso]. split; [|split; [done|split; done]].
    unfold host_values in Hl. rewrite length_fmap in Hl. lia.
Qed.

Lemma order_iso_refl q : order_iso q q.
Proof. split; [done|]. tauto. Qed.

Lemma order_iso_trans q s t : order_iso q s → order_iso s t → order_iso q t.
Proof.
  intros [Hl1 H1] [Hl2 H2]. split; [lia|]. intros a b Ha Hb.
  rewrite (H1 a b Ha Hb). apply H2; lia.
Qed.

(** The same positions of two sequences in the same relative order. *)
Lemma order_iso_host_values q s sol :
  order_iso q s → index_list (len q) sol →
  order_iso (host_values q sol) (host_values s sol).
Proof.
  intros [Hl Hiso] [_ Hr]. unfold host_values. split; [now rewrite !length_fmap|].
  rewrite length_fmap. intros a b Ha Hb.
  rewrite Forall_forall in Hr.
  assert (∀ a : nat, (a < length sol)%nat → 0 ≤ sol !!! a < len q) as Hin.
  { intros c Hc. apply Hr. apply list_elem_of_lookup_total_2. done. }
  pose proof (Hin a Ha). pose proof (Hin b Hb).
  rewrite !(list_lookup_total_fmap _ sol) by done.
  apply Hiso; unfold len in *; lia.
Qed.

Lemma contains_trans P q r :
  (∃ s, s `sublist_of` P ∧ order_iso q s) →
  (∃ sol, length sol = length r ∧ occurrence r q sol) →
  ∃ s, s `sublist_of` P ∧ order_iso r s.
Proof.
  intros (s1 & Hsub & Hiso1) (sol & Hlen & Hidx & Hiso2).
  exists (host_values s1 sol). split.
  - transitivity s1; [|done].
    apply (combinations_sublist s1 (length sol)).
    apply combinations_index_lists. exists sol. split; [done|]. split; [|done].
    destruct Hiso1 as [Hl _]. unfold len in *. now rewrite Hl.
  - eapply order_iso_trans; [exact Hiso2|]. now apply order_iso_host_values.
Qed.

(** [involves] on permutations. *)
Lemma involves_spec P q c :
  is_perm q → cache_ok q c →
  ∃ b, involves P (OfPerm q) c 0 = Ok b
       ∧ avoids P (OfPerm q) c 0 = Ok (negb b)
       ∧ (b = true ↔ ∃ s, s `sublist_of` P ∧ order_iso q s).
Proof.
  intros Hq Hc. destruct (involved_in_total P q c Hq Hc) as (b & c' & Hrun & Hiff).
  exists b. unfold involves, avoids, pattern_of. rewrite !bind_Ok. simpl.
  rewrite Hrun, !bind_Ok. simpl. split; [done|]. split; [done|].
  now rewrite <- occurrence_sublist.
Qed.

End ContainmentFacts.


(** ** The layers of right-to-left maxima and left-to-right minima *)

Module LayerFacts.
Import Perm PermFacts PermOps PermStats BoundFacts SearchFacts LookupFacts.
Import MinimaFacts DecompositionFacts FixedPointFacts.

Lemma for_each_filter_map {A B} (Q : A → Prop) `{∀ x, Decision (Q x)} (g : A → B)
    (xs : list A) (body : A → list B → res (list B)) :
  (∀ x L, x ∈ xs → body x L = Ok (if decide (Q x) then L ++ [g x] else L)) →
  ∀ L, for_each xs body L = Ok (L ++ (g <$> filter Q xs)).
Proof.
  induction xs as [|x xs IH]; intros Hb L.
  - simpl. now rewrite app_nil_r.
  - simpl. rewrite Hb by left. simpl. rewrite filter_cons.
    destruct (decide (Q x)); rewrite IH by (intros; apply Hb; now right);
      [now rewrite fmap_cons, <- app_assoc|done].
Qed.

Lemma sorted_NoDup_lt (l : list Z) : NoDup l → StronglySorted Z.lt (sorted l).
Proof.
  intros Hnd.
  assert (NoDup (sorted l)) as Hnd'
    by (unfold sorted; now rewrite merge_sort_Permutation).
  pose proof (sorted_sorted l) as Hs. revert Hnd'.
  induction Hs as [|x k Hs IH Hall]; intros Hnd'; [constructor|].
  apply NoDup_cons in Hnd' as [Hx Hk]. constructor; [now apply IH|].
  rewrite Forall_forall in *. intros y Hy. specialize (Hall y Hy).
  assert (x ≠ y) by (intros ->; done). lia.
Qed.

(** [sorted(list(set(a + b)))] *)
Lemma sorted_union (a b : list Z) :
  StronglySorted Z.lt (sorted (elements (list_to_set (a ++ b) : gset Z)))
  ∧ ∀ i, i ∈ sorted (elements (list_to_set (a ++ b) : gset Z)) ↔ i ∈ a ∨ i ∈ b.
Proof.
  split; [apply sorted_NoDup_lt, NoDup_elements|].
  intros i. rewrite sorted_elem_of, elem_of_elements, elem_of_list_to_set.
  apply elem_of_app.
Qed.

Lemma sorted_lt_NoDup (l : list Z) : StronglySorted Z.lt l → NoDup l.
Proof.
  induction 1 as [|x l _ IH Hall]; constructor; [|done].
  rewrite Forall_forall in Hall. intros Hx%Hall. lia.
Qed.

(** The positions of [range(n)] outside a list of distinct positions. *)
Lemma filter_not_in_length (l : list Z) (n : Z) :
  NoDup l → (∀ x, x ∈ l → 0 ≤ x < n) →
  len (filter (λ i, i ∉ l) (range 0 n)) = len (range 0 n) - len l.
Proof.
  intros Hnd Hin.
  pose proof (filter_length_neg (λ i, i ∈ l) (range 0 n)) as Hsum.
  assert (filter (λ i, i ∈ l) (range 0 n) ≡ₚ l) as Hperm.
  { apply NoDup_Permutation; [apply NoDup_filter, NoDup_seqZ|done|].
    intros x. rewrite list_elem_of_filter, elem_of_range.
    split; [tauto|]. intros Hx. split; [done|]. now apply Hin. }
  rewrite Hperm in Hsum. unfold len. lia.
Qed.

(** One round of the loop of [rtlmax_ltrmin_decomposition]. *)
Lemma layer_positions P :
  is_perm P → 0 < len P →
  ∃ a b, rtlmax P = Ok a ∧ ltrmin P = Ok b
    ∧ let positions := sorted (elements (list_to_set (a ++ b) : gset Z)) in
      positions ≠ [] ∧ StronglySorted Z.lt positions
      ∧ (∀ i, i ∈ positions ↔
           0 ≤ i < len P
           ∧ ((∀ j, i < j < len P → P !!! Z.to_nat j < P !!! Z.to_nat i)
              ∨ (∀ j, 0 ≤ j < i → P !!! Z.to_nat i < P !!! Z.to_nat j))).
Proof.
  intros HP Hpos.
  destruct (rtlmax_spec P HP) as (a & Ha & _ & Hma).
  exists a, (filter (ltr_min P) (range 0 (len P))).
  split; [done|]. split; [apply ltrmin_spec|].
  destruct (sorted_union a (filter (ltr_min P) (range 0 (len P)))) as [Hs Hel].
  assert (∀ i, i ∈ sorted (elements (list_to_set
                 (a ++ filter (ltr_min P) (range 0 (len P))) : gset Z)) ↔
            0 ≤ i < len P
            ∧ ((∀ j, i < j < len P → P !!! Z.to_nat j < P !!! Z.to_nat i)
               ∨ (∀ j, 0 ≤ j < i → P !!! Z.to_nat i < P !!! Z.to_nat j))) as Hiff.
  { intros i. rewrite Hel, Hma, (ltrmin_elem P i (is_perm_NoDup P HP)). tauto. }
  cbv zeta. split; [|done].
  intros Hnil. assert (0 ∈ @nil Z) as Hin; [|inversion Hin].
  rewrite <- Hnil. apply Hiff. split; [lia|]. right. intros j Hj. lia.
Qed.

Lemma layer_remove P positions :
  is_perm P → StronglySorted Z.lt positions →
  (∀ i, i ∈ positions → 0 ≤ i < len P) →
  ∃ L, for_each (range 0 (len P))
         (fun i L =>
            if decide (i ∉ positions) then v ← getitem P i; Ok (L ++ [v])
            else Ok L)
         [] = Ok L
    ∧ NoDup L ∧ len L = len P - len positions.
Proof.
  intros HP Hs Hin.
  exists ((λ i, P !!! Z.to_nat i) <$> filter (λ i, i ∉ positions) (range 0 (len P))).
  split; [|split].
  - rewrite (for_each_filter_map (λ i, i ∉ positions) (λ i, P !!! Z.to_nat i));
      [done|].
    intros i L Hi%elem_of_range.
    destruct (decide (i ∉ positions)); [|done].
    now rewrite getitem_Z, bind_Ok.
  - apply NoDup_fmap_2_strong; [|apply NoDup_filter, NoDup_seqZ].
    intros i j [_ Hi%elem_of_range]%list_elem_of_filter
      [_ Hj%elem_of_range]%list_elem_of_filter Heq.
    apply (perm_inj P) in Heq; [lia|done|unfold len in *; lia..].
  - pose proof (len_nonneg P).
    rewrite len_fmap, filter_not_in_length, len_range by
      (done || lia || now apply sorted_lt_NoDup). lia.
Qed.

Lemma layers_count (layers : list (list Z)) :
  Forall (λ L, L ≠ [] ∧ StronglySorted Z.lt L) layers →
  len layers ≤ sumZ (len <$> layers).
Proof.
  induction 1 as [|L layers [HL _] _ IH]; [done|].
  rewrite fmap_cons, sumZ_cons.
  assert (0 < len L) by (destruct L; [done|unfold len; simpl; lia]).
  unfold len in *. simpl length. lia.
Qed.

Lemma rtlmax_ltrmin_decomposition_spec p :
  is_perm p →
  ∃ layers, rtlmax_ltrmin_decomposition p = Ok layers
    ∧ Forall (λ L, L ≠ [] ∧ StronglySorted Z.lt L) layers
    ∧ sumZ (len <$> layers) = len p
    ∧ ∀ L rest, layers = L :: rest →
        ∀ i, i ∈ L ↔
          0 ≤ i < len p
          ∧ ((∀ j, i < j < len p → p !!! Z.to_nat j < p !!! Z.to_nat i)
             ∨ (∀ j, 0 ≤ j < i → p !!! Z.to_nat i < p !!! Z.to_nat j)).
Proof.
  intros Hp. unfold rtlmax_ltrmin_decomposition. simpl new. rewrite bind_Ok.
  cbv zeta.
  set (first_ok := λ L : list Z, ∀ i, i ∈ L ↔
          0 ≤ i < len p
          ∧ ((∀ j, i < j < len p → p !!! Z.to_nat j < p !!! Z.to_nat i)
             ∨ (∀ j, 0 ≤ j < i → p !!! Z.to_nat i < p !!! Z.to_nat j))).
  match goal with
  | |- context [while_return _ ?c ?b _] =>
      destruct (while_return_inv
                  (λ s : list Z * Z * list (list Z),
                     is_perm s.1.1
                     ∧ Forall (λ L, L ≠ [] ∧ StronglySorted Z.lt L) s.2
                     ∧ sumZ (len <$> s.2) + len s.1.1 = len p
                     ∧ ((s.2 = [] ∧ s.1.1 = p)
                        ∨ ∃ L rest, s.2 = L :: rest ∧ first_ok L))
                  (λ s, length s.1.1) c b)
        with (fuel := length p) (s := (p, 0, @nil (list Z)))
        as ([[P k] layers] & -> & (HP & Hgood & Hsum & Hfirst) & Hc)
  end.
  - intros [[P k] layers] _. eauto.
  - intros [[P k] layers] (HP & Hgood & Hsum & Hfirst) Hc. simpl in *.
    injection Hc as Hc. apply bool_decide_eq_true in Hc.
    destruct (layer_positions P HP ltac:(lia)) as (a & b & -> & -> & Hne & Hs & Hel).
    cbv zeta in Hne, Hs, Hel.
    set (positions := sorted (elements (list_to_set (a ++ b) : gset Z))) in *.
    destruct (layer_remove P positions HP Hs) as (L & Hrem & Hnd & Hlen).
    { intros i Hi%Hel. tauto. }
    exists (rank L <$> L, k + 1, layers ++ [positions]). split.
    { rewrite !bind_Ok. fold positions. rewrite Hrem.
      now rewrite bind_Ok, of_seq_standardize, standardize_NoDup, bind_Ok by done. }
    simpl.
    assert (0 < len positions)
      by (destruct positions; [done|unfold len; simpl; lia]).
    split; [split; [now apply rank_is_perm|split; [|split]]|].
    + apply Forall_app. split; [done|]. now repeat constructor.
    + rewrite fmap_app, sumZ_app, len_fmap. simpl.
      change (sumZ [len positions]) with (len positions + 0). lia.
    + right. destruct Hfirst as [[-> ->]|(L0 & rest & -> & HL0)].
      * exists positions, []. split; [done|]. exact Hel.
      * exists L0, (rest ++ [positions]). done.
    + rewrite length_fmap. unfold len in *. lia.
  - simpl. split; [done|]. split; [constructor|]. split; [done|]. now left.
  - done.
  - simpl in *. exists layers.
    injection Hc as Hc. apply bool_decide_eq_false in Hc.
    pose proof (len_nonneg P).
    split; [done|]. split; [done|]. split; [lia|].
    intros L rest ->. destruct Hfirst as [[? _]|(L0 & rest0 & [= <- <-] & HL0)]; done.
Qed.

End LayerFacts.


(** ** The cycles of a permutation *)

Module CycleFacts.
Import Perm PermFacts PermOps PermStats BoundFacts SearchFacts LookupFacts.
Import MinimaFacts DecompositionFacts SimpleFacts.

Lemma concat_reverse_Permutation {A} (ls : list (list A)) :
  concat (list.reverse ls) ≡ₚ concat ls.
Proof.
  induction ls as [|l ls IH]; [done|].
  rewrite reverse_cons, concat_app. simpl. rewrite app_nil_r, IH.
  apply Permutation_app_comm.
Qed.

Lemma elem_of_concat_snoc {A} (ls : list (list A)) l x :
  x ∈ concat (ls ++ [l]) ↔ x ∈ concat ls ∨ x ∈ l.
Proof. rewrite concat_app. simpl. rewrite app_nil_r. apply elem_of_app. Qed.

Lemma NoDup_range_length (l : list Z) n :
  NoDup l → (∀ x, x ∈ l → 0 ≤ x < n) → len l ≤ Z.max n 0.
Proof.
  intros Hnd Hin.
  assert (l ⊆+ range 0 n) as Hsub.
  { apply NoDup_submseteq; [done|]. intros x Hx. apply elem_of_range. auto. }
  apply submseteq_length in Hsub. pose proof (len_range_0 n). unfold len in *. lia.
Qed.

Lemma size_range_set (n : Z) :
  Z.of_nat (size (list_to_set (range 0 n) : gset Z)) = Z.max n 0.
Proof.
  rewrite size_list_to_set by apply NoDup_seqZ.
  apply (len_range_0 n).
Qed.

#[local] Ltac same_elements :=
  apply set_eq; intros ?;
  rewrite ?elem_of_union, ?elem_of_list_to_set, ?elem_of_app, ?elem_of_cons,
    ?elem_of_nil, ?elem_of_singleton, ?elem_of_empty;
  tauto.

Section Cycles.
Context (p : list Z) (Hp : is_perm p).

Lemma entry_range x : 0 ≤ x < len p → 0 ≤ p !!! Z.to_nat x < len p.
Proof. intros Hx. apply perm_entry; [done|]. unfold len in Hx. lia. Qed.

Lemma entry_injective x y :
  0 ≤ x < len p → 0 ≤ y < len p → p !!! Z.to_nat x = p !!! Z.to_nat y → x = y.
Proof.
  intros Hx Hy Heq. apply (perm_inj p) in Heq; [lia|done|unfold len in *; lia..].
Qed.

Lemma chain_snoc l z : chain p (l ++ [z]) → chain p ((l ++ [z]) ++ [p !!! Z.to_nat z]).
Proof.
  intros Hc i Hi. rewrite length_app in Hi. simpl in Hi.
  destruct (decide (S i < length (l ++ [z]))%nat) as [Hlt|Hge].
  - rewrite !(lookup_total_app_l (l ++ [z])) by lia. now apply Hc.
  - rewrite length_app in Hge. simpl in Hge. rewrite length_app in Hi. simpl in Hi.
    rewrite (lookup_total_app_l (l ++ [z])) by (rewrite length_app; simpl; lia).
    rewrite (list_lookup_total_middle l []) by lia.
    rewrite lookup_total_app_r by (rewrite length_app; simpl; lia).
    rewrite length_app. simpl.
    now replace (S i - (length l + 1))%nat with 0%nat by lia.
Qed.

(** The entries of a chain in [cyc]. *)
Lemma chain_inside cyc b (i : nat) :
  chain p (cyc ++ [b]) → (S i < length cyc)%nat →
  p !!! Z.to_nat (cyc !!! i) = cyc !!! S i.
Proof.
  intros Hc Hi. specialize (Hc i). rewrite length_app in Hc. simpl in Hc.
  rewrite !lookup_total_app_l in Hc by lia. apply Hc. lia.
Qed.

Lemma chain_last cyc b :
  chain p (cyc ++ [b]) → cyc ≠ [] →
  p !!! Z.to_nat (cyc !!! (length cyc - 1)%nat) = b.
Proof.
  intros Hc Hne. specialize (Hc (length cyc - 1)%nat).
  assert (0 < length cyc)%nat by (destruct cyc; [done|simpl; lia]).
  rewrite length_app in Hc. simpl in Hc.
  rewrite lookup_total_app_l in Hc by lia.
  replace (S (length cyc - 1)) with (length cyc) in Hc by lia.
  rewrite (list_lookup_total_middle cyc []) in Hc by done. apply Hc. lia.
Qed.

(** The entry after a chain that has not come back to its start is new. *)
Lemma chain_fresh a rest b :
  NoDup (a :: rest) → (∀ x, x ∈ a :: rest → 0 ≤ x < len p) →
  chain p ((a :: rest) ++ [b]) → b ≠ a → b ∉ a :: rest.
Proof.
  intros Hnd Hin Hc Hba Hb.
  apply list_elem_of_lookup_total_1 in Hb as (i & Hi & Hb).
  destruct i as [|j]; [simpl in Hb; congruence|].
  pose proof (chain_inside _ _ j Hc Hi) as Hj.
  pose proof (chain_last _ _ Hc ltac:(done)) as Hk.
  rewrite Hb, <- Hk in Hj.
  set (k := (length (a :: rest) - 1)%nat) in *.
  assert (k < length (a :: rest))%nat by (unfold k; simpl; lia).
  apply entry_injective in Hj;
    [|apply Hin, list_elem_of_lookup_total_2; lia..].
  assert (j = k); [|unfold k in *; simpl in *; lia].
  eapply (NoDup_lookup (a :: rest)); [done|..].
  - apply list_lookup_lookup_total_lt. lia.
  - rewrite Hj. now apply list_lookup_lookup_total_lt.
Qed.

(** A closed chain is mapped onto itself. *)
Lemma cycle_closed a rest x :
  (∀ y, y ∈ a :: rest → 0 ≤ y < len p) →
  chain p ((a :: rest) ++ [a]) → 0 ≤ x < len p →
  x ∈ a :: rest ↔ p !!! Z.to_nat x ∈ a :: rest.
Proof.
  intros Hin Hc Hx. set (cyc := a :: rest) in *.
  pose proof (chain_last _ _ Hc ltac:(done)) as Hk.
  set (k := (length cyc - 1)%nat) in *.
  assert (k < length cyc)%nat by (unfold k, cyc; simpl; lia).
  split.
  - intros (i & Hi & <-)%list_elem_of_lookup_total_1.
    destruct (decide (S i < length cyc)%nat).
    + rewrite (chain_inside _ _ i Hc) by done.
      now apply list_elem_of_lookup_total_2.
    + replace i with k by (unfold k; lia). rewrite Hk. now left.
  - intros (i & Hi & Hfx)%list_elem_of_lookup_total_1.
    destruct i as [|j].
    + change (cyc !!! 0%nat) with a in Hfx. rewrite <- Hk in Hfx.
      apply entry_injective in Hfx; [|apply Hin, list_elem_of_lookup_total_2; lia|done].
      rewrite <- Hfx. now apply list_elem_of_lookup_total_2.
    + rewrite <- (chain_inside _ _ j Hc) in Hfx by done.
      apply entry_injective in Hfx; [|apply Hin, list_elem_of_lookup_total_2; lia|done].
      rewrite <- Hfx. apply list_elem_of_lookup_total_2. lia.
Qed.

(** The inner loop of [cycle_decomp]: from an entry [a] outside a set
    [S0] that [p] maps onto itself, it walks once around the cycle of
    [a]. *)
Lemma cycle_walk (S0 : gset Z) a :
  0 ≤ a < len p → a ∉ S0 →
  (∀ x, 0 ≤ x < len p → x ∈ S0 ↔ p !!! Z.to_nat x ∈ S0) →
  ∃ rest,
    while_return (S := list Z * Z * gset Z) (R := Empty_set) (length p)
      (fun '(cyc, b, seen) => Ok (bool_decide (b ≠ a)))
      (fun '(cyc, b, seen) =>
         b' ← call p b;
         Ok (inl (cyc ++ [b], b', seen ∪ {[b']})))
      ([a], p !!! Z.to_nat a, S0 ∪ {[p !!! Z.to_nat a]})
    = Ok (inl (a :: rest, a, S0 ∪ list_to_set (a :: rest)))
    ∧ NoDup (a :: rest)
    ∧ (∀ x, x ∈ a :: rest → 0 ≤ x < len p ∧ x ∉ S0)
    ∧ chain p ((a :: rest) ++ [a]).
Proof.
  intros Ha HaS Hclosed.
  destruct (while_return_inv
              (λ s : list Z * Z * gset Z,
                 (∃ rest, s.1.1 = a :: rest
                          ∧ s.2 = S0 ∪ list_to_set rest ∪ {[s.1.2]})
                 ∧ NoDup s.1.1
                 ∧ (∀ x, x ∈ s.1.1 → 0 ≤ x < len p ∧ x ∉ S0)
                 ∧ chain p (s.1.1 ++ [s.1.2])
                 ∧ 0 ≤ s.1.2 < len p ∧ s.1.2 ∉ S0)
              (λ s, (length p - length s.1.1)%nat)
              (fun '(cyc, b, seen) => Ok (bool_decide (b ≠ a)))
              (fun '(cyc, b, seen) =>
                 b' ← call p b;
                 Ok (inl (cyc ++ [b], b', seen ∪ {[b']}))))
    with (fuel := length p) (s := ([a], p !!! Z.to_nat a, S0 ∪ {[p !!! Z.to_nat a]}))
    as ([[cyc b] seen] & Hrun & ((rest & Hcyc & Hseen) & Hnd & Hin & Hc & _) & Hcond).
  - intros [[cyc b] seen] _. eauto.
  - intros [[cyc b] seen] ((rest & Hcyc & Hseen) & Hnd & Hin & Hc & Hb & HbS) Hcond.
    simpl in *. injection Hcond as Hcond. apply bool_decide_eq_true in Hcond.
    subst cyc seen.
    assert (b ∉ a :: rest) as Hfresh.
    { apply chain_fresh; [done| |done|done]. intros x Hx. now apply Hin. }
    assert (NoDup ((a :: rest) ++ [b])) as Hnd'.
    { apply NoDup_app. split; [done|]. split; [|apply NoDup_singleton].
      intros x Hx ->%list_elem_of_singleton. done. }
    assert (∀ x, x ∈ (a :: rest) ++ [b] → 0 ≤ x < len p ∧ x ∉ S0) as Hin'.
    { intros x [Hx|Hx%list_elem_of_singleton]%elem_of_app; [now apply Hin|].
      now subst x. }
    eexists. split.
    { unfold call. rewrite getitem_Z, bind_Ok by done. reflexivity. }
    simpl. split; [split; [|split; [done|split; [done|split; [|split]]]]|].
    + exists (rest ++ [b]). split; [done|].
      same_elements.
    + exact (chain_snoc (a :: rest) b Hc).
    + now apply entry_range.
    + now rewrite <- Hclosed.
    + pose proof (NoDup_range_length _ (len p) Hnd' ltac:(intros x Hx; now apply Hin')) as Hle.
      unfold len in Hle. rewrite length_app in *. simpl in *. lia.
  - simpl. split; [exists []; split; [done|same_elements]|].
    split; [apply NoDup_singleton|].
    split; [intros x ->%list_elem_of_singleton; done|].
    split; [intros i Hi; simpl in Hi; now replace i with 0%nat by lia|].
    split; [now apply entry_range|now rewrite <- Hclosed].
  - simpl. lia.
  - simpl in *. injection Hcond as Hcond. apply bool_decide_eq_false in Hcond.
    apply dec_stable in Hcond. subst b cyc seen.
    exists rest. split; [|done].
    rewrite Hrun. do 3 f_equal. same_elements.
Qed.

(** The entry [cycle_decomp] starts a cycle from. *)
Lemma largest_unseen (seen : gset Z) :
  (∀ x, x ∈ seen → 0 ≤ x < len p) → Z.of_nat (size seen) < len p →
  ∃ a, max (elements ((list_to_set (range 0 (len p)) : gset Z) ∖ seen)) = Ok a
    ∧ 0 ≤ a < len p ∧ (a ∉ seen)
    ∧ ∀ x, 0 ≤ x < len p → x ∉ seen → x ≤ a.
Proof.
  intros Hin Hsize.
  set (C := (list_to_set (range 0 (len p)) : gset Z) ∖ seen).
  assert (∀ x, x ∈ elements C ↔ 0 ≤ x < len p ∧ x ∉ seen) as HC.
  { intros x. unfold C.
    rewrite elem_of_elements, elem_of_difference, elem_of_list_to_set, elem_of_range.
    done. }
  destruct (max_is_Ok (elements C)) as [a Hmax].
  { intros Hnil%elements_empty_inv. rewrite elem_of_equiv_empty in Hnil.
    assert ((list_to_set (range 0 (len p)) : gset Z) ⊆ seen) as Hsub.
    { intros x Hx. destruct (decide (x ∈ seen)); [done|].
      destruct (Hnil x). now apply elem_of_difference. }
    apply subseteq_size in Hsub. pose proof (size_range_set (len p)). lia. }
  exists a. split; [done|]. apply max_spec in Hmax as [Ha Hall].
  apply HC in Ha. split; [tauto|]. split; [tauto|].
  intros x Hx Hs. apply Hall, HC. done.
Qed.

Lemma cycle_decomp_spec :
  ∃ cycles, cycle_decomp p = Ok cycles
    ∧ Forall (is_cycle p) cycles
    ∧ concat cycles ≡ₚ range 0 (len p)
    ∧ StronglySorted Z.lt (hd 0 <$> cycles).
Proof.
  unfold cycle_decomp. cbv zeta.
  match goal with
  | |- context [while_return _ ?cnd ?bdy _] =>
      destruct (while_return_inv
                  (λ s : gset Z * list (list Z),
                     s.1 = list_to_set (concat s.2)
                     ∧ NoDup (concat s.2)
                     ∧ (∀ x, x ∈ s.1 → 0 ≤ x < len p)
                     ∧ (∀ x, 0 ≤ x < len p → x ∈ s.1 ↔ p !!! Z.to_nat x ∈ s.1)
                     ∧ Forall (is_cycle p) s.2
                     ∧ Forall (λ c, ∀ x, 0 ≤ x < len p → x ∉ s.1 → x < hd 0 c) s.2
                     ∧ StronglySorted Z.gt (hd 0 <$> s.2))
                  (λ s, (length p - size s.1)%nat) cnd bdy)
        with (fuel := length p) (s := (∅ : gset Z, @nil (list Z)))
        as ([seen cl] & -> & (Hseen & Hnd & Hin & Hclosed & Hcyc & Hhd & Hsort) & Hc)
  end.
  - intros [seen cl] _. eauto.
  - intros [seen cl] (Hseen & Hnd & Hin & Hclosed & Hcyc & Hhd & Hsort) Hc.
    simpl in *. injection Hc as Hc. apply bool_decide_eq_true in Hc.
    destruct (largest_unseen seen Hin Hc) as (a & Hmax & Ha & HaS & Hlargest).
    destruct (cycle_walk seen a Ha HaS Hclosed) as (rest & Hrun & Hndc & Hinc & Hchain).
    eexists. split.
    { rewrite Hmax, bind_Ok. unfold call in Hrun |- *.
      rewrite getitem_Z, bind_Ok by done.
      rewrite Hrun, bind_Ok. reflexivity. }
    cbn [fst snd].
    assert (∀ x, x ∈ a :: rest → 0 ≤ x < len p) as Hrange
      by (intros x Hx; now apply Hinc).
    split; [split; [|split; [|split; [|split; [|split; [|split]]]]]|].
    + rewrite concat_app, list_to_set_app_L. simpl concat. rewrite app_nil_r.
      now rewrite <- Hseen.
    + rewrite concat_app. simpl concat. rewrite app_nil_r.
      apply NoDup_app. split; [done|]. split; [|done].
      intros x Hx Hxc. apply (Hinc x Hxc). rewrite Hseen. now apply elem_of_list_to_set.
    + intros x [Hx|Hx%elem_of_list_to_set]%elem_of_union; [now apply Hin|now apply Hrange].
    + intros x Hx. rewrite !elem_of_union, !elem_of_list_to_set.
      rewrite (Hclosed x Hx), (cycle_closed a rest x Hrange Hchain Hx). done.
    + apply Forall_app. split; [done|]. constructor; [|constructor].
      exists a, rest. split; [done|]. split; [done|].
      apply Forall_forall. intros x Hx. apply Hlargest; now apply Hinc.
    + apply Forall_app. split.
      * eapply Forall_impl; [exact Hhd|]. intros c Hcx x Hx Hns.
        apply Hcx; [done|]. intros Hs. apply Hns, elem_of_union. now left.
      * constructor; [|constructor]. intros x Hx Hns. simpl.
        assert (x ≤ a)
          by (apply Hlargest; [done|]; intros Hs; apply Hns, elem_of_union; now left).
        assert (x ≠ a).
        { intros ->. apply Hns, elem_of_union. right.
          apply elem_of_list_to_set. now left. }
        lia.
    + rewrite fmap_app. apply StronglySorted_app_2; [|done|repeat constructor].
      intros h1 h2 (c & -> & Hcin)%list_elem_of_fmap ->%list_elem_of_singleton.
      simpl. rewrite Forall_forall in Hhd. specialize (Hhd c Hcin a Ha HaS). lia.
    + assert (seen ## list_to_set (a :: rest)) as Hdisj.
      { intros x Hx Hxc%elem_of_list_to_set. now apply (Hinc x Hxc). }
      rewrite (size_union _ _ Hdisj), size_list_to_set by done.
      unfold len in Hc. simpl length. lia.
  - simpl. split; [done|]. split; [constructor|].
    split; [intros x Hx; now apply elem_of_empty in Hx|].
    split; [intros x _; rewrite !elem_of_empty; tauto|].
    split; [constructor|]. split; constructor.
  - simpl. lia.
  - simpl in *. injection Hc as Hc. apply bool_decide_eq_false in Hc.
    exists (list.reverse cl). split; [done|].
    split; [now apply Forall_reverse|]. split.
    + rewrite concat_reverse_Permutation.
      assert (seen ≡ list_to_set (range 0 (len p))) as Hfull.
      { apply set_subseteq_size_equiv.
        - intros x Hx. apply elem_of_list_to_set, elem_of_range. now apply Hin.
        - pose proof (size_range_set (len p)). pose proof (len_nonneg p). lia. }
      apply NoDup_Permutation; [done|apply NoDup_seqZ|].
      intros x. rewrite <- (elem_of_list_to_set (C := gset Z) x (concat cl)), <- Hseen.
      rewrite Hfull. apply elem_of_list_to_set.
    + rewrite fmap_reverse. now apply sorted_reverse.
Qed.

End Cycles.

End CycleFacts.


(** * Further properties of the methods *)

Module Extras.
Import Perm PermFacts PermOps PermStats PermPatterns.
Import BoundFacts SearchFacts LookupFacts SymmetryFacts InversionFacts GroupFacts.
Import SumFacts DecomposableFacts DescentFacts MinimaFacts.
Import OccurrenceFacts PatternFacts IntervalFacts AllIntervalFacts.
Import EditFacts ExtensionFacts EncodingFacts BondFacts.
Import IndexFacts EnumerationFacts FixedPointFacts ContractFacts ContainmentFacts LayerFacts CycleFacts.

(** X1: on a permutation, [reverse] returns the entries in the opposite
    order and [complement] replaces every entry [x] by [len(p) - 1 - x];
    both results are permutations, each of the two methods undoes itself,
    and the two commute. *)
Theorem reverse_complement_involutive (p : list Z) :
  is_perm p →
  ∃ r c, reverse p = Ok r ∧ complement p = Ok c
    ∧ r = list.reverse p ∧ c = (λ x, len p - 1 - x) <$> p
    ∧ is_perm r ∧ is_perm c
    ∧ reverse r = Ok p ∧ complement c = Ok p
    ∧ reverse c = complement r.
Proof.
  intros Hp. exists (list.reverse p), ((λ x, len p - 1 - x) <$> p).
  pose proof (is_perm_reverse p Hp) as Hr.
  pose proof (is_perm_complement p Hp) as Hc.
  split; [now apply reverse_spec|]. split; [now apply complement_spec|].
  split; [done|]. split; [done|]. split; [done|]. split; [done|].
  split; [rewrite reverse_spec, reverse_involutive; done|].
  split; [rewrite complement_spec, len_fmap, complement_complement; done|].
  rewrite reverse_spec, complement_spec, len_reverse, fmap_reverse by done. done.
Qed.

Lemma reverse_complement_involutive_witness :
  is_perm [2; 0; 3; 1]
  ∧ ∃ r c, reverse [2; 0; 3; 1] = Ok r ∧ complement [2; 0; 3; 1] = Ok c
      ∧ r = list.reverse [2; 0; 3; 1]
      ∧ c = (λ x, len [2; 0; 3; 1] - 1 - x) <$> [2; 0; 3; 1]
      ∧ is_perm r ∧ is_perm c
      ∧ reverse r = Ok [2; 0; 3; 1] ∧ complement c = Ok [2; 0; 3; 1]
      ∧ reverse c = complement r.
Proof.
  assert (is_perm [2; 0; 3; 1]) as Hp by reflexivity.
  split; [exact Hp|]. exact (reverse_complement_involutive [2; 0; 3; 1] Hp).
Defined.

(** X2: on a permutation of length [n], [inversions] and [noninversions]
    return two counts that add up to [n (n - 1) / 2], the number of pairs
    of positions. *)
Theorem inversions_plus_noninversions (p : list Z) :
  is_perm p →
  ∃ a b, inversions p = Ok a ∧ noninversions p = Ok b
    ∧ 0 ≤ a ∧ 0 ≤ b
    ∧ a + b = len p * (len p - 1) / 2.
Proof.
  intros Hp. exists (pair_count Z.gt p), (pair_count Z.lt p).
  split; [apply inversions_spec|]. split; [apply noninversions_spec|].
  pose proof (pair_count_total p (is_perm_NoDup p Hp)) as Htot.
  split; [apply pair_count_nonneg|]. split; [apply pair_count_nonneg|].
  rewrite <- Htot, Z.mul_comm, Z.div_mul; lia.
Qed.

Lemma inversions_plus_noninversions_witness :
  is_perm [3; 0; 2; 1]
  ∧ ∃ a b, inversions [3; 0; 2; 1] = Ok a ∧ noninversions [3; 0; 2; 1] = Ok b
      ∧ 0 ≤ a ∧ 0 ≤ b
      ∧ a + b = len [3; 0; 2; 1] * (len [3; 0; 2; 1] - 1) / 2.
Proof.
  assert (is_perm [3; 0; 2; 1]) as Hp by reflexivity.
  split; [exact Hp|]. exact (inversions_plus_noninversions [3; 0; 2; 1] Hp).
Defined.

(** X3: reversing or complementing a permutation exchanges inversions and
    non-inversions: [p.reverse().inversions()] and
    [p.complement().inversions()] both equal [p.noninversions()]. *)
Theorem inversions_of_symmetries (p : list Z) :
  is_perm p →
  ∃ r c k, reverse p = Ok r ∧ complement p = Ok c
    ∧ noninversions p = Ok k
    ∧ inversions r = Ok k ∧ inversions c = Ok k.
Proof.
  intros Hp. exists (list.reverse p), ((λ x, len p - 1 - x) <$> p), (pair_count Z.lt p).
  split; [now apply reverse_spec|]. split; [now apply complement_spec|].
  split; [apply noninversions_spec|].
  rewrite !inversions_spec, pair_count_reverse.
  split; [done|]. f_equal. apply pair_count_antitone. intros a b. lia.
Qed.

Lemma inversions_of_symmetries_witness :
  is_perm [3; 0; 2; 1]
  ∧ ∃ r c k, reverse [3; 0; 2; 1] = Ok r ∧ complement [3; 0; 2; 1] = Ok c
      ∧ noninversions [3; 0; 2; 1] = Ok k
      ∧ inversions r = Ok k ∧ inversions c = Ok k.
Proof.
  assert (is_perm [3; 0; 2; 1]) as Hp by reflexivity.
  split; [exact Hp|]. exact (inversions_of_symmetries [3; 0; 2; 1] Hp).
Defined.

(** X4: for every integer [n], [monotone_increasing(n)] is the identity
    [0, ..., n-1] and [monotone_decreasing(n)] its reverse; a negative [n]
    gives the empty permutation.  The first has no inversion, the second
    has [m (m - 1) / 2] with [m = max(n, 0)]. *)
Theorem monotone_permutations (n : Z) :
  ∃ inc dec, monotone_increasing n = Ok inc ∧ monotone_decreasing n = Ok dec
    ∧ inc = range 0 n ∧ dec = list.reverse (range 0 n)
    ∧ is_perm inc ∧ is_perm dec
    ∧ len inc = Z.max n 0 ∧ len dec = Z.max n 0
    ∧ inversions inc = Ok 0
    ∧ inversions dec = Ok (Z.max n 0 * (Z.max n 0 - 1) / 2).
Proof.
  pose proof (len_range_0 n) as Hlen.
  pose proof (is_perm_range n) as Hinc.
  pose proof (is_perm_reverse _ Hinc) as Hdec.
  exists (range 0 n), (list.reverse (range 0 n)).
  unfold monotone_increasing, monotone_decreasing.
  rewrite !of_seq_is_perm by done.
  split; [done|]. split; [done|]. split; [done|]. split; [done|].
  split; [done|]. split; [done|]. split; [done|].
  split; [now rewrite len_reverse|].
  rewrite !inversions_spec, pair_count_reverse.
  pose proof (pair_count_total _ (is_perm_NoDup _ Hinc)) as Htot.
  rewrite pair_count_sorted in Htot |- * by apply range_sorted.
  split; [done|]. f_equal. rewrite Hlen in Htot.
  rewrite <- Htot, Z.mul_comm, Z.div_mul; lia.
Qed.

(** X5: the product of two permutations of the same length is the
    permutation that sends [i] to [a(b(i))]; the product is associative,
    and it fails with an [AssertionError] when the lengths differ. *)
Theorem mul_composes (a b c : list Z) :
  is_perm a → is_perm b → is_perm c → len a = len b → len b = len c →
  (∃ ab, mul a b = Ok ab ∧ is_perm ab ∧ len ab = len a
     ∧ ∀ i, 0 ≤ i < len a → call ab i = (x ← call b i; call a x))
  ∧ (ab ← mul a b; mul ab c) = (bc ← mul b c; mul a bc)
  ∧ (∀ d : list Z, len d ≠ len a → mul a d = Raise AssertionError).
Proof.
  intros Ha Hb Hc Hab Hbc.
  assert (length a = length b ∧ length b = length c) as [Hab' Hbc']
    by (unfold len in *; lia).
  pose proof (comp_is_perm a b Ha Hb Hab') as Hpab.
  pose proof (comp_is_perm b c Hb Hc Hbc') as Hpbc.
  split; [|split].
  - exists (comp a b). split; [now apply mul_spec|]. split; [done|].
    split; [unfold len; rewrite comp_length; lia|].
    intros i Hi. unfold call.
    rewrite (getitem_Z b i), bind_Ok by lia.
    pose proof (perm_entry b (Z.to_nat i) Hb ltac:(unfold len in *; lia)) as Hx.
    rewrite (getitem_Z a), (getitem_Z (comp a b))
      by (unfold len in *; rewrite ?comp_length; lia).
    rewrite comp_lookup by (unfold len in *; lia). done.
  - rewrite (mul_spec a b), (mul_spec b c), !bind_Ok by done.
    rewrite (mul_spec (comp a b) c), (mul_spec a (comp b c));
      [|done|done|unfold len; rewrite comp_length; lia
       |done|done|unfold len; rewrite comp_length; lia].
    f_equal. apply comp_assoc. intros x Hx. now apply (is_perm_elem_of c) in Hx; [lia|].
  - intros d Hd. apply mul_length_mismatch. lia.
Qed.

Lemma mul_composes_witness :
  is_perm [1; 2; 0] ∧ is_perm [0; 2; 1] ∧ is_perm [2; 1; 0]
  ∧ len [1; 2; 0] = len [0; 2; 1] ∧ len [0; 2; 1] = len [2; 1; 0]
  ∧ (∃ ab, mul [1; 2; 0] [0; 2; 1] = Ok ab ∧ is_perm ab
       ∧ len ab = len [1; 2; 0]
       ∧ ∀ i, 0 ≤ i < len [1; 2; 0] →
              call ab i = (x ← call [0; 2; 1] i; call [1; 2; 0] x))
  ∧ (ab ← mul [1; 2; 0] [0; 2; 1]; mul ab [2; 1; 0])
    = (bc ← mul [0; 2; 1] [2; 1; 0]; mul [1; 2; 0] bc)
  ∧ (∀ d : list Z, len d ≠ len [1; 2; 0] →
       mul [1; 2; 0] d = Raise AssertionError).
Proof.
  assert (is_perm [1; 2; 0]) as Ha by reflexivity.
  assert (is_perm [0; 2; 1]) as Hb by reflexivity.
  assert (is_perm [2; 1; 0]) as Hc by reflexivity.
  assert (len [1; 2; 0] = len [0; 2; 1]) as Hab by reflexivity.
  assert (len [0; 2; 1] = len [2; 1; 0]) as Hbc by reflexivity.
  split; [exact Ha|]. split; [exact Hb|]. split; [exact Hc|].
  split; [exact Hab|]. split; [exact Hbc|].
  exact (mul_composes [1; 2; 0] [0; 2; 1] [2; 1; 0] Ha Hb Hc Hab Hbc).
Defined.

(** X6: [inverse] returns the group-theoretic inverse of a permutation:
    a permutation whose products with [p], on either side, are the
    identity, and whose own inverse is [p]. *)
Theorem inverse_is_inverse (p : list Z) :
  is_perm p →
  ∃ q, inverse p = Ok q ∧ is_perm q ∧ len q = len p
    ∧ mul p q = Ok (range 0 (len p))
    ∧ mul q p = Ok (range 0 (len p))
    ∧ inverse q = Ok p.
Proof.
  intros Hp. destruct (inverse_spec p Hp) as (q & Hrun & Hq & Hinv).
  destruct (inverse_of_is_perm p q Hp Hinv) as [_ Hinv'].
  assert (len q = len p) as Hlen by (unfold len; destruct Hinv; lia).
  exists q. split; [done|]. split; [done|]. split; [done|].
  split; [|split].
  - rewrite mul_spec, (inverse_of_comp q p), Hlen by done. done.
  - rewrite mul_spec, (inverse_of_comp p q) by done. done.
  - destruct (inverse_spec q Hq) as (p' & Hrun' & _ & Hinv'').
    now rewrite Hrun', (inverse_of_unique q p' p Hq Hinv'' Hinv').
Qed.

Lemma inverse_is_inverse_witness :
  is_perm [2; 0; 3; 1]
  ∧ ∃ q, inverse [2; 0; 3; 1] = Ok q ∧ is_perm q ∧ len q = len [2; 0; 3; 1]
      ∧ mul [2; 0; 3; 1] q = Ok (range 0 (len [2; 0; 3; 1]))
      ∧ mul q [2; 0; 3; 1] = Ok (range 0 (len [2; 0; 3; 1]))
      ∧ inverse q = Ok [2; 0; 3; 1].
Proof.
  assert (is_perm [2; 0; 3; 1]) as Hp by reflexivity.
  split; [exact Hp|]. exact (inverse_is_inverse [2; 0; 3; 1] Hp).
Defined.

(** X7: [is_involution] returns [True] exactly on the permutations whose
    square, computed by [*] or by [** 2], is the identity. *)
Theorem is_involution_iff (p : list Z) :
  is_perm p →
  ∃ b, is_involution p = Ok b
    ∧ (b = true ↔ mul p p = Ok (range 0 (len p)))
    ∧ (b = true ↔ pow p (ExpInt 2) = Ok (range 0 (len p))).
Proof.
  intros Hp. destruct (inverse_spec p Hp) as (q & Hrun & Hq & Hinv).
  assert (pow p (ExpInt 2) = mul p p) as ->.
  { pose proof (pow_spec p 2 Hp) as H2. change (Z.of_nat 2) with 2 in H2.
    rewrite H2, mul_spec by done.
    change (power p 2) with (comp (power p 1) p). now rewrite power_1. }
  assert (bool_decide (p = q) = true ↔ mul p p = Ok (range 0 (len p))) as Hiff.
  { rewrite bool_decide_eq_true, mul_spec by done. split.
    - intros <-. f_equal. now apply inverse_of_comp.
    - intros [= Hcomp]. symmetry.
      apply (inverse_of_unique p q p Hp Hinv). now apply comp_inverse_of. }
  exists (bool_decide (p = q)). unfold is_involution. rewrite Hrun, bind_Ok.
  done.
Qed.

Lemma is_involution_iff_witness :
  is_perm [1; 0; 3; 2]
  ∧ ∃ b, is_involution [1; 0; 3; 2] = Ok b
      ∧ (b = true ↔ mul [1; 0; 3; 2] [1; 0; 3; 2]
                     = Ok (range 0 (len [1; 0; 3; 2])))
      ∧ (b = true ↔ pow [1; 0; 3; 2] (ExpInt 2)
                     = Ok (range 0 (len [1; 0; 3; 2]))).
Proof.
  assert (is_perm [1; 0; 3; 2]) as Hp by reflexivity.
  split; [exact Hp|]. exact (is_involution_iff [1; 0; 3; 2] Hp).
Defined.

(** X8: powers of a permutation with non-negative exponents: [p ** 0] is
    the identity, [p ** 1] is [p], and [p ** (a + b)] is the product of
    [p ** a] and [p ** b]. *)
Theorem pow_adds_exponents (p : list Z) (a b : Z) :
  is_perm p → 0 ≤ a → 0 ≤ b →
  pow p (ExpInt 0) = Ok (range 0 (len p))
  ∧ pow p (ExpInt 1) = Ok p
  ∧ ∃ x y z, pow p (ExpInt a) = Ok x ∧ pow p (ExpInt b) = Ok y
      ∧ pow p (ExpInt (a + b)) = Ok z
      ∧ is_perm z ∧ len z = len p
      ∧ mul x y = Ok z.
Proof.
  intros Hp Ha Hb.
  split; [apply (pow_spec p 0 Hp)|].
  split.
  { pose proof (pow_spec p 1 Hp) as H1. change (Z.of_nat 1) with 1 in H1.
    now rewrite H1, power_1. }
  exists (power p (Z.to_nat a)), (power p (Z.to_nat b)),
         (power p (Z.to_nat a + Z.to_nat b)).
  destruct (power_is_perm p (Z.to_nat a) Hp) as [Hpa Hla].
  destruct (power_is_perm p (Z.to_nat b) Hp) as [Hpb Hlb].
  destruct (power_is_perm p (Z.to_nat a + Z.to_nat b) Hp) as [Hpz Hlz].
  split; [rewrite <- (pow_spec p _ Hp); do 2 f_equal; lia|].
  split; [rewrite <- (pow_spec p _ Hp); do 2 f_equal; lia|].
  split; [rewrite <- (pow_spec p _ Hp); do 2 f_equal; lia|].
  split; [done|]. split; [unfold len; lia|].
  rewrite mul_spec by (done || unfold len; lia).
  f_equal. symmetry. now apply power_add.
Qed.

Lemma pow_adds_exponents_witness :
  is_perm [1; 2; 3; 0] ∧ 0 ≤ 2 ∧ 0 ≤ 3
  ∧ pow [1; 2; 3; 0] (ExpInt 0) = Ok (range 0 (len [1; 2; 3; 0]))
  ∧ pow [1; 2; 3; 0] (ExpInt 1) = Ok [1; 2; 3; 0]
  ∧ ∃ x y z, pow [1; 2; 3; 0] (ExpInt 2) = Ok x
      ∧ pow [1; 2; 3; 0] (ExpInt 3) = Ok y
      ∧ pow [1; 2; 3; 0] (ExpInt (2 + 3)) = Ok z
      ∧ is_perm z ∧ len z = len [1; 2; 3; 0]
      ∧ mul x y = Ok z.
Proof.
  assert (is_perm [1; 2; 3; 0]) as Hp by reflexivity.
  assert (0 ≤ 2) as Ha by lia.
  assert (0 ≤ 3) as Hb by lia.
  split; [exact Hp|]. split; [exact Ha|]. split; [exact Hb|].
  exact (pow_adds_exponents [1; 2; 3; 0] 2 3 Hp Ha Hb).
Defined.

(** X9: the direct sum of two permutations is the first followed by the
    second shifted above it, the skew sum is the first shifted above the
    second, followed by the second; both are permutations, and when
    neither summand is empty [sum_decomposable] accepts the sum and
    [skew_decomposable] the skew sum. *)
Theorem sums_are_decomposable (p q : list Z) :
  is_perm p → is_perm q →
  ∃ s k, sum p q = Ok s ∧ skew_sum p q = Ok k
    ∧ s = p ++ ((λ x, x + len p) <$> q)
    ∧ k = ((λ x, x + len q) <$> p) ++ q
    ∧ is_perm s ∧ is_perm k
    ∧ (p ≠ [] → q ≠ [] →
       sum_decomposable s = Ok true ∧ skew_decomposable k = Ok true).
Proof.
  intros Hp Hq. eexists _, _.
  split; [now apply sum_spec|]. split; [now apply skew_sum_spec|].
  split; [done|]. split; [done|].
  split; [now apply sum_is_perm|]. split; [now apply skew_sum_is_perm|].
  intros Hnp Hnq. split.
  - destruct (sum_decomposable_spec (p ++ ((λ x, x + len p) <$> q)))
      as (b & -> & Hb).
    f_equal. apply Hb. exists (len p). now apply sum_prefix.
  - destruct (skew_decomposable_spec (((λ x, x + len q) <$> p) ++ q))
      as (b & -> & Hb).
    f_equal. apply Hb. exists (len p). now apply skew_sum_prefix.
Qed.

Lemma sums_are_decomposable_witness :
  is_perm [1; 0] ∧ is_perm [0; 2; 1]
  ∧ ∃ s k, sum [1; 0] [0; 2; 1] = Ok s ∧ skew_sum [1; 0] [0; 2; 1] = Ok k
      ∧ s = [1; 0] ++ ((λ x, x + len [1; 0]) <$> [0; 2; 1])
      ∧ k = ((λ x, x + len [0; 2; 1]) <$> [1; 0]) ++ [0; 2; 1]
      ∧ is_perm s ∧ is_perm k
      ∧ ([1; 0] ≠ [] → [0; 2; 1] ≠ [] →
         sum_decomposable s = Ok true ∧ skew_decomposable k = Ok true).
Proof.
  assert (is_perm [1; 0]) as Hp by reflexivity.
  assert (is_perm [0; 2; 1]) as Hq by reflexivity.
  split; [exact Hp|]. split; [exact Hq|].
  exact (sums_are_decomposable [1; 0] [0; 2; 1] Hp Hq).
Defined.

(** X10: [sum_decomposable] returns [True] exactly on the permutations
    that are the [sum] of two non-empty permutations, and
    [skew_decomposable] exactly on those that are the [skew_sum] of two
    non-empty permutations. *)
Theorem decomposable_iff_sum (p : list Z) :
  is_perm p →
  ∃ b1 b2, sum_decomposable p = Ok b1 ∧ skew_decomposable p = Ok b2
    ∧ (b1 = true ↔ ∃ a b, a ≠ [] ∧ b ≠ [] ∧ is_perm a ∧ is_perm b
                          ∧ sum a b = Ok p)
    ∧ (b2 = true ↔ ∃ a b, a ≠ [] ∧ b ≠ [] ∧ is_perm a ∧ is_perm b
                          ∧ skew_sum a b = Ok p).
Proof.
  intros Hp.
  destruct (sum_decomposable_spec p) as (b1 & Hrun1 & Hb1).
  destruct (skew_decomposable_spec p) as (b2 & Hrun2 & Hb2).
  exists b1, b2. split; [done|]. split; [done|]. rewrite Hb1, Hb2. split.
  - split.
    + intros (i & Hi & HT).
      destruct (split_is_sum p i Hp Hi HT) as (a & b & Ha & Hb & Hpa & Hpb & Heq).
      exists a, b. rewrite sum_spec, <- Heq by done. done.
    + intros (a & b & Ha & Hb & Hpa & Hpb & Hsum).
      rewrite sum_spec in Hsum by done. injection Hsum as <-.
      exists (len a). now apply sum_prefix.
  - split.
    + intros (i & Hi & HT).
      destruct (split_is_skew_sum p i Hp Hi HT)
        as (a & b & Ha & Hb & Hpa & Hpb & Heq).
      exists a, b. rewrite skew_sum_spec, <- Heq by done. done.
    + intros (a & b & Ha & Hb & Hpa & Hpb & Hsum).
      rewrite skew_sum_spec in Hsum by done. injection Hsum as <-.
      exists (len a). now apply skew_sum_prefix.
Qed.

Lemma decomposable_iff_sum_witness :
  is_perm [1; 0; 2; 4; 3]
  ∧ ∃ b1 b2, sum_decomposable [1; 0; 2; 4; 3] = Ok b1
      ∧ skew_decomposable [1; 0; 2; 4; 3] = Ok b2
      ∧ (b1 = true ↔ ∃ a b, a ≠ [] ∧ b ≠ [] ∧ is_perm a ∧ is_perm b
                            ∧ sum a b = Ok [1; 0; 2; 4; 3])
      ∧ (b2 = true ↔ ∃ a b, a ≠ [] ∧ b ≠ [] ∧ is_perm a ∧ is_perm b
                            ∧ skew_sum a b = Ok [1; 0; 2; 4; 3]).
Proof.
  assert (is_perm [1; 0; 2; 4; 3]) as Hp by reflexivity.
  split; [exact Hp|]. exact (decomposable_iff_sum [1; 0; 2; 4; 3] Hp).
Defined.

(** X11: the complement and the reverse exchange the two kinds of
    decomposability: [p.skew_decomposable()] equals
    [p.complement().sum_decomposable()] and
    [p.reverse().sum_decomposable()], and [p.sum_decomposable()] equals
    [p.complement().skew_decomposable()] and
    [p.reverse().skew_decomposable()]. *)
Theorem decomposable_symmetries (p : list Z) :
  is_perm p →
  ∃ c r, complement p = Ok c ∧ reverse p = Ok r
    ∧ sum_decomposable c = skew_decomposable p
    ∧ sum_decomposable r = skew_decomposable p
    ∧ skew_decomposable c = sum_decomposable p
    ∧ skew_decomposable r = sum_decomposable p.
Proof.
  assert (∀ p, is_perm p →
            sum_decomposable ((λ y, len p - 1 - y) <$> p) = skew_decomposable p
            ∧ sum_decomposable (list.reverse p) = skew_decomposable p) as Hhalf.
  { clear p. intros p Hp.
    destruct (skew_decomposable_spec p) as (b & -> & Hb).
    destruct (sum_decomposable_spec ((λ y, len p - 1 - y) <$> p)) as (bc & -> & Hbc).
    destruct (sum_decomposable_spec (list.reverse p)) as (br & -> & Hbr).
    rewrite len_fmap in Hbc. rewrite len_reverse in Hbr.
    assert (bc = true ↔ b = true) as Hc.
    { rewrite Hbc, Hb. split; intros (i & Hi & HT); exists i; (split; [done|]);
        now apply skew_prefix_complement. }
    assert (br = true ↔ b = true) as Hr.
    { rewrite Hbr, Hb. split; intros (i & Hi & HT); exists (len p - i);
        (split; [lia|]).
      - apply skew_prefix_reverse; [done|lia|].
        now replace (len p - (len p - i)) with i by lia.
      - now apply skew_prefix_reverse. }
    split; f_equal; [destruct bc, b|destruct br, b]; intuition congruence. }
  intros Hp. exists ((λ y, len p - 1 - y) <$> p), (list.reverse p).
  split; [now apply complement_spec|]. split; [now apply reverse_spec|].
  destruct (Hhalf p Hp) as [Hc Hr]. split; [done|]. split; [done|].
  destruct (Hhalf _ (is_perm_complement p Hp)) as [Hc' _].
  destruct (Hhalf _ (is_perm_reverse p Hp)) as [_ Hr'].
  rewrite len_fmap, complement_complement in Hc'.
  rewrite reverse_involutive in Hr'. done.
Qed.

Lemma decomposable_symmetries_witness :
  is_perm [2; 3; 1; 0]
  ∧ ∃ c r, complement [2; 3; 1; 0] = Ok c ∧ reverse [2; 3; 1; 0] = Ok r
      ∧ sum_decomposable c = skew_decomposable [2; 3; 1; 0]
      ∧ sum_decomposable r = skew_decomposable [2; 3; 1; 0]
      ∧ skew_decomposable c = sum_decomposable [2; 3; 1; 0]
      ∧ skew_decomposable r = sum_decomposable [2; 3; 1; 0].
Proof.
  assert (is_perm [2; 3; 1; 0]) as Hp by reflexivity.
  split; [exact Hp|]. exact (decomposable_symmetries [2; 3; 1; 0] Hp).
Defined.

(** X12: a permutation of length at least 3 that [sum_decomposable] or
    [skew_decomposable] accepts is not simple: [is_simple] returns
    [False]. *)
Theorem decomposable_not_simple (p : list Z) :
  is_perm p → 3 ≤ len p →
  sum_decomposable p = Ok true ∨ skew_decomposable p = Ok true →
  is_simple p = Ok false.
Proof.
  intros Hp Hn [Hsum|Hskew].
  - destruct (sum_decomposable_spec p) as (b & Hrun & Hb).
    rewrite Hrun in Hsum. injection Hsum as ->.
    destruct (proj1 Hb eq_refl) as (i & Hi & HT).
    apply (prefix_block_not_simple p i 0); [done..|now left|].
    intros x. rewrite HT. lia.
  - destruct (skew_decomposable_spec p) as (b & Hrun & Hb).
    rewrite Hrun in Hskew. injection Hskew as ->.
    destruct (proj1 Hb eq_refl) as (i & Hi & HT).
    apply (prefix_block_not_simple p i (len p - i)); [done..|now right|].
    intros x. rewrite HT. lia.
Qed.

Lemma decomposable_not_simple_witness :
  is_perm [1; 2; 0; 3] ∧ 3 ≤ len [1; 2; 0; 3]
  ∧ (sum_decomposable [1; 2; 0; 3] = Ok true
     ∨ skew_decomposable [1; 2; 0; 3] = Ok true)
  ∧ is_simple [1; 2; 0; 3] = Ok false.
Proof.
  assert (is_perm [1; 2; 0; 3]) as Hp by reflexivity.
  assert (3 ≤ len [1; 2; 0; 3]) as Hn by (unfold len; simpl; lia).
  assert (sum_decomposable [1; 2; 0; 3] = Ok true
          ∨ skew_decomposable [1; 2; 0; 3] = Ok true) as Hd
    by (left; vm_compute; reflexivity).
  split; [exact Hp|]. split; [exact Hn|]. split; [exact Hd|].
  exact (decomposable_not_simple [1; 2; 0; 3] Hp Hn Hd).
Defined.

(** X13: on a non-empty permutation, the reverse and the complement
    exchange descents and ascents, and the two counts add up to
    [len(p) - 1]; on the empty permutation [descents] returns 0 and
    [ascents] returns -1. *)
Theorem descents_of_symmetries (p : list Z) :
  is_perm p →
  ∃ r c d a, reverse p = Ok r ∧ complement p = Ok c
    ∧ descents p = Ok d ∧ ascents p = Ok a
    ∧ d + a = len p - 1 ∧ 0 ≤ d
    ∧ (p ≠ [] → 0 ≤ a
                ∧ descents r = Ok a ∧ ascents r = Ok d
                ∧ descents c = Ok a ∧ ascents c = Ok d)
    ∧ (p = [] → d = 0 ∧ a = -1).
Proof.
  intros Hp. pose proof (is_perm_NoDup p Hp) as Hnd.
  exists (list.reverse p), ((λ x, len p - 1 - x) <$> p),
         (adj_count Z.gt p), (len p - 1 - adj_count Z.gt p).
  split; [now apply reverse_spec|]. split; [now apply complement_spec|].
  split; [apply descents_spec|]. split; [apply ascents_spec|].
  split; [lia|]. split; [apply adj_count_nonneg|]. split.
  - intros Hne. pose proof (adj_count_total p Hnd Hne) as Htot.
    pose proof (adj_count_nonneg Z.lt p).
    rewrite !descents_spec, !ascents_spec, len_reverse, len_fmap.
    rewrite adj_count_reverse.
    rewrite (adj_count_antitone (λ x, len p - 1 - x)) by (intros; lia).
    repeat split; try f_equal; lia.
  - intros ->. done.
Qed.

Lemma descents_of_symmetries_witness :
  is_perm [2; 0; 3; 1]
  ∧ ∃ r c d a, reverse [2; 0; 3; 1] = Ok r ∧ complement [2; 0; 3; 1] = Ok c
      ∧ descents [2; 0; 3; 1] = Ok d ∧ ascents [2; 0; 3; 1] = Ok a
      ∧ d + a = len [2; 0; 3; 1] - 1 ∧ 0 ≤ d
      ∧ ([2; 0; 3; 1] ≠ [] → 0 ≤ a
           ∧ descents r = Ok a ∧ ascents r = Ok d
           ∧ descents c = Ok a ∧ ascents c = Ok d)
      ∧ ([2; 0; 3; 1] = [] → d = 0 ∧ a = -1).
Proof.
  assert (is_perm [2; 0; 3; 1]) as Hp by reflexivity.
  split; [exact Hp|]. exact (descents_of_symmetries [2; 0; 3; 1] Hp).
Defined.

(** X14: [ltrmin] lists, in increasing order, the positions of a
    permutation whose entry is below every earlier entry; on a non-empty
    permutation [numltrmin] returns the length of that list, and on the
    empty permutation it raises [IndexError] while [ltrmin] returns the
    empty list. *)
Theorem ltrmin_positions (p : list Z) :
  is_perm p →
  ∃ L, ltrmin p = Ok L ∧ StronglySorted Z.lt L
    ∧ (∀ i, i ∈ L ↔ 0 ≤ i < len p
                    ∧ ∀ j, 0 ≤ j < i → p !!! Z.to_nat i < p !!! Z.to_nat j)
    ∧ (p ≠ [] → numltrmin p = Ok (len L))
    ∧ (p = [] → L = [] ∧ numltrmin p = Raise IndexError).
Proof.
  intros Hp. pose proof (is_perm_NoDup p Hp) as Hnd.
  exists (filter (ltr_min p) (range 0 (len p))).
  split; [apply ltrmin_spec|]. split; [apply filter_range_sorted|].
  split; [intros i; now apply ltrmin_elem|].
  split; [intros Hne; now apply numltrmin_spec|].
  intros ->. done.
Qed.

Lemma ltrmin_positions_witness :
  is_perm [2; 4; 3; 0; 1]
  ∧ ∃ L, ltrmin [2; 4; 3; 0; 1] = Ok L ∧ StronglySorted Z.lt L
      ∧ (∀ i, i ∈ L ↔ 0 ≤ i < len [2; 4; 3; 0; 1]
                      ∧ ∀ j, 0 ≤ j < i →
                          [2; 4; 3; 0; 1] !!! Z.to_nat i
                          < [2; 4; 3; 0; 1] !!! Z.to_nat j)
      ∧ ([2; 4; 3; 0; 1] ≠ [] → numltrmin [2; 4; 3; 0; 1] = Ok (len L))
      ∧ ([2; 4; 3; 0; 1] = [] →
         L = [] ∧ numltrmin [2; 4; 3; 0; 1] = Raise IndexError).
Proof.
  assert (is_perm [2; 4; 3; 0; 1]) as Hp by reflexivity.
  split; [exact Hp|]. exact (ltrmin_positions [2; 4; 3; 0; 1] Hp).
Defined.

(** X15: the mirror images of [ltrmin].  [rtlmin] lists, in decreasing
    order, the positions whose entry is below every later entry; [rtlmax]
    lists, in increasing order, the positions whose entry is above every
    later entry; [ltrmax] lists, in increasing order, the positions whose
    entry is above every earlier entry. *)
Theorem mirrored_extrema (p : list Z) :
  is_perm p →
  ∃ A B C, rtlmin p = Ok A ∧ rtlmax p = Ok B ∧ ltrmax p = Ok C
    ∧ StronglySorted Z.gt A ∧ StronglySorted Z.lt B ∧ StronglySorted Z.lt C
    ∧ (∀ i, i ∈ A ↔ 0 ≤ i < len p
                    ∧ ∀ j, i < j < len p → p !!! Z.to_nat i < p !!! Z.to_nat j)
    ∧ (∀ i, i ∈ B ↔ 0 ≤ i < len p
                    ∧ ∀ j, i < j < len p → p !!! Z.to_nat j < p !!! Z.to_nat i)
    ∧ (∀ i, i ∈ C ↔ 0 ≤ i < len p
                    ∧ ∀ j, 0 ≤ j < i → p !!! Z.to_nat j < p !!! Z.to_nat i).
Proof.
  intros Hp.
  destruct (rtlmin_spec p Hp) as (A & HA & HsA & HmA).
  destruct (rtlmax_spec p Hp) as (B & HB & HsB & HmB).
  destruct (ltrmax_spec p Hp) as (C & HC & HsC & HmC).
  exists A, B, C. done.
Qed.

Lemma mirrored_extrema_witness :
  is_perm [2; 0; 4; 1; 5; 3]
  ∧ ∃ A B C, rtlmin [2; 0; 4; 1; 5; 3] = Ok A
      ∧ rtlmax [2; 0; 4; 1; 5; 3] = Ok B ∧ ltrmax [2; 0; 4; 1; 5; 3] = Ok C
      ∧ StronglySorted Z.gt A ∧ StronglySorted Z.lt B ∧ StronglySorted Z.lt C
      ∧ (∀ i, i ∈ A ↔ 0 ≤ i < len [2; 0; 4; 1; 5; 3]
                      ∧ ∀ j, i < j < len [2; 0; 4; 1; 5; 3] →
                          [2; 0; 4; 1; 5; 3] !!! Z.to_nat i
                          < [2; 0; 4; 1; 5; 3] !!! Z.to_nat j)
      ∧ (∀ i, i ∈ B ↔ 0 ≤ i < len [2; 0; 4; 1; 5; 3]
                      ∧ ∀ j, i < j < len [2; 0; 4; 1; 5; 3] →
                          [2; 0; 4; 1; 5; 3] !!! Z.to_nat j
                          < [2; 0; 4; 1; 5; 3] !!! Z.to_nat i)
      ∧ (∀ i, i ∈ C ↔ 0 ≤ i < len [2; 0; 4; 1; 5; 3]
                      ∧ ∀ j, 0 ≤ j < i →
                          [2; 0; 4; 1; 5; 3] !!! Z.to_nat j
                          < [2; 0; 4; 1; 5; 3] !!! Z.to_nat i).
Proof.
  assert (is_perm [2; 0; 4; 1; 5; 3]) as Hp by reflexivity.
  split; [exact Hp|]. exact (mirrored_extrema [2; 0; 4; 1; 5; 3] Hp).
Defined.

(** X16: [contains_locations] returns exactly the occurrences of the
    pattern [q] in [P], as increasing tuples of positions, and their number
    is what [occurrences] returns. *)
Theorem contains_locations_are_occurrences (P q : list Z) :
  is_perm P → is_perm q →
  ∃ locs k, contains_locations P q = Ok locs ∧ occurrences P q = Ok k
    ∧ len locs = k
    ∧ ∀ sol, sol ∈ locs ↔ length sol = length q ∧ occurrence q P sol.
Proof.
  intros HP Hq. pose proof (is_perm_NoDup P HP) as Hnd.
  destruct (contains_locations_spec P q Hnd) as [Hlocs Hocc].
  eexists _, _. split; [exact Hlocs|]. split; [exact Hocc|]. split; [done|].
  intros sol. now apply location_iff.
Qed.

Lemma contains_locations_are_occurrences_witness :
  is_perm [0; 2; 1; 3] ∧ is_perm [0; 1]
  ∧ ∃ locs k, contains_locations [0; 2; 1; 3] [0; 1] = Ok locs
      ∧ occurrences [0; 2; 1; 3] [0; 1] = Ok k
      ∧ len locs = k
      ∧ ∀ sol, sol ∈ locs ↔ length sol = length [0; 1]
                            ∧ occurrence [0; 1] [0; 2; 1; 3] sol.
Proof.
  assert (is_perm [0; 2; 1; 3]) as HP by reflexivity.
  assert (is_perm [0; 1]) as Hq by reflexivity.
  split; [exact HP|]. split; [exact Hq|].
  exact (contains_locations_are_occurrences [0; 2; 1; 3] [0; 1] HP Hq).
Defined.

(** X17: [avoids_set] returns [True] exactly when [avoids] returns [True]
    for every pattern of the collection, that is when none of them occurs
    in the permutation; on the empty collection it returns [True]. *)
Theorem avoids_set_iff_avoids_all (P : list Z) (B : list (list Z * cache)) :
  is_perm P →
  Forall (λ x, is_perm x.1 ∧ cache_ok x.1 x.2) B →
  ∃ b, avoids_set P ((λ x, (OfPerm x.1, x.2)) <$> B) = Ok b
    ∧ (b = true ↔ ∀ q c, (q, c) ∈ B → avoids P (OfPerm q) c 0 = Ok true)
    ∧ (b = true ↔ ∀ q c, (q, c) ∈ B →
                    ¬ ∃ sol, length sol = length q ∧ occurrence q P sol).
Proof.
  intros HP HB. unfold avoids_set.
  assert (∀ q c, (q, c) ∈ B →
            ∃ b, involved_in q c (OfPerm P) 0 ≫= (λ r, Ok r.1) = Ok b
                 ∧ avoids P (OfPerm q) c 0 = Ok (negb b)
                 ∧ (b = true ↔ ∃ sol, length sol = length q ∧ occurrence q P sol))
    as Hone.
  { intros q c Hin. rewrite Forall_forall in HB.
    destruct (HB _ Hin) as [Hq Hc]. simpl in Hq, Hc.
    destruct (involved_in_total P q c Hq Hc) as (b & c' & Hrun & Hiff).
    exists b. unfold avoids, pattern_of. rewrite bind_Ok. simpl.
    rewrite Hrun. done. }
  induction B as [|[q c] B IH].
  - exists true. split; [done|]. split; (split; [intros _ q c Hin|done]);
      inversion Hin.
  - apply Forall_cons in HB as [_ HB].
    destruct IH as (b' & Hrun' & Hav' & Hocc');
      [done|intros q' c' Hin; apply Hone; now right|].
    destruct (Hone q c ltac:(left)) as (b & Hb & Hav & Hocc).
    rewrite fmap_cons. simpl for_return. unfold pattern_of.
    destruct (involved_in q c (OfPerm P) 0) as [[b0 c0]| |] eqn:Hinv;
      [|simpl in Hb; discriminate..].
    simpl in Hb. injection Hb as ->. rewrite bind_Ok. simpl fst.
    destruct b; rewrite bind_Ok.
    + exists false. split; [done|]. split; (split; [done|]); intros Hall; exfalso.
      * specialize (Hall q c ltac:(left)). rewrite Hav in Hall. discriminate.
      * apply (Hall q c ltac:(left)). now apply Hocc.
    + exists b'. split; [exact Hrun'|]. split.
      * rewrite Hav'. split.
        -- intros Hall q' c' [[= -> ->]|Hin]%elem_of_cons; [done|auto].
        -- intros Hall q' c' Hin. apply Hall. now right.
      * rewrite Hocc'. split.
        -- intros Hall q' c' [[= -> ->]|Hin]%elem_of_cons;
             [|exact (Hall _ _ Hin)].
           rewrite <- Hocc. discriminate.
        -- intros Hall q' c' Hin. apply (Hall q' c'). now right.
Qed.

Lemma avoids_set_iff_avoids_all_witness :
  is_perm [0; 1; 2; 3]
  ∧ Forall (λ x, is_perm x.1 ∧ cache_ok x.1 x.2) [([1; 0], None : cache); ([1; 2; 0], None : cache)]
  ∧ ∃ b, avoids_set [0; 1; 2; 3]
           ((λ x, (OfPerm x.1, x.2)) <$> [([1; 0], None : cache); ([1; 2; 0], None : cache)])
         = Ok b
      ∧ (b = true ↔ ∀ q c, (q, c) ∈ [([1; 0], None : cache); ([1; 2; 0], None : cache)] →
                      avoids [0; 1; 2; 3] (OfPerm q) c 0 = Ok true)
      ∧ (b = true ↔ ∀ q c, (q, c) ∈ [([1; 0], None : cache); ([1; 2; 0], None : cache)] →
                      ¬ ∃ sol, length sol = length q
                               ∧ occurrence q [0; 1; 2; 3] sol).
Proof.
  assert (is_perm [0; 1; 2; 3]) as HP by reflexivity.
  assert (Forall (λ x : list Z * cache, is_perm x.1 ∧ cache_ok x.1 x.2)
            [([1; 0], None : cache); ([1; 2; 0], None : cache)]) as HB.
  { repeat constructor; reflexivity. }
  split; [exact HP|]. split; [exact HB|].
  exact (avoids_set_iff_avoids_all [0; 1; 2; 3] _ HP HB).
Defined.

(** X18: on every sequence [all_intervals] returns a table with an empty
    row for the lengths 0 and 1 and one row for every length [i] from 2
    to [len(self) - 1]; row [i] holds exactly the start positions [j] of
    the windows [self[j:j+i]] that pass the test
    [max(window) - min(window) == i - 1].  When the entries of [self] are
    distinct, as in every permutation, these are exactly the windows
    whose values are [i] consecutive integers.  All rows are empty
    exactly when [maximal_interval] finds nothing and returns [(0, 0)]. *)
Theorem all_intervals_table (self : list Z) :
  ∃ blocks, all_intervals self false = Ok blocks
    ∧ len blocks = Z.max 2 (len self)
    ∧ (∀ i j, 0 ≤ i →
         (∃ row, blocks !! Z.to_nat i = Some row ∧ j ∈ row)
         ↔ 2 ≤ i < len self ∧ 0 ≤ j ≤ len self - i ∧ window self j i)
    ∧ (NoDup self → ∀ i j, 0 ≤ i →
         (∃ row, blocks !! Z.to_nat i = Some row ∧ j ∈ row)
         ↔ 2 ≤ i < len self ∧ 0 ≤ j ≤ len self - i ∧ ∃ lo, block self j i lo)
    ∧ (maximal_interval self = Ok (0, 0) ↔ ∀ row, row ∈ blocks → row = []).
Proof.
  exists ([[]; []] ++ (interval_row self <$> range 2 (len self))).
  split; [apply all_intervals_spec|]. split.
  { rewrite len_app, len_fmap. unfold len at 1. simpl length.
    destruct (decide (len self ≤ 2)).
    - rewrite range_nil by lia. unfold len at 1. simpl. lia.
    - rewrite len_range; lia. }
  assert (∀ i j, 0 ≤ i →
            (∃ row, ([[]; []] ++ (interval_row self <$> range 2 (len self)))
                      !! Z.to_nat i = Some row ∧ j ∈ row)
            ↔ 2 ≤ i < len self ∧ 0 ≤ j ≤ len self - i ∧ window self j i) as Hrows.
  { intros i j Hi. split.
    - intros (row & Hrow & Hj). apply all_intervals_lookup in Hrow; [|done].
      destruct Hrow as [[_ ->]|[Hr ->]]; [inversion Hj|].
      split; [done|]. now apply interval_row_elem.
    - intros (Hr & Hj & Hw). exists (interval_row self i). split.
      + apply all_intervals_lookup; [lia|]. right. done.
      + apply interval_row_elem; done. }
  split; [exact Hrows|].
  split.
  { intros Hnd i j Hi. rewrite (Hrows i j Hi). split.
    - intros (Hr & Hj & Hw). split; [done|]. split; [done|].
      apply (SimpleFacts.window_block self j i); (done || lia).
    - intros (Hr & Hj & Hb). split; [done|]. split; [done|].
      apply (SimpleFacts.window_block self j i); (done || lia). }
  destruct (maximal_interval_cases self)
    as [[-> Hno]|(i & j & -> & Hi & Hj & Hw & _)]; split.
  - intros _ row [k Hk]%list_elem_of_lookup_1.
    destruct row as [|j row]; [done|]. exfalso.
    destruct (proj1 (Hrows (Z.of_nat k) j ltac:(lia))) as (Hr & Hj & Hw).
    { exists (j :: row). rewrite Nat2Z.id. split; [done|left]. }
    apply (Hno (Z.of_nat k) j); [lia|lia|done].
  - done.
  - intros [= -> ->]. lia.
  - intros Hall. exfalso.
    destruct (proj2 (Hrows i j ltac:(lia))) as (row & Hrow & Hin);
      [split; [lia|split; [lia|done]]|].
    rewrite (Hall row) in Hin by (eapply list_elem_of_lookup_2, Hrow).
    inversion Hin.
Qed.

(** X19: with the attribute [insertion_locations] as [__init__] sets it
    (or empty, as the class has it), [right_extensions] returns the
    [len(self) + 1] permutations obtained by putting a new last entry of
    value [i], for [i] from 0 to [len(self)]: entry [i] of the result is
    [self.insert(len(self), i)], it ends in [i], and deleting its last
    position gives [self] back. *)
Theorem right_extensions_are_insertions (self : list Z) :
  is_perm self →
  ∃ L, right_extensions self (init self) = Ok L
    ∧ right_extensions self [] = Ok L
    ∧ len L = len self + 1
    ∧ ∀ i, 0 ≤ i ≤ len self →
        ∃ e, L !! Z.to_nat i = Some e
          ∧ insert self (len self) i = Ok e
          ∧ is_perm e ∧ len e = len self + 1
          ∧ getitem e (len self) = Ok i
          ∧ delete e (len self) = Ok self.
Proof.
  intros Hp. pose proof (is_perm_NoDup self Hp) as Hnd.
  pose proof (len_nonneg self) as Hn.
  destruct (right_extensions_spec self (init self) Hnd) as (L & Hrun & Hmap).
  destruct (right_extensions_spec self [] Hnd) as (L' & Hrun' & Hmap').
  cbv zeta in Hmap, Hmap'. unfold init in Hmap.
  rewrite decide_True in Hmap
    by (unfold len; rewrite length_replicate; lia).
  rewrite decide_False in Hmap' by (unfold len; simpl; lia).
  rewrite default_positions in Hmap, Hmap' by done.
  assert (L' = L) as -> by congruence.
  assert (∀ i, 0 ≤ i ≤ len self →
            insert self (len self) i = Ok ((bump i <$> self) ++ [i])
            ∧ is_perm ((bump i <$> self) ++ [i])) as Hins.
  { intros i Hi.
    pose proof (inserted_is_perm self (len self) i Hp Hi) as Hperm.
    assert (slice_to (bump i <$> self) (len self) ++ [i]
              ++ slice_from (bump i <$> self) (len self)
            = (bump i <$> self) ++ [i]) as Heq.
    { assert (len (bump i <$> self) = len self) as Hlen by apply len_fmap.
      unfold slice_to, slice_from. rewrite <- Hlen.
      rewrite slice_prefix, slice_suffix
        by (pose proof (len_nonneg (bump i <$> self)); lia).
      unfold len. rewrite Nat2Z.id, firstn_all, drop_all. done. }
    rewrite Heq in Hperm. split; [|done].
    rewrite insert_at_end. now apply of_seq_is_perm. }
  assert (L = (λ i, (bump i <$> self) ++ [i]) <$> range 0 (len self + 1)) as HL.
  { rewrite (mapM_Ok _ (λ i, (bump i <$> self) ++ [i])) in Hmap; [congruence|].
    intros i Hi%elem_of_range. apply Hins. lia. }
  exists L. split; [done|]. split; [done|]. split.
  { rewrite HL, len_fmap, len_range; lia. }
  intros i Hi. destruct (Hins i Hi) as [Hrun_i Hperm].
  exists ((bump i <$> self) ++ [i]). split.
  { rewrite HL, list_lookup_fmap.
    rewrite (proj2 (lookup_range 0 (len self + 1) (Z.to_nat i) i)) by lia. done. }
  split; [done|]. split; [done|].
  split; [rewrite len_app, len_fmap; unfold len; simpl; lia|]. split.
  - apply getitem_lookup; [lia|].
    rewrite lookup_app_r by (rewrite length_fmap; unfold len; lia).
    rewrite length_fmap. unfold len. now rewrite Nat2Z.id, Nat.sub_diag.
  - destruct (insert_delete self (len self) i Hp ltac:(lia) Hi)
      as (q & Hq & _ & _ & Hdel).
    rewrite Hrun_i in Hq. injection Hq as <-. done.
Qed.

Lemma right_extensions_are_insertions_witness :
  is_perm [1; 0; 2]
  ∧ ∃ L, right_extensions [1; 0; 2] (init [1; 0; 2]) = Ok L
      ∧ right_extensions [1; 0; 2] [] = Ok L
      ∧ len L = len [1; 0; 2] + 1
      ∧ ∀ i, 0 ≤ i ≤ len [1; 0; 2] →
          ∃ e, L !! Z.to_nat i = Some e
            ∧ insert [1; 0; 2] (len [1; 0; 2]) i = Ok e
            ∧ is_perm e ∧ len e = len [1; 0; 2] + 1
            ∧ getitem e (len [1; 0; 2]) = Ok i
            ∧ delete e (len [1; 0; 2]) = Ok [1; 0; 2].
Proof.
  assert (is_perm [1; 0; 2]) as Hp by reflexivity.
  split; [exact Hp|]. exact (right_extensions_are_insertions [1; 0; 2] Hp).
Defined.

(** X20: the rank encoding of a permutation.  [rank_val(i)] counts the
    entries after position [i] that are smaller than the entry at [i]; it
    lies between 0 and [len(p) - 1 - i], and an index past the end gives 0
    rather than an error.  The entries of [rank_encoding] add up to the
    number of inversions, and two permutations of the same length with the
    same encoding are equal. *)
Theorem rank_encoding_properties (p : list Z) :
  is_perm p →
  ∃ code inv, rank_encoding p = Ok code ∧ inversions p = Ok inv
    ∧ len code = len p
    ∧ sumZ code = inv
    ∧ (∀ i, 0 ≤ i < len p →
         ∃ c, code !! Z.to_nat i = Some c ∧ rank_val p i = Ok c
              ∧ 0 ≤ c ≤ len p - 1 - i)
    ∧ (∀ i, len p ≤ i → rank_val p i = Ok 0)
    ∧ (∀ q, is_perm q → len q = len p → rank_encoding q = Ok code → q = p).
Proof.
  intros Hp. exists (lehmer p), (pair_count Z.gt p).
  split; [apply rank_encoding_spec|]. split; [apply inversions_spec|].
  split; [unfold len; now rewrite lehmer_length|].
  split; [apply lehmer_sum|]. split; [|split].
  - intros i Hi. exists (rank (drop (S (Z.to_nat i)) p) (p !!! Z.to_nat i)).
    split; [apply lehmer_lookup; unfold len in Hi; lia|]. split.
    + rewrite <- (Z2Nat.id i) at 1 by lia. apply rank_val_spec.
      unfold len in Hi. lia.
    + split; [apply rank_nonneg|].
      pose proof (rank_le_len (drop (S (Z.to_nat i)) p) (p !!! Z.to_nat i)) as Hle.
      unfold len in *. rewrite length_drop in Hle. lia.
  - intros i Hi. now apply rank_val_past_end.
  - intros q Hq Hlen Hcode. rewrite rank_encoding_spec in Hcode.
    injection Hcode as Hcode. apply lehmer_inj; [now apply is_perm_NoDup| |done].
    apply is_perm_Permutation in Hp, Hq. now rewrite Hp, Hq, Hlen.
Qed.

Lemma rank_encoding_properties_witness :
  is_perm [2; 0; 3; 1]
  ∧ ∃ code inv, rank_encoding [2; 0; 3; 1] = Ok code
      ∧ inversions [2; 0; 3; 1] = Ok inv
      ∧ len code = len [2; 0; 3; 1]
      ∧ sumZ code = inv
      ∧ (∀ i, 0 ≤ i < len [2; 0; 3; 1] →
           ∃ c, code !! Z.to_nat i = Some c ∧ rank_val [2; 0; 3; 1] i = Ok c
                ∧ 0 ≤ c ≤ len [2; 0; 3; 1] - 1 - i)
      ∧ (∀ i, len [2; 0; 3; 1] ≤ i → rank_val [2; 0; 3; 1] i = Ok 0)
      ∧ (∀ q, is_perm q → len q = len [2; 0; 3; 1] →
              rank_encoding q = Ok code → q = [2; 0; 3; 1]).
Proof.
  assert (is_perm [2; 0; 3; 1]) as Hp by reflexivity.
  split; [exact Hp|]. exact (rank_encoding_properties [2; 0; 3; 1] Hp).
Defined.

(** X21: the two counts of bonds agree: on every sequence [bonds] and
    [num_bonds] return the same number, which is the sum of what
    [num_inc_bonds] and [num_dec_bonds] return, and at most the number of
    adjacent pairs. *)
Theorem bond_counts_agree (p : list Z) :
  ∃ b i d, bonds p = Ok b ∧ num_bonds p = Ok b
    ∧ num_inc_bonds p = Ok i ∧ num_dec_bonds p = Ok d
    ∧ b = i + d ∧ 0 ≤ i ∧ 0 ≤ d ∧ b ≤ Z.max (len p - 1) 0.
Proof.
  exists (adj_count bond p), (adj_count inc_bond p), (adj_count dec_bond p).
  split; [apply bonds_spec|]. split; [apply num_bonds_spec|].
  split; [apply num_inc_bonds_spec|]. split; [apply num_dec_bonds_spec|].
  split; [apply adj_count_bond|].
  split; [apply adj_count_nonneg|]. split; [apply adj_count_nonneg|].
  apply adj_count_le.
Qed.

(** X22: on a sequence of distinct integers, [standardize] (and the
    constructor on a list) returns the one permutation whose entries are
    in the same relative order as the sequence; a permutation is
    returned unchanged. *)
Theorem standardize_distinct (L : list Z) :
  NoDup L →
  ∃ q, standardize L = Ok q ∧ new (OfSeq L) None = Ok q
    ∧ is_perm q ∧ order_iso q L
    ∧ (∀ q', is_perm q' → order_iso q' L → q' = q)
    ∧ standardize q = Ok q.
Proof.
  intros Hnd. exists (rank L <$> L).
  pose proof (rank_is_perm L Hnd) as Hq.
  pose proof (standardize_NoDup L Hnd) as Hstd.
  split; [done|]. split; [simpl; now rewrite of_seq_standardize|].
  split; [done|]. split; [now apply standardize_order_iso|]. split.
  - intros q' Hq' Hiso. apply (standardize_order_iso q' L Hq' Hnd) in Hiso.
    congruence.
  - now apply standardize_is_perm.
Qed.

Lemma standardize_distinct_witness :
  NoDup [10; -3; 7]
  ∧ ∃ q, standardize [10; -3; 7] = Ok q ∧ new (OfSeq [10; -3; 7]) None = Ok q
      ∧ is_perm q ∧ order_iso q [10; -3; 7]
      ∧ (∀ q', is_perm q' → order_iso q' [10; -3; 7] → q' = q)
      ∧ standardize q = Ok q.
Proof.
  assert (NoDup [10; -3; 7]) as Hnd 
    by (apply (bool_decide_unpack (NoDup [10; -3; 7])); vm_compute; exact I).
  split; [exact Hnd|]. exact (standardize_distinct [10; -3; 7] Hnd).
Defined.

(** X23: [listall(n)] for [n >= 1] lists every permutation of length [n]
    exactly once, [n!] entries in the order of their indices: entry [k]
    is [ind2perm(k, n)] and its [perm2ind] is [k].  [listall(0)] is the
    empty list, and a negative [n] raises [ValueError]. *)
Theorem listall_enumerates (n : Z) :
  (n = 0 → listall n = Ok [])
  ∧ (n < 0 → listall n = Raise ValueError)
  ∧ (0 < n →
     ∃ L, listall n = Ok L
       ∧ len L = factorial (Z.to_nat n)
       ∧ NoDup L
       ∧ (∀ q, q ∈ L ↔ is_perm q ∧ len q = n)
       ∧ (∀ k, 0 ≤ k < factorial (Z.to_nat n) →
            ∃ q, L !! Z.to_nat k = Some q ∧ ind2perm k n = Ok q
                 ∧ perm2ind q = Ok k)).
Proof.
  split; [|split].
  - intros ->. reflexivity.
  - intros Hn. unfold listall, math_factorial.
    destruct (decide (n = 0)); [lia|]. now destruct (decide (n < 0)); [|lia].
  - intros Hn. set (m := Z.to_nat n).
    assert (n = Z.of_nat m) as Hnm by (unfold m; lia).
    exists (ind2perm_list m <$> range 0 (factorial m)).
    pose proof (factorial_positive m) as HF.
    split; [rewrite Hnm; apply listall_spec; lia|].
    split; [rewrite len_fmap, len_range; lia|]. split; [|split].
    + apply NoDup_fmap_2_strong; [|apply NoDup_seqZ].
      intros k1 k2 H1%elem_of_range H2%elem_of_range. now apply ind2perm_list_inj.
    + intros q. rewrite list_elem_of_fmap. split.
      * intros (k & -> & _). destruct (ind2perm_list_run m k) as (_ & Hp & Hlen).
        split; [done|]. unfold len. lia.
      * intros [Hq Hlen].
        destruct (perm2ind_loop_is_perm m q Hq) as (v & Hv & Hlist & _).
        { unfold len in Hlen. lia. }
        exists v. split; [done|]. now apply elem_of_range.
    + intros k Hk. exists (ind2perm_list m k). split; [|split].
      * rewrite list_lookup_fmap. unfold range.
        rewrite lookup_seqZ_lt by lia. simpl. f_equal. f_equal. lia.
      * rewrite Hnm. apply ind2perm_Ok.
      * now apply perm2ind_ind2perm_list.
Qed.

Lemma listall_enumerates_witness :
  0 < 3
  ∧ ∃ L, listall 3 = Ok L
      ∧ len L = factorial (Z.to_nat 3)
      ∧ NoDup L
      ∧ (∀ q, q ∈ L ↔ is_perm q ∧ len q = 3)
      ∧ (∀ k, 0 ≤ k < factorial (Z.to_nat 3) →
           ∃ q, L !! Z.to_nat k = Some q ∧ ind2perm k 3 = Ok q
                ∧ perm2ind q = Ok k).
Proof.
  assert (0 < 3) as H3 by lia.
  split; [exact H3|]. exact (proj2 (proj2 (listall_enumerates 3)) H3).
Defined.

(** X24: [ind2perm(k, n)] returns a permutation of length [max(n, 0)] for
    every pair of integers: the index [k] is read modulo [n!], so two
    indices give the same permutation exactly when they are congruent
    modulo [n!]. *)
Theorem ind2perm_index_modulo (k n : Z) :
  ∃ q, ind2perm k n = Ok q ∧ is_perm q ∧ len q = Z.max n 0
    ∧ ∀ k', ind2perm k' n = Ok q
            ↔ k' `mod` factorial (Z.to_nat n) = k `mod` factorial (Z.to_nat n).
Proof.
  set (m := Z.to_nat n). exists (ind2perm_list m k).
  destruct (ind2perm_list_run m k) as (_ & Hp & Hlen).
  pose proof (factorial_positive m) as HF.
  split; [apply ind2perm_total|]. split; [done|].
  split; [unfold len; rewrite Hlen; unfold m; lia|].
  intros k'. rewrite ind2perm_total. fold m. split.
  - intros [= Heq].
    rewrite <- (ind2perm_list_mod m k'), <- (ind2perm_list_mod m k) in Heq.
    apply (ind2perm_list_inj m); [apply Z.mod_pos_bound; lia..|done].
  - intros Heq. f_equal.
    rewrite <- (ind2perm_list_mod m k'), <- (ind2perm_list_mod m k).
    now rewrite Heq.
Qed.

(** X25: [fixed_points] counts the positions [i] with [p(i) = i].  The
    count is [len(p)] exactly for the identity, it is never
    [len(p) - 1], and the inverse has the same count. *)
Theorem fixed_points_properties (p : list Z) :
  is_perm p →
  ∃ k q, fixed_points p = Ok k
    ∧ k = len (filter (λ i, p !!! Z.to_nat i = i) (range 0 (len p)))
    ∧ 0 ≤ k ≤ len p ∧ k ≠ len p - 1
    ∧ (k = len p ↔ p = range 0 (len p))
    ∧ inverse p = Ok q ∧ fixed_points q = Ok k.
Proof.
  intros Hp. destruct (inverse_spec p Hp) as (q & Hinv & Hq & Hof).
  set (F := filter (λ i, p !!! Z.to_nat i = i) (range 0 (len p))).
  exists (len F), q.
  pose proof (len_range_0 (len p)) as Hr. pose proof (len_nonneg p) as Hn.
  pose proof (filter_length_neg (λ i, p !!! Z.to_nat i = i) (range 0 (len p))) as Hsum.
  fold F in Hsum.
  split; [apply fixed_points_spec|]. split; [done|]. split; [|split; [|split; [|split]]].
  - unfold len in *. lia.
  - intros Hk. apply (not_one_moved p Hp). unfold len in *. lia.
  - rewrite <- all_fixed_identity.
    rewrite <- (filter_length_all (λ i, p !!! Z.to_nat i = i) (range 0 (len p))).
    fold F. unfold len in *. lia.
  - done.
  - rewrite fixed_points_spec. f_equal. unfold F.
    destruct Hof as [Hlen Hof'].
    replace (len q) with (len p) by (unfold len; lia).
    f_equal. apply filter_ext_in. intros i Hi%elem_of_range.
    symmetry. now apply inverse_of_fixed.
Qed.

Lemma fixed_points_properties_witness :
  is_perm [0; 3; 2; 1]
  ∧ ∃ k q, fixed_points [0; 3; 2; 1] = Ok k
      ∧ k = len (filter (λ i, [0; 3; 2; 1] !!! Z.to_nat i = i)
                   (range 0 (len [0; 3; 2; 1])))
      ∧ 0 ≤ k ≤ len [0; 3; 2; 1] ∧ k ≠ len [0; 3; 2; 1] - 1
      ∧ (k = len [0; 3; 2; 1] ↔ [0; 3; 2; 1] = range 0 (len [0; 3; 2; 1]))
      ∧ inverse [0; 3; 2; 1] = Ok q ∧ fixed_points q = Ok k.
Proof.
  assert (is_perm [0; 3; 2; 1]) as Hp by reflexivity.
  split; [exact Hp|]. exact (fixed_points_properties [0; 3; 2; 1] Hp).
Defined.

(** X26: [contract_inc_bonds] and [contract_dec_bonds] terminate on every
    permutation and return a permutation without increasing (decreasing)
    bonds.  Each round of the loop removes exactly one such bond, so the
    result is shorter by the number of bonds, and a permutation without
    such bonds is returned as it is. *)
Theorem contract_monotone_bonds (p : list Z) :
  is_perm p →
  (∃ q k, contract_inc_bonds p = Ok q ∧ num_inc_bonds p = Ok k
     ∧ is_perm q ∧ num_inc_bonds q = Ok 0 ∧ len q = len p - k
     ∧ (k = 0 → q = p))
  ∧ (∃ q k, contract_dec_bonds p = Ok q ∧ num_dec_bonds p = Ok k
     ∧ is_perm q ∧ num_dec_bonds q = Ok 0 ∧ len q = len p - k
     ∧ (k = 0 → q = p)).
Proof.
  intros Hp. split.
  - destruct (contract_inc_bonds_spec p Hp) as (q & Hrun & Hq & H0 & Hlen & Hid).
    exists q, (adj_count inc_bond p). rewrite !num_inc_bonds_spec, H0. done.
  - destruct (contract_dec_bonds_spec p Hp) as (q & Hrun & Hq & H0 & Hlen & Hid).
    exists q, (adj_count dec_bond p). rewrite !num_dec_bonds_spec, H0. done.
Qed.

Lemma contract_monotone_bonds_witness :
  is_perm [2; 3; 4; 1; 0]
  ∧ (∃ q k, contract_inc_bonds [2; 3; 4; 1; 0] = Ok q
       ∧ num_inc_bonds [2; 3; 4; 1; 0] = Ok k
       ∧ is_perm q ∧ num_inc_bonds q = Ok 0 ∧ len q = len [2; 3; 4; 1; 0] - k
       ∧ (k = 0 → q = [2; 3; 4; 1; 0]))
  ∧ (∃ q k, contract_dec_bonds [2; 3; 4; 1; 0] = Ok q
       ∧ num_dec_bonds [2; 3; 4; 1; 0] = Ok k
       ∧ is_perm q ∧ num_dec_bonds q = Ok 0 ∧ len q = len [2; 3; 4; 1; 0] - k
       ∧ (k = 0 → q = [2; 3; 4; 1; 0])).
Proof.
  assert (is_perm [2; 3; 4; 1; 0]) as Hp by reflexivity.
  split; [exact Hp|]. exact (contract_monotone_bonds [2; 3; 4; 1; 0] Hp).
Defined.

(** X27: [contract_bonds] terminates on every permutation and returns a
    permutation without bonds that is not longer than the input; a
    permutation without bonds is returned as it is. *)
Theorem contract_bonds_result (p : list Z) :
  is_perm p →
  ∃ q k, contract_bonds p = Ok q ∧ num_bonds p = Ok k
    ∧ is_perm q ∧ num_bonds q = Ok 0 ∧ len q ≤ len p
    ∧ (k = 0 → q = p).
Proof.
  intros Hp.
  destruct (contract_bonds_spec p Hp) as (q & Hrun & Hq & H0 & Hlen & Hid).
  exists q, (adj_count bond p). rewrite !num_bonds_spec, H0. done.
Qed.

Lemma contract_bonds_result_witness :
  is_perm [1; 0; 3; 2]
  ∧ ∃ q k, contract_bonds [1; 0; 3; 2] = Ok q ∧ num_bonds [1; 0; 3; 2] = Ok k
      ∧ is_perm q ∧ num_bonds q = Ok 0 ∧ len q ≤ len [1; 0; 3; 2]
      ∧ (k = 0 → q = [1; 0; 3; 2]).
Proof.
  assert (is_perm [1; 0; 3; 2]) as Hp by reflexivity.
  split; [exact Hp|]. exact (contract_bonds_result [1; 0; 3; 2] Hp).
Defined.

(** X28: pattern containment is a partial order on permutations that
    respects the length.  [involves] and [avoids] return opposite
    answers; every permutation involves itself; a permutation only
    involves patterns that are not longer; involvement is transitive;
    and two permutations that involve each other are equal. *)
Theorem involves_partial_order (P q r : list Z) :
  is_perm P → is_perm q → is_perm r →
  (∃ b, involves P (OfPerm q) None 0 = Ok b
        ∧ avoids P (OfPerm q) None 0 = Ok (negb b))
  ∧ involves P (OfPerm P) None 0 = Ok true
  ∧ (involves P (OfPerm q) None 0 = Ok true → len q ≤ len P)
  ∧ (involves P (OfPerm q) None 0 = Ok true →
     involves q (OfPerm r) None 0 = Ok true →
     involves P (OfPerm r) None 0 = Ok true)
  ∧ (involves P (OfPerm q) None 0 = Ok true →
     involves q (OfPerm P) None 0 = Ok true → q = P).
Proof.
  intros HP Hq Hr.
  assert (∀ x, cache_ok x None) as Hc by (intros x; now left).
  destruct (involves_spec P q None Hq (Hc q)) as (bq & Hbq & Haq & Hiq).
  destruct (involves_spec P P None HP (Hc P)) as (bP & HbP & _ & HiP).
  destruct (involves_spec q r None Hr (Hc r)) as (br & Hbr & _ & Hir).
  destruct (involves_spec P r None Hr (Hc r)) as (bPr & HbPr & _ & HiPr).
  destruct (involves_spec q P None HP (Hc P)) as (bqP & HbqP & _ & HiqP).
  assert (bq = true → len q ≤ len P) as Hle.
  { intros (s & Hsub & [Hl _])%Hiq. apply sublist_length in Hsub.
    unfold len. lia. }
  split; [eauto|]. split; [|split; [|split]].
  - rewrite HbP. f_equal. apply HiP. exists P. split; [done|apply order_iso_refl].
  - rewrite Hbq. intros [= ->]. now apply Hle.
  - rewrite Hbq, Hbr, HbPr. intros [= ->] [= ->]. f_equal. apply HiPr.
    apply (contains_trans P q r); [now apply Hiq|].
    apply occurrence_sublist. now apply Hir.
  - rewrite Hbq, HbqP. intros [= ->] [= ->].
    destruct (proj1 Hiq eq_refl) as (s & Hsub & Hiso).
    destruct (proj1 HiqP eq_refl) as (s' & Hsub' & [Hl' _]).
    apply sublist_length in Hsub'.
    pose proof (sublist_length _ _ Hsub) as Hls. destruct Hiso as [Hl Hiso].
    assert (s = P) as -> by (apply sublist_full; [done|lia]).
    pose proof (proj2 (standardize_order_iso q P Hq (is_perm_NoDup P HP))
                  (conj Hl Hiso)) as Hstd.
    rewrite (standardize_is_perm P HP) in Hstd. congruence.
Qed.

Lemma involves_partial_order_witness :
  is_perm [2; 0; 3; 1] ∧ is_perm [1; 2; 0] ∧ is_perm [1; 0]
  ∧ (∃ b, involves [2; 0; 3; 1] (OfPerm [1; 2; 0]) None 0 = Ok b
          ∧ avoids [2; 0; 3; 1] (OfPerm [1; 2; 0]) None 0 = Ok (negb b))
  ∧ involves [2; 0; 3; 1] (OfPerm [2; 0; 3; 1]) None 0 = Ok true
  ∧ (involves [2; 0; 3; 1] (OfPerm [1; 2; 0]) None 0 = Ok true →
     len [1; 2; 0] ≤ len [2; 0; 3; 1])
  ∧ (involves [2; 0; 3; 1] (OfPerm [1; 2; 0]) None 0 = Ok true →
     involves [1; 2; 0] (OfPerm [1; 0]) None 0 = Ok true →
     involves [2; 0; 3; 1] (OfPerm [1; 0]) None 0 = Ok true)
  ∧ (involves [2; 0; 3; 1] (OfPerm [1; 2; 0]) None 0 = Ok true →
     involves [1; 2; 0] (OfPerm [2; 0; 3; 1]) None 0 = Ok true →
     [1; 2; 0] = [2; 0; 3; 1]).
Proof.
  assert (is_perm [2; 0; 3; 1]) as HP by reflexivity.
  assert (is_perm [1; 2; 0]) as Hq by reflexivity.
  assert (is_perm [1; 0]) as Hr by reflexivity.
  split; [exact HP|]. split; [exact Hq|]. split; [exact Hr|].
  exact (involves_partial_order [2; 0; 3; 1] [1; 2; 0] [1; 0] HP Hq Hr).
Defined.

(** X29: [rtlmax_ltrmin_decomposition] terminates on every permutation.
    Its layers are non-empty increasing lists of positions whose lengths
    add up to [len(p)]; the first layer holds the positions of [p] that
    are a right-to-left maximum or a left-to-right minimum; and
    [num_rtlmax_ltrmin_layers] is the number of layers, at most [len(p)]. *)
Theorem layers_of_extrema (p : list Z) :
  is_perm p →
  ∃ layers, rtlmax_ltrmin_decomposition p = Ok layers
    ∧ num_rtlmax_ltrmin_layers p = Ok (len layers)
    ∧ len layers ≤ len p
    ∧ Forall (λ L, L ≠ [] ∧ StronglySorted Z.lt L) layers
    ∧ sumZ (len <$> layers) = len p
    ∧ ∀ L rest, layers = L :: rest →
        ∀ i, i ∈ L ↔
          0 ≤ i < len p
          ∧ ((∀ j, i < j < len p → p !!! Z.to_nat j < p !!! Z.to_nat i)
             ∨ (∀ j, 0 ≤ j < i → p !!! Z.to_nat i < p !!! Z.to_nat j)).
Proof.
  intros Hp.
  destruct (rtlmax_ltrmin_decomposition_spec p Hp)
    as (layers & Hrun & Hgood & Hsum & Hfirst).
  exists layers. split; [done|].
  split; [unfold num_rtlmax_ltrmin_layers; now rewrite Hrun|].
  split; [rewrite <- Hsum; now apply layers_count|]. done.
Qed.

Lemma layers_of_extrema_witness :
  is_perm [2; 0; 3; 1; 4]
  ∧ ∃ layers, rtlmax_ltrmin_decomposition [2; 0; 3; 1; 4] = Ok layers
      ∧ num_rtlmax_ltrmin_layers [2; 0; 3; 1; 4] = Ok (len layers)
      ∧ len layers ≤ len [2; 0; 3; 1; 4]
      ∧ Forall (λ L, L ≠ [] ∧ StronglySorted Z.lt L) layers
      ∧ sumZ (len <$> layers) = len [2; 0; 3; 1; 4]
      ∧ ∀ L rest, layers = L :: rest →
          ∀ i, i ∈ L ↔
            0 ≤ i < len [2; 0; 3; 1; 4]
            ∧ ((∀ j, i < j < len [2; 0; 3; 1; 4] →
                  [2; 0; 3; 1; 4] !!! Z.to_nat j < [2; 0; 3; 1; 4] !!! Z.to_nat i)
               ∨ (∀ j, 0 ≤ j < i →
                  [2; 0; 3; 1; 4] !!! Z.to_nat i < [2; 0; 3; 1; 4] !!! Z.to_nat j)).
Proof.
  assert (is_perm [2; 0; 3; 1; 4]) as Hp by reflexivity.
  split; [exact Hp|]. exact (layers_of_extrema [2; 0; 3; 1; 4] Hp).
Defined.

(** X30: [cycle_decomp] terminates on every permutation and returns its
    cycles: every position is in exactly one of them, [p] maps every
    entry of a cycle to the next one and the last to the first, every
    cycle starts with its largest entry, and the cycles are listed by
    increasing first entry.  [num_disjoint_cycles] is their number. *)
Theorem cycle_decomp_cycles (p : list Z) :
  is_perm p →
  ∃ cycles, cycle_decomp p = Ok cycles
    ∧ num_disjoint_cycles p = Ok (len cycles)
    ∧ Forall (is_cycle p) cycles
    ∧ concat cycles ≡ₚ range 0 (len p)
    ∧ StronglySorted Z.lt (hd 0 <$> cycles).
Proof.
  intros Hp. destruct (cycle_decomp_spec p Hp) as (cycles & Hrun & Hcyc & Hperm & Hs).
  exists cycles. split; [done|].
  split; [unfold num_disjoint_cycles; now rewrite Hrun|]. done.
Qed.

Lemma cycle_decomp_cycles_witness :
  is_perm [2; 0; 3; 1; 4]
  ∧ ∃ cycles, cycle_decomp [2; 0; 3; 1; 4] = Ok cycles
      ∧ num_disjoint_cycles [2; 0; 3; 1; 4] = Ok (len cycles)
      ∧ Forall (is_cycle [2; 0; 3; 1; 4]) cycles
      ∧ concat cycles ≡ₚ range 0 (len [2; 0; 3; 1; 4])
      ∧ StronglySorted Z.lt (hd 0 <$> cycles).
Proof.
  assert (is_perm [2; 0; 3; 1; 4]) as Hp by reflexivity.
  split; [exact Hp|]. exact (cycle_decomp_cycles [2; 0; 3; 1; 4] Hp).
Defined.

End Extras.
